(** * OpenDRIVE importer (netimport/NIImporter_OpenDrive.cpp): a shallow embedding

    The development follows the importer phase by phase: identifier helpers,
    the SAX handler's speed entries, geometry concatenation, lane-section
    reshaping, node synthesis, edge emission, lane attributes and the
    flattening of connections across junctions.

    Conventions
    - [double] values are modelled as exact rationals [Q]; comparisons are the
      boolean tests of [QArith] ([Qeq_bool], [Qle_bool]) and rounding is not
      part of the model.
    - [std::string] is [string]; [operator<] on strings is [String.ltb].
    - [std::map<std::string, T>] is [gmap string T], [std::set<Connection>] is
      a [gset] of the four fields its comparison operator inspects.
    - [WRITE_WARNING] appends to an explicit log; [throw ProcessError] is the
      error branch of a sum type. *)

From Stdlib Require Import String Ascii List ZArith QArith Qabs Qround Lqa Lia Bool Sorted.
From Stdlib Require OrderedTypeEx.
From stdpp Require Import gmap strings list pretty.
Import ListNotations.

Local Open Scope string_scope.
Local Open Scope list_scope.

(** ** Identifier helpers *)

Module Ident.

(** [revertID]: [id[0] == '-' ? id.substr(1) : "-" + id].  For the empty
    string [id[0]] is the terminating NUL, hence the second branch. *)
Definition revertID (id : string) : string :=
  match id with
  | String c rest => if Ascii.eqb c "-" then rest else String "-" id
  | EmptyString => String "-" id
  end.

(** [true] when the identifier begins with two minus signs. *)
Definition doubleMinus (id : string) : bool :=
  match id with
  | String c (String d _) => Ascii.eqb c "-" && Ascii.eqb d "-"
  | _ => false
  end.

End Ident.

(** ** Doubles as rationals *)

Module Dbl.

(** Comparisons, [fabs] and [floor] of [double], and the templates [MAX2]
    and [MIN2] of utils/common/StdDefs.h ([a > b ? a : b], [a < b ? a : b]). *)
Definition eqb (a b : Q) : bool := Qeq_bool a b.
Definition ltb (a b : Q) : bool := match (a ?= b)%Q with Lt => true | _ => false end.
Definition leb (a b : Q) : bool := Qle_bool a b.
Definition fabs (a : Q) : Q := Qabs a.
Definition floor (a : Q) : Q := inject_Z (Qfloor a).
Definition MAX2 (a b : Q) : Q := if ltb b a then a else b.
Definition MIN2 (a b : Q) : Q := if ltb a b then a else b.

End Dbl.

(** ** The SAX handler: lane speed entries *)

Module Handler.

(** The element tags the handler keeps on [myElementStack]. *)
Inductive OpenDriveXMLTag : Set :=
| OPENDRIVE_TAG_NOTHING | OPENDRIVE_TAG_HEADER | OPENDRIVE_TAG_ROAD
| OPENDRIVE_TAG_PREDECESSOR | OPENDRIVE_TAG_SUCCESSOR | OPENDRIVE_TAG_GEOMETRY
| OPENDRIVE_TAG_LINE | OPENDRIVE_TAG_SPIRAL | OPENDRIVE_TAG_ARC
| OPENDRIVE_TAG_POLY3 | OPENDRIVE_TAG_PARAMPOLY3 | OPENDRIVE_TAG_LANESECTION
| OPENDRIVE_TAG_LANEOFFSET | OPENDRIVE_TAG_LEFT | OPENDRIVE_TAG_CENTER
| OPENDRIVE_TAG_RIGHT | OPENDRIVE_TAG_LANE | OPENDRIVE_TAG_SIGNAL
| OPENDRIVE_TAG_JUNCTION | OPENDRIVE_TAG_CONNECTION | OPENDRIVE_TAG_LANELINK
| OPENDRIVE_TAG_WIDTH | OPENDRIVE_TAG_SPEED | OPENDRIVE_TAG_ELEVATION
| OPENDRIVE_TAG_GEOREFERENCE | OPENDRIVE_TAG_OBJECT | OPENDRIVE_TAG_REPEAT.

(** The attributes a [speed] element is read for: [max], [sOffset] and the
    optional [unit] ([getOpt] with default [""]). *)
Record SpeedAttrs : Type := {
  attr_max : Q;
  attr_sOffset : Q;
  attr_unit : option string
}.

(** [myElementStack.size() >= 2 && myElementStack[size - 1] == OPENDRIVE_TAG_LANE];
    the stack is kept with its top last, as the vector is. *)
Definition insideLane (stack : list OpenDriveXMLTag) : bool :=
  (2 <=? length stack)%nat &&
  match List.last stack OPENDRIVE_TAG_NOTHING with
  | OPENDRIVE_TAG_LANE => true
  | _ => false
  end.

(** The conversion to m/s of the [OPENDRIVE_TAG_SPEED] case. *)
Definition convertSpeed (speed : Q) (unit : string) : Q :=
  if String.eqb unit "" then speed
  else
    let speed1 := if String.eqb unit "km/h" then (speed / 3.6)%Q else speed in
    let speed2 := if String.eqb unit "mph" then (speed1 * (1.609344 / 3.6))%Q else speed1 in
    speed2.

(** [case OPENDRIVE_TAG_SPEED] of [myStartElement], acting on the [speeds]
    vector of the lane last pushed. *)
Definition startSpeed (stack : list OpenDriveXMLTag) (attrs : SpeedAttrs)
    (speeds : list (Q * Q)) : list (Q * Q) :=
  if insideLane stack then
    let unit := default "" (attr_unit attrs) in
    speeds ++ [(attr_sOffset attrs, convertSpeed (attr_max attrs) unit)]
  else speeds.

End Handler.

(** ** Geometry: positions, segments and their concatenation *)

Module Geometry.

Record Position : Type := { px : Q; py : Q; pz : Q }.

Definition Position2 (x y : Q) : Position := {| px := x; py := y; pz := 0 |}.

(** [Position::operator!=]: exact comparison of the three coordinates. *)
Definition pos_neqb (a b : Position) : bool :=
  negb (Dbl.eqb (px a) (px b) && Dbl.eqb (py a) (py b) && Dbl.eqb (pz a) (pz b)).

Inductive GeometryType : Set :=
| OPENDRIVE_GT_UNKNOWN | OPENDRIVE_GT_LINE | OPENDRIVE_GT_SPIRAL
| OPENDRIVE_GT_ARC | OPENDRIVE_GT_POLY3 | OPENDRIVE_GT_PARAMPOLY3.

Definition isLine (t : GeometryType) : bool :=
  match t with OPENDRIVE_GT_LINE => true | _ => false end.

Record OpenDriveGeometry : Type := {
  g_length : Q;
  g_s : Q;
  g_x : Q;
  g_y : Q;
  g_hdg : Q;
  g_type : GeometryType;
  g_params : list Q
}.

(** The messages of [WRITE_WARNING], kept structured. *)
Inductive Warning : Type :=
| SpiralNotComputed (edge : string) (cDot len : Q)
| MismatchedGeometry (edge : string) (before after : Z).

Section Shapes.

(** Collaborators of [computeShapes] that live in utils/geom or need
    trigonometry: [Position::almostSame],
    [PositionVector::push_back_noDoublePos], the discretisation of the
    non-spiral segment kinds, and the sampled clothoid of a spiral whose
    curvature rate is not zero (the [odrSpiral] kernel, the rotation,
    [getSubpart2D], and the warning written when the kernel throws). *)
Variable almostSame : Position -> Position -> bool.
Variable push_back_noDoublePos : list Position -> Position -> list Position.
Variable geomFromLine geomFromArc geomFromPoly geomFromParamPoly :
  OpenDriveGeometry -> Q -> list Position.
Variable spiralCurve : OpenDriveGeometry -> Q -> list Warning * list Position.

(** [geomFromSpiral].  With [g.length == 0] the quotient is not finite in
    C++ and zero here; both take the first branch through the second
    disjunct. *)
Definition geomFromSpiral (edge : string) (g : OpenDriveGeometry) (resolution : Q)
    : list Warning * list Position :=
  let curveStart := nth 0 (g_params g) 0%Q in
  let curveEnd := nth 1 (g_params g) 0%Q in
  let cDot := ((curveEnd - curveStart) / g_length g)%Q in
  if Dbl.eqb cDot 0 || Dbl.eqb (g_length g) 0 then
    ([SpiralNotComputed edge cDot (g_length g)], [Position2 (g_x g) (g_y g)])
  else spiralCurve g resolution.

(** The state of the loop over [e.geometries]: the polyline so far, the kind
    of the previous segment, the last point seen, the index and the log. *)
Record ShapeState : Type := {
  st_geom : list Position;
  st_prevType : GeometryType;
  st_last : Position;
  st_index : Z;
  st_log : list Warning
}.

Definition initShape : ShapeState :=
  {| st_geom := []; st_prevType := OPENDRIVE_GT_UNKNOWN;
     st_last := Position2 0 0; st_index := 0; st_log := [] |}.

(** The [switch (g.type)] of [computeShapes]. *)
Definition discretise (edge : string) (lineRes res : Q) (g : OpenDriveGeometry)
    : list Warning * list Position :=
  match g_type g with
  | OPENDRIVE_GT_UNKNOWN => ([], [])
  | OPENDRIVE_GT_LINE => ([], geomFromLine g lineRes)
  | OPENDRIVE_GT_SPIRAL => geomFromSpiral edge g res
  | OPENDRIVE_GT_ARC => ([], geomFromArc g res)
  | OPENDRIVE_GT_POLY3 => ([], geomFromPoly g res)
  | OPENDRIVE_GT_PARAMPOLY3 => ([], geomFromParamPoly g res)
  end.

(** The junction between the polyline and the next segment ([geom] is the
    segment's discretisation): the block guarded by
    [e.geom.size() > 0 && prevType == OPENDRIVE_GT_LINE].  [None] stands for
    [geom.front()] taken on an empty vector, which C++ leaves undefined. *)
Definition joinPrevious (edge : string) (st : ShapeState) (geom : list Position)
    : option (list Warning * list Position) :=
  if negb (Nat.eqb (length (st_geom st)) 0) && isLine (st_prevType st) then
    match List.last (map Some (st_geom st)) None, geom with
    | Some b, f :: _ =>
        Some (if almostSame b f then []
              else [MismatchedGeometry edge (st_index st - 1) (st_index st)],
              removelast (st_geom st))
    | _, _ => None
    end
  else Some ([], st_geom st).

(** One iteration of the loop over the segments. *)
Definition shapeStep (edge : string) (lineRes res : Q) (st : ShapeState)
    (g : OpenDriveGeometry) : option ShapeState :=
  let '(w1, geom) := discretise edge lineRes res g in
  match joinPrevious edge st geom with
  | None => None
  | Some (w2, kept) =>
      Some {| st_geom := fold_left push_back_noDoublePos geom kept;
              st_prevType := g_type g;
              st_last := List.last geom (st_last st);
              st_index := st_index st + 1;
              st_log := st_log st ++ w1 ++ w2 |}
  end.

Fixpoint shapeLoop (edge : string) (lineRes res : Q) (st : ShapeState)
    (gs : list OpenDriveGeometry) : option ShapeState :=
  match gs with
  | [] => Some st
  | g :: gs' =>
      match shapeStep edge lineRes res st g with
      | None => None
      | Some st' => shapeLoop edge lineRes res st' gs'
      end
  end.

(** The concatenation part of [computeShapes] for one road, up to the repair
    of a one-point polyline; [lineRes] is [res] or -1, as
    [hasNonLinearElevation] decides.  Projection, elevation and lane offsets
    follow in the source and are not modelled. *)
Definition computeShape (edge : string) (lineRes res : Q)
    (gs : list OpenDriveGeometry) : option (list Warning * list Position) :=
  match shapeLoop edge lineRes res initShape gs with
  | None => None
  | Some st =>
      let geom := st_geom st in
      let geom' :=
        match geom with
        | [p] => if pos_neqb p (st_last st) then geom ++ [st_last st] else geom
        | _ => geom
        end in
      Some (st_log st, geom')
  end.

End Shapes.

(** [loadNetwork] skips a road when [e->geom.size() < 2]. *)
Definition hasGeometry (geom : list Position) : bool :=
  negb (length geom <? 2)%nat.

End Geometry.

(** ** Lanes, lane sections and the type catalogue *)

Module Lanes.

Record OpenDriveLane : Type := {
  lane_id : Z;
  lane_level : string;
  lane_type : string;
  lane_successor : Z;
  lane_predecessor : Z;
  lane_speeds : list (Q * Q);
  lane_speed : Q;
  lane_width : Q
}.

Definition set_speed (v : Q) (l : OpenDriveLane) : OpenDriveLane :=
  {| lane_id := lane_id l; lane_level := lane_level l; lane_type := lane_type l;
     lane_successor := lane_successor l; lane_predecessor := lane_predecessor l;
     lane_speeds := lane_speeds l; lane_speed := v; lane_width := lane_width l |}.

(** [lanesByDir] always holds the three keys the constructor creates, in the
    order of the tag enumeration: left, center, right. *)
Record OpenDriveLaneSection : Type := {
  ls_s : Q;
  ls_sOrig : Q;
  ls_left : list OpenDriveLane;
  ls_center : list OpenDriveLane;
  ls_right : list OpenDriveLane;
  ls_laneMap : gmap Z Z;
  ls_rightLaneNumber : Z;
  ls_leftLaneNumber : Z;
  ls_rightType : string;
  ls_leftType : string;
  ls_sumoID : string
}.

Definition with_lanes (left center right : list OpenDriveLane)
    (sec : OpenDriveLaneSection) : OpenDriveLaneSection :=
  {| ls_s := ls_s sec; ls_sOrig := ls_sOrig sec;
     ls_left := left; ls_center := center; ls_right := right;
     ls_laneMap := ls_laneMap sec;
     ls_rightLaneNumber := ls_rightLaneNumber sec;
     ls_leftLaneNumber := ls_leftLaneNumber sec;
     ls_rightType := ls_rightType sec; ls_leftType := ls_leftType sec;
     ls_sumoID := ls_sumoID sec |}.

Definition with_s (s : Q) (sec : OpenDriveLaneSection) : OpenDriveLaneSection :=
  {| ls_s := s; ls_sOrig := ls_sOrig sec;
     ls_left := ls_left sec; ls_center := ls_center sec; ls_right := ls_right sec;
     ls_laneMap := ls_laneMap sec;
     ls_rightLaneNumber := ls_rightLaneNumber sec;
     ls_leftLaneNumber := ls_leftLaneNumber sec;
     ls_rightType := ls_rightType sec; ls_leftType := ls_leftType sec;
     ls_sumoID := ls_sumoID sec |}.

Definition with_sumoID (id : string) (sec : OpenDriveLaneSection) : OpenDriveLaneSection :=
  {| ls_s := ls_s sec; ls_sOrig := ls_sOrig sec;
     ls_left := ls_left sec; ls_center := ls_center sec; ls_right := ls_right sec;
     ls_laneMap := ls_laneMap sec;
     ls_rightLaneNumber := ls_rightLaneNumber sec;
     ls_leftLaneNumber := ls_leftLaneNumber sec;
     ls_rightType := ls_rightType sec; ls_leftType := ls_leftType sec;
     ls_sumoID := id |}.

(** The read-only type catalogue ([NBTypeCont]), by the queries the importer
    makes. *)
Record NBTypeCont : Type := {
  getSpeed : string -> Q;
  getWidth : string -> Q;
  getPermissions : string -> Z;
  getWidthResolution : string -> Q;
  getMaxWidth : string -> Q;
  knows : string -> bool;
  getShallBeDiscarded : string -> bool
}.

(** *** Pass A: splitting a section at speed changes *)

(** [std::set<double>::insert]: the set is kept as its sorted sequence. *)
Fixpoint dset_insert (x : Q) (l : list Q) : list Q :=
  match l with
  | [] => [x]
  | y :: l' =>
      match (x ?= y)%Q with
      | Lt => x :: l
      | Eq => l
      | Gt => y :: dset_insert x l'
      end
  end.

(** The first loops of [buildSpeedChanges], for one lane: every position is
    collected and an entry at position 0 sets the lane's speed. *)
Definition collectLane (acc : list Q * list OpenDriveLane) (k : OpenDriveLane)
    : list Q * list OpenDriveLane :=
  let '(positions, done) := acc in
  let '(positions', k') :=
    fold_left (fun (st : list Q * OpenDriveLane) (l : Q * Q) =>
                 let '(ps, lane) := st in
                 (dset_insert (fst l) ps,
                  if Dbl.eqb (fst l) 0 then set_speed (snd l) lane else lane))
              (lane_speeds k) (positions, k) in
  (positions', done ++ [k']).

Definition collectLanes (positions : list Q) (lanes : list OpenDriveLane)
    : list Q * list OpenDriveLane :=
  fold_left collectLane lanes (positions, []).

(** Modelled from the spec: [same_position_finder(pos)], the predicate given
    to [std::find_if], is declared in the header; the spec speaks of the
    entry matching the split position, that is [ps.first == pos]. *)
Definition same_position_finder (pos : Q) (ps : Q * Q) : bool :=
  Dbl.eqb (fst ps) pos.

(** The per-lane body of [buildLaneSection]. *)
Definition laneAt (startPos : Q) (l : OpenDriveLane) : OpenDriveLane :=
  match List.find (same_position_finder startPos) (lane_speeds l) with
  | Some i => set_speed (snd i) l
  | None => set_speed 0 l
  end.

(** [buildLaneSection]: the copy starts at [s + startPos]; right and left
    lanes take the speed of their entry at [startPos], or 0. *)
Definition buildLaneSection (sec : OpenDriveLaneSection) (startPos : Q)
    : OpenDriveLaneSection :=
  with_s (ls_s sec + startPos)%Q
    (with_lanes (map (laneAt startPos) (ls_left sec)) (ls_center sec)
                (map (laneAt startPos) (ls_right sec)) sec).

(** The propagation loop for lane [j] of one direction.  In the first
    section the source evaluates [tc.getSpeed(l.type)] and drops the value,
    so the lane is left as it is. *)
Definition propagateLane (tc : NBTypeCont) (prev : option (list OpenDriveLane))
    (j : nat) (l : OpenDriveLane) : OpenDriveLane :=
  if negb (Dbl.eqb (lane_speed l) 0) then l
  else
    match prev with
    | Some lanes =>
        match lanes !! j with
        | Some p => set_speed (lane_speed p) l
        | None => l
        end
    | None => let _ := getSpeed tc (lane_type l) in l
    end.

Definition propagateSection (tc : NBTypeCont) (prev : option OpenDriveLaneSection)
    (sec : OpenDriveLaneSection) : OpenDriveLaneSection :=
  with_lanes (imap (propagateLane tc (ls_left <$> prev)) (ls_left sec))
             (imap (propagateLane tc (ls_center <$> prev)) (ls_center sec))
             (imap (propagateLane tc (ls_right <$> prev)) (ls_right sec)) sec.

(** Sections are propagated in order, each from its already propagated
    predecessor. *)
Fixpoint propagate (tc : NBTypeCont) (prev : option OpenDriveLaneSection)
    (secs : list OpenDriveLaneSection) : list OpenDriveLaneSection :=
  match secs with
  | [] => []
  | sec :: rest =>
      let sec' := propagateSection tc prev sec in
      sec' :: propagate tc (Some sec') rest
  end.

(** [buildSpeedChanges]: the flag returned and the contents of
    [newSections]. *)
Definition buildSpeedChanges (tc : NBTypeCont) (sec : OpenDriveLaneSection)
    : bool * list OpenDriveLaneSection :=
  let '(pos1, right') := collectLanes [] (ls_right sec) in
  let '(pos2, left') := collectLanes pos1 (ls_left sec) in
  let this := with_lanes left' (ls_center sec) right' sec in
  match pos2 with
  | [] => (false, [])
  | first :: _ =>
      let positions := if Dbl.ltb 0 first then dset_insert 0 pos2 else pos2 in
      let built :=
        match positions with
        | [] => []
        | _ :: later => this :: map (buildLaneSection this) later
        end in
      (true, propagate tc None built)
  end.

(** *** Ordering and near-duplicates of sections *)

Section Revisit.

(** [POSITION_EPS], a constant of utils/common/StdDefs.h. *)
Variable POSITION_EPS : Q.

Inductive ReshapeWarning : Type :=
| NotSorted (edge : string)
| AlmostDuplicate (edge : string) (s : Q).

(** The scan that decides [sorted]: it stops at the first [s <= lastS]. *)
Fixpoint sortedFrom (lastS : Q) (secs : list OpenDriveLaneSection) : bool :=
  match secs with
  | [] => true
  | sec :: rest =>
      if Dbl.leb (ls_s sec) lastS then false else sortedFrom (ls_s sec) rest
  end.

(** Modelled from the spec: [sections_by_s_sorter] is declared in the
    header; the spec has the sections sorted by [s], that is by
    [ls1.s < ls2.s].  [std::sort] is modelled by an insertion sort; the order
    it leaves among sections of equal [s] is not fixed by C++. *)
Fixpoint insert_by_s (x : OpenDriveLaneSection) (l : list OpenDriveLaneSection)
    : list OpenDriveLaneSection :=
  match l with
  | [] => [x]
  | y :: l' => if Dbl.ltb (ls_s y) (ls_s x) then y :: insert_by_s x l' else x :: l
  end.

Definition sort_by_s (l : list OpenDriveLaneSection) : list OpenDriveLaneSection :=
  fold_right insert_by_s [] l.

(** The erase loop: [lastS] follows every section visited, erased or not. *)
Fixpoint dropSimilar (edge : string) (isInner : bool) (lastS : Q)
    (secs : list OpenDriveLaneSection)
    : list ReshapeWarning * list OpenDriveLaneSection :=
  match secs with
  | [] => ([], [])
  | sec :: rest =>
      let simlarToLast := Dbl.ltb (Dbl.fabs (ls_s sec - lastS)%Q) POSITION_EPS in
      let '(w, kept) := dropSimilar edge isInner (ls_s sec) rest in
      if simlarToLast && negb isInner
      then (AlmostDuplicate edge (ls_s sec) :: w, kept)
      else (w, sec :: kept)
  end.

(** [revisitLaneSections] for one road: the log and the new [laneSections]. *)
Definition revisitLaneSections (tc : NBTypeCont) (edge : string) (isInner : bool)
    (laneSections : list OpenDriveLaneSection)
    : list ReshapeWarning * list OpenDriveLaneSection :=
  let newSections :=
    flat_map (fun j => let '(splitBySpeed, splitSections) := buildSpeedChanges tc j in
                       if splitBySpeed then splitSections else [j]) laneSections in
  let sorted := sortedFrom (-1)%Q newSections in
  let '(w1, ordered) :=
    if sorted then ([], newSections) else ([NotSorted edge], sort_by_s newSections) in
  let '(w2, kept) := dropSimilar edge isInner (-1)%Q ordered in
  (w1 ++ w2, kept).

End Revisit.

End Lanes.

(** ** Errors *)

Module Err.

(** The [ProcessError]s the importer throws, by their message. *)
Inductive ProcessError : Type :=
| CouldNotBuildNode (id : string)
| CouldNotAddNode (id : string)
| CouldNotAddEdge (id : string)
| CouldNotFindNode (id : string)
| TwoEndNodes (edge old new : string)
| TwoStartNodes (edge old new : string)
| IndexOutOfRange.

Inductive Result (A : Type) : Type :=
| Ok (a : A)
| Throw (e : ProcessError).
Arguments Ok {A} a.
Arguments Throw {A} e.

Definition bind {A B : Type} (r : Result A) (k : A -> Result B) : Result B :=
  match r with
  | Ok a => k a
  | Throw e => Throw e
  end.

(** A loop whose body may throw. *)
Fixpoint foldM {A S : Type} (f : S -> A -> Result S) (st : S) (l : list A) : Result S :=
  match l with
  | [] => Ok st
  | a :: l' => bind (f st a) (fun st' => foldM f st' l')
  end.

End Err.

Global Instance result_bind : MBind Err.Result := fun A B k r => Err.bind r k.

(** ** Lane attributes of an emitted edge *)

Module Attributes.
Import Lanes.

(** The fields of [NBEdge::Lane] that [setLaneAttributes] writes; the
    original-id parameter is kept as the pair it is printed from. *)
Record SumoLane : Type := {
  sl_speed : Q;
  sl_permissions : Z;
  sl_width : Q;
  sl_origID : option (string * Z)
}.

Section SetLaneAttributes.

(** Constants of other headers: the vehicle-class bits
    of SUMOVehicleClass.h, [NBEdge::UNSPECIFIED_WIDTH] and [POSITION_EPS]. *)
Variables SVC_PASSENGER SVC_EMERGENCY SVC_AUTHORITY : Z.
Variable UNSPECIFIED_WIDTH : Q.
Variable POSITION_EPS : Q.

(** The importer's static options. *)
Variable myImportWidths : bool.
Variable myMinWidth : Q.

(** The width taken before any rounding. *)
Definition importedWidth (odLane : OpenDriveLane) (tc : NBTypeCont) : Q :=
  if myImportWidths && negb (Dbl.eqb (lane_width odLane) UNSPECIFIED_WIDTH)
  then lane_width odLane else getWidth tc (lane_type odLane).

(** [forbiddenNarrow], computed from the width before rounding. *)
Definition forbiddenNarrow (odLane : OpenDriveLane) (tc : NBTypeCont) : bool :=
  Dbl.ltb (importedWidth odLane tc) myMinWidth
  && negb (Z.eqb (Z.land (getPermissions tc (lane_type odLane)) SVC_PASSENGER) 0)
  && Dbl.ltb (importedWidth odLane tc) (getWidth tc (lane_type odLane)).

(** [floor(width / widthResolution + 0.5) * widthResolution]. *)
Definition roundWidth (width widthResolution : Q) : Q :=
  (Dbl.floor (width / widthResolution + 0.5) * widthResolution)%Q.

(** The block guarded by [sumoLane.width >= 0 && widthResolution > 0]. *)
Definition quantiseWidth (narrow : bool) (width widthResolution : Q) : Q :=
  if Dbl.leb 0 width && Dbl.ltb 0 widthResolution then
    let w1 := roundWidth width widthResolution in
    if narrow && Dbl.leb myMinWidth w1 then
      let w2 := (w1 - widthResolution)%Q in
      if Dbl.leb w2 0 then Dbl.MAX2 POSITION_EPS (myMinWidth - POSITION_EPS)%Q else w2
    else if Dbl.eqb w1 0 then widthResolution
    else w1
  else width.

Definition setLaneAttributes (edgeID : string) (sumoLane : SumoLane)
    (odLane : OpenDriveLane) (saveOrigIDs : bool) (tc : NBTypeCont) : SumoLane :=
  let origID := if saveOrigIDs then Some (edgeID, lane_id odLane) else sl_origID sumoLane in
  let speed := if negb (Dbl.eqb (lane_speed odLane) 0) then lane_speed odLane
               else getSpeed tc (lane_type odLane) in
  let permissions := getPermissions tc (lane_type odLane) in
  let width := importedWidth odLane tc in
  let widthResolution := getWidthResolution tc (lane_type odLane) in
  let maxWidth := getMaxWidth tc (lane_type odLane) in
  let narrow := forbiddenNarrow odLane tc in
  let width1 := quantiseWidth narrow width widthResolution in
  let width2 := if Dbl.ltb 0 maxWidth then Dbl.MIN2 width1 maxWidth else width1 in
  let permissions' := if narrow then Z.lor SVC_EMERGENCY SVC_AUTHORITY else permissions in
  {| sl_speed := speed; sl_permissions := permissions'; sl_width := width2;
     sl_origID := origID |}.

End SetLaneAttributes.

End Attributes.

(** ** Roads, links and node synthesis *)

Module Topology.
Import Err Lanes Geometry.

Inductive LinkType : Set := OPENDRIVE_LT_SUCCESSOR | OPENDRIVE_LT_PREDECESSOR.
Inductive ElementType : Set :=
  OPENDRIVE_ET_UNKNOWN | OPENDRIVE_ET_ROAD | OPENDRIVE_ET_JUNCTION.
Inductive ContactPoint : Set :=
  OPENDRIVE_CP_UNKNOWN | OPENDRIVE_CP_START | OPENDRIVE_CP_END.

Record OpenDriveLink : Type := {
  lk_linkType : LinkType;
  lk_elementID : string;
  lk_elementType : ElementType;
  lk_contactPoint : ContactPoint
}.

(** [Connection]; its [operator<] looks at the first four fields below. *)
Record Connection : Type := {
  c_fromEdge : string;
  c_toEdge : string;
  c_fromLane : Z;
  c_toLane : Z;
  c_fromCP : ContactPoint;
  c_toCP : ContactPoint;
  c_all : bool;
  c_origID : string;
  c_origLane : Z;
  c_shape : list Position
}.

(** A road.  [ed_from] and [ed_to] hold the identifier of the node the
    pointer refers to, [None] for [nullptr]; [ed_connections] is the
    iteration sequence of the [std::set]. *)
Record OpenDriveEdge : Type := {
  ed_id : string;
  ed_streetName : string;
  ed_junction : string;
  ed_length : Q;
  ed_isInner : bool;
  ed_links : list OpenDriveLink;
  ed_geom : list Position;
  ed_laneSections : list OpenDriveLaneSection;
  ed_from : option string;
  ed_to : option string;
  ed_connections : list Connection
}.

Definition set_from (n : string) (e : OpenDriveEdge) : OpenDriveEdge :=
  {| ed_id := ed_id e; ed_streetName := ed_streetName e; ed_junction := ed_junction e;
     ed_length := ed_length e; ed_isInner := ed_isInner e; ed_links := ed_links e;
     ed_geom := ed_geom e; ed_laneSections := ed_laneSections e;
     ed_from := Some n; ed_to := ed_to e; ed_connections := ed_connections e |}.

Definition set_to (n : string) (e : OpenDriveEdge) : OpenDriveEdge :=
  {| ed_id := ed_id e; ed_streetName := ed_streetName e; ed_junction := ed_junction e;
     ed_length := ed_length e; ed_isInner := ed_isInner e; ed_links := ed_links e;
     ed_geom := ed_geom e; ed_laneSections := ed_laneSections e;
     ed_from := ed_from e; ed_to := Some n; ed_connections := ed_connections e |}.

Definition set_laneSections (secs : list OpenDriveLaneSection) (e : OpenDriveEdge)
    : OpenDriveEdge :=
  {| ed_id := ed_id e; ed_streetName := ed_streetName e; ed_junction := ed_junction e;
     ed_length := ed_length e; ed_isInner := ed_isInner e; ed_links := ed_links e;
     ed_geom := ed_geom e; ed_laneSections := secs;
     ed_from := ed_from e; ed_to := ed_to e; ed_connections := ed_connections e |}.

(** Modelled from the spec: the node container ([NBNodeCont]) is an external
    collaborator whose insertion reports success or failure; a node is
    created once, so [insert] refuses a known identifier. *)
Definition nc_insert (id : string) (pos : Position) (nc : gmap string Position)
    : option (gmap string Position) :=
  match nc !! id with
  | Some _ => None
  | None => Some (<[id := pos]> nc)
  end.

(** [setNodeSecure]. *)
Definition setNodeSecure (nc : gmap string Position) (e : OpenDriveEdge)
    (nodeID : string) (lt : LinkType) : Result OpenDriveEdge :=
  match nc !! nodeID with
  | None => Throw (CouldNotFindNode nodeID)
  | Some _ =>
      match lt with
      | OPENDRIVE_LT_SUCCESSOR =>
          match ed_to e with
          | Some old => if String.eqb old nodeID then Ok (set_to nodeID e)
                        else Throw (TwoEndNodes (ed_id e) old nodeID)
          | None => Ok (set_to nodeID e)
          end
      | OPENDRIVE_LT_PREDECESSOR =>
          match ed_from e with
          | Some old => if String.eqb old nodeID then Ok (set_from nodeID e)
                        else Throw (TwoStartNodes (ed_id e) old nodeID)
          | None => Ok (set_from nodeID e)
          end
      end
  end.

(** [e->geom[-1]] and [e->geom[0]]: indexing an empty vector throws. *)
Definition endPosition (lt : LinkType) (geom : list Position) : Result Position :=
  match (match lt with
         | OPENDRIVE_LT_SUCCESSOR => List.last (map Some geom) None
         | OPENDRIVE_LT_PREDECESSOR => head geom
         end) with
  | Some p => Ok p
  | None => Throw IndexOutOfRange
  end.

(** The identifier given to the node between two outer roads: [id1] and
    [id2] are swapped when [id1 < id2]. *)
Definition outerNodeID (edgeID elementID : string) : string :=
  let '(id1, id2) := if String.ltb edgeID elementID then (elementID, edgeID)
                     else (edgeID, elementID) in
  (id1 ++ "." ++ id2)%string.

(** "build nodes#2", for one link of one outer road. *)
Definition linkOuterNode (edge2junction : gmap string string)
    (st : gmap string Position * OpenDriveEdge) (l : OpenDriveLink)
    : Result (gmap string Position * OpenDriveEdge) :=
  let '(nc, e) := st in
  match lk_elementType l, edge2junction !! lk_elementID l with
  | OPENDRIVE_ET_ROAD, None =>
      let nid := outerNodeID (ed_id e) (lk_elementID l) in
      nc' ← (match nc !! nid with
             | Some _ => Ok nc
             | None =>
                 pos ← endPosition (lk_linkType l) (ed_geom e);
                 match nc_insert nid pos nc with
                 | Some nc' => Ok nc'
                 | None => Throw (CouldNotBuildNode nid)
                 end
             end);
      e' ← setNodeSecure nc' e nid (lk_linkType l);
      Ok (nc', e')
  | _, _ => Ok st
  end.

(** "build nodes#2", for one outer road and for all of them in turn. *)
Definition linkOuterNodes (edge2junction : gmap string string)
    (nc : gmap string Position) (e : OpenDriveEdge)
    : Result (gmap string Position * OpenDriveEdge) :=
  foldM (linkOuterNode edge2junction) (nc, e) (ed_links e).

Definition buildNodes2 (edge2junction : gmap string string)
    (nc : gmap string Position) (outerEdges : list OpenDriveEdge)
    : Result (gmap string Position * list OpenDriveEdge) :=
  foldM (fun (st : gmap string Position * list OpenDriveEdge) e =>
           let '(nc, done) := st in
           '(nc', e') ← linkOuterNodes edge2junction nc e;
           Ok (nc', done ++ [e']))
        (nc, []) outerEdges.

(** The endpoint a link of the given direction binds. *)
Definition endpoint (lt : LinkType) (e : OpenDriveEdge) : option string :=
  match lt with
  | OPENDRIVE_LT_SUCCESSOR => ed_to e
  | OPENDRIVE_LT_PREDECESSOR => ed_from e
  end.

End Topology.

(** ** Edge emission along the lane sections *)

Module Emitter.
Import Err Lanes Geometry Topology.

(** What identifies an emitted [NBEdge]: its identifier, end nodes, type and
    number of lanes. *)
Record NBEdge : Type := {
  nb_id : string;
  nb_from : option string;
  nb_to : option string;
  nb_type : string;
  nb_lanes : Z
}.

Inductive EmitWarning : Type :=
| IgnoringRoadWithoutGeometry (edge : string)
| SplitSameJunctions (edge : string).

Section Emit.

(** Collaborators: [toString] on doubles (utils/common),
    [PositionVector::positionAtOffset] (utils/geom), and the option
    [opendrive.min-width] with the pass [splitMinWidths] it enables, which
    is not unfolded here. *)
Variable toString : Q -> string.
Variable positionAtOffset : list Position -> Q -> Position.
Variable myMinWidth : Q.
Variable splitMinWidths : OpenDriveEdge -> OpenDriveEdge.

(** Modelled from the spec: the edge container ([NBEdgeCont]) is an external
    collaborator whose insertion reports success or failure; inserting an
    edge under a known identifier fails. *)
Definition ec_insert (edge : NBEdge) (ec : list NBEdge) : Result (list NBEdge) :=
  if existsb (fun x => String.eqb (nb_id x) (nb_id edge)) ec
  then Throw (CouldNotAddEdge (nb_id edge))
  else Ok (ec ++ [edge]).

Definition node_eqb (a b : option string) : bool :=
  match a, b with
  | Some x, Some y => String.eqb x y
  | None, None => true
  | _, _ => false
  end.

(** The state carried along the lane sections: both containers, the node
    the next section starts from, and the sections already given their
    [sumoID]. *)
Record EmitState : Type := {
  em_nodes : gmap string Position;
  em_edges : list NBEdge;
  em_sFrom : option string;
  em_done : list OpenDriveLaneSection
}.

(** The identifier of the edges of one section. *)
Definition sectionID (e : OpenDriveEdge) (sFrom sTo : option string)
    (sec : OpenDriveLaneSection) : string :=
  if negb (node_eqb sFrom (ed_from e)) || negb (node_eqb sTo (ed_to e))
  then (ed_id e ++ "." ++ toString (ls_s sec))%string
  else if Nat.eqb (length (ed_laneSections e)) 1 then (ed_id e ++ ".0.00")%string
  else ed_id e.

(** The identifier with the start arclength of the section appended, and the
    identifiers of the (at most two) edges of a section named [id]. *)
Definition suffixed (e : OpenDriveEdge) (sec : OpenDriveLaneSection) : string :=
  (ed_id e ++ "." ++ toString (ls_s sec))%string.

Definition edgeIDs (id : string) (sec : OpenDriveLaneSection) : list string :=
  (if (0 <? ls_rightLaneNumber sec)%Z then [("-" ++ id)%string] else [])
  ++ (if (0 <? ls_leftLaneNumber sec)%Z then [id] else []).

(** The body of the loop "build along lane sections"; [next] is the section
    after [sec], if any.  Lane attributes and the wiring of continuations
    between consecutive edges do not bear on identifiers or end nodes and
    are left out. *)
Definition emitSection (e : OpenDriveEdge) (st : EmitState)
    (sec : OpenDriveLaneSection) (next : option OpenDriveLaneSection)
    : Result EmitState :=
  '(nodes1, sTo) ←
    match next with
    | None => Ok (em_nodes st, ed_to e)
    | Some nx =>
        let nid := (ed_id e ++ "." ++ toString (ls_s nx))%string in
        match nc_insert nid (positionAtOffset (ed_geom e) (ls_s nx)) (em_nodes st) with
        | Some nc' => Ok (nc', Some nid)
        | None => Throw (CouldNotAddNode nid)
        end
    end;
  let id := sectionID e (em_sFrom st) sTo sec in
  edges1 ←
    (if (0 <? ls_rightLaneNumber sec)%Z then
       ec_insert {| nb_id := ("-" ++ id)%string; nb_from := em_sFrom st; nb_to := sTo;
                    nb_type := ls_rightType sec; nb_lanes := ls_rightLaneNumber sec |}
                 (em_edges st)
     else Ok (em_edges st));
  edges2 ←
    (if (0 <? ls_leftLaneNumber sec)%Z then
       ec_insert {| nb_id := id; nb_from := sTo; nb_to := em_sFrom st;
                    nb_type := ls_leftType sec; nb_lanes := ls_leftLaneNumber sec |}
                 edges1
     else Ok edges1);
  Ok {| em_nodes := nodes1; em_edges := edges2; em_sFrom := sTo;
        em_done := em_done st ++ [with_sumoID id sec] |}.

Fixpoint emitSections (e : OpenDriveEdge) (st : EmitState)
    (secs : list OpenDriveLaneSection) : Result EmitState :=
  match secs with
  | [] => Ok st
  | sec :: rest =>
      st' ← emitSection e st sec (head rest);
      emitSections e st' rest
  end.

(** "starting at the same node as ending, and no lane sections?" *)
Definition splitLoop (e : OpenDriveEdge) : list EmitWarning * OpenDriveEdge :=
  match ed_laneSections e with
  | [ls] =>
      if node_eqb (ed_from e) (ed_to e)
      then ([SplitSameJunctions (ed_id e)],
            set_laneSections [ls; with_s (ed_length e / 2)%Q ls] e)
      else ([], e)
  | _ => ([], e)
  end.

(** The edge-building step of [loadNetwork] for one outer road. *)
Definition buildEdges (nodes : gmap string Position) (ec : list NBEdge)
    (e : OpenDriveEdge) : Result (list EmitWarning * EmitState) :=
  if (length (ed_geom e) <? 2)%nat then
    Ok ([IgnoringRoadWithoutGeometry (ed_id e)],
        {| em_nodes := nodes; em_edges := ec; em_sFrom := ed_from e;
           em_done := ed_laneSections e |})
  else
    let '(w, e1) := splitLoop e in
    let e2 := if Dbl.ltb 0 myMinWidth then splitMinWidths e1 else e1 in
    st ← emitSections e2 {| em_nodes := nodes; em_edges := ec;
                            em_sFrom := ed_from e2; em_done := [] |}
                      (ed_laneSections e2);
    Ok (w, st).

End Emit.

End Emitter.

(** ** Flattening connections across junctions *)

Module Flattener.
Import Lanes Geometry Topology.

(** The fields [operator<] on [Connection] compares; two connections that
    agree on them are one element of a [std::set<Connection>]. *)
Definition key (c : Connection) : string * string * Z * Z :=
  (c_fromEdge c, c_toEdge c, c_fromLane c, c_toLane c).

Inductive FlattenWarning : Type :=
| CircularConnections (fromEdge toEdge : string) (loopSize : nat)
| NoInternalShape (fromEdge toEdge : string).

(** One pass over the lanes of a direction in [laneSectionsConnected]. *)
Definition followLanes (lanes : list OpenDriveLane) (inLane : Z) : Z :=
  fold_left (fun cur lane => if Z.eqb (lane_id lane) cur then lane_successor lane else cur)
            lanes inLane.

Definition laneSectionsConnected (edge : OpenDriveEdge) (inLane outLane : Z) : bool :=
  match ed_laneSections edge with
  | [_] => Z.eqb inLane outLane
  | secs =>
      Z.eqb (fold_left (fun cur sec => followLanes (ls_left sec) (followLanes (ls_right sec) cur))
                       (removelast secs) inLane)
            outLane
  end.

Section Flatten.

Variable innerEdges : gmap string OpenDriveEdge.

(** The internal shapes built under [opendrive.internal-shapes] rest on
    [PositionVector] arithmetic of utils/geom; they are collaborators here.
    The second one reports whether [move2side] failed. *)
Variable myImportInternalShapes : bool.
Variable throughShape : OpenDriveEdge -> Connection -> list Position.
Variable destShape : OpenDriveEdge -> Connection -> option (list Position).

(** The copy pushed for a connection returned by the recursive call. *)
Definition rewire (c : Connection) (via : OpenDriveEdge) (j : Connection) : Connection :=
  {| c_fromEdge := c_fromEdge c; c_toEdge := c_toEdge j;
     c_fromLane := c_fromLane c; c_toLane := c_toLane j;
     c_fromCP := c_fromCP c; c_toCP := c_toCP j;
     c_all := c_all c; c_origID := c_origID j; c_origLane := c_origLane j;
     c_shape := if myImportInternalShapes then throughShape via c else c_shape j |}.

(** The copy pushed when the destination's connection leaves the junction. *)
Definition leave (c : Connection) (dest : OpenDriveEdge) (i : Connection)
    : Connection * list FlattenWarning :=
  let '(shape, w) :=
    if myImportInternalShapes then
      match destShape dest c with
      | Some sh => (sh, [])
      | None => ([], [NoInternalShape (c_fromEdge c) (c_toEdge c)])
      end
    else (c_shape i, []) in
  ({| c_fromEdge := c_fromEdge c; c_toEdge := c_toEdge i;
      c_fromLane := c_fromLane c; c_toLane := c_toLane i;
      c_fromCP := c_fromCP c; c_toCP := c_toCP i;
      c_all := c_all c; c_origID := c_toEdge c; c_origLane := c_toLane c;
      c_shape := shape |}, w).

(** What one call hands back: the connections appended to [into], the
    [seen] set and the log. *)
Definition Walk : Type :=
  list Connection * gset (string * string * Z * Z) * list FlattenWarning.

(** The road a connection leads to is not an inner one. *)
Definition leavesJunction (c : Connection) : Prop := innerEdges !! c_toEdge c = None.

(** What a call with enough fuel promises: a result, whose [seen] has grown
    and stays within the given universe of connections. *)
Definition returnsWithin (universe : gset (string * string * Z * Z)) (fuel : nat)
    (recur : Connection -> gset (string * string * Z * Z) -> option Walk) : Prop :=
  forall i seen,
    key i ∈ universe -> seen ⊆ universe ->
    size (universe ∖ ({[key i]} ∪ seen)) < fuel ->
    exists t seen' log,
      recur i seen = Some (t, seen', log) /\ seen ⊆ seen' /\ seen' ⊆ universe.

(** The loop of [buildConnectionsToOuter] over the connections of [dest];
    [recur] stands for the recursive call. *)
Fixpoint walkLoop (recur : Connection -> gset (string * string * Z * Z) -> option Walk)
    (c : Connection) (dest : OpenDriveEdge) (conts : list Connection) (acc : Walk)
    : option Walk :=
  match conts with
  | [] => Some acc
  | i :: rest =>
      let '(into, seen, log) := acc in
      match innerEdges !! c_toEdge i with
      | Some via =>
          if decide (key i ∈ seen) then
            walkLoop recur c dest rest
                     (into, seen,
                      log ++ [CircularConnections (c_fromEdge c) (c_toEdge c) (size seen)])
          else
            match recur i seen with
            | None => None
            | Some (t, seen', log') =>
                walkLoop recur c dest rest (into ++ map (rewire c via) t, seen', log ++ log')
            end
      | None =>
          if laneSectionsConnected dest (c_toLane c) (c_fromLane i) then
            let '(cn, w) := leave c dest i in
            walkLoop recur c dest rest (into ++ [cn], seen, log ++ w)
          else walkLoop recur c dest rest acc
      end
  end.

(** [buildConnectionsToOuter].  The recursion of the source is bounded by
    [seen]; here it is bounded by [fuel], and [None] means the fuel ran out.
    A [c.toEdge] unknown to [innerEdges] is treated as the source treats a
    null [dest]. *)
Fixpoint buildConnectionsToOuter (fuel : nat) (c : Connection)
    (seen : gset (string * string * Z * Z)) : option Walk :=
  match fuel with
  | O => None
  | S fuel' =>
      match innerEdges !! c_toEdge c with
      | None => Some ([], seen, [])
      | Some dest =>
          walkLoop (buildConnectionsToOuter fuel') c dest (ed_connections dest)
                   ([], {[key c]} ∪ seen, [])
      end
  end.

(** The loop of [loadNetwork] that fills [connections2], for the connections
    of one road. *)
Fixpoint flattenFrom (fuel : nat) (conns : list Connection)
    : option (list Connection * list FlattenWarning) :=
  match conns with
  | [] => Some ([], [])
  | i :: rest =>
      let here :=
        match innerEdges !! c_fromEdge i with
        | Some _ => Some ([], [])
        | None =>
            match innerEdges !! c_toEdge i with
            | Some _ =>
                match buildConnectionsToOuter fuel i ∅ with
                | Some (into, _, log) => Some (into, log)
                | None => None
                end
            | None => Some ([i], [])
            end
        end in
      match here, flattenFrom fuel rest with
      | Some (a, w), Some (b, w') => Some (a ++ b, w ++ w')
      | _, _ => None
      end
  end.

End Flatten.

(** [innerEdges] of [loadNetwork]: the roads flagged [isInner]. *)
Definition innerOf (edges : gmap string OpenDriveEdge) : gmap string OpenDriveEdge :=
  filter (fun kv => ed_isInner kv.2 = true) edges.

(** Every connection of every road, in the order the roads are visited. *)
Definition allConnections (edges : gmap string OpenDriveEdge) : list Connection :=
  flat_map (fun kv => ed_connections kv.2) (map_to_list edges).

(** The recursion never needs more calls than there are distinct
    connections, plus one. *)
Definition enoughFuel (edges : gmap string OpenDriveEdge) : nat :=
  S (size (list_to_set (C := gset (string * string * Z * Z))
                       (map key (allConnections edges)))).

(** "compute connections across intersections, if any": [connections2].
    The roads are visited in the order of [map_to_list], which need not be
    the key order of [std::map]; only the order of the output depends on
    it. *)
Definition flattenConnections (shapes : bool)
    (throughShape : OpenDriveEdge -> Connection -> list Position)
    (destShape : OpenDriveEdge -> Connection -> option (list Position))
    (edges : gmap string OpenDriveEdge)
    : option (list Connection * list FlattenWarning) :=
  flattenFrom (innerOf edges) shapes throughShape destShape
              (enoughFuel edges) (allConnections edges).

End Flattener.

(** ** Sample inputs and measures used by the statements below *)

Module Samples.
Import Geometry.

(** Modelled from the spec: [Position::almostSame], which the spec describes
    as Euclidean distance within epsilon.  The distance is compared squared
    to stay rational. *)
Definition almostSameEps (eps : Q) (a b : Position) : bool :=
  Dbl.leb ((px a - px b) * (px a - px b) + (py a - py b) * (py a - py b)
           + (pz a - pz b) * (pz a - pz b))%Q (eps * eps)%Q.

(** A [push_back_noDoublePos] for the examples: the point is appended unless
    the vector ends in a point almostSame as it. *)
Definition pushUnlessClose (eps : Q) (v : list Position) (p : Position) : list Position :=
  match List.last (map Some v) None with
  | Some b => if almostSameEps eps p b then v else v ++ [p]
  | None => v ++ [p]
  end.

(** Inputs for the examples: a straight segment heading east, and no
    vertices for the curved kinds. *)
Definition eastLine (g : OpenDriveGeometry) (_ : Q) : list Position :=
  [Position2 (g_x g) (g_y g); Position2 (g_x g + g_length g) (g_y g)].

Definition noVertices (_ : OpenDriveGeometry) (_ : Q) : list Position := [].

Definition noCurve (_ : OpenDriveGeometry) (_ : Q) : list Warning * list Position :=
  ([], []).

Definition segment (t : GeometryType) (s x len : Q) (params : list Q) : OpenDriveGeometry :=
  {| g_length := len; g_s := s; g_x := x; g_y := 0; g_hdg := 0;
     g_type := t; g_params := params |}.

(** The number of vertices the discretisations of the given segments supply. *)
Definition verticesOf (line arc poly ppoly : OpenDriveGeometry -> Q -> list Position)
    (spiral : OpenDriveGeometry -> Q -> list Warning * list Position)
    (edge : string) (lineRes res : Q) (gs : list OpenDriveGeometry) : nat :=
  list_sum (map (fun g => length (snd (discretise line arc poly ppoly spiral
                                                  edge lineRes res g))) gs).

(** The curvature rate [geomFromSpiral] computes. *)
Definition curvatureRate (g : OpenDriveGeometry) : Q :=
  ((nth 1 (g_params g) 0 - nth 0 (g_params g) 0) / g_length g)%Q.

(** Two spirals of constant curvature 0, at (0,0) and at (10,0). *)
Definition flatSpiral (x : Q) : OpenDriveGeometry :=
  segment OPENDRIVE_GT_SPIRAL x x 10 [0%Q; 0%Q].

(** The state after a line from (0,0) to (10,0). *)
Definition afterLine : ShapeState :=
  {| st_geom := [Position2 0 0; Position2 10 0]; st_prevType := OPENDRIVE_GT_LINE;
     st_last := Position2 10 0; st_index := 1; st_log := [] |}.

(** A catalogue with one known type, a lane whose only speed entry lies 50 m
    into its section, and the section holding that lane on its right. *)
Definition catalogue : Lanes.NBTypeCont :=
  {| Lanes.getSpeed := fun t => if String.eqb t "driving" then 13.89%Q else 0%Q;
     Lanes.getWidth := fun _ => 3.2%Q;
     Lanes.getPermissions := fun _ => 64%Z;
     Lanes.getWidthResolution := fun _ => 0.1%Q;
     Lanes.getMaxWidth := fun _ => 0%Q;
     Lanes.knows := fun t => String.eqb t "driving";
     Lanes.getShallBeDiscarded := fun _ => false |}.

Definition drivingLane (id : Z) (speeds : list (Q * Q)) (width : Q) : Lanes.OpenDriveLane :=
  {| Lanes.lane_id := id; Lanes.lane_level := ""; Lanes.lane_type := "driving";
     Lanes.lane_successor := id; Lanes.lane_predecessor := id;
     Lanes.lane_speeds := speeds; Lanes.lane_speed := 0; Lanes.lane_width := width |}.

Definition sectionAt (s : Q) (left right : list Lanes.OpenDriveLane)
    : Lanes.OpenDriveLaneSection :=
  {| Lanes.ls_s := s; Lanes.ls_sOrig := s;
     Lanes.ls_left := left; Lanes.ls_center := []; Lanes.ls_right := right;
     Lanes.ls_laneMap := ∅;
     Lanes.ls_rightLaneNumber := Z.of_nat (length right);
     Lanes.ls_leftLaneNumber := Z.of_nat (length left);
     Lanes.ls_rightType := "driving"; Lanes.ls_leftType := "driving";
     Lanes.ls_sumoID := "" |}.

Definition speedChangeSection : Lanes.OpenDriveLaneSection :=
  sectionAt 0 [] [drivingLane (-1) [(50%Q, 10%Q)] 3.5].

(** The vehicle-class bits as SUMOVehicleClass.h numbers them, and the
    attributes of a lane not yet written. *)
Definition svcEmergency : Z := 2.
Definition svcAuthority : Z := 4.
Definition svcPassenger : Z := 64.

Definition blankLane : Attributes.SumoLane :=
  {| Attributes.sl_speed := 0; Attributes.sl_permissions := 0;
     Attributes.sl_width := (-1); Attributes.sl_origID := None |}.

(** A catalogue whose type is narrower by default than the lanes met. *)
Definition slimCatalogue : Lanes.NBTypeCont :=
  {| Lanes.getSpeed := fun _ => 13.89%Q;
     Lanes.getWidth := fun _ => 1.2%Q;
     Lanes.getPermissions := fun _ => 64%Z;
     Lanes.getWidthResolution := fun _ => 0.1%Q;
     Lanes.getMaxWidth := fun _ => 0%Q;
     Lanes.knows := fun _ => true;
     Lanes.getShallBeDiscarded := fun _ => false |}.

(** The attributes written for a passenger lane 1.76 m wide under a minimum
    width of 1.8 m. *)
Definition narrowResult : Attributes.SumoLane :=
  Attributes.setLaneAttributes svcPassenger svcEmergency svcAuthority (-1) 0.1 true 1.8
    "R" blankLane (drivingLane (-1) [] 1.76) false catalogue.

(** Roads "A" and "B" on a common line; only "A" names "B", as its
    successor. *)
Definition plainRoad (id : string) (x0 x1 : Q) (links : list Topology.OpenDriveLink)
    (secs : list Lanes.OpenDriveLaneSection) (from to : option string)
    : Topology.OpenDriveEdge :=
  {| Topology.ed_id := id; Topology.ed_streetName := ""; Topology.ed_junction := "-1";
     Topology.ed_length := (x1 - x0)%Q; Topology.ed_isInner := false;
     Topology.ed_links := links;
     Topology.ed_geom := [Geometry.Position2 x0 0; Geometry.Position2 x1 0];
     Topology.ed_laneSections := secs;
     Topology.ed_from := from; Topology.ed_to := to;
     Topology.ed_connections := [] |}.

Definition successorRoad (id : string) : Topology.OpenDriveLink :=
  {| Topology.lk_linkType := Topology.OPENDRIVE_LT_SUCCESSOR;
     Topology.lk_elementID := id;
     Topology.lk_elementType := Topology.OPENDRIVE_ET_ROAD;
     Topology.lk_contactPoint := Topology.OPENDRIVE_CP_START |}.

Definition roadA : Topology.OpenDriveEdge :=
  plainRoad "A" 0 100 [successorRoad "B"] [sectionAt 0 [] []] None None.

Definition roadB : Topology.OpenDriveEdge :=
  plainRoad "B" 100 200 [] [sectionAt 0 [] []] None None.

(** A rendering of doubles with two decimals, as [toString] prints them
    under the default output precision. *)
Definition pad2 (d : Z) : string :=
  if (d <? 10)%Z then ("0" ++ pretty d)%string else pretty d.

Definition fixed2 (q : Q) : string :=
  let n := Qfloor (Qabs q * 100 + 0.5)%Q in
  ((if Qle_bool 0 q then "" else "-") ++ pretty (n / 100)%Z ++ "." ++ pad2 (n mod 100)%Z)%string.

Definition pointAt (geom : list Geometry.Position) (s : Q) : Geometry.Position :=
  Geometry.Position2 s 0.

Definition endNodes : gmap string Geometry.Position :=
  <["R.begin" := Geometry.Position2 0 0]> (<["R.end" := Geometry.Position2 100 0]> ∅).

(** Scenario 1 of the spec: the straight road "R", one section, one lane on
    each side; and the same road with a second section at 50 m. *)
Definition roadR : Topology.OpenDriveEdge :=
  plainRoad "R" 0 100 []
            [sectionAt 0 [drivingLane 1 [] 3.5] [drivingLane (-1) [] 3.5]]
            (Some "R.begin") (Some "R.end").

Definition roadR2 : Topology.OpenDriveEdge :=
  plainRoad "R" 0 100 []
            [sectionAt 0 [drivingLane 1 [] 3.5] [drivingLane (-1) [] 3.5];
             sectionAt 50 [drivingLane 1 [] 3.5] [drivingLane (-1) [] 3.5]]
            (Some "R.begin") (Some "R.end").

(** Scenarios 3 and 4 of the spec: outer "A" enters the junction through
    the inner road "X"; "X" either leads on to outer "B", or to the inner
    road "Y", which leads back to "X". *)
Definition laneLink (fromEdge toEdge : string) : Topology.Connection :=
  {| Topology.c_fromEdge := fromEdge; Topology.c_toEdge := toEdge;
     Topology.c_fromLane := (-1); Topology.c_toLane := (-1);
     Topology.c_fromCP := Topology.OPENDRIVE_CP_END;
     Topology.c_toCP := Topology.OPENDRIVE_CP_START;
     Topology.c_all := false; Topology.c_origID := ""; Topology.c_origLane := 0;
     Topology.c_shape := [] |}.

Definition junctionRoad (id : string) (inner : bool) (conns : list Topology.Connection)
    : Topology.OpenDriveEdge :=
  {| Topology.ed_id := id; Topology.ed_streetName := "";
     Topology.ed_junction := if inner then "J" else "-1";
     Topology.ed_length := 10; Topology.ed_isInner := inner;
     Topology.ed_links := []; Topology.ed_geom := [];
     Topology.ed_laneSections := [sectionAt 0 [] [drivingLane (-1) [] 3.5]];
     Topology.ed_from := None; Topology.ed_to := None;
     Topology.ed_connections := conns |}.

Definition throughJunction : gmap string Topology.OpenDriveEdge :=
  <["A" := junctionRoad "A" false [laneLink "A" "X"]]>
    (<["X" := junctionRoad "X" true [laneLink "X" "B"]]>
       (<["B" := junctionRoad "B" false []]> ∅)).

Definition circularJunction : gmap string Topology.OpenDriveEdge :=
  <["A" := junctionRoad "A" false [laneLink "A" "X"]]>
    (<["X" := junctionRoad "X" true [laneLink "X" "Y"]]>
       (<["Y" := junctionRoad "Y" true [laneLink "Y" "X"]]> ∅)).

Definition noShape (_ : Topology.OpenDriveEdge) (_ : Topology.Connection)
    : list Geometry.Position := [].

Definition noDestShape (_ : Topology.OpenDriveEdge) (_ : Topology.Connection)
    : option (list Geometry.Position) := None.

End Samples.

(** ** Connections as ordered set elements, and the links that create them *)

Module Links.
Import Lanes Geometry Topology.

(** [operator<] on [Connection]. *)
Definition conn_lt (c1 c2 : Connection) : bool :=
  if negb (String.eqb (c_fromEdge c1) (c_fromEdge c2))
  then String.ltb (c_fromEdge c1) (c_fromEdge c2)
  else if negb (String.eqb (c_toEdge c1) (c_toEdge c2))
  then String.ltb (c_toEdge c1) (c_toEdge c2)
  else if negb (Z.eqb (c_fromLane c1) (c_fromLane c2))
  then Z.ltb (c_fromLane c1) (c_fromLane c2)
  else Z.ltb (c_toLane c1) (c_toLane c2).

(** [std::set<Connection>::insert] on the sorted sequence of the set: an
    element equivalent to [c] keeps its place and [c] is dropped. *)
Fixpoint conn_insert (c : Connection) (l : list Connection) : list Connection :=
  match l with
  | [] => [c]
  | x :: l' =>
      if conn_lt c x then c :: l
      else if conn_lt x c then x :: conn_insert c l'
      else l
  end.

Definition add_connection (c : Connection) (e : OpenDriveEdge) : OpenDriveEdge :=
  {| ed_id := ed_id e; ed_streetName := ed_streetName e; ed_junction := ed_junction e;
     ed_length := ed_length e; ed_isInner := ed_isInner e; ed_links := ed_links e;
     ed_geom := ed_geom e; ed_laneSections := ed_laneSections e;
     ed_from := ed_from e; ed_to := ed_to e;
     ed_connections := conn_insert c (ed_connections e) |}.

Inductive LinkError : Type :=
| IncomingRoadUnknown (road : string).

(** The tail shared by the lane loops of [setEdgeLinks2] and by the handler
    of junction connections: the connection is stored with the road it
    starts from, or the road is reported as not known. *)
Definition storeConnection (c : Connection)
    (st : list LinkError * gmap string OpenDriveEdge)
    : list LinkError * gmap string OpenDriveEdge :=
  let '(log, edges) := st in
  match edges !! c_fromEdge c with
  | None => (log ++ [IncomingRoadUnknown (c_fromEdge c)], edges)
  | Some src => (log, <[c_fromEdge c := add_connection c src]> edges)
  end.

(** The three [std::swap]s applied when the link is not a successor. *)
Definition swapEnds (c : Connection) : Connection :=
  {| c_fromEdge := c_toEdge c; c_toEdge := c_fromEdge c;
     c_fromLane := c_toLane c; c_toLane := c_fromLane c;
     c_fromCP := c_toCP c; c_toCP := c_fromCP c;
     c_all := c_all c; c_origID := c_origID c; c_origLane := c_origLane c;
     c_shape := c_shape c |}.

Definition isSuccessor (lt : LinkType) : bool :=
  match lt with OPENDRIVE_LT_SUCCESSOR => true | OPENDRIVE_LT_PREDECESSOR => false end.

(** The connection built for a right-hand lane [j] of road [edgeID] under
    link [l]; [origID] and the shape are default-constructed, [origLane] is
    left unset by the source and is 0 here. *)
Definition rightConnection (edgeID : string) (l : OpenDriveLink) (j : OpenDriveLane)
    : Connection :=
  let c := {| c_fromEdge := edgeID; c_toEdge := lk_elementID l;
              c_fromLane := lane_id j;
              c_toLane := if isSuccessor (lk_linkType l) then lane_successor j
                          else lane_predecessor j;
              c_fromCP := OPENDRIVE_CP_END; c_toCP := lk_contactPoint l;
              c_all := false; c_origID := ""; c_origLane := 0; c_shape := [] |} in
  if isSuccessor (lk_linkType l) then c else swapEnds c.

(** The connection built for a left-hand lane. *)
Definition leftConnection (edgeID : string) (l : OpenDriveLink) (j : OpenDriveLane)
    : Connection :=
  let c := {| c_fromEdge := lk_elementID l; c_toEdge := edgeID;
              c_fromLane := if isSuccessor (lk_linkType l) then lane_successor j
                            else lane_predecessor j;
              c_toLane := lane_id j;
              c_fromCP := lk_contactPoint l; c_toCP := OPENDRIVE_CP_END;
              c_all := false; c_origID := ""; c_origLane := 0; c_shape := [] |} in
  if isSuccessor (lk_linkType l) then c else swapEnds c.

Section EdgeLinks.

Variable myImportAllTypes : bool.

(** The test that skips a lane: [myImportAllTypes] is off and the lane's id
    is not a key of [laneMap]. *)
Definition skipped (laneMap : gmap Z Z) (j : OpenDriveLane) : bool :=
  negb myImportAllTypes && bool_decide (laneMap !! lane_id j = None).

(** The body of the loop of [setEdgeLinks2] for one link.  [None] stands for
    [laneSections.back()] or [laneSections[0]] on a road without sections,
    which C++ leaves undefined. *)
Definition linkConnections (e : OpenDriveEdge) (l : OpenDriveLink)
    (st : list LinkError * gmap string OpenDriveEdge)
    : option (list LinkError * gmap string OpenDriveEdge) :=
  match lk_elementType l with
  | OPENDRIVE_ET_ROAD =>
      match (if isSuccessor (lk_linkType l)
             then List.last (map Some (ed_laneSections e)) None
             else head (ed_laneSections e)) with
      | None => None
      | Some laneSection =>
          let st1 :=
            fold_left (fun acc j => if skipped (ls_laneMap laneSection) j then acc
                                    else storeConnection (rightConnection (ed_id e) l j) acc)
                      (ls_right laneSection) st in
          Some (fold_left (fun acc j => if skipped (ls_laneMap laneSection) j then acc
                                        else storeConnection (leftConnection (ed_id e) l j) acc)
                          (ls_left laneSection) st1)
      end
  | _ => Some st
  end.

(** [setEdgeLinks2]. *)
Fixpoint linksLoop (e : OpenDriveEdge) (links : list OpenDriveLink)
    (st : list LinkError * gmap string OpenDriveEdge)
    : option (list LinkError * gmap string OpenDriveEdge) :=
  match links with
  | [] => Some st
  | l :: rest =>
      match linkConnections e l st with
      | None => None
      | Some st' => linksLoop e rest st'
      end
  end.

Definition setEdgeLinks2 (e : OpenDriveEdge)
    (st : list LinkError * gmap string OpenDriveEdge)
    : option (list LinkError * gmap string OpenDriveEdge) :=
  linksLoop e (ed_links e) st.

End EdgeLinks.

(** *** Junction connections in the handler *)

(** The members of the handler that the [connection] and [laneLink]
    elements use. *)
Record JunctionState : Type := {
  myCurrentIncomingRoad : string;
  myCurrentConnectingRoad : string;
  myCurrentContactPoint : ContactPoint;
  myConnectionWasEmpty : bool;
  myEdges : gmap string OpenDriveEdge;
  myErrors : list LinkError
}.

(** [case OPENDRIVE_TAG_CONNECTION] of [myStartElement]. *)
Definition startConnection (incomingRoad connectingRoad contactPoint : string)
    (st : JunctionState) : JunctionState :=
  {| myCurrentIncomingRoad := incomingRoad;
     myCurrentConnectingRoad := connectingRoad;
     myCurrentContactPoint := if String.eqb contactPoint "start" then OPENDRIVE_CP_START
                              else OPENDRIVE_CP_END;
     myConnectionWasEmpty := true;
     myEdges := myEdges st; myErrors := myErrors st |}.

Definition junctionConnection (st : JunctionState) (from to : Z) (all : bool) : Connection :=
  {| c_fromEdge := myCurrentIncomingRoad st; c_toEdge := myCurrentConnectingRoad st;
     c_fromLane := from; c_toLane := to;
     c_fromCP := OPENDRIVE_CP_END; c_toCP := myCurrentContactPoint st;
     c_all := all; c_origID := ""; c_origLane := 0; c_shape := [] |}.

(** [case OPENDRIVE_TAG_LANELINK] of [myStartElement]. *)
Definition startLaneLink (from to : Z) (st : JunctionState) : JunctionState :=
  let c := junctionConnection st from to false in
  match myEdges st !! c_fromEdge c with
  | None =>
      {| myCurrentIncomingRoad := myCurrentIncomingRoad st;
         myCurrentConnectingRoad := myCurrentConnectingRoad st;
         myCurrentContactPoint := myCurrentContactPoint st;
         myConnectionWasEmpty := myConnectionWasEmpty st;
         myEdges := myEdges st;
         myErrors := myErrors st ++ [IncomingRoadUnknown (c_fromEdge c)] |}
  | Some e =>
      {| myCurrentIncomingRoad := myCurrentIncomingRoad st;
         myCurrentConnectingRoad := myCurrentConnectingRoad st;
         myCurrentContactPoint := myCurrentContactPoint st;
         myConnectionWasEmpty := false;
         myEdges := <[c_fromEdge c := add_connection c e]> (myEdges st);
         myErrors := myErrors st |}
  end.

(** [case OPENDRIVE_TAG_CONNECTION] of [myEndElement]. *)
Definition endConnection (st : JunctionState) : JunctionState :=
  if myConnectionWasEmpty st then
    let c := junctionConnection st 0 0 true in
    let '(log, edges) := storeConnection c (myErrors st, myEdges st) in
    {| myCurrentIncomingRoad := myCurrentIncomingRoad st;
       myCurrentConnectingRoad := myCurrentConnectingRoad st;
       myCurrentContactPoint := myCurrentContactPoint st;
       myConnectionWasEmpty := myConnectionWasEmpty st;
       myEdges := edges; myErrors := log |}
  else st.

(** One [connection] element with its [laneLink] children. *)
Definition connectionElement (incomingRoad connectingRoad contactPoint : string)
    (laneLinks : list (Z * Z)) (st : JunctionState) : JunctionState :=
  endConnection
    (fold_left (fun s ft => startLaneLink (fst ft) (snd ft) s) laneLinks
               (startConnection incomingRoad connectingRoad contactPoint st)).

(** Every road stores only connections that start at it. *)
Definition storedAtOrigin (edges : gmap string OpenDriveEdge) : Prop :=
  forall k e, edges !! k = Some e -> Forall (fun c => c_fromEdge c = k) (ed_connections e).

(** A later state of the road table: the same roads under the same keys,
    none of their connections lost. *)
Definition extends (edges edges' : gmap string OpenDriveEdge) : Prop :=
  dom edges' = dom edges
  /\ forall k e, edges !! k = Some e ->
       exists e', edges' !! k = Some e'
                  /\ ed_id e' = ed_id e
                  /\ forall c, c ∈ ed_connections e -> c ∈ ed_connections e'.

End Links.

(** ** Binding the outer roads to nodes *)

Module Nodes.
Import Err Lanes Geometry Topology.

(** [edge2junction] as the loop over the inner roads fills it. *)
Definition junctionOf (innerEdges : list OpenDriveEdge) : gmap string string :=
  fold_left (fun m e => <[ed_id e := ed_junction e]> m) innerEdges ∅.

(** A loop over the outer roads whose body may add nodes and bind the road. *)
Definition forRoads
    (body : gmap string Position -> OpenDriveEdge
            -> Result (gmap string Position * OpenDriveEdge))
    (nc : gmap string Position) (outerEdges : list OpenDriveEdge)
    : Result (gmap string Position * list OpenDriveEdge) :=
  foldM (fun (st : gmap string Position * list OpenDriveEdge) e =>
           let '(nc, done) := st in
           '(nc', e') ← body nc e;
           Ok (nc', done ++ [e']))
        (nc, []) outerEdges.

(** "assign built nodes", for one link of one outer road: a link to a
    junction is bound to the junction's node, which is built at the end of
    the road when it is not there yet; a link to an inner road is bound to
    the node of that road's junction; a link to an outer road is left for
    the next phase. *)
Definition assignBuiltNode (edge2junction : gmap string string)
    (st : gmap string Position * OpenDriveEdge) (l : OpenDriveLink)
    : Result (gmap string Position * OpenDriveEdge) :=
  let '(nc, e) := st in
  match lk_elementType l with
  | OPENDRIVE_ET_ROAD =>
      match edge2junction !! lk_elementID l with
      | Some junction =>
          e' ← setNodeSecure nc e junction (lk_linkType l);
          Ok (nc, e')
      | None => Ok st
      end
  | _ =>
      let nid := lk_elementID l in
      nc' ← (match nc !! nid with
             | Some _ => Ok nc
             | None =>
                 pos ← endPosition (lk_linkType l) (ed_geom e);
                 match nc_insert nid pos nc with
                 | Some nc' => Ok nc'
                 | None => Throw (CouldNotBuildNode nid)
                 end
             end);
      e' ← setNodeSecure nc' e nid (lk_linkType l);
      Ok (nc', e')
  end.

Definition assignBuiltNodes (edge2junction : gmap string string)
    (nc : gmap string Position) (e : OpenDriveEdge)
    : Result (gmap string Position * OpenDriveEdge) :=
  foldM (assignBuiltNode edge2junction) (nc, e) (ed_links e).

Definition isRoad (t : ElementType) : bool :=
  match t with OPENDRIVE_ET_ROAD => true | _ => false end.

Definition isStart (cp : ContactPoint) : bool :=
  match cp with OPENDRIVE_CP_START => true | _ => false end.

(** "build nodes#3", for one link [il] of the inner road [ie] and the outer
    road [e].  [edge2junction[ie->id]] yields the empty string for a key
    that is not there. *)
Definition innerLinkNode (edge2junction : gmap string string)
    (nc : gmap string Position) (ie : OpenDriveEdge)
    (e : OpenDriveEdge) (il : OpenDriveLink) : Result OpenDriveEdge :=
  if negb (isRoad (lk_elementType il)) || negb (String.eqb (lk_elementID il) (ed_id e))
  then Ok e
  else
    let nid := default "" (edge2junction !! ed_id ie) in
    if isStart (lk_contactPoint il)
    then setNodeSecure nc e nid OPENDRIVE_LT_PREDECESSOR
    else setNodeSecure nc e nid OPENDRIVE_LT_SUCCESSOR.

(** "build nodes#3", for one outer road: a road whose two ends are bound
    is passed over. *)
Definition assignInnerNodes (edge2junction : gmap string string)
    (innerEdges : list OpenDriveEdge)
    (nc : gmap string Position) (e : OpenDriveEdge)
    : Result (gmap string Position * OpenDriveEdge) :=
  match ed_to e, ed_from e with
  | Some _, Some _ => Ok (nc, e)
  | _, _ =>
      e' ← foldM (fun e ie => foldM (innerLinkNode edge2junction nc ie) e (ed_links ie))
                 e innerEdges;
      Ok (nc, e')
  end.

(** [getOrBuildNode]; the node returned is the one called [id]. *)
Definition getOrBuildNode (id : string) (pos : Position) (nc : gmap string Position)
    : Result (gmap string Position) :=
  match nc !! id with
  | Some _ => Ok nc
  | None =>
      match nc_insert id pos nc with
      | Some nc' => Ok nc'
      | None => Throw (CouldNotAddNode id)
      end
  end.

(** "build start/end nodes which were not defined previously", for one
    outer road.  [None] stands for [front()] or [back()] of an empty
    vector, which C++ leaves undefined. *)
Definition terminate (nc : gmap string Position) (e : OpenDriveEdge)
    : option (Result (gmap string Position * OpenDriveEdge)) :=
  if (bool_decide (ed_from e = None) || bool_decide (ed_to e = None))
     && (length (ed_geom e) =? 0)%nat
  then Some (Ok (nc, e))
  else
    match (match ed_from e with
           | Some _ => Some (Ok (nc, e))
           | None =>
               let nid := (ed_id e ++ ".begin")%string in
               match head (ed_geom e) with
               | None => None
               | Some front =>
                   Some (nc' ← getOrBuildNode nid front nc; Ok (nc', set_from nid e))
               end
           end) with
    | None => None
    | Some (Throw x) => Some (Throw x)
    | Some (Ok (nc1, e1)) =>
        match ed_to e1 with
        | Some _ => Some (Ok (nc1, e1))
        | None =>
            let nid := (ed_id e1 ++ ".end")%string in
            match List.last (map Some (ed_geom e1)) None with
            | None => None
            | Some back =>
                Some (nc' ← getOrBuildNode nid back nc1; Ok (nc', set_to nid e1))
            end
        end
    end.

Fixpoint terminateAll (nc : gmap string Position) (outerEdges : list OpenDriveEdge)
    : option (Result (gmap string Position * list OpenDriveEdge)) :=
  match outerEdges with
  | [] => Some (Ok (nc, []))
  | e :: rest =>
      match terminate nc e with
      | None => None
      | Some (Throw x) => Some (Throw x)
      | Some (Ok (nc', e')) =>
          match terminateAll nc' rest with
          | Some (Ok (nc'', done)) => Some (Ok (nc'', e' :: done))
          | other => other
          end
      end
  end.

(** The node phases of [loadNetwork] that follow the building of the
    junction nodes, in their order. *)
Definition bindOuterRoads (innerEdges : list OpenDriveEdge)
    (nc : gmap string Position) (outerEdges : list OpenDriveEdge)
    : option (Result (gmap string Position * list OpenDriveEdge)) :=
  let edge2junction := junctionOf innerEdges in
  match forRoads (assignBuiltNodes edge2junction) nc outerEdges with
  | Throw x => Some (Throw x)
  | Ok (nc1, outer1) =>
      match buildNodes2 edge2junction nc1 outer1 with
      | Throw x => Some (Throw x)
      | Ok (nc2, outer2) =>
          match forRoads (assignInnerNodes edge2junction innerEdges) nc2 outer2 with
          | Throw x => Some (Throw x)
          | Ok (nc3, outer3) => terminateAll nc3 outer3
          end
      end
  end.

(** The road with its two ends cleared: what the node phases leave alone. *)
Definition unbound (e : OpenDriveEdge) : OpenDriveEdge :=
  {| ed_id := ed_id e; ed_streetName := ed_streetName e; ed_junction := ed_junction e;
     ed_length := ed_length e; ed_isInner := ed_isInner e; ed_links := ed_links e;
     ed_geom := ed_geom e; ed_laneSections := ed_laneSections e;
     ed_from := None; ed_to := None; ed_connections := ed_connections e |}.

(** [e'] is [e] with, at most, ends bound that were free. *)
Definition keeps (e e' : OpenDriveEdge) : Prop :=
  unbound e' = unbound e
  /\ (forall n, ed_from e = Some n -> ed_from e' = Some n)
  /\ (forall n, ed_to e = Some n -> ed_to e' = Some n).

(** The ends of [e] that are bound name nodes of [nc]. *)
Definition grounded (nc : gmap string Position) (e : OpenDriveEdge) : Prop :=
  (forall n, ed_from e = Some n -> is_Some (nc !! n))
  /\ (forall n, ed_to e = Some n -> is_Some (nc !! n)).

(** What one step of a node phase may do to the container and the road:
    nodes are added, free ends are bound, and ends that named nodes still
    do. *)
Definition step (st st' : gmap string Position * OpenDriveEdge) : Prop :=
  st.1 ⊆ st'.1 /\ keeps st.2 st'.2 /\ (grounded st.1 st.2 -> grounded st'.1 st'.2).

End Nodes.

(** ** Measures of a lane section used by the statements on speed changes *)

Module Speeds.
Import Lanes.

(** The positions of the speed entries of the right and left lanes, in the
    order [buildSpeedChanges] visits them. *)
Definition positionsOf (sec : OpenDriveLaneSection) : list Q :=
  flat_map (fun l => map fst (lane_speeds l)) (ls_right sec ++ ls_left sec).

(** The set of positions after inserting every position of [xs]. *)
Definition insertAll (ps : list Q) (xs : list Q) : list Q :=
  fold_left (fun acc x => dset_insert x acc) xs ps.

(** Two vectors of lanes that differ in the speeds of their lanes only. *)
Definition sameLanes (a b : list OpenDriveLane) : Prop :=
  map (set_speed 0) a = map (set_speed 0) b.

(** A section cut from [sec]: the lanes of [sec] but for their speeds, and
    the lane map, the lane numbers and the types of [sec]. *)
Definition cutFrom (sec sec' : OpenDriveLaneSection) : Prop :=
  sameLanes (ls_left sec') (ls_left sec)
  /\ sameLanes (ls_center sec') (ls_center sec)
  /\ sameLanes (ls_right sec') (ls_right sec)
  /\ with_s 0 (with_lanes [] [] [] sec') = with_s 0 (with_lanes [] [] [] sec).

End Speeds.

(** ** The lane map of a section and the connections between sections *)

Module Mapping.
Import Lanes Handler.

(** Modelled from the spec: [joinToString(types, "|")] is a template of
    utils/common; the spec gives the joined type string as "t1|t2|...". *)
Definition joinTypes (types : list string) : string := String.concat "|" types.

(** The type string of the lanes given an index, by their types in the
    order they are given it: empty without lanes, the one type when all
    are the same, the types joined otherwise. *)
Definition typeString (types : list string) : string :=
  match types with
  | [] => ""
  | t :: ts => if forallb (String.eqb t) ts then t else joinTypes types
  end.

(** The locals of one loop of [buildLaneMapping] together with the member
    [laneMap].  The counter is an [int]; it counts lanes of one vector and
    stays far below the range of [int]. *)
Record MapState : Type := {
  ms_laneMap : gmap Z Z;
  ms_sumoLane : Z;
  ms_singleType : bool;
  ms_types : list string
}.

(** The value of [rightType] or [leftType] after a loop.  [types.front()] is
    read only when the counter is positive, that is when [types] holds an
    element. *)
Definition joinedType (st : MapState) : string :=
  if (0 <? ms_sumoLane st)%Z then
    if ms_singleType st then default "" (head (ms_types st)) else joinTypes (ms_types st)
  else "".

Section LaneMapping.

Variable myImportAllTypes : bool.

(** The test a lane passes to be given a SUMO lane index. *)
Definition imported (tc : NBTypeCont) (l : OpenDriveLane) : bool :=
  myImportAllTypes || (knows tc (lane_type l) && negb (getShallBeDiscarded tc (lane_type l))).

(** The body of either loop of [buildLaneMapping]. *)
Definition mapLane (tc : NBTypeCont) (st : MapState) (l : OpenDriveLane) : MapState :=
  if imported tc l then
    let types := ms_types st ++ [lane_type l] in
    {| ms_laneMap := <[lane_id l := ms_sumoLane st]> (ms_laneMap st);
       ms_sumoLane := (ms_sumoLane st + 1)%Z;
       ms_singleType :=
         if negb (String.eqb (default "" (head types)) (lane_type l)) then false
         else ms_singleType st;
       ms_types := types |}
  else st.

(** [buildLaneMapping]: the right lanes are visited from the last to the
    first, the left lanes from the first to the last. *)
Definition buildLaneMapping (tc : NBTypeCont) (sec : OpenDriveLaneSection)
    : OpenDriveLaneSection :=
  let r := fold_left (mapLane tc) (rev (ls_right sec))
                     {| ms_laneMap := ls_laneMap sec; ms_sumoLane := 0;
                        ms_singleType := true; ms_types := [] |} in
  let l := fold_left (mapLane tc) (ls_left sec)
                     {| ms_laneMap := ms_laneMap r; ms_sumoLane := 0;
                        ms_singleType := true; ms_types := [] |} in
  {| ls_s := ls_s sec; ls_sOrig := ls_sOrig sec;
     ls_left := ls_left sec; ls_center := ls_center sec; ls_right := ls_right sec;
     ls_laneMap := ms_laneMap l;
     ls_rightLaneNumber := ms_sumoLane r;
     ls_leftLaneNumber := ms_sumoLane l;
     ls_rightType := joinedType r; ls_leftType := joinedType l;
     ls_sumoID := ls_sumoID sec |}.

(** The lanes given an index, in the order they are given it. *)
Definition importedRight (tc : NBTypeCont) (sec : OpenDriveLaneSection) : list OpenDriveLane :=
  filter (fun l => imported tc l = true) (rev (ls_right sec)).

Definition importedLeft (tc : NBTypeCont) (sec : OpenDriveLaneSection) : list OpenDriveLane :=
  filter (fun l => imported tc l = true) (ls_left sec).

End LaneMapping.

Section InnerConnections.

(** [UNSET_CONNECTION], a constant of the header. *)
Variable UNSET_CONNECTION : Z.

(** [lanesByDir.find(dir)->second]: the map holds the three keys left,
    center and right; for any other tag the iterator is [end()] and reading
    through it is undefined, [None] here. *)
Definition lanesByDir (sec : OpenDriveLaneSection) (dir : OpenDriveXMLTag)
    : option (list OpenDriveLane) :=
  match dir with
  | OPENDRIVE_TAG_LEFT => Some (ls_left sec)
  | OPENDRIVE_TAG_CENTER => Some (ls_center sec)
  | OPENDRIVE_TAG_RIGHT => Some (ls_right sec)
  | _ => None
  end.

Definition isLeft (dir : OpenDriveXMLTag) : bool :=
  match dir with OPENDRIVE_TAG_LEFT => true | _ => false end.

(** The body of the loop of [getInnerConnections]. *)
Definition innerConnection (dir : OpenDriveXMLTag) (laneMap prevMap : gmap Z Z)
    (ret : gmap Z Z) (l : OpenDriveLane) : gmap Z Z :=
  match laneMap !! lane_id l with
  | None => ret
  | Some to =>
      let from0 := if negb (Z.eqb (lane_predecessor l) UNSET_CONNECTION)
                   then lane_predecessor l else UNSET_CONNECTION in
      let from := if negb (Z.eqb from0 UNSET_CONNECTION)
                  then match prevMap !! from0 with
                       | Some f => f
                       | None => UNSET_CONNECTION
                       end
                  else from0 in
      if negb (Z.eqb from UNSET_CONNECTION) && negb (Z.eqb to UNSET_CONNECTION)
      then if isLeft dir then <[to := from]> ret else <[from := to]> ret
      else ret
  end.

(** [getInnerConnections]. *)
Definition getInnerConnections (sec : OpenDriveLaneSection) (dir : OpenDriveXMLTag)
    (prev : OpenDriveLaneSection) : option (gmap Z Z) :=
  match lanesByDir sec dir with
  | None => None
  | Some dirLanes =>
      Some (fold_left (innerConnection dir (ls_laneMap sec) (ls_laneMap prev))
                      (rev dirLanes) ∅)
  end.

(** The entry of the result that stands for the pair (a, b): on the left
    the two are swapped. *)
Definition entryKey (dir : OpenDriveXMLTag) (a b : Z) : Z := if isLeft dir then b else a.
Definition entryValue (dir : OpenDriveXMLTag) (a b : Z) : Z := if isLeft dir then a else b.

(** The pair of SUMO lane indices lane [l] of the later section stands
    for: the index of its predecessor in the earlier section, and its own. *)
Definition continues (laneMap prevMap : gmap Z Z) (l : OpenDriveLane) (a b : Z) : Prop :=
  lane_predecessor l <> UNSET_CONNECTION
  /\ prevMap !! lane_predecessor l = Some a
  /\ laneMap !! lane_id l = Some b
  /\ a <> UNSET_CONNECTION /\ b <> UNSET_CONNECTION.

End InnerConnections.

End Mapping.

(** ** Where a flattened connection comes from *)

Module Origins.
Import Topology.

(** [x] starts where [c] starts: the members the flattening copies from the
    connection it follows. *)
Definition sameOrigin (c x : Connection) : Prop :=
  c_fromEdge x = c_fromEdge c /\ c_fromLane x = c_fromLane c
  /\ c_fromCP x = c_fromCP c /\ c_all x = c_all c.

Section Flattened.

Variable innerEdges : gmap string OpenDriveEdge.

(** What a connection handed back by a call on [c] looks like: it starts
    where [c] starts, and its [origID] names an inner road. *)
Definition handedBack (c x : Connection) : Prop :=
  sameOrigin c x /\ is_Some (innerEdges !! c_origID x).

(** A connection of [connections2]: it starts at an outer road, and is one
    of the given connections, or starts where a given connection into the
    junction starts. *)
Definition flattened (conns : list Connection) (x : Connection) : Prop :=
  innerEdges !! c_fromEdge x = None
  /\ (x ∈ conns
      \/ exists c, c ∈ conns /\ is_Some (innerEdges !! c_toEdge c) /\ handedBack c x).

End Flattened.

End Origins.

(** ** Signals: priorities and traffic lights *)

Module Signals.
Import Handler Lanes.

(** [OpenDriveSignal], by the arguments its constructor is called with. *)
Record OpenDriveSignal : Type := {
  sg_id : string;
  sg_type : string;
  sg_name : string;
  sg_orientation : Z;
  sg_dynamic : bool;
  sg_s : Q
}.

(** The attributes a [signal] element is read for; [name] is optional. *)
Record SignalAttrs : Type := {
  sa_id : string;
  sa_type : string;
  sa_name : option string;
  sa_orientation : string;
  sa_s : Q;
  sa_dynamic : string
}.

(** [case OPENDRIVE_TAG_SIGNAL] of [myStartElement], acting on the [signals]
    of the current road. *)
Definition startSignal (attrs : SignalAttrs) (signals : list OpenDriveSignal)
    : list OpenDriveSignal :=
  signals ++ [{| sg_id := sa_id attrs; sg_type := sa_type attrs;
                 sg_name := default "" (sa_name attrs);
                 sg_orientation := if String.eqb (sa_orientation attrs) "-" then (-1) else 1;
                 sg_dynamic := if String.eqb (sa_dynamic attrs) "no" then false else true;
                 sg_s := sa_s attrs |}].

(** The local [tmp] of [getPriority]. *)
Definition signalRank (type : string) : Z :=
  let tmp := 1%Z in
  let tmp := if String.eqb type "301" || String.eqb type "306" then 2%Z else tmp in
  let tmp := if String.eqb type "205" then 0%Z else tmp in
  tmp.

Definition isRight (dir : OpenDriveXMLTag) : bool :=
  match dir with OPENDRIVE_TAG_RIGHT => true | _ => false end.

Definition isLeft (dir : OpenDriveXMLTag) : bool :=
  match dir with OPENDRIVE_TAG_LEFT => true | _ => false end.

(** The body of the loop of [getPriority]. *)
Definition priorityStep (dir : OpenDriveXMLTag) (prio : Z) (sg : OpenDriveSignal) : Z :=
  let tmp := signalRank (sg_type sg) in
  let prio1 := if negb (tmp =? 1)%Z && isRight dir && (0 <? sg_orientation sg)%Z
               then tmp else prio in
  let prio2 := if negb (tmp =? 1)%Z && isLeft dir && (sg_orientation sg <? 0)%Z
               then tmp else prio1 in
  prio2.

(** [OpenDriveEdge::getPriority]. *)
Definition getPriority (signals : list OpenDriveSignal) (dir : OpenDriveXMLTag) : Z :=
  fold_left (priorityStep dir) signals 1%Z.

(** A signal that bears on the priority of the given direction. *)
Definition counts (dir : OpenDriveXMLTag) (sg : OpenDriveSignal) : bool :=
  negb (signalRank (sg_type sg) =? 1)%Z
  && ((isRight dir && (0 <? sg_orientation sg)%Z)
      || (isLeft dir && (sg_orientation sg <? 0)%Z)).

(** The loop of the traffic-light phase of [loadNetwork] that looks for the
    lane section of a signal at [s]: it stops at the first section [k] with
    [k.s < s <= (k+1).s], or at the last section.  [None] stands for a road
    without sections, where [end() - 1] is undefined. *)
Fixpoint signalSection (s : Q) (laneSections : list OpenDriveLaneSection)
    : option OpenDriveLaneSection :=
  match laneSections with
  | [] => None
  | k :: rest =>
      match rest with
      | [] => Some k
      | k1 :: _ =>
          if Dbl.ltb (ls_s k) s && Dbl.leb s (ls_s k1) then Some k
          else signalSection s rest
      end
  end.

(** [k] and [next] follow one another in [secs]. *)
Definition adjacent (secs : list OpenDriveLaneSection) (k next : OpenDriveLaneSection) : Prop :=
  exists before after, secs = before ++ k :: next :: after.

End Signals.

(** ** Discretising lines, arcs and cubic polynomials *)

Module Curves.
Import Geometry.

(** [OpenDriveElevation], by the arguments its constructor is called with. *)
Record OpenDriveElevation : Type := {
  el_s : Q; el_a : Q; el_b : Q; el_c : Q; el_d : Q
}.

(** [hasNonLinearElevation]. *)
Definition hasNonLinearElevation (elevations : list OpenDriveElevation) : bool :=
  if (1 <? length elevations)%nat then true
  else existsb (fun el => negb (Dbl.eqb (el_c el) 0) || negb (Dbl.eqb (el_d el) 0)) elevations.

(** [lineRes] of [computeShapes]. *)
Definition lineRes (elevations : list OpenDriveElevation) (res : Q) : Q :=
  if hasNonLinearElevation elevations then res else (-1)%Q.

(** [ceil] of a [double], as an integer. *)
Definition ceil (a : Q) : Z := Qceiling a.

(** The greatest [int] to which 1 can be added. *)
Definition INT_MAX_1 : Z := 2147483646.

Section Trigonometry.

(** [cos] and [sin] of the C library. *)
Variables cos sin : Q -> Q.

(** [calculateStraightEndPoint]. *)
Definition calculateStraightEndPoint (hdg length : Q) (start : Position) : Position :=
  let normx := 1%Q in
  let normy := 0%Q in
  let x2 := (normx * cos hdg - normy * sin hdg)%Q in
  let y2 := (normx * sin hdg + normy * cos hdg)%Q in
  let normx := (x2 * length)%Q in
  let normy := (y2 * length)%Q in
  Position2 (px start + normx) (py start + normy).

(** [geomFromLine].  [None] stands for a number of points that does not fit
    an [int], where the cast or the addition of 1 is undefined. *)
Definition geomFromLine (g : OpenDriveGeometry) (resolution : Q) : option (list Position) :=
  let start := Position2 (g_x g) (g_y g) in
  let endp := calculateStraightEndPoint (g_hdg g) (g_length g) start in
  if Dbl.ltb 0 resolution && Dbl.ltb 0 (g_length g) then
    let n := ceil (g_length g / resolution) in
    if (n <=? INT_MAX_1)%Z then
      let numPoints := (n + 1)%Z in
      let dx := ((px endp - px start) / inject_Z (numPoints - 1))%Q in
      let dy := ((py endp - py start) / inject_Z (numPoints - 1))%Q in
      Some (map (fun i : nat => Position2 (g_x g + inject_Z (Z.of_nat i) * dx)
                                          (g_y g + inject_Z (Z.of_nat i) * dy))
                (seq 0 (Z.to_nat numPoints)))
    else None
  else Some [start; endp].

(** [calculateCurveCenter]: the new values of [*ad_x] and [*ad_y]. *)
Definition calculateCurveCenter (ad_x ad_y ad_radius ad_hdg : Q) : Q * Q :=
  let normX := 1%Q in
  let normY := 0%Q in
  let turn := if Dbl.ltb 0 ad_radius then (-1)%Q else 1%Q in
  let tmpX := normX in
  let normX := (normX * cos ad_hdg + normY * sin ad_hdg)%Q in
  let normY := (tmpX * sin ad_hdg + normY * cos ad_hdg)%Q in
  let tmpX := normX in
  let normX := (turn * normY)%Q in
  let normY := (- turn * tmpX)%Q in
  let normX := (Dbl.fabs ad_radius * normX)%Q in
  let normY := (Dbl.fabs ad_radius * normY)%Q in
  ((ad_x + normX)%Q, (ad_y + normY)%Q).

(** [calcPointOnCurve]: the new values of [*ad_x] and [*ad_y]. *)
Definition calcPointOnCurve (ad_x ad_y ad_centerX ad_centerY ad_r ad_length : Q) : Q * Q :=
  let rotAngle := (ad_length / Dbl.fabs ad_r)%Q in
  let vx := (ad_x - ad_centerX)%Q in
  let vy := (ad_y - ad_centerY)%Q in
  let turn := if Dbl.ltb 0 ad_r then (-1)%Q else 1%Q in
  let tmpx := vx in
  let vx := (vx * cos rotAngle + turn * vy * sin rotAngle)%Q in
  let vy := (-1 * turn * tmpx * sin rotAngle + vy * cos rotAngle)%Q in
  ((vx + ad_centerX)%Q, (vy + ad_centerY)%Q).

(** The locals of the loop of [geomFromArc]. *)
Record ArcState : Type := {
  arc_ret : list Position;
  arc_dist : Q;
  arc_endX : Q; arc_endY : Q;
  arc_startX : Q; arc_startY : Q;
  arc_posS : Q; arc_posE : Q
}.

(** The [do ... while (!end)] of [geomFromArc]; [None] when the fuel runs
    out before [end] is set. *)
Fixpoint arcLoop (fuel : nat) (g : OpenDriveGeometry) (resolution : Q)
    (centerX centerY radius : Q) (st : ArcState) : option (list Position) :=
  match fuel with
  | O => None
  | S fuel' =>
      let geo_posE := (arc_posE st + resolution)%Q in
      let geo_posE := if Dbl.ltb (g_length g) (geo_posE - g_s g)
                      then (g_s g + g_length g)%Q else geo_posE in
      let geo_posE := if Dbl.ltb (g_length g) (geo_posE - g_s g)
                      then (g_s g + g_length g)%Q else geo_posE in
      let '(endX, endY) :=
        calcPointOnCurve (arc_endX st) (arc_endY st) centerX centerY radius
                         (geo_posE - arc_posS st) in
      let dist := (arc_dist st + (geo_posE - arc_posS st))%Q in
      let ret := arc_ret st ++ [Position2 (arc_startX st) (arc_startY st)] in
      if Dbl.ltb (geo_posE - (g_s g + g_length g)) 0.001
         && Dbl.ltb (-0.001) (geo_posE - (g_s g + g_length g))
      then Some ret
      else arcLoop fuel' g resolution centerX centerY radius
                   {| arc_ret := ret; arc_dist := dist;
                      arc_endX := endX; arc_endY := endY;
                      arc_startX := endX; arc_startY := endY;
                      arc_posS := geo_posE; arc_posE := geo_posE |}
  end.

(** The vertices [geomFromArc] hands to [getSubpart2D].  [None] also stands
    for [g.params[0]] missing and for a curvature of 0, whose reciprocal is
    not a rational. *)
Definition arcVertices (fuel : nat) (g : OpenDriveGeometry) (resolution : Q)
    : option (list Position) :=
  match g_params g with
  | [] => None
  | curvature :: _ =>
      if Dbl.eqb curvature 0 then None
      else
        let radius := (1 / curvature)%Q in
        let '(centerX, centerY) := calculateCurveCenter (g_x g) (g_y g) radius (g_hdg g) in
        arcLoop fuel g resolution centerX centerY radius
                {| arc_ret := []; arc_dist := 0;
                   arc_endX := g_x g; arc_endY := g_y g;
                   arc_startX := g_x g; arc_startY := g_y g;
                   arc_posS := g_s g; arc_posE := g_s g |}
  end.

(** The body of the loop of [geomFromPoly]. *)
Definition polyPoint (g : OpenDriveGeometry) (p0 p1 p2 p3 : Q) (off : Q) : Position :=
  let s := sin (g_hdg g) in
  let c := cos (g_hdg g) in
  let x := off in
  let y := (p0 + p1 * off + p2 * (off * off) + p3 * (off * off * off))%Q in
  let xnew := (x * c - y * s)%Q in
  let ynew := (x * s + y * c)%Q in
  Position2 (g_x g + xnew) (g_y g + ynew).

(** The [for (double off = 0; off < g.length + 2.; off += resolution)] of
    [geomFromPoly]; [None] when the fuel runs out. *)
Fixpoint polyLoop (fuel : nat) (g : OpenDriveGeometry) (p0 p1 p2 p3 : Q) (resolution : Q)
    (off : Q) (ret : list Position) : option (list Position) :=
  match fuel with
  | O => None
  | S fuel' =>
      if Dbl.ltb off (g_length g + 2)%Q
      then polyLoop fuel' g p0 p1 p2 p3 resolution (off + resolution)%Q
                    (ret ++ [polyPoint g p0 p1 p2 p3 off])
      else Some ret
  end.

(** The vertices [geomFromPoly] hands to [getSubpart2D]; [None] also stands
    for fewer than four parameters. *)
Definition polyVertices (fuel : nat) (g : OpenDriveGeometry) (resolution : Q)
    : option (list Position) :=
  match g_params g with
  | p0 :: p1 :: p2 :: p3 :: _ => polyLoop fuel g p0 p1 p2 p3 resolution 0 []
  | _ => None
  end.

(** [PositionVector::getSubpart2D] of utils/geom. *)
Variable getSubpart2D : list Position -> Q -> Q -> list Position.

(** [geomFromArc] and [geomFromPoly]. *)
Definition geomFromArc (fuel : nat) (g : OpenDriveGeometry) (resolution : Q)
    : option (list Position) :=
  option_map (fun ret => getSubpart2D ret 0 (g_length g)) (arcVertices fuel g resolution).

Definition geomFromPoly (fuel : nat) (g : OpenDriveGeometry) (resolution : Q)
    : option (list Position) :=
  option_map (fun ret => getSubpart2D ret 0 (g_length g)) (polyVertices fuel g resolution).

End Trigonometry.

(** The number of passes through the loop of [geomFromArc], and through
    that of [geomFromPoly], under a positive resolution. *)
Definition arcSteps (g : OpenDriveGeometry) (resolution : Q) : nat :=
  Z.to_nat (Z.max 1 (Qfloor ((g_length g - 0.001) / resolution) + 1)).

Definition polySteps (g : OpenDriveGeometry) (resolution : Q) : nat :=
  Z.to_nat (ceil ((g_length g + 2) / resolution)).

End Curves.

(** ** Elevation of the vertices *)

Module Elevation.
Import Geometry Curves.

(** [Position::add(0, 0, z)] of utils/geom: the vertex raised by [z]. *)
Definition raise (z : Q) (p : Position) : Position :=
  {| px := px p; py := py p; pz := (pz p + z)%Q |}.

Section ZData.

(** [OpenDriveElevation::computeAt] of the header, and
    [Position::distanceTo2D] of utils/geom. *)
Variable computeAt : OpenDriveElevation -> Q -> Q.
Variable distanceTo2D : Position -> Position -> Q.

(** [pos < sNext], where [None] is [std::numeric_limits<double>::max()]. *)
Definition before (pos : Q) (sNext : option Q) : bool :=
  match sNext with
  | Some s => Dbl.ltb pos s
  | None => true
  end.

(** The [while (k < (int)e.geom.size() && pos < sNext)] of "add z-data" for
    one elevation record, on the vertices from [k] on: the vertices it
    raises, those it leaves, and [pos].  The distance added to [pos] is
    taken from the vertex just raised to the next one. *)
Fixpoint raiseWhile (el : OpenDriveElevation) (sNext : option Q)
    (rest : list Position) (pos : Q) : list Position * list Position * Q :=
  match rest with
  | [] => ([], [], pos)
  | v :: rest' =>
      if before pos sNext then
        let v' := raise (computeAt el pos) v in
        let pos' := match rest' with
                    | [] => pos
                    | w :: _ => (pos + distanceTo2D v' w)%Q
                    end in
        let '(raised, remaining, posEnd) := raiseWhile el sNext rest' pos' in
        (v' :: raised, remaining, posEnd)
      else ([], rest, pos)
  end.

(** The loop over [e.elevations] of "add z-data". *)
Fixpoint addZData (elevations : list OpenDriveElevation) (rest : list Position) (pos : Q)
    : list Position :=
  match elevations with
  | [] => rest
  | el :: later =>
      let sNext := match later with
                   | [] => None
                   | next :: _ => Some (el_s next)
                   end in
      let '(raised, remaining, pos') := raiseWhile el sNext rest pos in
      raised ++ addZData later remaining pos'
  end.

(** "add z-data" of [computeShapes]: the loop starts from [pos = 0]. *)
Definition zData (elevations : list OpenDriveElevation) (geom : list Position)
    : list Position :=
  addZData elevations geom 0.

(** [v'] is [v] raised by the value of one of the elevation records. *)
Definition raisedBy (elevations : list OpenDriveElevation) (v v' : Position) : Prop :=
  exists el pos, el ∈ elevations /\ v' = raise (computeAt el pos) v.

End ZData.

End Elevation.

(** ** Splitting sections where a lane crosses the minimum width *)

Module Splits.
Import Lanes.

(** [OpenDriveWidth], by the arguments its constructor is called with. *)
Record OpenDriveWidth : Type := {
  w_s : Q; w_a : Q; w_b : Q; w_c : Q; w_d : Q
}.

(** A lane together with its [widthData], the member the record
    [OpenDriveLane] above leaves out. *)
Record WidthLane : Type := {
  wl_lane : OpenDriveLane;
  wl_widthData : list OpenDriveWidth
}.

(** A lane section whose lanes carry their [widthData]: the three vectors
    below stand for [lanesByDir], the other members are those of
    [ws_sec]. *)
Record WidthSection : Type := {
  ws_sec : OpenDriveLaneSection;
  ws_left : list WidthLane;
  ws_center : list WidthLane;
  ws_right : list WidthLane
}.

Definition set_width (w : Q) (l : WidthLane) : WidthLane :=
  {| wl_lane := {| lane_id := lane_id (wl_lane l); lane_level := lane_level (wl_lane l);
                   lane_type := lane_type (wl_lane l);
                   lane_successor := lane_successor (wl_lane l);
                   lane_predecessor := lane_predecessor (wl_lane l);
                   lane_speeds := lane_speeds (wl_lane l);
                   lane_speed := lane_speed (wl_lane l); lane_width := w |};
     wl_widthData := wl_widthData l |}.

(** [setStraightConnections], for one lane and for a vector of lanes. *)
Definition straighten (l : WidthLane) : WidthLane :=
  {| wl_lane := {| lane_id := lane_id (wl_lane l); lane_level := lane_level (wl_lane l);
                   lane_type := lane_type (wl_lane l);
                   lane_successor := lane_successor (wl_lane l);
                   lane_predecessor := lane_id (wl_lane l);
                   lane_speeds := lane_speeds (wl_lane l);
                   lane_speed := lane_speed (wl_lane l);
                   lane_width := lane_width (wl_lane l) |};
     wl_widthData := wl_widthData l |}.

Definition setStraightConnections (lanes : list WidthLane) : list WidthLane :=
  map straighten lanes.

(** [std::sort] on a vector of [double]s, as an insertion sort. *)
Fixpoint insertSorted (x : Q) (l : list Q) : list Q :=
  match l with
  | [] => [x]
  | y :: l' => if Dbl.ltb x y then x :: l else y :: insertSorted x l'
  end.

Definition sortPositions (l : list Q) : list Q := fold_right insertSorted [] l.

Section MinWidth.

(** [OpenDriveWidth::computeAt] of the header; the constants [POSITION_EPS],
    [SVC_PEDESTRIAN] and [SVC_BICYCLE] of other headers; the option
    [opendrive.min-width]. *)
Variable computeAt : OpenDriveWidth -> Q -> Q.
Variable POSITION_EPS : Q.
Variables SVC_PEDESTRIAN SVC_BICYCLE : Z.
Variable myMinWidth : Q.

(** The [while (wSplit > myMinWidth)] of [findWidthSplit]: the split
    position it ends with, [None] when the fuel runs out.  [wider] is
    [wPrev < myMinWidth]. *)
Fixpoint refineSplit (fuel : nat) (wd : OpenDriveWidth) (wider : bool)
    (sPrev sEnd splitPos : Q) : option Q :=
  match fuel with
  | O => None
  | S fuel' =>
      if Dbl.ltb myMinWidth (computeAt wd splitPos) then
        if wider then
          let splitPos := (splitPos - POSITION_EPS)%Q in
          if Dbl.ltb splitPos sPrev then Some sPrev
          else refineSplit fuel' wd wider sPrev sEnd splitPos
        else
          let splitPos := (splitPos + POSITION_EPS)%Q in
          if Dbl.ltb sEnd splitPos then Some sEnd
          else refineSplit fuel' wd wider sPrev sEnd splitPos
      else Some splitPos
  end.

(** What the loop ends with: a position where the lane is no wider than
    the minimum, or the end of the entry it was moving to. *)
Definition refined (wd : OpenDriveWidth) (wider : bool) (sPrev sEnd r : Q) : Prop :=
  (computeAt wd r <= myMinWidth)%Q \/ r = (if wider then sPrev else sEnd).

(** The test that the width crosses the minimum between the two ends of a
    width entry. *)
Definition crosses (wPrev w : Q) : bool :=
  (Dbl.ltb wPrev myMinWidth && Dbl.ltb myMinWidth w)
  || (Dbl.ltb myMinWidth wPrev && Dbl.ltb w myMinWidth).

(** The body of the loop over the width entries of one lane: the split
    position pushed, if any, relative to the start of the section.
    [sEnd] is the start of the next entry or the length of the section. *)
Definition widthSplit (fuel : nat) (wd : OpenDriveWidth) (sPrev wPrev sEnd : Q)
    : option (option Q) :=
  let w := computeAt wd sEnd in
  let changeDist := Dbl.fabs (myMinWidth - wPrev) in
  if crosses wPrev w then
    let splitPos := (sPrev + (sEnd - sPrev) / Dbl.fabs (w - wPrev) * changeDist)%Q in
    match refineSplit fuel wd (Dbl.ltb wPrev myMinWidth) sPrev sEnd splitPos with
    | Some p => Some (Some p)
    | None => None
    end
  else Some None.

(** The loop over the width entries of one lane. *)
Fixpoint laneSplits (fuel : nat) (widthData : list OpenDriveWidth)
    (sectionStart sectionEnd : Q) (sPrev wPrev : Q) (splitPositions : list Q)
    : option (list Q) :=
  match widthData with
  | [] => Some splitPositions
  | it_w :: later =>
      let sEnd := match later with
                  | next :: _ => w_s next
                  | [] => (sectionEnd - sectionStart)%Q
                  end in
      match widthSplit fuel it_w sPrev wPrev sEnd with
      | None => None
      | Some found =>
          laneSplits fuel later sectionStart sectionEnd sEnd (computeAt it_w sEnd)
                     (match found with
                      | Some splitPos => splitPositions ++ [(sectionStart + splitPos)%Q]
                      | None => splitPositions
                      end)
      end
  end.

(** The test a lane passes to be looked at by [findWidthSplit]. *)
Definition inspected (tc : NBTypeCont) (l : WidthLane) : bool :=
  let permissions := Z.land (getPermissions tc (lane_type (wl_lane l)))
                            (Z.lnot (Z.lor SVC_PEDESTRIAN SVC_BICYCLE)) in
  negb (Nat.eqb (length (wl_widthData l)) 0)
  && knows tc (lane_type (wl_lane l))
  && negb (getShallBeDiscarded tc (lane_type (wl_lane l)))
  && negb (Z.eqb permissions 0).

(** [findWidthSplit]. *)
Fixpoint findWidthSplit (fuel : nat) (tc : NBTypeCont) (lanes : list WidthLane)
    (sectionStart sectionEnd : Q) (splitPositions : list Q) : option (list Q) :=
  match lanes with
  | [] => Some splitPositions
  | l :: later =>
      match (if inspected tc l then
               match wl_widthData l with
               | [] => Some splitPositions
               | front :: _ =>
                   laneSplits fuel (wl_widthData l) sectionStart sectionEnd
                              (w_s front) (computeAt front (w_s front)) splitPositions
               end
             else Some splitPositions) with
      | None => None
      | Some positions => findWidthSplit fuel tc later sectionStart sectionEnd positions
      end
  end.

(** The loop of [splitMinWidths] that erases the splits too close to the
    previous one or to the end of the section, and those before the
    section: the splits it keeps. *)
Fixpoint keepSplits (s sectionEnd minDist : Q) (prevSplit : Q) (splitPositions : list Q)
    : list Q :=
  match splitPositions with
  | [] => []
  | it :: later =>
      if Dbl.ltb (it - prevSplit) minDist || Dbl.ltb (sectionEnd - it) minDist
      then keepSplits s sectionEnd minDist prevSplit later
      else if Dbl.ltb it s
      then keepSplits s sectionEnd minDist prevSplit later
      else it :: keepSplits s sectionEnd minDist it later
  end.

(** The four samples [recomputeWidths] takes of one width entry. *)
Definition sampleWidth (it_w : OpenDriveWidth) (start endp sectionStart : Q)
    (sPrev sEnd : Q) (width : Q) : Q :=
  let sPrevAbs := (sPrev + sectionStart)%Q in
  let sEndAbs := (sEnd + sectionStart)%Q in
  let width := if Dbl.leb sPrevAbs start && Dbl.leb start sEndAbs
               then Dbl.MAX2 width (computeAt it_w (start - sectionStart)) else width in
  let width := if Dbl.leb sPrevAbs endp && Dbl.leb endp sEndAbs
               then Dbl.MAX2 width (computeAt it_w (endp - sectionStart)) else width in
  let width := if Dbl.leb start sPrevAbs && Dbl.leb sPrevAbs endp
               then Dbl.MAX2 width (computeAt it_w sPrev) else width in
  let width := if Dbl.leb start sEndAbs && Dbl.leb sEndAbs endp
               then Dbl.MAX2 width (computeAt it_w sEnd) else width in
  width.

(** The loop of [recomputeWidths] over the width entries of one lane. *)
Fixpoint sampleWidths (widthData : list OpenDriveWidth)
    (start endp sectionStart sectionEnd : Q) (sPrev : Q) (width : Q) : Q :=
  match widthData with
  | [] => width
  | it_w :: later =>
      let sEnd := match later with
                  | next :: _ => w_s next
                  | [] => (sectionEnd - sectionStart)%Q
                  end in
      sampleWidths later start endp sectionStart sectionEnd sEnd
                   (sampleWidth it_w start endp sectionStart sPrev sEnd width)
  end.

(** [recomputeWidths] on a vector of lanes. *)
Definition recomputeLaneWidths (lanes : list WidthLane)
    (start endp sectionStart sectionEnd : Q) : list WidthLane :=
  map (fun l =>
         match wl_widthData l with
         | [] => l
         | front :: _ =>
             set_width (sampleWidths (wl_widthData l) start endp sectionStart sectionEnd
                                     (w_s front) 0) l
         end) lanes.

(** [recomputeWidths] on a section. *)
Definition recomputeWidths (sec : WidthSection) (start endp sectionStart sectionEnd : Q)
    : WidthSection :=
  {| ws_sec := ws_sec sec;
     ws_left := if (0 <? ls_leftLaneNumber (ws_sec sec))%Z
                then recomputeLaneWidths (ws_left sec) start endp sectionStart sectionEnd
                else ws_left sec;
     ws_center := ws_center sec;
     ws_right := if (0 <? ls_rightLaneNumber (ws_sec sec))%Z
                 then recomputeLaneWidths (ws_right sec) start endp sectionStart sectionEnd
                 else ws_right sec |}.

(** The section pushed for the split at [it]; [endp] is the next split or
    the end of the section. *)
Definition splitAt (sec : WidthSection) (sectionEnd : Q) (it endp : Q) : WidthSection :=
  let secNew := {| ws_sec := with_s it (ws_sec sec);
                   ws_left := if (0 <? ls_leftLaneNumber (ws_sec sec))%Z
                              then setStraightConnections (ws_left sec) else ws_left sec;
                   ws_center := ws_center sec;
                   ws_right := if (0 <? ls_rightLaneNumber (ws_sec sec))%Z
                               then setStraightConnections (ws_right sec)
                               else ws_right sec |} in
  recomputeWidths secNew it endp (ls_sOrig (ws_sec sec)) sectionEnd.

Fixpoint splitsAt (sec : WidthSection) (sectionEnd : Q) (splitPositions : list Q)
    : list WidthSection :=
  match splitPositions with
  | [] => []
  | it :: later =>
      let endp := match later with
                  | next :: _ => next
                  | [] => sectionEnd
                  end in
      splitAt sec sectionEnd it endp :: splitsAt sec sectionEnd later
  end.

(** The body of the loop of [splitMinWidths] for one section: the sections
    pushed to [newSections]. *)
Definition splitSection (fuel : nat) (tc : NBTypeCont) (sec : WidthSection)
    (sectionEnd minDist : Q) : option (list WidthSection) :=
  match (if (0 <? ls_rightLaneNumber (ws_sec sec))%Z
         then findWidthSplit fuel tc (ws_right sec) (ls_sOrig (ws_sec sec)) sectionEnd []
         else Some []) with
  | None => None
  | Some fromRight =>
      match (if (0 <? ls_leftLaneNumber (ws_sec sec))%Z
             then findWidthSplit fuel tc (ws_left sec) (ls_sOrig (ws_sec sec)) sectionEnd
                                 fromRight
             else Some fromRight) with
      | None => None
      | Some found =>
          let splitPositions :=
            keepSplits (ls_s (ws_sec sec)) sectionEnd minDist (ls_s (ws_sec sec))
                       (sortPositions found) in
          Some match splitPositions with
               | [] => [sec]
               | front :: _ =>
                   recomputeWidths sec (ls_sOrig (ws_sec sec)) front
                                   (ls_sOrig (ws_sec sec)) sectionEnd
                   :: splitsAt sec sectionEnd splitPositions
               end
      end
  end.

(** [splitMinWidths]: the new [laneSections] of a road of the given
    length. *)
Fixpoint splitMinWidths (fuel : nat) (tc : NBTypeCont) (laneSections : list WidthSection)
    (length minDist : Q) : option (list WidthSection) :=
  match laneSections with
  | [] => Some []
  | sec :: later =>
      let sectionEnd := match later with
                        | next :: _ => ls_s (ws_sec next)
                        | [] => length
                        end in
      match splitSection fuel tc sec sectionEnd minDist,
            splitMinWidths fuel tc later length minDist with
      | Some here, Some there => Some (here ++ there)
      | _, _ => None
      end
  end.

End MinWidth.

(** A computation bounded by fuel that, from [fuel] on, yields [r]. *)
Definition settles {A : Type} (f : nat -> option A) (r : A) (fuel : nat) : Prop :=
  forall fuel', (fuel <= fuel')%nat -> f fuel' = Some r.

(** The arclengths at which the sections of a list start. *)
Definition starts (secs : list WidthSection) : list Q :=
  map (fun sec => ls_s (ws_sec sec)) secs.

(** Each element lies at least [minDist] after the one before it, the
    first one after [prev]. *)
Fixpoint spaced (minDist : Q) (prev : Q) (l : list Q) : Prop :=
  match l with
  | [] => True
  | x :: l' => (prev + minDist <= x)%Q /\ spaced minDist x l'
  end.

(** What [recomputeWidths] does to one lane: a lane without width data is
    left as it is; a lane with width data changes in its width only, which
    becomes 0 or a value of one of its width entries, and is not
    negative. *)
Definition rewidened (computeAt : OpenDriveWidth -> Q -> Q) (l l' : WidthLane) : Prop :=
  (wl_widthData l = [] -> l' = l)
  /\ set_width 0 l' = set_width 0 l
  /\ (wl_widthData l <> [] ->
      (0 <= lane_width (wl_lane l'))%Q
      /\ (lane_width (wl_lane l') = 0%Q
          \/ exists wd pos, wd ∈ wl_widthData l
                            /\ lane_width (wl_lane l') = computeAt wd pos)).

(** Two lanes that differ at most in their width and predecessor, and two
    sections that differ at most in their start and in the widths and
    predecessors of their lanes. *)
Definition sameLaneBut (a b : WidthLane) : Prop :=
  straighten (set_width 0 a) = straighten (set_width 0 b).

Definition sameSectionBut (a b : WidthSection) : Prop :=
  with_s 0 (ws_sec a) = with_s 0 (ws_sec b)
  /\ Forall2 sameLaneBut (ws_left a) (ws_left b)
  /\ ws_center a = ws_center b
  /\ Forall2 sameLaneBut (ws_right a) (ws_right b).

End Splits.

(** ** Reading the plan view of a road *)

Module PlanView.
Import Handler Geometry.

(** The [ProcessError]s of [addGeometryShape], by their message. *)
Inductive ShapeError : Type :=
| MismatchingParanthesis (road : string)
| DoubleGeometry (road : string).

Inductive PlanWarning : Type :=
| InvalidPRange (pRange road : string).

Definition isUnknown (t : GeometryType) : bool :=
  match t with OPENDRIVE_GT_UNKNOWN => true | _ => false end.

Definition set_shape (type : GeometryType) (vals : list Q) (g : OpenDriveGeometry)
    : OpenDriveGeometry :=
  {| g_length := g_length g; g_s := g_s g; g_x := g_x g; g_y := g_y g; g_hdg := g_hdg g;
     g_type := type; g_params := vals |}.

(** [addGeometryShape], acting on the [geometries] of the current road. *)
Definition addGeometryShape (id : string) (type : GeometryType) (vals : list Q)
    (geometries : list OpenDriveGeometry) : ShapeError + list OpenDriveGeometry :=
  match rev geometries with
  | [] => inl (MismatchingParanthesis id)
  | back :: before =>
      if negb (isUnknown (g_type back)) then inl (DoubleGeometry id)
      else inr (rev before ++ [set_shape type vals back])
  end.

(** The elements of the plan view, with the attributes read for them;
    [pRange] is optional. *)
Inductive PlanElement : Type :=
| GeometryElement (length s x y hdg : Q)
| LineElement
| SpiralElement (curvStart curvEnd : Q)
| ArcElement (curvature : Q)
| Poly3Element (a b c d : Q)
| ParamPoly3Element (aU bU cU dU aV bV cV dV : Q) (pRange : option string).

(** [myElementStack.size() > 0 && myElementStack.back() == OPENDRIVE_TAG_GEOMETRY]. *)
Definition insideGeometry (stack : list OpenDriveXMLTag) : bool :=
  (0 <? length stack)%nat &&
  match List.last stack OPENDRIVE_TAG_NOTHING with
  | OPENDRIVE_TAG_GEOMETRY => true
  | _ => false
  end.

(** The last value pushed for a [paramPoly3] element. *)
Definition pRangeValue (pRange road : string) : list PlanWarning * Q :=
  if String.eqb pRange "normalized" then ([], 1%Q)
  else if String.eqb pRange "arcLength" then ([], inject_Z (-1))
  else ([InvalidPRange pRange road], 1%Q).

Section Constructor.

(** The constructor of [OpenDriveGeometry], of the header. *)
Variable newGeometry : Q -> Q -> Q -> Q -> Q -> OpenDriveGeometry.

(** The cases of [myStartElement] from [OPENDRIVE_TAG_GEOMETRY] to
    [OPENDRIVE_TAG_PARAMPOLY3], acting on the [geometries] of the current
    road [id]; [stack] is [myElementStack], its top last. *)
Definition startPlanElement (id : string) (stack : list OpenDriveXMLTag) (el : PlanElement)
    (geometries : list OpenDriveGeometry)
    : list PlanWarning * (ShapeError + list OpenDriveGeometry) :=
  match el with
  | GeometryElement length s x y hdg =>
      ([], inr (geometries ++ [newGeometry length s x y hdg]))
  | LineElement =>
      if insideGeometry stack
      then ([], addGeometryShape id OPENDRIVE_GT_LINE [] geometries)
      else ([], inr geometries)
  | SpiralElement curvStart curvEnd =>
      ([], addGeometryShape id OPENDRIVE_GT_SPIRAL [curvStart; curvEnd] geometries)
  | ArcElement curvature =>
      ([], addGeometryShape id OPENDRIVE_GT_ARC [curvature] geometries)
  | Poly3Element a b c d =>
      ([], addGeometryShape id OPENDRIVE_GT_POLY3 [a; b; c; d] geometries)
  | ParamPoly3Element aU bU cU dU aV bV cV dV pRange =>
      let '(warnings, last) := pRangeValue (default "normalized" pRange) id in
      (warnings,
       addGeometryShape id OPENDRIVE_GT_PARAMPOLY3 [aU; bU; cU; dU; aV; bV; cV; dV; last]
                        geometries)
  end.

(** A run of plan-view elements of one road, each with the element stack it
    is met under; the run ends at the first error thrown. *)
Fixpoint startPlanElements (id : string) (events : list (list OpenDriveXMLTag * PlanElement))
    (geometries : list OpenDriveGeometry)
    : list PlanWarning * (ShapeError + list OpenDriveGeometry) :=
  match events with
  | [] => ([], inr geometries)
  | (stack, el) :: later =>
      match startPlanElement id stack el geometries with
      | (warnings, inl e) => (warnings, inl e)
      | (warnings, inr geometries') =>
          let '(warnings', r) := startPlanElements id later geometries' in
          (warnings ++ warnings', r)
      end
  end.

End Constructor.

(** The number of entries of [g.params] the function called by
    [computeShapes] for a segment of the given type reads: [geomFromSpiral]
    reads [params[0]] and [params[1]], [geomFromArc] [params[0]],
    [geomFromPoly] [params[0]] to [params[3]], [geomFromParamPoly]
    [params[0]] to [params[8]]. *)
Definition paramsRead (t : GeometryType) : nat :=
  match t with
  | OPENDRIVE_GT_UNKNOWN => 0
  | OPENDRIVE_GT_LINE => 0
  | OPENDRIVE_GT_SPIRAL => 2
  | OPENDRIVE_GT_ARC => 1
  | OPENDRIVE_GT_POLY3 => 4
  | OPENDRIVE_GT_PARAMPOLY3 => 9
  end.

(** A segment whose shape is known holds exactly the parameters read for
    it, the last of a [paramPoly3] being 1 or -1. *)
Definition fits (g : OpenDriveGeometry) : Prop :=
  isUnknown (g_type g) = false ->
  length (g_params g) = paramsRead (g_type g)
  /\ (g_type g = OPENDRIVE_GT_PARAMPOLY3 ->
      nth 8 (g_params g) 0%Q = 1%Q \/ nth 8 (g_params g) 0%Q = inject_Z (-1)).

(** The number of segments whose shape is known. *)
Definition shaped (geometries : list OpenDriveGeometry) : nat :=
  length (List.filter (fun g => negb (isUnknown (g_type g))) geometries).

(** The events that push a segment, and those that call
    [addGeometryShape]. *)
Definition opens (ev : list OpenDriveXMLTag * PlanElement) : bool :=
  match snd ev with
  | GeometryElement _ _ _ _ _ => true
  | _ => false
  end.

Definition shapes (ev : list OpenDriveXMLTag * PlanElement) : bool :=
  match snd ev with
  | GeometryElement _ _ _ _ _ => false
  | LineElement => insideGeometry (fst ev)
  | _ => true
  end.

End PlanView.

(** ** Road objects and their repetition *)

Module Objects.

(** [OpenDriveObject]. *)
Record OpenDriveObject : Type := {
  o_type : string;
  o_name : string;
  o_id : string;
  o_s : Q;
  o_t : Q;
  o_width : Q;
  o_length : Q;
  o_radius : Q;
  o_hdg : Q
}.

(** The attributes a [repeat] element is read for. *)
Record RepeatAttrs : Type := {
  ra_distance : Q;
  ra_length : Q;
  ra_s : option Q;
  ra_widthStart : option Q;
  ra_widthEnd : option Q;
  ra_tStart : option Q;
  ra_tEnd : option Q
}.

(** The message of [WRITE_ERROR]. *)
Inductive ObjectMessage : Type :=
| RepeatWithoutObject (road : string).

Definition set_id (id : string) (o : OpenDriveObject) : OpenDriveObject :=
  {| o_type := o_type o; o_name := o_name o; o_id := id; o_s := o_s o; o_t := o_t o;
     o_width := o_width o; o_length := o_length o; o_radius := o_radius o;
     o_hdg := o_hdg o |}.

Definition set_s (s : Q) (o : OpenDriveObject) : OpenDriveObject :=
  {| o_type := o_type o; o_name := o_name o; o_id := o_id o; o_s := s; o_t := o_t o;
     o_width := o_width o; o_length := o_length o; o_radius := o_radius o;
     o_hdg := o_hdg o |}.

Definition set_width_t (width t : Q) (o : OpenDriveObject) : OpenDriveObject :=
  {| o_type := o_type o; o_name := o_name o; o_id := o_id o; o_s := o_s o; o_t := t;
     o_width := width; o_length := o_length o; o_radius := o_radius o;
     o_hdg := o_hdg o |}.

Section Repeat.

(** [NUMERICAL_EPS] of utils/common/StdDefs.h, [toString] on [int] of
    utils/common/ToString.h, and the option [opendrive.curve-resolution]. *)
Variable NUMERICAL_EPS : Q.
Variable toString : Z -> string.
Variable curveResolution : Q.

(** The [for (double x = 0; x <= length + NUMERICAL_EPS; x += dist)] of
    [case OPENDRIVE_TAG_REPEAT].  [None] when the fuel runs out; it also
    stands for a pass under a [length] of 0, where [x / length] is not a
    number. *)
Fixpoint repeatLoop (fuel : nat) (baseID : string)
    (dist length wStart wEnd tStart tEnd : Q)
    (x : Q) (index : Z) (o : OpenDriveObject) (objects : list OpenDriveObject)
    : option (list OpenDriveObject) :=
  match fuel with
  | O => None
  | S fuel' =>
      if Dbl.leb x (length + NUMERICAL_EPS) then
        if Dbl.eqb length 0 then None
        else
          let o := set_id (baseID ++ "#" ++ toString index)%string o in
          let a := (x / length)%Q in
          let o := set_width_t (wStart * (1 - a) + wEnd * a)%Q
                               (tStart * (1 - a) + tEnd * a)%Q o in
          repeatLoop fuel' baseID dist length wStart wEnd tStart tEnd
                     (x + dist)%Q (index + 1)%Z (set_s (o_s o + dist)%Q o) (objects ++ [o])
      else Some objects
  end.

(** The distance between two repetitions. *)
Definition repeatDistance (attrs : RepeatAttrs) : Q :=
  if Dbl.eqb (ra_distance attrs) 0 then curveResolution else ra_distance attrs.

(** [case OPENDRIVE_TAG_REPEAT] of [myStartElement], acting on the
    [objects] of the current road. *)
Definition startRepeat (fuel : nat) (road : string) (attrs : RepeatAttrs)
    (objects : list OpenDriveObject)
    : list ObjectMessage * option (list OpenDriveObject) :=
  match rev objects with
  | [] => ([RepeatWithoutObject road], Some objects)
  | back :: before =>
      let o := back in
      let baseID := o_id o in
      let dist := repeatDistance attrs in
      let objects := rev before in
      let length := ra_length attrs in
      let o := set_s (default (o_s o) (ra_s attrs)) o in
      let wStart := default (o_width o) (ra_widthStart attrs) in
      let wEnd := default (o_width o) (ra_widthEnd attrs) in
      let tStart := default (o_t o) (ra_tStart attrs) in
      let tEnd := default (o_t o) (ra_tEnd attrs) in
      ([], repeatLoop fuel baseID dist length wStart wEnd tStart tEnd 0%Q 0%Z o objects)
  end.

(** The number of passes through the loop under a positive distance. *)
Definition repeatSteps (attrs : RepeatAttrs) : nat :=
  if Dbl.ltb (ra_length attrs + NUMERICAL_EPS) 0 then 0%nat
  else Z.to_nat (Qfloor ((ra_length attrs + NUMERICAL_EPS) / repeatDistance attrs) + 1).

(** The [i]-th repetition of [o] from [s] on, [dist] apart: what it takes
    from [o] and from its place in the series. *)
Definition repetition (o : OpenDriveObject) (s dist : Q) (i : nat) (r : OpenDriveObject)
    : Prop :=
  o_id r = (o_id o ++ "#" ++ toString (Z.of_nat i))%string
  /\ (o_s r == s + inject_Z (Z.of_nat i) * dist)%Q
  /\ o_type r = o_type o /\ o_name r = o_name o
  /\ o_length r = o_length o /\ o_radius r = o_radius o /\ o_hdg r = o_hdg o.

End Repeat.

End Objects.

(** ** Setting the lane-to-lane connections *)

Module Wiring.
Import Ident Lanes Geometry Topology Emitter.

(** The warnings of the loop; the one for an edge that is not found reads
    "Could not find fromEdge representation" for either edge. *)
Inductive WiringWarning : Type :=
| FromEdgeNotKnown (edge : string)
| ToEdgeNotKnown (edge : string)
| NoFromEdgeRepresentation (edge origID : string).

(** What [addLane2LaneConnection] is called with: the edge it is called
    on, and the arguments that are not constants. *)
Record Lane2Lane : Type := {
  l2l_from : string;
  l2l_fromLane : Z;
  l2l_to : string;
  l2l_toLane : Z;
  l2l_shape : list Position
}.

Definition atEnd (cp : ContactPoint) : bool :=
  match cp with OPENDRIVE_CP_END => true | _ => false end.

(** [laneSections.back()] when [last] holds, [laneSections[0]] otherwise;
    [None] for a road without lane sections, where both are undefined. *)
Definition sectionFor (last : bool) (e : OpenDriveEdge) : option OpenDriveLaneSection :=
  if last then List.last (map Some (ed_laneSections e)) None
  else head (ed_laneSections e).

(** [laneMap[lane]]: [operator[]] of [std::map] gives 0 for a lane the map
    does not hold; that it also adds the lane shows in no later read. *)
Definition laneMapAt (sec : OpenDriveLaneSection) (lane : Z) : Z :=
  default 0%Z (ls_laneMap sec !! lane).

(** Modelled from the spec: the edge container ([NBEdgeCont]) is an external
    collaborator; [retrieve] gives the edge of an identifier, [nullptr]
    when there is none. *)
Definition retrieve (ec : list NBEdge) (id : string) : option NBEdge :=
  List.find (fun x => String.eqb (nb_id x) id) ec.

Section SetConnections.

(** [UNSET_CONNECTION], a constant of the header. *)
Variable UNSET_CONNECTION : Z.

(** The body of the loop over [connections2] of [loadNetwork]: the
    warnings written and the connection added, if any.  [None] stands for
    a read of the first or last lane section of a road without lane
    sections.  The parameter [origID] set afterwards on the connection
    added bears on no edge or lane and is left out. *)
Definition setConnection (edges : gmap string OpenDriveEdge) (ec : list NBEdge)
    (c : Connection) : option (list WiringWarning * option Lane2Lane) :=
  let fromEdge := c_fromEdge c in
  match edges !! fromEdge with
  | None => Some ([FromEdgeNotKnown fromEdge], None)
  | Some odFrom =>
      let fromLane := c_fromLane c in
      let fromLast := atEnd (c_fromCP c) && (c_fromLane c <? 0)%Z in
      match sectionFor fromLast odFrom with
      | None => None
      | Some fromSec =>
          let fromEdge := ls_sumoID fromSec in
          let toEdge := c_toEdge c in
          match edges !! toEdge with
          | None => Some ([ToEdgeNotKnown toEdge], None)
          | Some odTo =>
              let toLane := c_toLane c in
              let toLast := atEnd (c_toCP c) || (0 <? c_toLane c)%Z in
              match sectionFor toLast odTo with
              | None => None
              | Some toSec =>
                  let toEdge := ls_sumoID toSec in
                  if (fromLane =? UNSET_CONNECTION)%Z then Some ([], None)
                  else
                    let fromEdge := if (fromLane <? 0)%Z then revertID fromEdge
                                    else fromEdge in
                    if (toLane =? UNSET_CONNECTION)%Z then Some ([], None)
                    else
                      let toEdge := if (toLane <? 0)%Z then revertID toEdge else toEdge in
                      let fromLane := laneMapAt fromSec fromLane in
                      let toLane := laneMapAt toSec toLane in
                      let from := retrieve ec fromEdge in
                      let to := retrieve ec toEdge in
                      let warnings :=
                        match from with
                        | Some _ => []
                        | None => [NoFromEdgeRepresentation fromEdge (c_origID c)]
                        end
                        ++ match to with
                           | Some _ => []
                           | None => [NoFromEdgeRepresentation toEdge (c_origID c)]
                           end in
                      match from, to with
                      | Some from, Some to =>
                          Some (warnings,
                                Some {| l2l_from := nb_id from; l2l_fromLane := fromLane;
                                        l2l_to := nb_id to; l2l_toLane := toLane;
                                        l2l_shape := c_shape c |})
                      | _, _ => Some (warnings, None)
                      end
              end
          end
      end
  end.

End SetConnections.

(** An identifier that begins with a minus sign. *)
Definition beginsWithMinus (id : string) : bool :=
  match id with
  | String c _ => Ascii.eqb c "-"
  | EmptyString => false
  end.

(** The edge of a lane section a connection at [lane] is meant for: the one
    built for its right lanes when [lane] is negative, for its left lanes
    otherwise. *)
Definition namesItsEdge (lane : Z) (sec : OpenDriveLaneSection) : bool :=
  if (lane <? 0)%Z
  then (0 <? ls_rightLaneNumber sec)%Z && negb (beginsWithMinus (ls_sumoID sec))
  else (0 <? ls_leftLaneNumber sec)%Z.

End Wiring.

(** ** Discretising parametric cubic polynomials *)

Module ParamPoly.
Import Geometry Curves.

Section Trigonometry.

(** [cos] and [sin] of the C library. *)
Variables cos sin : Q -> Q.

(** The body of the loop of [geomFromParamPoly]; [u] and [v] hold
    [params[0]] to [params[3]] and [params[4]] to [params[7]]. *)
Definition paramPolyPoint (g : OpenDriveGeometry) (u v : Q * Q * Q * Q) (p : Q) : Position :=
  let '(u0, u1, u2, u3) := u in
  let '(v0, v1, v2, v3) := v in
  let s := sin (g_hdg g) in
  let c := cos (g_hdg g) in
  let x := (u0 + u1 * p + u2 * (p * p) + u3 * (p * p * p))%Q in
  let y := (v0 + v1 * p + v2 * (p * p) + v3 * (p * p * p))%Q in
  let xnew := (x * c - y * s)%Q in
  let ynew := (x * s + y * c)%Q in
  Position2 (g_x g + xnew) (g_y g + ynew).

(** The [for (double p = 0; p <= pMax + pStep; p += pStep)] of
    [geomFromParamPoly]; [None] when the fuel runs out. *)
Fixpoint paramPolyLoop (fuel : nat) (g : OpenDriveGeometry) (u v : Q * Q * Q * Q)
    (pMax pStep : Q) (p : Q) (ret : list Position) : option (list Position) :=
  match fuel with
  | O => None
  | S fuel' =>
      if Dbl.leb p (pMax + pStep)%Q
      then paramPolyLoop fuel' g u v pMax pStep (p + pStep)%Q
                         (ret ++ [paramPolyPoint g u v p])
      else Some ret
  end.

(** The vertices [geomFromParamPoly] hands to [getSubpart2D].  [None] also
    stands for fewer than nine parameters, and for a resolution of 0 or a
    rounded quotient of 0, under which [pStep] is not a number. *)
Definition paramPolyVertices (fuel : nat) (g : OpenDriveGeometry) (resolution : Q)
    : option (list Position) :=
  match g_params g with
  | u0 :: u1 :: u2 :: u3 :: v0 :: v1 :: v2 :: v3 :: p8 :: _ =>
      let pMax := if Dbl.leb p8 0 then g_length g else p8 in
      if Dbl.eqb resolution 0 then None
      else
        let n := ceil (g_length g / resolution) in
        if (n =? 0)%Z then None
        else
          let pStep := (pMax / inject_Z n)%Q in
          paramPolyLoop fuel g (u0, u1, u2, u3) (v0, v1, v2, v3) pMax pStep 0 []
  | _ => None
  end.

(** [PositionVector::getSubpart2D] of utils/geom. *)
Variable getSubpart2D : list Position -> Q -> Q -> list Position.

(** [geomFromParamPoly]. *)
Definition geomFromParamPoly (fuel : nat) (g : OpenDriveGeometry) (resolution : Q)
    : option (list Position) :=
  option_map (fun ret => getSubpart2D ret 0 (g_length g))
             (paramPolyVertices fuel g resolution).

End Trigonometry.

(** The number of passes through the loop of [geomFromParamPoly], under a
    positive length and resolution. *)
Definition paramPolySteps (g : OpenDriveGeometry) (resolution : Q) : nat :=
  (Z.to_nat (ceil (g_length g / resolution)) + 2)%nat.

End ParamPoly.

(** ** Further sample inputs *)

Module MoreSamples.
Import Lanes Geometry Topology Samples.

(** Road "A" with one lane on each side and road "B" as its successor, and
    the table holding both roads. *)
Definition linkedRoadA : OpenDriveEdge :=
  plainRoad "A" 0 100 [successorRoad "B"]
            [sectionAt 0 [drivingLane 1 [] 3.5] [drivingLane (-1) [] 3.5]] None None.

Definition twoRoads : gmap string OpenDriveEdge :=
  <["A" := linkedRoadA]> (<["B" := roadB]> ∅).

Definition freshJunction : Links.JunctionState :=
  {| Links.myCurrentIncomingRoad := ""; Links.myCurrentConnectingRoad := "";
     Links.myCurrentContactPoint := OPENDRIVE_CP_UNKNOWN;
     Links.myConnectionWasEmpty := false;
     Links.myEdges := twoRoads; Links.myErrors := [] |}.

(** The junction "J" with its inner road "X", which leads from the end of
    "A" to the start of "B"; "A" names the junction as its successor, "B"
    names nothing. *)
Definition linkTo (lt : LinkType) (et : ElementType) (id : string) (cp : ContactPoint)
    : OpenDriveLink :=
  {| lk_linkType := lt; lk_elementID := id; lk_elementType := et; lk_contactPoint := cp |}.

Definition innerX : OpenDriveEdge :=
  {| ed_id := "X"; ed_streetName := ""; ed_junction := "J";
     ed_length := 10; ed_isInner := true;
     ed_links := [linkTo OPENDRIVE_LT_PREDECESSOR OPENDRIVE_ET_ROAD "A" OPENDRIVE_CP_END;
                  linkTo OPENDRIVE_LT_SUCCESSOR OPENDRIVE_ET_ROAD "B" OPENDRIVE_CP_START];
     ed_geom := [Position2 100 0; Position2 110 0];
     ed_laneSections := [sectionAt 0 [] [drivingLane (-1) [] 3.5]];
     ed_from := None; ed_to := None; ed_connections := [] |}.

Definition outerA : OpenDriveEdge :=
  plainRoad "A" 0 100
            [linkTo OPENDRIVE_LT_SUCCESSOR OPENDRIVE_ET_JUNCTION "J" OPENDRIVE_CP_UNKNOWN]
            [sectionAt 0 [] [drivingLane (-1) [] 3.5]] None None.

Definition outerB : OpenDriveEdge :=
  plainRoad "B" 110 200 [] [sectionAt 0 [] [drivingLane (-1) [] 3.5]] None None.

Definition junctionNode : gmap string Position := {["J" := Position2 105 0]}.

(** A catalogue that knows driving lanes and sidewalks and discards
    shoulders, and a section with a shoulder and a driving lane on the
    left, and a driving lane and a sidewalk on the right. *)
Definition walkCatalogue : NBTypeCont :=
  {| getSpeed := fun _ => 13.89%Q; getWidth := fun _ => 3.2%Q;
     getPermissions := fun _ => 64%Z; getWidthResolution := fun _ => 0.1%Q;
     getMaxWidth := fun _ => 0%Q;
     knows := fun t => String.eqb t "driving" || String.eqb t "sidewalk"
                       || String.eqb t "shoulder";
     getShallBeDiscarded := fun t => String.eqb t "shoulder" |}.

Definition typedLane (id : Z) (type : string) (predecessor : Z) : OpenDriveLane :=
  {| lane_id := id; lane_level := ""; lane_type := type;
     lane_successor := id; lane_predecessor := predecessor;
     lane_speeds := []; lane_speed := 0; lane_width := 3 |}.

Definition mixedSection : OpenDriveLaneSection :=
  sectionAt 0 [typedLane 2 "shoulder" 2; typedLane 1 "driving" 1]
              [typedLane (-1) "driving" (-1); typedLane (-2) "sidewalk" (-2)].

Definition mappedSection : OpenDriveLaneSection :=
  Mapping.buildLaneMapping false walkCatalogue mixedSection.

(** A value for [UNSET_CONNECTION]. *)
Definition unsetLane : Z := 100000.

(** A lane known by its identifier and its successor. *)
Definition chainLane (id successor : Z) : OpenDriveLane :=
  {| lane_id := id; lane_level := ""; lane_type := "driving";
     lane_successor := successor; lane_predecessor := id;
     lane_speeds := []; lane_speed := 0; lane_width := 3 |}.

(** A catalogue with a width resolution of one metre. *)
Definition coarseCatalogue : NBTypeCont :=
  {| getSpeed := fun _ => 13.89%Q; getWidth := fun _ => 3.2%Q;
     getPermissions := fun _ => 64%Z; getWidthResolution := fun _ => 1%Q;
     getMaxWidth := fun _ => 0%Q;
     knows := fun _ => true; getShallBeDiscarded := fun _ => false |}.

(** Stand-ins for [cos] and [sin] that agree with them at 0, the heading of
    the sample segments; an arc of curvature 0.1 and a cubic polynomial,
    both 10 m long. *)
Definition unitCos (_ : Q) : Q := 1.
Definition unitSin (_ : Q) : Q := 0.

Definition arcSample : OpenDriveGeometry := segment OPENDRIVE_GT_ARC 0 0 10 [0.1%Q].

Definition polySample : OpenDriveGeometry :=
  segment OPENDRIVE_GT_POLY3 0 0 10 [0%Q; 0%Q; 0.01%Q; 0%Q].

(** An elevation record of constant height [a] from [s] on. *)
Definition levelAt (s a : Q) : Curves.OpenDriveElevation :=
  {| Curves.el_s := s; Curves.el_a := a; Curves.el_b := 0;
     Curves.el_c := 0; Curves.el_d := 0 |}.

(** A stand-in for [OpenDriveWidth::computeAt] that reads the entry as the
    line a + b (pos - s), and a width entry that tapers from 3 m by 0.2 m
    per metre. *)
Definition linearWidth (w : Splits.OpenDriveWidth) (pos : Q) : Q :=
  (Splits.w_a w + Splits.w_b w * (pos - Splits.w_s w))%Q.

Definition taper : Splits.OpenDriveWidth :=
  {| Splits.w_s := 0; Splits.w_a := 3; Splits.w_b := -0.2;
     Splits.w_c := 0; Splits.w_d := 0 |}.

(** A section of one right lane whose width follows [taper]. *)
Definition taperSection : Splits.WidthSection :=
  {| Splits.ws_sec := sectionAt 0 [] [drivingLane (-1) [] 3];
     Splits.ws_left := []; Splits.ws_center := [];
     Splits.ws_right := [{| Splits.wl_lane := drivingLane (-1) [] 3;
                            Splits.wl_widthData := [taper] |}] |}.


(** The constructor of a segment, its shape not yet known. *)
Definition plainGeometry (length s x y hdg : Q) : OpenDriveGeometry :=
  {| g_length := length; g_s := s; g_x := x; g_y := y; g_hdg := hdg;
     g_type := OPENDRIVE_GT_UNKNOWN; g_params := [] |}.

(** A plan view of a line and an arc, with a [line] element of a road mark
    in between. *)
Definition planEvents : list (list Handler.OpenDriveXMLTag * PlanView.PlanElement) :=
  [([Handler.OPENDRIVE_TAG_ROAD], PlanView.GeometryElement 10 0 0 0 0);
   ([Handler.OPENDRIVE_TAG_ROAD; Handler.OPENDRIVE_TAG_GEOMETRY], PlanView.LineElement);
   ([Handler.OPENDRIVE_TAG_ROAD; Handler.OPENDRIVE_TAG_LANE], PlanView.LineElement);
   ([Handler.OPENDRIVE_TAG_ROAD], PlanView.GeometryElement 5 10 10 0 0);
   ([Handler.OPENDRIVE_TAG_ROAD; Handler.OPENDRIVE_TAG_GEOMETRY], PlanView.ArcElement 0.1)].


(** A pole repeated every 4 m over 10 m. *)
Definition pole : Objects.OpenDriveObject :=
  {| Objects.o_type := "pole"; Objects.o_name := ""; Objects.o_id := "p";
     Objects.o_s := 2; Objects.o_t := 1; Objects.o_width := inject_Z (-1);
     Objects.o_length := inject_Z (-1); Objects.o_radius := inject_Z (-1);
     Objects.o_hdg := 0 |}.

Definition everyFour : Objects.RepeatAttrs :=
  {| Objects.ra_distance := 4; Objects.ra_length := 10; Objects.ra_s := None;
     Objects.ra_widthStart := None; Objects.ra_widthEnd := None;
     Objects.ra_tStart := None; Objects.ra_tEnd := None |}.

Definition showInt (n : Z) : string := pretty n.


(** Two roads of one right lane each, named as the edges built for them
    are, and those edges; and the same for a road whose identifier begins
    with a minus sign, next to the left edge of a road "5". *)
Definition namedRoad (id : string) : Topology.OpenDriveEdge :=
  Samples.plainRoad id 0 100 []
    [with_sumoID id (Mapping.buildLaneMapping false walkCatalogue
                       (Samples.sectionAt 0 [] [Samples.drivingLane (-1) [] 3.5]))]
    None None.

Definition builtEdge (id : string) : Emitter.NBEdge :=
  {| Emitter.nb_id := id; Emitter.nb_from := None; Emitter.nb_to := None;
     Emitter.nb_type := "driving"; Emitter.nb_lanes := 1 |}.

Definition namedRoads : gmap string Topology.OpenDriveEdge :=
  <["A" := namedRoad "A"]> (<["B" := namedRoad "B"]> (<["-5" := namedRoad "-5"]> ∅)).

Definition builtEdges : list Emitter.NBEdge :=
  [builtEdge "-A"; builtEdge "-B"; builtEdge "--5"; builtEdge "5"].


(** A parametric cubic of 10 m, read by the handler with the range
    [arcLength]. *)
Definition paramPolySample : OpenDriveGeometry :=
  Samples.segment OPENDRIVE_GT_PARAMPOLY3 0 0 10
    [0%Q; 1%Q; 0%Q; 0%Q; 0%Q; 0%Q; 0.01%Q; 0%Q; inject_Z (-1)].

End MoreSamples.

(** * Theorems *)

(** ** Theorems: identifier helpers *)

Module IdentFacts.
Import Ident.

Example revertID_plain : revertID "12" = "-12".
Proof. reflexivity. Qed.

Example revertID_minus : revertID "-12" = "12".
Proof. reflexivity. Qed.

Example revertID_empty : revertID "" = "-".
Proof. reflexivity. Qed.

(** C10, as stated, fails: the identifier "--a" is not empty, yet toggling it
    twice strips both minus signs. *)
Lemma revertID_not_involutive :
  "--a" <> "" /\ revertID (revertID "--a") <> "--a".
Proof. split; discriminate. Qed.

(** C10 (amended): toggling twice gives the identifier back exactly for the
    identifiers that do not begin with two minus signs. *)
Theorem revertID_involutive_iff (id : string) :
  revertID (revertID id) = id <-> doubleMinus id = false.
Proof.
  destruct id as [|c rest]; [by split|].
  cbn [revertID doubleMinus].
  destruct (Ascii.eqb_spec c "-") as [->|Hc].
  - destruct rest as [|d rest']; cbn.
    + by split.
    + destruct (Ascii.eqb_spec d "-") as [->|Hd]; cbn.
      * split; [|discriminate]. intros H.
        apply (f_equal String.length) in H. cbn in H. lia.
      * by split.
  - cbn. split; [|done]. intros _. by destruct rest.
Qed.

End IdentFacts.

(** ** Theorems: lane speed entries *)

Module HandlerFacts.
Import Handler.

Example convertSpeed_kmh : (convertSpeed 36 "km/h" == 10)%Q.
Proof. reflexivity. Qed.

Example convertSpeed_knots : convertSpeed 36 "kn" = 36%Q.
Proof. reflexivity. Qed.

Example startSpeed_outside_lane :
  startSpeed [OPENDRIVE_TAG_ROAD; OPENDRIVE_TAG_SPEED]
             {| attr_max := 36; attr_sOffset := 0; attr_unit := None |} [] = [].
Proof. reflexivity. Qed.

(** C9: a speed element met inside a lane stores one entry at its sOffset;
    the stored speed is the raw value without a unit, the raw value divided
    by 3.6 for "km/h", the raw value times 1.609344/3.6 for "mph", and the
    raw value for any other unit. *)
Theorem speed_entry_units (stack : list OpenDriveXMLTag) (a : SpeedAttrs)
    (speeds : list (Q * Q)) :
  insideLane stack = true ->
  exists v : Q,
    startSpeed stack a speeds = speeds ++ [(attr_sOffset a, v)]
    /\ (attr_unit a = None -> v = attr_max a)
    /\ (attr_unit a = Some "km/h" -> v = (attr_max a / 3.6)%Q)
    /\ (attr_unit a = Some "mph" -> v = (attr_max a * (1.609344 / 3.6))%Q)
    /\ (forall u, attr_unit a = Some u -> u <> "km/h" -> u <> "mph" -> v = attr_max a).
Proof.
  intros Hin. unfold startSpeed. rewrite Hin.
  eexists. split; [reflexivity|].
  repeat split.
  - intros ->. reflexivity.
  - intros ->. reflexivity.
  - intros ->. reflexivity.
  - intros u -> Hk Hm. cbn [default option_rect id]. unfold convertSpeed.
    apply String.eqb_neq in Hk, Hm. rewrite Hk, Hm.
    by destruct (String.eqb u "").
Qed.

Lemma speed_entry_units_witness :
  insideLane [OPENDRIVE_TAG_ROAD; OPENDRIVE_TAG_LANESECTION; OPENDRIVE_TAG_RIGHT;
              OPENDRIVE_TAG_LANE] = true
  /\ exists v : Q,
    startSpeed [OPENDRIVE_TAG_ROAD; OPENDRIVE_TAG_LANESECTION; OPENDRIVE_TAG_RIGHT;
                OPENDRIVE_TAG_LANE]
               {| attr_max := 50; attr_sOffset := 0; attr_unit := Some "km/h" |} []
    = [] ++ [(0%Q, v)]
    /\ (Some "km/h" = None -> v = 50%Q)
    /\ (Some "km/h" = Some "km/h" -> v = (50 / 3.6)%Q)
    /\ (Some "km/h" = Some "mph" -> v = (50 * (1.609344 / 3.6))%Q)
    /\ (forall u, Some "km/h" = Some u -> u <> "km/h" -> u <> "mph" -> v = 50%Q).
Proof.
  split; [reflexivity|].
  apply (speed_entry_units
           [OPENDRIVE_TAG_ROAD; OPENDRIVE_TAG_LANESECTION; OPENDRIVE_TAG_RIGHT;
            OPENDRIVE_TAG_LANE]
           {| attr_max := 50; attr_sOffset := 0; attr_unit := Some "km/h" |} []).
  reflexivity.
Defined.

End HandlerFacts.

(** ** Theorems: geometry *)

Module GeometryFacts.
Import Geometry Samples.

Lemma last_snoc_some {A : Type} (pre : list A) (b : A) :
  List.last (map Some (pre ++ [b])) None = Some b.
Proof. rewrite map_app. cbn. apply last_last. Qed.

Section Junctions.

Variable almostSame : Position -> Position -> bool.
Variable pushND : list Position -> Position -> list Position.
Variable line arc poly ppoly : OpenDriveGeometry -> Q -> list Position.
Variable spiral : OpenDriveGeometry -> Q -> list Warning * list Position.

Local Abbreviation step := (shapeStep almostSame pushND line arc poly ppoly spiral).
Local Abbreviation discr := (discretise line arc poly ppoly spiral).

(** When the previous segment was not a line, or the polyline is still
    empty, nothing is dropped and nothing is reported. *)
Lemma step_keeps_all (edge : string) (lineRes res : Q) (st : ShapeState)
    (g : OpenDriveGeometry) :
  isLine (st_prevType st) = false \/ st_geom st = [] ->
  exists st',
    step edge lineRes res st g = Some st'
    /\ st_geom st' = fold_left pushND (snd (discr edge lineRes res g)) (st_geom st)
    /\ st_log st' = st_log st ++ fst (discr edge lineRes res g).
Proof.
  intros H. unfold shapeStep, joinPrevious.
  destruct (discr edge lineRes res g) as [w1 geom].
  assert (Hg : negb (Nat.eqb (length (st_geom st)) 0) && isLine (st_prevType st) = false).
  { destruct H as [-> | ->]; [apply andb_false_r | reflexivity]. }
  rewrite Hg. eexists. split; [reflexivity|]. cbn. by rewrite app_nil_r.
Qed.

(** C3 (amended): after a line, the last vertex of the polyline is dropped
    whether or not it is almostSame as the first vertex of the next segment;
    the "Mismatched geometry" warning is written exactly when it is not. *)
Theorem step_after_line_drops_endpoint (edge : string) (lineRes res : Q)
    (st : ShapeState) (g : OpenDriveGeometry)
    (pre : list Position) (b f : Position) (rest : list Position)
    (w1 : list Warning) :
  st_geom st = pre ++ [b] ->
  st_prevType st = OPENDRIVE_GT_LINE ->
  discr edge lineRes res g = (w1, f :: rest) ->
  exists st',
    step edge lineRes res st g = Some st'
    /\ st_geom st' = fold_left pushND (f :: rest) pre
    /\ st_log st' =
         st_log st ++ w1 ++
         (if almostSame b f then []
          else [MismatchedGeometry edge (st_index st - 1) (st_index st)]).
Proof.
  intros Hgeom Hprev Hd. unfold shapeStep, joinPrevious.
  rewrite Hd, Hgeom, Hprev, last_snoc_some, removelast_last, length_app.
  cbn [length isLine]. replace (length pre + 1)%nat with (S (length pre)) by lia.
  cbn [Nat.eqb negb andb]. eexists. split; [reflexivity|]. by split.
Qed.

Lemma last_some_nonempty {A : Type} (l : list A) :
  l <> [] -> exists b, List.last (map Some l) None = Some b.
Proof.
  intros Hl. destruct (exists_last Hl) as (pre & b & ->).
  exists b. apply last_snoc_some.
Qed.

Lemma pos_neqb_same (p : Position) : pos_neqb p p = false.
Proof.
  unfold pos_neqb, Dbl.eqb. by rewrite !Qeq_bool_refl.
Qed.

Lemma spiral_degenerate_value (edge : string) (g : OpenDriveGeometry) (res : Q) :
  (curvatureRate g == 0)%Q \/ (g_length g == 0)%Q ->
  geomFromSpiral spiral edge g res
  = ([SpiralNotComputed edge (curvatureRate g) (g_length g)],
     [Position2 (g_x g) (g_y g)]).
Proof.
  intros Hdeg. unfold geomFromSpiral, curvatureRate in *. unfold Dbl.eqb.
  destruct Hdeg as [H | H]; apply Qeq_bool_iff in H; rewrite H;
    [reflexivity | by rewrite orb_true_r].
Qed.

(** C8 (amended): a spiral whose curvature rate is zero, or whose length is
    zero, is reported and discretised to its start point alone.  In the
    road's polyline that one vertex is what is handed to
    push_back_noDoublePos, after the usual drop of a preceding line's end
    point; a road made of this segment alone has a one-vertex polyline and
    yields no edge. *)
Theorem degenerate_spiral_start_point (edge : string) (g : OpenDriveGeometry) (res : Q) :
  (curvatureRate g == 0)%Q \/ (g_length g == 0)%Q ->
  geomFromSpiral spiral edge g res
  = ([SpiralNotComputed edge (curvatureRate g) (g_length g)],
     [Position2 (g_x g) (g_y g)])
  /\ (g_type g = OPENDRIVE_GT_SPIRAL ->
      forall (st : ShapeState) (lineRes : Q),
      exists st',
        step edge lineRes res st g = Some st'
        /\ st_geom st' =
             pushND (if negb (Nat.eqb (length (st_geom st)) 0) && isLine (st_prevType st)
                     then removelast (st_geom st) else st_geom st)
                    (Position2 (g_x g) (g_y g)))
  /\ (g_type g = OPENDRIVE_GT_SPIRAL ->
      (forall p, pushND [] p = [p]) ->
      forall lineRes : Q,
      exists log,
        computeShape almostSame pushND line arc poly ppoly spiral edge lineRes res [g]
        = Some (log, [Position2 (g_x g) (g_y g)])
        /\ hasGeometry [Position2 (g_x g) (g_y g)] = false).
Proof.
  intros Hdeg. pose proof (spiral_degenerate_value edge g res Hdeg) as Hsp.
  split; [exact Hsp|]. split.
  - intros Ht st lineRes. unfold shapeStep, discretise, joinPrevious.
    rewrite Ht, Hsp.
    destruct (negb (Nat.eqb (length (st_geom st)) 0) && isLine (st_prevType st)) eqn:Hc.
    + assert (Hne : st_geom st <> []).
      { intros E. rewrite E in Hc. discriminate. }
      destruct (last_some_nonempty _ Hne) as [b ->].
      eexists. split; reflexivity.
    + eexists. split; reflexivity.
  - intros Ht Hpush lineRes.
    unfold computeShape, shapeLoop, shapeStep, discretise, joinPrevious.
    rewrite Ht, Hsp. cbn. rewrite Hpush, pos_neqb_same. eexists. split; reflexivity.
Qed.

End Junctions.

Lemma degenerate_spiral_start_point_witness :
  ((curvatureRate (flatSpiral 0) == 0)%Q \/ (g_length (flatSpiral 0) == 0)%Q)
  /\ geomFromSpiral noCurve "R" (flatSpiral 0) 1
     = ([SpiralNotComputed "R" (curvatureRate (flatSpiral 0)) (g_length (flatSpiral 0))],
        [Position2 (g_x (flatSpiral 0)) (g_y (flatSpiral 0))]).
Proof.
  split; [left; reflexivity|].
  apply (degenerate_spiral_start_point (almostSameEps 0.1) (pushUnlessClose 0.1)
           eastLine noVertices noVertices
           noVertices noCurve "R" (flatSpiral 0) 1).
  left; reflexivity.
Defined.

(** C8, as stated, fails in its last part: in a road made of the two flat
    spirals each one has a single other segment, which supplies a single
    vertex, and yet the polyline has two vertices and the road is not
    skipped for lack of geometry. *)
Lemma two_flat_spirals_yield_geometry :
  computeShape (almostSameEps 0.1) (pushUnlessClose 0.1) eastLine noVertices noVertices noVertices noCurve
               "R" (-1) 1 [flatSpiral 0; flatSpiral 10]
  = Some ([SpiralNotComputed "R" (curvatureRate (flatSpiral 0)) 10;
           SpiralNotComputed "R" (curvatureRate (flatSpiral 10)) 10],
          [Position2 0 0; Position2 10 0])
  /\ hasGeometry [Position2 0 0; Position2 10 0] = true
  /\ verticesOf eastLine noVertices noVertices noVertices noCurve
                "R" (-1) 1 [flatSpiral 10] = 1%nat
  /\ verticesOf eastLine noVertices noVertices noVertices noCurve
                "R" (-1) 1 [flatSpiral 0] = 1%nat.
Proof. repeat split; reflexivity. Qed.

Lemma step_after_line_drops_endpoint_witness :
  st_geom afterLine = [Position2 0 0] ++ [Position2 10 0]
  /\ st_prevType afterLine = OPENDRIVE_GT_LINE
  /\ discretise eastLine noVertices noVertices noVertices noCurve "R" (-1) 1
       (segment OPENDRIVE_GT_LINE 10 10 5 []) = ([], Position2 10 0 :: [Position2 (10 + 5) 0])
  /\ exists st',
    shapeStep (almostSameEps 0.1) (pushUnlessClose 0.1) eastLine noVertices noVertices noVertices noCurve
              "R" (-1) 1 afterLine (segment OPENDRIVE_GT_LINE 10 10 5 []) = Some st'
    /\ st_geom st' = fold_left (pushUnlessClose 0.1)
                               (Position2 10 0 :: [Position2 (10 + 5) 0]) [Position2 0 0]
    /\ st_log st' =
         st_log afterLine ++ [] ++
         (if almostSameEps 0.1 (Position2 10 0) (Position2 10 0) then []
          else [MismatchedGeometry "R" (st_index afterLine - 1) (st_index afterLine)]).
Proof.
  repeat (split; [reflexivity|]).
  apply (step_after_line_drops_endpoint (almostSameEps 0.1) (pushUnlessClose 0.1)
           eastLine noVertices noVertices
           noVertices noCurve "R" (-1) 1 afterLine (segment OPENDRIVE_GT_LINE 10 10 5 [])
           [Position2 0 0] (Position2 10 0) (Position2 10 0) [Position2 (10 + 5) 0] []);
    reflexivity.
Defined.

(** C3, as stated, fails: a line from (0,0) to (10,0) followed by a segment
    that starts at (20,0) is reported as mismatched, and yet the line's end
    point (10,0) is gone from the polyline. *)
Lemma mismatch_still_drops_endpoint :
  exists st',
    shapeStep (almostSameEps 0.1) (pushUnlessClose 0.1) eastLine noVertices noVertices noVertices noCurve
              "R" (-1) 1 afterLine (segment OPENDRIVE_GT_LINE 10 20 5 []) = Some st'
    /\ almostSameEps 0.1 (Position2 10 0) (Position2 20 0) = false
    /\ st_log st' = [MismatchedGeometry "R" 0 1]
    /\ st_geom st' = [Position2 0 0; Position2 20 0; Position2 (20 + 5) 0]
    /\ existsb (fun p => negb (pos_neqb p (Position2 10 0))) (st_geom st') = false.
Proof.
  eexists. split; [reflexivity|]. repeat split; reflexivity.
Qed.

End GeometryFacts.

(** ** Theorems: lane sections *)

Module LaneFacts.
Import Lanes.

Lemma ltb_lt (a b : Q) : Dbl.ltb a b = true <-> (a < b)%Q.
Proof.
  unfold Dbl.ltb. rewrite Qlt_alt. destruct (a ?= b)%Q; split; congruence.
Qed.

Lemma ltb_ge (a b : Q) : Dbl.ltb a b = false <-> (b <= a)%Q.
Proof.
  rewrite <- not_true_iff_false, ltb_lt. split; [apply Qnot_lt_le | apply Qle_not_lt].
Qed.

Lemma leb_gt (a b : Q) : Dbl.leb a b = false <-> (b < a)%Q.
Proof.
  unfold Dbl.leb. rewrite <- not_true_iff_false, Qle_bool_iff.
  split; [apply Qnot_le_lt | apply Qlt_not_le].
Qed.

Definition lt_s (a b : OpenDriveLaneSection) : Prop := (ls_s a < ls_s b)%Q.
Definition le_s (a b : OpenDriveLaneSection) : Prop := (ls_s a <= ls_s b)%Q.

(** *** The order test *)

Lemma sortedFrom_sound (secs : list OpenDriveLaneSection) :
  forall lastS, sortedFrom lastS secs = true ->
    Forall (fun x => (lastS < ls_s x)%Q) secs /\ StronglySorted lt_s secs.
Proof.
  induction secs as [|x l IH]; intros lastS H; cbn in H.
  - split; constructor.
  - destruct (Dbl.leb (ls_s x) lastS) eqn:Hle; [discriminate|].
    apply leb_gt in Hle. destruct (IH _ H) as [Hall Hs].
    split.
    + constructor; [exact Hle|].
      eapply List.Forall_impl; [|exact Hall]. intros y Hy. cbn in Hy.
      eapply Qlt_trans; eassumption.
    + constructor; assumption.
Qed.

Lemma strict_is_weak (secs : list OpenDriveLaneSection) :
  StronglySorted lt_s secs -> StronglySorted le_s secs.
Proof.
  induction 1 as [|x l Hs IH Hall]; constructor; [exact IH|].
  eapply List.Forall_impl; [|exact Hall]. intros y. apply Qlt_le_weak.
Qed.

(** *** Sorting *)

Lemma insert_by_s_Forall (P : OpenDriveLaneSection -> Prop) x l :
  P x -> Forall P l -> Forall P (insert_by_s x l).
Proof.
  intros Hx Hl. induction Hl as [|y l Hy Hl IH]; cbn.
  - by constructor.
  - destruct (Dbl.ltb (ls_s y) (ls_s x)); by repeat constructor.
Qed.

Lemma insert_by_s_sorted x l :
  StronglySorted le_s l -> StronglySorted le_s (insert_by_s x l).
Proof.
  induction 1 as [|y l Hs IH Hall]; cbn.
  - repeat constructor.
  - destruct (Dbl.ltb (ls_s y) (ls_s x)) eqn:Hc.
    + apply ltb_lt in Hc. constructor; [exact IH|].
      apply insert_by_s_Forall; [by apply Qlt_le_weak | exact Hall].
    + apply ltb_ge in Hc. constructor; [by constructor|].
      constructor; [exact Hc|].
      eapply List.Forall_impl; [|exact Hall]. intros z Hz.
      eapply Qle_trans; eassumption.
Qed.

Lemma sort_by_s_sorted l : StronglySorted le_s (sort_by_s l).
Proof.
  induction l as [|x l IH]; cbn; [constructor | by apply insert_by_s_sorted].
Qed.

(** *** Near-duplicates *)

Section Duplicates.

Variable POSITION_EPS : Q.
Hypothesis eps_positive : (0 < POSITION_EPS)%Q.

Lemma dropSimilar_inner edge lastS secs :
  snd (dropSimilar POSITION_EPS edge true lastS secs) = secs.
Proof.
  revert lastS. induction secs as [|x l IH]; intros lastS; cbn [dropSimilar];
    [reflexivity|].
  specialize (IH (ls_s x)).
  destruct (dropSimilar POSITION_EPS edge true (ls_s x) l) as [w kept].
  rewrite andb_false_r. cbn [snd negb] in *. by rewrite IH.
Qed.

(** On a road that is not inner, what survives a non-decreasing sequence is
    strictly increasing and lies above the value the scan started from. *)
Lemma dropSimilar_outer edge secs :
  forall lastS,
    Forall (fun x => (lastS <= ls_s x)%Q) secs -> StronglySorted le_s secs ->
    Forall (fun x => (lastS < ls_s x)%Q) (snd (dropSimilar POSITION_EPS edge false lastS secs))
    /\ StronglySorted lt_s (snd (dropSimilar POSITION_EPS edge false lastS secs)).
Proof.
  induction secs as [|x l IH]; intros lastS Hlow Hs; cbn [dropSimilar].
  - split; constructor.
  - inversion Hlow as [|? ? Hx Hl]; subst. inversion Hs as [|? ? Hs' Hall]; subst.
    destruct (IH (ls_s x) Hall Hs') as [Habove Hstrict].
    destruct (dropSimilar POSITION_EPS edge false (ls_s x) l) as [w kept].
    cbn in Habove, Hstrict. rewrite andb_true_r.
    assert (Hrest : Forall (fun y => (lastS < ls_s y)%Q) kept).
    { eapply List.Forall_impl; [|exact Habove]. intros y Hy. cbn in Hy.
      eapply Qle_lt_trans; eassumption. }
    destruct (Dbl.ltb (Dbl.fabs (ls_s x - lastS)) POSITION_EPS) eqn:Hsim; cbn [snd].
    + by split.
    + apply ltb_ge in Hsim. unfold Dbl.fabs in Hsim.
      rewrite Qabs_pos in Hsim by lra.
      split; constructor; try assumption. lra.
Qed.

(** The erase loop as [revisitLaneSections] starts it, from [lastS = -1]. *)
Lemma dropSimilar_outer_top edge secs :
  StronglySorted le_s secs ->
  StronglySorted lt_s (snd (dropSimilar POSITION_EPS edge false (-1) secs)).
Proof.
  intros Hs. destruct secs as [|x l]; cbn [dropSimilar]; [constructor|].
  inversion Hs as [|? ? Hs' Hall]; subst.
  destruct (dropSimilar_outer edge l (ls_s x) Hall Hs') as [Habove Hstrict].
  destruct (dropSimilar POSITION_EPS edge false (ls_s x) l) as [w kept].
  cbn in Habove, Hstrict.
  rewrite andb_true_r.
  destruct (Dbl.ltb (Dbl.fabs (ls_s x - -1)) POSITION_EPS); cbn [snd];
    [assumption | by constructor].
Qed.

Lemma sorted_map_s (R : Q -> Q -> Prop) (secs : list OpenDriveLaneSection) :
  StronglySorted (fun a b => R (ls_s a) (ls_s b)) secs ->
  StronglySorted R (map ls_s secs).
Proof.
  induction 1 as [|x l Hs IH Hall]; cbn; constructor; [exact IH|].
  apply List.Forall_map. exact Hall.
Qed.


End Duplicates.

Example revisit_unsorted_outer :
  map ls_s (snd (revisitLaneSections 0.1 Samples.catalogue "R" false
                   [Samples.sectionAt 30 [] []; Samples.sectionAt 0 [] [];
                    Samples.sectionAt 30.05 [] []]))
  = [0%Q; 30%Q].
Proof. reflexivity. Qed.

Example revisit_unsorted_inner :
  map ls_s (snd (revisitLaneSections 0.1 Samples.catalogue "R" true
                   [Samples.sectionAt 30 [] []; Samples.sectionAt 0 [] [];
                    Samples.sectionAt 30.05 [] []]))
  = [0%Q; 30%Q; 30.05%Q].
Proof. reflexivity. Qed.


(** *** Speed changes *)

Example buildSpeedChanges_none :
  buildSpeedChanges Samples.catalogue (Samples.sectionAt 0 [] [Samples.drivingLane (-1) [] 3.5])
  = (false, []).
Proof. reflexivity. Qed.

(** The catalogue never reaches the result of [buildSpeedChanges]. *)
Lemma propagateLane_ignores_catalogue tc1 tc2 prev j l :
  propagateLane tc1 prev j l = propagateLane tc2 prev j l.
Proof. unfold propagateLane. by destruct prev. Qed.

Lemma propagate_ignores_catalogue tc1 tc2 secs :
  forall prev, propagate tc1 prev secs = propagate tc2 prev secs.
Proof.
  induction secs as [|x l IH]; intros prev; cbn; [reflexivity|].
  assert (E : propagateSection tc1 prev x = propagateSection tc2 prev x).
  { unfold propagateSection. f_equal; apply imap_ext; intros;
      apply propagateLane_ignores_catalogue. }
  by rewrite E, IH.
Qed.

Lemma buildSpeedChanges_ignores_catalogue tc1 tc2 sec :
  buildSpeedChanges tc1 sec = buildSpeedChanges tc2 sec.
Proof.
  unfold buildSpeedChanges.
  destruct (collectLanes [] (ls_right sec)) as [pos1 right'].
  destruct (collectLanes pos1 (ls_left sec)) as [pos2 left'].
  destruct pos2 as [|first later]; [reflexivity|].
  by rewrite (propagate_ignores_catalogue tc1 tc2).
Qed.

(** C2, at the input where it fails: the lane's only speed entry is at
    sOffset 50, so the section is split at 0 and at 50; the second section
    takes the entry's speed 10, while the first keeps speed 0 although the
    catalogue gives 13.89 for the lane's type. *)
Theorem first_split_misses_type_default :
  fst (buildSpeedChanges Samples.catalogue Samples.speedChangeSection) = true
  /\ map ls_s (snd (buildSpeedChanges Samples.catalogue Samples.speedChangeSection))
     = [0%Q; (0 + 50)%Q]
  /\ map (fun sec => map lane_speed (ls_right sec))
         (snd (buildSpeedChanges Samples.catalogue Samples.speedChangeSection))
     = [[0%Q]; [10%Q]]
  /\ getSpeed Samples.catalogue "driving" = 13.89%Q.
Proof. repeat split; reflexivity. Qed.

End LaneFacts.

(** ** Theorems: lane attributes *)

Module AttributeFacts.
Import Lanes Attributes.

Section Downgrade.

Variables SVC_PASSENGER SVC_EMERGENCY SVC_AUTHORITY : Z.
Variable UNSPECIFIED_WIDTH : Q.
Variable POSITION_EPS : Q.
Variable myImportWidths : bool.
Variable myMinWidth : Q.

Local Abbreviation attrs :=
  (setLaneAttributes SVC_PASSENGER SVC_EMERGENCY SVC_AUTHORITY UNSPECIFIED_WIDTH
                     POSITION_EPS myImportWidths myMinWidth).
Local Abbreviation narrow :=
  (forbiddenNarrow SVC_PASSENGER UNSPECIFIED_WIDTH myImportWidths myMinWidth).
Local Abbreviation width0 := (importedWidth UNSPECIFIED_WIDTH myImportWidths).

Lemma permissions_by_narrowness edgeID sumoLane odLane saveOrigIDs tc :
  sl_permissions (attrs edgeID sumoLane odLane saveOrigIDs tc)
  = if narrow odLane tc then Z.lor SVC_EMERGENCY SVC_AUTHORITY
    else getPermissions tc (lane_type odLane).
Proof. reflexivity. Qed.

Lemma narrow_iff odLane tc :
  narrow odLane tc = true <->
  (width0 odLane tc < myMinWidth)%Q
  /\ Z.land (getPermissions tc (lane_type odLane)) SVC_PASSENGER <> 0%Z
  /\ (width0 odLane tc < getWidth tc (lane_type odLane))%Q.
Proof.
  unfold forbiddenNarrow.
  rewrite !andb_true_iff, negb_true_iff, Z.eqb_neq, !LaneFacts.ltb_lt. tauto.
Qed.

(** C5 (amended): for a lane whose type admits passenger cars, the
    permissions become exactly Emergency | Authority if and only if the
    width taken before rounding lies below both the configured minimum and
    the default width of the type; and in that case a rounded width that
    reaches the minimum is first taken one resolution step down. *)
Theorem narrow_lane_downgrade edgeID sumoLane odLane saveOrigIDs tc :
  Z.land (Z.lor SVC_EMERGENCY SVC_AUTHORITY) SVC_PASSENGER = 0%Z ->
  Z.land (getPermissions tc (lane_type odLane)) SVC_PASSENGER <> 0%Z ->
  (sl_permissions (attrs edgeID sumoLane odLane saveOrigIDs tc)
   = Z.lor SVC_EMERGENCY SVC_AUTHORITY
   <-> (width0 odLane tc < myMinWidth)%Q
       /\ (width0 odLane tc < getWidth tc (lane_type odLane))%Q)
  /\ ((width0 odLane tc < myMinWidth)%Q ->
      (width0 odLane tc < getWidth tc (lane_type odLane))%Q ->
      (0 <= width0 odLane tc)%Q ->
      (0 < getWidthResolution tc (lane_type odLane))%Q ->
      (myMinWidth
       <= roundWidth (width0 odLane tc) (getWidthResolution tc (lane_type odLane)))%Q ->
      (0 < roundWidth (width0 odLane tc) (getWidthResolution tc (lane_type odLane))
           - getWidthResolution tc (lane_type odLane))%Q ->
      (getMaxWidth tc (lane_type odLane) <= 0)%Q ->
      sl_width (attrs edgeID sumoLane odLane saveOrigIDs tc)
      = (roundWidth (width0 odLane tc) (getWidthResolution tc (lane_type odLane))
         - getWidthResolution tc (lane_type odLane))%Q).
Proof.
  intros Hbits Hpass. split.
  - rewrite permissions_by_narrowness.
    destruct (narrow odLane tc) eqn:Hn.
    + apply narrow_iff in Hn. tauto.
    + split.
      * intros Heq. rewrite Heq in Hpass. contradiction.
      * intros [H1 H2]. assert (narrow odLane tc = true) by (apply narrow_iff; tauto).
        congruence.
  - intros H1 H2 Hpos Hres Hround Hstep Hmax.
    assert (Hn : narrow odLane tc = true) by (apply narrow_iff; tauto).
    unfold setLaneAttributes, quantiseWidth. cbn [sl_width]. rewrite Hn.
    apply LaneFacts.ltb_ge in Hmax. rewrite Hmax.
    apply LaneFacts.ltb_lt in Hres. rewrite Hres.
    unfold Dbl.leb.
    apply Qle_bool_iff in Hpos, Hround. rewrite Hpos, Hround. cbn [andb].
    apply LaneFacts.leb_gt in Hstep. unfold Dbl.leb in Hstep. by rewrite Hstep.
Qed.

End Downgrade.

Import Samples.

Lemma narrow_lane_downgrade_witness :
  Z.land (Z.lor svcEmergency svcAuthority) svcPassenger = 0%Z
  /\ Z.land (getPermissions catalogue "driving") svcPassenger <> 0%Z
  /\ (sl_permissions narrowResult = Z.lor svcEmergency svcAuthority
      <-> (importedWidth (-1) true (drivingLane (-1) [] 1.76) catalogue < 1.8)%Q
          /\ (importedWidth (-1) true (drivingLane (-1) [] 1.76) catalogue
              < getWidth catalogue "driving")%Q).
Proof.
  split; [reflexivity|]. split; [discriminate|].
  apply (narrow_lane_downgrade svcPassenger svcEmergency svcAuthority (-1) 0.1 true 1.8
           "R" blankLane (drivingLane (-1) [] 1.76) false catalogue);
    [reflexivity | discriminate].
Defined.

Example narrow_lane_retry :
  sl_permissions narrowResult = 6%Z
  /\ (roundWidth 1.76 0.1 == 1.8)%Q
  /\ (sl_width narrowResult == 1.7)%Q.
Proof. repeat split. Qed.

(** C5, as stated, fails: with minimum width 1.8 a passenger lane 1.5 m wide
    rounds to 1.5, below the minimum, and keeps the permissions of its type
    because the type's default width, 1.2, is narrower still. *)
Lemma narrow_lane_not_downgraded :
  Z.land (getPermissions slimCatalogue "driving") svcPassenger = 64%Z
  /\ (sl_width (setLaneAttributes svcPassenger svcEmergency svcAuthority (-1) 0.1 true 1.8
                  "R" blankLane (drivingLane (-1) [] 1.5) false slimCatalogue) == 1.5)%Q
  /\ (1.5 < 1.8)%Q
  /\ sl_permissions (setLaneAttributes svcPassenger svcEmergency svcAuthority (-1) 0.1 true 1.8
                       "R" blankLane (drivingLane (-1) [] 1.5) false slimCatalogue) = 64%Z
  /\ Z.lor svcEmergency svcAuthority = 6%Z.
Proof. repeat split. Qed.

End AttributeFacts.

(** ** Theorems: node synthesis between outer roads *)

Module TopologyFacts.
Import Err Topology.

Lemma ltb_asym (a b : string) : String.ltb a b = true -> String.ltb b a = false.
Proof.
  unfold String.ltb. rewrite (String.compare_antisym b a).
  by destruct (String.compare a b).
Qed.

Lemma ltb_leb (a b : string) : String.ltb a b = true -> String.leb a b = true.
Proof. unfold String.ltb, String.leb. by destruct (String.compare a b). Qed.

Lemma not_ltb_leb (a b : string) : String.ltb a b = false -> String.leb b a = true.
Proof.
  unfold String.ltb, String.leb. rewrite (String.compare_antisym a b).
  by destruct (String.compare b a).
Qed.

(** The identifier does not depend on which of the two roads names the other. *)
Lemma outerNodeID_sym (a b : string) : outerNodeID a b = outerNodeID b a.
Proof.
  unfold outerNodeID.
  destruct (String.ltb a b) eqn:Hab, (String.ltb b a) eqn:Hba; try reflexivity.
  - apply ltb_asym in Hab. congruence.
  - apply not_ltb_leb in Hab, Hba.
    by rewrite (String.leb_antisym a b Hba Hab).
Qed.

(** The identifier puts the greater of the two road identifiers first. *)
Lemma outerNodeID_descending (a b : string) :
  exists hi lo : string,
    (hi = a /\ lo = b \/ hi = b /\ lo = a)
    /\ String.leb lo hi = true
    /\ outerNodeID a b = (hi ++ "." ++ lo)%string.
Proof.
  unfold outerNodeID. destruct (String.ltb a b) eqn:Hab.
  - exists b, a. split; [by right|]. split; [by apply ltb_leb | reflexivity].
  - exists a, b. split; [by left|]. split; [by apply not_ltb_leb | reflexivity].
Qed.

Lemma setNodeSecure_endpoint nc e nid lt e' :
  setNodeSecure nc e nid lt = Ok e' -> endpoint lt e' = Some nid.
Proof.
  unfold setNodeSecure. destruct (nc !! nid); [|discriminate].
  destruct lt; cbn.
  - destruct (ed_to e) as [old|]; [destruct (String.eqb old nid)|];
      intros [= <-]; reflexivity.
  - destruct (ed_from e) as [old|]; [destruct (String.eqb old nid)|];
      intros [= <-]; reflexivity.
Qed.

(** C4 (amended): a link of an outer road to another outer road yields the
    node whose identifier joins the two road identifiers by ".", the greater
    one first, whichever of the two roads carries the link; the node exists
    afterwards and the endpoint of the road that carries the link is bound
    to it. *)
Theorem outer_link_node (edge2junction : gmap string string)
    (nc nc' : gmap string Geometry.Position) (e e' : OpenDriveEdge) (l : OpenDriveLink) :
  lk_elementType l = OPENDRIVE_ET_ROAD ->
  edge2junction !! lk_elementID l = None ->
  linkOuterNode edge2junction (nc, e) l = Ok (nc', e') ->
  exists hi lo : string,
    (hi = ed_id e /\ lo = lk_elementID l \/ hi = lk_elementID l /\ lo = ed_id e)
    /\ String.leb lo hi = true
    /\ outerNodeID (ed_id e) (lk_elementID l) = (hi ++ "." ++ lo)%string
    /\ outerNodeID (lk_elementID l) (ed_id e) = (hi ++ "." ++ lo)%string
    /\ is_Some (nc' !! (hi ++ "." ++ lo)%string)
    /\ endpoint (lk_linkType l) e' = Some (hi ++ "." ++ lo)%string.
Proof.
  intros Ht Hj Hrun.
  destruct (outerNodeID_descending (ed_id e) (lk_elementID l)) as (hi & lo & Hwho & Hle & Hid).
  exists hi, lo. split; [exact Hwho|]. split; [exact Hle|]. split; [exact Hid|].
  split; [by rewrite outerNodeID_sym|].
  unfold linkOuterNode in Hrun. rewrite Ht, Hj, Hid in Hrun.
  unfold mbind, result_bind in Hrun.
  set (nid := (hi ++ "." ++ lo)%string) in *.
  destruct (nc !! nid) as [p|] eqn:Hn; cbn [Err.bind] in Hrun.
  - destruct (setNodeSecure nc e nid (lk_linkType l)) as [e1|] eqn:Hs; [|discriminate].
    cbn in Hrun. injection Hrun as <- <-.
    split; [by rewrite Hn | by eapply setNodeSecure_endpoint].
  - destruct (endPosition (lk_linkType l) (ed_geom e)) as [pos|]; [|discriminate].
    cbn [Err.bind] in Hrun. unfold nc_insert in Hrun. rewrite Hn in Hrun.
    cbn [Err.bind] in Hrun.
    destruct (setNodeSecure (<[nid:=pos]> nc) e nid (lk_linkType l)) as [e1|] eqn:Hs;
      [|discriminate].
    cbn in Hrun. injection Hrun as <- <-.
    split; [by rewrite lookup_insert_eq | by eapply setNodeSecure_endpoint].
Qed.

Import Samples.

Lemma outer_link_node_witness :
  lk_elementType (successorRoad "B") = OPENDRIVE_ET_ROAD
  /\ (∅ : gmap string string) !! lk_elementID (successorRoad "B") = None
  /\ linkOuterNode ∅ (∅, roadA) (successorRoad "B")
     = Ok (<["B.A" := Geometry.Position2 100 0]> ∅, set_to "B.A" roadA)
  /\ exists hi lo : string,
       (hi = ed_id roadA /\ lo = lk_elementID (successorRoad "B")
        \/ hi = lk_elementID (successorRoad "B") /\ lo = ed_id roadA)
       /\ String.leb lo hi = true
       /\ outerNodeID (ed_id roadA) (lk_elementID (successorRoad "B")) = (hi ++ "." ++ lo)%string
       /\ outerNodeID (lk_elementID (successorRoad "B")) (ed_id roadA) = (hi ++ "." ++ lo)%string
       /\ is_Some ((<["B.A" := Geometry.Position2 100 0]> ∅ : gmap string Geometry.Position)
                     !! (hi ++ "." ++ lo)%string)
       /\ endpoint (lk_linkType (successorRoad "B")) (set_to "B.A" roadA)
          = Some (hi ++ "." ++ lo)%string.
Proof.
  split; [reflexivity|]. split; [reflexivity|]. split; [reflexivity|].
  apply (outer_link_node ∅ ∅ (<["B.A" := Geometry.Position2 100 0]> ∅)
           roadA (set_to "B.A" roadA) (successorRoad "B")); reflexivity.
Defined.

(** C4, as stated, fails: road "A" names road "B" as its successor; "A"
    precedes "B", and the node is called "B.A", not "A.B".  Road "B", which
    names no one, is bound to no node by this phase. *)
Lemma outer_node_not_ascending :
  String.ltb "A" "B" = true
  /\ outerNodeID "A" "B" = "B.A"
  /\ buildNodes2 ∅ ∅ [roadA; roadB]
     = Ok (<["B.A" := Geometry.Position2 100 0]> ∅, [set_to "B.A" roadA; roadB])
  /\ ed_from roadB = None /\ ed_to roadB = None.
Proof. repeat split. Qed.

End TopologyFacts.

(** ** Theorems: edge identifiers *)

Module EmitterFacts.
Import Err Lanes Topology Emitter.

Section Identifiers.

Variable toString : Q -> string.
Variable positionAtOffset : list Geometry.Position -> Q -> Geometry.Position.

Local Abbreviation emit1 := (emitSection toString positionAtOffset).
Local Abbreviation emitAll := (emitSections toString positionAtOffset).
Local Abbreviation suffixed := (Emitter.suffixed toString).

Lemma node_eqb_refl (n : option string) : node_eqb n n = true.
Proof. destruct n; cbn; [apply String.eqb_refl | reflexivity]. Qed.

Lemma node_eqb_fresh (nodes : gmap string Geometry.Position) (nid : string)
    (n : option string) :
  nodes !! nid = None ->
  (forall x, n = Some x -> is_Some (nodes !! x)) ->
  node_eqb (Some nid) n = false.
Proof.
  intros Hfresh Hn. destruct n as [x|]; cbn; [|reflexivity].
  apply String.eqb_neq. intros ->.
  destruct (Hn x eq_refl) as [p Hp]. congruence.
Qed.

Lemma ec_insert_ids edge ec ec' :
  ec_insert edge ec = Ok ec' -> map nb_id ec' = map nb_id ec ++ [nb_id edge].
Proof.
  unfold ec_insert. destruct (existsb _ ec); [discriminate|].
  intros [= <-]. by rewrite map_app.
Qed.

(** What one iteration does to the state, when it does not throw. *)
Lemma emitSection_inv e st sec next st' :
  emit1 e st sec next = Ok st' ->
  exists sTo,
    match next with
    | None => sTo = ed_to e /\ em_nodes st' = em_nodes st
    | Some nx =>
        sTo = Some (suffixed e nx)
        /\ em_nodes st !! suffixed e nx = None
        /\ em_nodes st'
           = <[suffixed e nx := positionAtOffset (ed_geom e) (ls_s nx)]> (em_nodes st)
    end
    /\ em_sFrom st' = sTo
    /\ em_done st'
       = em_done st ++ [with_sumoID (sectionID toString e (em_sFrom st) sTo sec) sec]
    /\ map nb_id (em_edges st')
       = map nb_id (em_edges st)
         ++ edgeIDs (sectionID toString e (em_sFrom st) sTo sec) sec.
Proof.
  unfold emitSection, mbind, result_bind, edgeIDs. intros H.
  set (first :=
         match next with
         | Some nx =>
             match nc_insert (ed_id e ++ "." ++ toString (ls_s nx))%string
                             (positionAtOffset (ed_geom e) (ls_s nx)) (em_nodes st) with
             | Some nc' => Ok (nc', Some (ed_id e ++ "." ++ toString (ls_s nx))%string)
             | None => Throw (CouldNotAddNode (ed_id e ++ "." ++ toString (ls_s nx))%string)
             end
         | None => Ok (em_nodes st, ed_to e)
         end) in H.
  destruct first as [[nodes1 sTo]|] eqn:Hfirst; [|discriminate].
  cbn [Err.bind] in H. exists sTo.
  assert (Hnext : match next with
                  | None => sTo = ed_to e /\ nodes1 = em_nodes st
                  | Some nx =>
                      sTo = Some (suffixed e nx)
                      /\ em_nodes st !! suffixed e nx = None
                      /\ nodes1
                         = <[suffixed e nx := positionAtOffset (ed_geom e) (ls_s nx)]>
                             (em_nodes st)
                  end).
  { subst first. destruct next as [nx|].
    - unfold nc_insert, suffixed in *.
      destruct (em_nodes st !! (ed_id e ++ "." ++ toString (ls_s nx))%string) eqn:Hl;
        [discriminate|].
      by injection Hfirst as <- <-.
    - by injection Hfirst as <- <-. }
  clear Hfirst.
  set (id := sectionID toString e (em_sFrom st) sTo sec) in *.
  destruct (0 <? ls_rightLaneNumber sec)%Z.
  - destruct (ec_insert _ (em_edges st)) as [edges1|] eqn:Hr; [|discriminate].
    apply ec_insert_ids in Hr. cbn [Err.bind nb_id] in H, Hr.
    destruct (0 <? ls_leftLaneNumber sec)%Z.
    + destruct (ec_insert _ edges1) as [edges2|] eqn:Hl; [|discriminate].
      apply ec_insert_ids in Hl. cbn [Err.bind nb_id] in H, Hl.
      injection H as <-. cbn.
      split; [by destruct next; intuition|]. split; [reflexivity|]. split; [reflexivity|].
      rewrite Hl, Hr. by rewrite <- app_assoc.
    + cbn [Err.bind] in H. injection H as <-. cbn.
      split; [by destruct next; intuition|]. split; [reflexivity|]. split; [reflexivity|].
      exact Hr.
  - cbn [Err.bind] in H.
    destruct (0 <? ls_leftLaneNumber sec)%Z.
    + destruct (ec_insert _ (em_edges st)) as [edges2|] eqn:Hl; [|discriminate].
      apply ec_insert_ids in Hl. cbn [Err.bind nb_id] in H, Hl.
      injection H as <-. cbn.
      split; [by destruct next; intuition|]. split; [reflexivity|]. split; [reflexivity|].
      exact Hl.
    + cbn [Err.bind] in H. injection H as <-. cbn.
      split; [by destruct next; intuition|]. split; [reflexivity|]. split; [reflexivity|].
      by rewrite app_nil_r.
Qed.

Lemma is_Some_insert (nodes : gmap string Geometry.Position) k p (n : option string) :
  (forall x, n = Some x -> is_Some (nodes !! x)) ->
  forall x, n = Some x -> is_Some (<[k := p]> nodes !! x).
Proof.
  intros H x Hx. rewrite lookup_insert_is_Some. destruct (decide (k = x)); [by left|].
  right. split; [done | by apply H].
Qed.

(** Along a road the identifiers carry the start arclength of their section
    as soon as the road has two sections or the walk has left the road's
    own start node. *)
Lemma emitSections_suffixed e secs :
  forall st st',
    (forall x, ed_from e = Some x -> is_Some (em_nodes st !! x)) ->
    (forall x, ed_to e = Some x -> is_Some (em_nodes st !! x)) ->
    (2 <= length secs)%nat \/ node_eqb (em_sFrom st) (ed_from e) = false ->
    emitAll e st secs = Ok st' ->
    em_done st' = em_done st ++ map (fun sec => with_sumoID (suffixed e sec) sec) secs
    /\ map nb_id (em_edges st')
       = map nb_id (em_edges st) ++ flat_map (fun sec => edgeIDs (suffixed e sec) sec) secs.
Proof.
  induction secs as [|sec rest IH]; intros st st' Hfrom Hto Hwhere Hrun.
  - cbn in Hrun. injection Hrun as <-. by rewrite !app_nil_r.
  - cbn [emitSections] in Hrun. unfold mbind, result_bind in Hrun.
    destruct (emit1 e st sec (head rest)) as [st1|] eqn:Hone; [|discriminate].
    cbn [Err.bind] in Hrun.
    destruct (emitSection_inv e st sec (head rest) st1 Hone)
      as (sTo & Hnext & HsFrom & Hdone & Hids).
    assert (Hid : sectionID toString e (em_sFrom st) sTo sec = suffixed e sec).
    { unfold sectionID.
      destruct rest as [|nx r]; cbn [head] in Hnext.
      - destruct Hwhere as [Hlen | Hleft]; [cbn in Hlen; lia|].
        by rewrite Hleft.
      - destruct Hnext as (-> & Hfresh & _).
        rewrite (node_eqb_fresh (em_nodes st) _ (ed_to e) Hfresh Hto).
        by rewrite orb_true_r. }
    rewrite Hid in Hdone, Hids.
    destruct rest as [|nx r].
    + cbn in Hrun. injection Hrun as <-. cbn. by rewrite app_nil_r.
    + cbn [head] in Hnext. destruct Hnext as (HsTo & Hfresh & Hnodes).
      destruct (IH st1 st') as [Hd Hi].
      * rewrite Hnodes. by apply is_Some_insert.
      * rewrite Hnodes. by apply is_Some_insert.
      * right. rewrite HsFrom, HsTo. by apply (node_eqb_fresh (em_nodes st)).
      * exact Hrun.
      * rewrite Hd, Hi, Hdone, Hids. cbn [map flat_map].
        by rewrite <- !app_assoc.
Qed.

Lemma eqb_minus_prefix (id : string) : String.eqb ("-" ++ id) id = false.
Proof.
  apply String.eqb_neq. intros H. apply (f_equal String.length) in H.
  change (S (String.length id) = String.length id) in H. lia.
Qed.

Lemma ec_insert_fresh edge ec :
  existsb (fun x => String.eqb (nb_id x) (nb_id edge)) ec = false ->
  ec_insert edge ec = Ok (ec ++ [edge]).
Proof. unfold ec_insert. by intros ->. Qed.

(** The loop on a road with a single section: both end nodes are the road's
    own, so the identifier ends in ".0.00". *)
Lemma emitSections_single e ls nodes ec :
  ed_laneSections e = [ls] ->
  existsb (fun x => String.eqb (nb_id x) ("-" ++ ed_id e ++ ".0.00")) ec = false ->
  existsb (fun x => String.eqb (nb_id x) (ed_id e ++ ".0.00")) ec = false ->
  exists st',
    emitAll e {| em_nodes := nodes; em_edges := ec; em_sFrom := ed_from e; em_done := [] |}
            [ls] = Ok st'
    /\ em_nodes st' = nodes
    /\ map ls_sumoID (em_done st') = [(ed_id e ++ ".0.00")%string]
    /\ map nb_id (em_edges st') = map nb_id ec ++ edgeIDs (ed_id e ++ ".0.00") ls.
Proof.
  intros Hsecs Hr Hl.
  cbn [emitSections head]. unfold emitSection, mbind, result_bind, edgeIDs.
  cbn [Err.bind em_nodes em_edges em_sFrom em_done].
  unfold sectionID. rewrite !node_eqb_refl, Hsecs. cbn [negb orb length Nat.eqb].
  destruct (0 <? ls_rightLaneNumber ls)%Z.
  - rewrite ec_insert_fresh by exact Hr. cbn [Err.bind].
    destruct (0 <? ls_leftLaneNumber ls)%Z.
    + rewrite ec_insert_fresh.
      * cbn [Err.bind]. eexists. split; [reflexivity|]. cbn.
        rewrite !map_app. cbn. by rewrite <- app_assoc.
      * rewrite existsb_app. cbn [nb_id existsb]. rewrite Hl, eqb_minus_prefix. reflexivity.
    + cbn [Err.bind]. eexists. split; [reflexivity|]. cbn.
      by rewrite map_app.
  - cbn [Err.bind].
    destruct (0 <? ls_leftLaneNumber ls)%Z.
    + rewrite ec_insert_fresh by exact Hl. cbn [Err.bind].
      eexists. split; [reflexivity|]. cbn. by rewrite map_app.
    + cbn [Err.bind]. eexists. split; [reflexivity|]. cbn. by rewrite app_nil_r.
Qed.

Variable myMinWidth : Q.
Variable splitMinWidths : OpenDriveEdge -> OpenDriveEdge.

Local Abbreviation build :=
  (buildEdges toString positionAtOffset myMinWidth splitMinWidths).


End Identifiers.

Import Samples.

Example two_sections_ids :
  exists st',
    emitSections fixed2 pointAt roadR2
      {| em_nodes := endNodes; em_edges := []; em_sFrom := Some "R.begin"; em_done := [] |}
      (ed_laneSections roadR2) = Ok st'
    /\ map nb_id (em_edges st') = ["-R.0.00"; "R.0.00"; "-R.50.00"; "R.50.00"]
    /\ map (fun x => (nb_from x, nb_to x)) (em_edges st')
       = [(Some "R.begin", Some "R.50.00"); (Some "R.50.00", Some "R.begin");
          (Some "R.50.00", Some "R.end"); (Some "R.end", Some "R.50.00")].
Proof. eexists. split; [vm_compute; reflexivity|]. split; reflexivity. Qed.



End EmitterFacts.

(** ** Theorems: flattening connections *)

Module FlattenerFacts.
Import Lanes Topology Flattener.

#[local] Set Warnings "-clear-no-such-hyp".

Section Walk.

Variable innerEdges : gmap string OpenDriveEdge.
Variable myImportInternalShapes : bool.
Variable throughShape : OpenDriveEdge -> Connection -> list Geometry.Position.
Variable destShape : OpenDriveEdge -> Connection -> option (list Geometry.Position).

Local Abbreviation loop := (walkLoop innerEdges myImportInternalShapes throughShape destShape).
Local Abbreviation build :=
  (buildConnectionsToOuter innerEdges myImportInternalShapes throughShape destShape).
Local Abbreviation flatten :=
  (flattenFrom innerEdges myImportInternalShapes throughShape destShape).
Local Abbreviation leavesJunction := (Flattener.leavesJunction innerEdges).

(** *** Only connections that leave the junction are handed back *)

Lemma rewire_toEdge c via j :
  c_toEdge (rewire myImportInternalShapes throughShape c via j) = c_toEdge j.
Proof. reflexivity. Qed.

Lemma leave_toEdge c dest i :
  c_toEdge (fst (leave myImportInternalShapes destShape c dest i)) = c_toEdge i.
Proof.
  unfold leave. destruct myImportInternalShapes; [destruct (destShape dest c)|]; reflexivity.
Qed.

Lemma walkLoop_leaves recur c dest :
  (forall i seen t seen' log, recur i seen = Some (t, seen', log) -> Forall leavesJunction t) ->
  forall conts into seen log into' seen' log',
    Forall leavesJunction into ->
    loop recur c dest conts (into, seen, log) = Some (into', seen', log') ->
    Forall leavesJunction into'.
Proof.
  intros Hrec. induction conts as [|i rest IH]; intros into seen log into' seen' log' Hin Hrun.
  - cbn in Hrun. by injection Hrun as <- _ _.
  - cbn [walkLoop] in Hrun.
    destruct (innerEdges !! c_toEdge i) as [via|] eqn:Hto.
    + destruct (decide (key i ∈ seen)); [by eapply IH|].
      destruct (recur i seen) as [[[t seen1] log1]|] eqn:Hr; [|discriminate].
      eapply IH; [|exact Hrun].
      apply Forall_app. split; [exact Hin|].
      apply List.Forall_map. eapply List.Forall_impl; [|by eapply Hrec].
      intros j Hj. exact Hj.
    + destruct (laneSectionsConnected dest (c_toLane c) (c_fromLane i)); [|by eapply IH].
      pose proof (leave_toEdge c dest i) as Hl.
      destruct (leave myImportInternalShapes destShape c dest i) as [cn w].
      eapply IH; [|exact Hrun].
      apply Forall_app. split; [exact Hin|]. constructor; [|constructor].
      unfold leavesJunction. cbn in Hl. by rewrite Hl.
Qed.

Lemma build_leaves fuel :
  forall c seen t seen' log,
    build fuel c seen = Some (t, seen', log) -> Forall leavesJunction t.
Proof.
  induction fuel as [|fuel IH]; intros c seen t seen' log Hrun; [discriminate|].
  cbn [buildConnectionsToOuter] in Hrun.
  destruct (innerEdges !! c_toEdge c) as [dest|].
  - eapply walkLoop_leaves; [exact IH | constructor | exact Hrun].
  - injection Hrun as <- _ _. constructor.
Qed.

(** *** The walk ends before the fuel does *)

Variable universe : gset (string * string * Z * Z).
Hypothesis inner_connections_known :
  forall id dest, innerEdges !! id = Some dest ->
                  Forall (fun i => key i ∈ universe) (ed_connections dest).

Local Abbreviation returnsWithin := (Flattener.returnsWithin universe).

Lemma walkLoop_returns fuel recur c dest :
  returnsWithin fuel recur ->
  forall conts into seen log,
    Forall (fun i => key i ∈ universe) conts ->
    seen ⊆ universe ->
    size (universe ∖ seen) <= fuel ->
    exists into' seen' log',
      loop recur c dest conts (into, seen, log) = Some (into', seen', log')
      /\ seen ⊆ seen' /\ seen' ⊆ universe.
Proof.
  intros Hrec. induction conts as [|i rest IH]; intros into seen log Hall Hsub Hsize.
  - cbn. by exists into, seen, log.
  - inversion Hall as [|? ? Hi Hrest]; subst. cbn [walkLoop].
    destruct (innerEdges !! c_toEdge i) as [via|].
    + destruct (decide (key i ∈ seen)) as [Hseen|Hnew]; [by apply IH|].
      destruct (Hrec i seen Hi Hsub) as (t & seen1 & log1 & -> & Hgrow & Hin).
      { eapply Nat.lt_le_trans; [|exact Hsize].
        apply subset_size. set_solver. }
      destruct (IH (into ++ map (rewire myImportInternalShapes throughShape c via) t)
                   seen1 (log ++ log1) Hrest Hin)
        as (into' & seen' & log' & Hrun & Hgrow' & Hin').
      { etrans; [|exact Hsize]. apply subseteq_size. set_solver. }
      exists into', seen', log'. split; [exact Hrun|]. split; [set_solver | exact Hin'].
    + destruct (laneSectionsConnected dest (c_toLane c) (c_fromLane i)); [|by apply IH].
      destruct (leave myImportInternalShapes destShape c dest i) as [cn w].
      by apply IH.
Qed.

Lemma build_returns fuel : returnsWithin fuel (build fuel).
Proof.
  induction fuel as [|fuel IH]; intros c seen Hc Hsub Hsize; [lia|].
  cbn [buildConnectionsToOuter].
  destruct (innerEdges !! c_toEdge c) as [dest|] eqn:Hdest.
  - destruct (walkLoop_returns fuel (build fuel) c dest IH (ed_connections dest)
                [] ({[key c]} ∪ seen) [])
      as (into' & seen' & log' & Hrun & Hgrow & Hin).
    + by eapply inner_connections_known.
    + set_solver.
    + lia.
    + exists into', seen', log'. split; [exact Hrun|]. split; [set_solver | exact Hin].
  - by exists [], seen, [].
Qed.

(** *** The loop that fills [connections2] *)

Lemma flatten_returns (conns : list Connection) :
  Forall (fun i => key i ∈ universe) conns ->
  exists out log,
    flatten (S (size universe)) conns = Some (out, log)
    /\ Forall leavesJunction out
    /\ (forall c, c ∈ conns -> innerEdges !! c_fromEdge c = None -> leavesJunction c ->
                  c ∈ out).
Proof.
  induction conns as [|i rest IH]; intros Hall.
  - exists [], []. split; [reflexivity|]. split; [constructor|].
    intros c Hc. by apply elem_of_nil in Hc.
  - inversion Hall as [|? ? Hi Hrest]; subst.
    destruct (IH Hrest) as (out & log & Hrun & Hout & Hkept).
    cbn [flattenFrom]. rewrite Hrun.
    destruct (innerEdges !! c_fromEdge i) as [src|] eqn:Hfrom.
    + exists out, log. split; [reflexivity|]. split; [exact Hout|].
      intros c Hc Hcf Hct. apply elem_of_cons in Hc as [-> | Hc]; [congruence|].
      by apply Hkept.
    + destruct (innerEdges !! c_toEdge i) as [dest|] eqn:Hto.
      * destruct (build_returns (S (size universe)) i ∅ Hi) as (t & seen' & w & Hb & _).
        { set_solver. }
        { apply Nat.lt_succ_r, subseteq_size. set_solver. }
        rewrite Hb. exists (t ++ out), (w ++ log). split; [reflexivity|]. split.
        -- apply Forall_app. split; [by eapply build_leaves | exact Hout].
        -- intros c Hc Hcf Hct. apply elem_of_cons in Hc as [-> | Hc].
           ++ unfold leavesJunction in Hct. congruence.
           ++ apply elem_of_app. right. by apply Hkept.
      * exists (i :: out), log. split; [reflexivity|]. split.
        -- by constructor.
        -- intros c Hc Hcf Hct. apply elem_of_cons in Hc as [-> | Hc].
           ++ by left.
           ++ right. by apply Hkept.
Qed.

End Walk.

Lemma all_connections_known (edges : gmap string OpenDriveEdge) :
  Forall (fun i => key i ∈ (list_to_set (map key (allConnections edges))
                            : gset (string * string * Z * Z)))
         (allConnections edges).
Proof.
  apply Forall_forall. intros c Hc.
  apply elem_of_list_to_set, list_elem_of_In, in_map. by apply list_elem_of_In.
Qed.

Lemma inner_connections_of_all (edges : gmap string OpenDriveEdge) id dest :
  innerOf edges !! id = Some dest ->
  Forall (fun i => key i ∈ (list_to_set (map key (allConnections edges))
                            : gset (string * string * Z * Z)))
         (ed_connections dest).
Proof.
  intros Hin. apply map_lookup_filter_Some in Hin as [Hin _].
  apply elem_of_map_to_list in Hin.
  apply Forall_forall. intros c Hc.
  apply elem_of_list_to_set, list_elem_of_In, in_map.
  apply in_flat_map. exists (id, dest). split; by apply list_elem_of_In.
Qed.

(** C6: the flattening ends with a list of connections, none of which
    leads to an inner road; a connection between two outer roads is in the
    list as it was. *)
Theorem flattened_connections_leave_junctions (shapes : bool)
    (throughShape : OpenDriveEdge -> Connection -> list Geometry.Position)
    (destShape : OpenDriveEdge -> Connection -> option (list Geometry.Position))
    (edges : gmap string OpenDriveEdge) :
  exists connections2 log,
    flattenConnections shapes throughShape destShape edges = Some (connections2, log)
    /\ Forall (fun c => innerOf edges !! c_toEdge c = None) connections2
    /\ (forall c, c ∈ allConnections edges ->
                  innerOf edges !! c_fromEdge c = None ->
                  innerOf edges !! c_toEdge c = None ->
                  c ∈ connections2).
Proof.
  unfold flattenConnections, enoughFuel.
  apply (flatten_returns (innerOf edges) shapes throughShape destShape
           (list_to_set (map key (allConnections edges)))).
  - apply inner_connections_of_all.
  - apply all_connections_known.
Qed.

Import Samples.

Example through_junction_flattened :
  flattenConnections false noShape noDestShape throughJunction
  = Some ([{| c_fromEdge := "A"; c_toEdge := "B"; c_fromLane := (-1); c_toLane := (-1);
              c_fromCP := OPENDRIVE_CP_END; c_toCP := OPENDRIVE_CP_START;
              c_all := false; c_origID := "X"; c_origLane := (-1); c_shape := [] |}],
          []).
Proof. vm_compute. reflexivity. Qed.

Example circular_junction_flattened :
  flattenConnections false noShape noDestShape circularJunction
  = Some ([], [CircularConnections "Y" "X" 3]).
Proof. vm_compute. reflexivity. Qed.

End FlattenerFacts.

(** ** Theorems: the order on connections and the links that create them *)

Module LinkFacts.
Import Lanes Topology Links.

#[local] Set Warnings "-clear-no-such-hyp".

Lemma sltb_irrefl (s : string) : String.ltb s s = false.
Proof.
  unfold String.ltb. assert (H : String.compare s s = Eq) by (by apply OrderedTypeEx.String_as_OT.cmp_eq).
  by rewrite H.
Qed.

Lemma sltb_trans (a b c : string) :
  String.ltb a b = true -> String.ltb b c = true -> String.ltb a c = true.
Proof.
  unfold String.ltb. intros Hab Hbc.
  assert (Lab : String.compare a b = Lt) by (by destruct (String.compare a b)).
  assert (Lbc : String.compare b c = Lt) by (by destruct (String.compare b c)).
  apply OrderedTypeEx.String_as_OT.cmp_lt in Lab, Lbc.
  pose proof (OrderedTypeEx.String_as_OT.lt_trans _ _ _ Lab Lbc) as Lac.
  apply OrderedTypeEx.String_as_OT.cmp_lt in Lac.
  unfold OrderedTypeEx.String_as_OT.cmp in Lac. by rewrite Lac.
Qed.

Lemma sltb_total (a b : string) :
  String.ltb a b = false -> String.ltb b a = false -> a = b.
Proof.
  intros Hab Hba. apply String.leb_antisym; by apply TopologyFacts.not_ltb_leb.
Qed.

Lemma conn_lt_irrefl (c : Connection) : conn_lt c c = false.
Proof.
  unfold conn_lt. rewrite !String.eqb_refl, Z.eqb_refl. cbn. apply Z.ltb_irrefl.
Qed.

Lemma conn_equiv_key (a b : Connection) :
  conn_lt a b = false /\ conn_lt b a = false <-> Flattener.key a = Flattener.key b.
Proof.
  unfold Flattener.key. split.
  - intros [Hab Hba]. unfold conn_lt in *.
    destruct (String.eqb_spec (c_fromEdge a) (c_fromEdge b)) as [E1|N1]; cbn in *.
    2: { destruct (String.eqb_spec (c_fromEdge b) (c_fromEdge a)); [congruence|]. cbn in *.
         exfalso. apply N1. by apply sltb_total. }
    rewrite E1, String.eqb_refl in Hba. cbn in Hba.
    destruct (String.eqb_spec (c_toEdge a) (c_toEdge b)) as [E2|N2]; cbn in *.
    2: { destruct (String.eqb_spec (c_toEdge b) (c_toEdge a)); [congruence|]. cbn in *.
         exfalso. apply N2. by apply sltb_total. }
    rewrite E2, String.eqb_refl in Hba. cbn in Hba.
    destruct (Z.eqb_spec (c_fromLane a) (c_fromLane b)) as [E3|N3]; cbn in *.
    2: { destruct (Z.eqb_spec (c_fromLane b) (c_fromLane a)); [congruence|]. cbn in *. lia. }
    rewrite E3, Z.eqb_refl in Hba. cbn in Hba.
    assert (c_toLane a = c_toLane b) by lia. congruence.
  - intros [= E1 E2 E3 E4]. unfold conn_lt.
    rewrite E1, E2, E3, E4, !String.eqb_refl, !Z.eqb_refl. cbn.
    by rewrite Z.ltb_irrefl.
Qed.

Lemma conn_lt_trans (a b c : Connection) :
  conn_lt a b = true -> conn_lt b c = true -> conn_lt a c = true.
Proof.
  unfold conn_lt. intros Hab Hbc.
  destruct (String.eqb_spec (c_fromEdge a) (c_fromEdge b)) as [E1|N1];
    destruct (String.eqb_spec (c_fromEdge b) (c_fromEdge c)) as [F1|M1]; cbn in *.
  2: { rewrite E1. destruct (String.eqb_spec (c_fromEdge b) (c_fromEdge c)); [congruence|done]. }
  2: { rewrite <- F1. destruct (String.eqb_spec (c_fromEdge a) (c_fromEdge b)); [congruence|done]. }
  2: { pose proof (sltb_trans _ _ _ Hab Hbc) as Hac.
       destruct (String.eqb_spec (c_fromEdge a) (c_fromEdge c)) as [E|]; [|done].
       rewrite E, sltb_irrefl in Hac. discriminate. }
  rewrite E1, F1, String.eqb_refl. cbn.
  destruct (String.eqb_spec (c_toEdge a) (c_toEdge b)) as [E2|N2];
    destruct (String.eqb_spec (c_toEdge b) (c_toEdge c)) as [F2|M2]; cbn in *.
  2: { rewrite E2. destruct (String.eqb_spec (c_toEdge b) (c_toEdge c)); [congruence|done]. }
  2: { rewrite <- F2. destruct (String.eqb_spec (c_toEdge a) (c_toEdge b)); [congruence|done]. }
  2: { pose proof (sltb_trans _ _ _ Hab Hbc) as Hac.
       destruct (String.eqb_spec (c_toEdge a) (c_toEdge c)) as [E|]; [|done].
       rewrite E, sltb_irrefl in Hac. discriminate. }
  rewrite E2, F2, String.eqb_refl. cbn.
  destruct (Z.eqb_spec (c_fromLane a) (c_fromLane b));
    destruct (Z.eqb_spec (c_fromLane b) (c_fromLane c));
    destruct (Z.eqb_spec (c_fromLane a) (c_fromLane c)); cbn in *; lia.
Qed.

(** X1: the comparison of connections is a strict order (irreflexive and
    transitive), and two connections are equivalent under it, neither
    below the other, exactly when they agree on fromEdge, toEdge, fromLane
    and toLane; contact points, the all flag, origin data and shape play no
    part. *)
Theorem connection_order :
  (forall c, conn_lt c c = false)
  /\ (forall a b c, conn_lt a b = true -> conn_lt b c = true -> conn_lt a c = true)
  /\ (forall a b, conn_lt a b = false /\ conn_lt b a = false
                  <-> Flattener.key a = Flattener.key b).
Proof.
  split; [exact conn_lt_irrefl|]. split; [exact conn_lt_trans | exact conn_equiv_key].
Qed.

(** *** Insertion into a road's connection set *)

Lemma conn_insert_keeps (c x : Connection) (l : list Connection) :
  x ∈ l -> x ∈ conn_insert c l.
Proof.
  induction l as [|y l IH]; intros Hx; [by apply elem_of_nil in Hx|].
  cbn. destruct (conn_lt c y); [by right|].
  destruct (conn_lt y c); [|exact Hx].
  apply elem_of_cons in Hx as [-> | Hx]; [by left | right; by apply IH].
Qed.

Lemma conn_insert_from (c x : Connection) (l : list Connection) :
  x ∈ conn_insert c l -> x = c \/ x ∈ l.
Proof.
  induction l as [|y l IH]; cbn.
  - intros Hx. apply list_elem_of_singleton in Hx. by left.
  - destruct (conn_lt c y).
    + intros Hx. apply elem_of_cons in Hx as [-> | Hx]; [by left | by right].
    + destruct (conn_lt y c); [|by right].
      intros Hx. apply elem_of_cons in Hx as [-> | Hx]; [right; by left|].
      destruct (IH Hx) as [-> | H]; [by left | right; by right].
Qed.

(** After an insertion the set holds a connection equivalent to the one
    inserted. *)
Lemma conn_insert_has (c : Connection) (l : list Connection) :
  exists x, x ∈ conn_insert c l /\ Flattener.key x = Flattener.key c.
Proof.
  induction l as [|y l IH]; cbn.
  - exists c. split; [by left | reflexivity].
  - destruct (conn_lt c y) eqn:Hcy; [exists c; split; [by left | reflexivity]|].
    destruct (conn_lt y c) eqn:Hyc.
    + destruct IH as (x & Hx & Hk). exists x. split; [by right | exact Hk].
    + exists y. split; [by left|]. by apply conn_equiv_key.
Qed.

Lemma extends_refl edges : extends edges edges.
Proof. split; [reflexivity|]. intros k e He. by exists e. Qed.

Lemma extends_trans a b c : extends a b -> extends b c -> extends a c.
Proof.
  intros [Hd1 H1] [Hd2 H2]. split; [congruence|].
  intros k e He. destruct (H1 k e He) as (e1 & He1 & Hid1 & Hc1).
  destruct (H2 k e1 He1) as (e2 & He2 & Hid2 & Hc2).
  exists e2. split; [exact He2|]. split; [congruence|]. auto.
Qed.

Lemma storeConnection_keeps c log edges :
  storedAtOrigin edges ->
  storedAtOrigin (snd (storeConnection c (log, edges)))
  /\ extends edges (snd (storeConnection c (log, edges))).
Proof.
  intros Hinv. unfold storeConnection.
  destruct (edges !! c_fromEdge c) as [src|] eqn:Hsrc; cbn [snd].
  2: { split; [exact Hinv | apply extends_refl]. }
  split.
  - intros k e He. apply lookup_insert_Some in He as [[<- <-] | [Hne He]].
    + cbn. apply Forall_forall. intros x Hx.
      apply conn_insert_from in Hx as [-> | Hx]; [reflexivity|].
      pose proof (Hinv _ _ Hsrc) as Hall. rewrite Forall_forall in Hall. by apply Hall.
    + by eapply Hinv.
  - split.
    + rewrite dom_insert_L. apply elem_of_dom_2 in Hsrc. set_solver.
    + intros k e He. destruct (decide (c_fromEdge c = k)) as [<- | Hne].
      * rewrite Hsrc in He. injection He as <-.
        exists (add_connection c src). rewrite lookup_insert_eq.
        split; [reflexivity|]. split; [reflexivity|].
        intros x Hx. cbn. by apply conn_insert_keeps.
      * exists e. rewrite lookup_insert_ne by done. by split.
Qed.

Lemma storeConnection_new c log edges k e' x :
  snd (storeConnection c (log, edges)) !! k = Some e' ->
  x ∈ ed_connections e' ->
  x = c \/ exists e, edges !! k = Some e /\ x ∈ ed_connections e.
Proof.
  unfold storeConnection.
  destruct (edges !! c_fromEdge c) as [src|] eqn:Hsrc; cbn [snd]; intros He Hx.
  2: { right. by exists e'. }
  apply lookup_insert_Some in He as [[<- <-] | [Hne He]].
  - cbn in Hx. apply conn_insert_from in Hx as [-> | Hx]; [by left|].
    right. by exists src.
  - right. by exists e'.
Qed.

Section EdgeLinkFacts.

Variable myImportAllTypes : bool.

Lemma lane_fold_keeps (mk : OpenDriveLane -> Connection) (laneMap : gmap Z Z)
    (lanes : list OpenDriveLane) :
  forall st,
    storedAtOrigin (snd st) ->
    storedAtOrigin
      (snd (fold_left (fun acc j => if skipped myImportAllTypes laneMap j then acc
                                    else storeConnection (mk j) acc) lanes st))
    /\ extends (snd st)
         (snd (fold_left (fun acc j => if skipped myImportAllTypes laneMap j then acc
                                       else storeConnection (mk j) acc) lanes st)).
Proof.
  induction lanes as [|j lanes IH]; intros st Hinv; cbn [fold_left].
  - split; [exact Hinv | apply extends_refl].
  - destruct (skipped myImportAllTypes laneMap j); [by apply IH|].
    destruct st as [log edges]. cbn [snd] in *.
    destruct (storeConnection_keeps (mk j) log edges Hinv) as [Hinv1 Hext1].
    destruct (IH (storeConnection (mk j) (log, edges)) Hinv1) as [Hinv2 Hext2].
    split; [exact Hinv2 | by eapply extends_trans].
Qed.

Lemma linkConnections_keeps e l st st' :
  storedAtOrigin (snd st) ->
  linkConnections myImportAllTypes e l st = Some st' ->
  storedAtOrigin (snd st') /\ extends (snd st) (snd st').
Proof.
  intros Hinv. unfold linkConnections.
  destruct (lk_elementType l); try (intros [= <-]; split; [exact Hinv | apply extends_refl]).
  destruct (if isSuccessor (lk_linkType l) then _ else _) as [sec|]; [|discriminate].
  intros [= <-].
  destruct (lane_fold_keeps (rightConnection (ed_id e) l) (ls_laneMap sec) (ls_right sec)
              st Hinv) as [Hinv1 Hext1].
  destruct (lane_fold_keeps (leftConnection (ed_id e) l) (ls_laneMap sec) (ls_left sec)
              _ Hinv1) as [Hinv2 Hext2].
  split; [exact Hinv2 | by eapply extends_trans].
Qed.

(** X2: [setEdgeLinks2] keeps the road table well formed: if every road
    stored only connections that start at it, this is still so afterwards;
    the same roads are known, and no connection a road had is lost. *)
Theorem setEdgeLinks2_stores_at_origin (e : OpenDriveEdge)
    (log log' : list LinkError) (edges edges' : gmap string OpenDriveEdge) :
  storedAtOrigin edges ->
  setEdgeLinks2 myImportAllTypes e (log, edges) = Some (log', edges') ->
  storedAtOrigin edges' /\ extends edges edges'.
Proof.
  unfold setEdgeLinks2. generalize (ed_links e) as links.
  intros links. revert log edges.
  induction links as [|l links IH]; intros log edges Hinv Hrun; cbn [linksLoop] in Hrun.
  - injection Hrun as <- <-. split; [exact Hinv | apply extends_refl].
  - destruct (linkConnections myImportAllTypes e l (log, edges)) as [[log1 edges1]|] eqn:Hl;
      [|discriminate].
    destruct (linkConnections_keeps e l (log, edges) (log1, edges1) Hinv Hl)
      as [Hinv1 Hext1]. cbn [snd] in *.
    destruct (IH log1 edges1 Hinv1 Hrun) as [Hinv2 Hext2].
    split; [exact Hinv2 | by eapply extends_trans].
Qed.

(** Links to junctions give no connection at all. *)
Lemma junction_links_give_nothing e links st :
  Forall (fun l => lk_elementType l <> OPENDRIVE_ET_ROAD) links ->
  linksLoop myImportAllTypes e links st = Some st.
Proof.
  induction 1 as [|l links Hl _ IH]; cbn [linksLoop]; [reflexivity|].
  unfold linkConnections. by destruct (lk_elementType l).
Qed.

End EdgeLinkFacts.

Lemma twoRoads_at_origin : storedAtOrigin MoreSamples.twoRoads.
Proof.
  apply map_Forall_insert_2; [constructor|].
  apply map_Forall_insert_2; [constructor|]. apply map_Forall_empty.
Qed.

Lemma setEdgeLinks2_stores_at_origin_witness :
  storedAtOrigin MoreSamples.twoRoads
  /\ exists log' edges',
       setEdgeLinks2 true MoreSamples.linkedRoadA ([], MoreSamples.twoRoads)
       = Some (log', edges')
       /\ storedAtOrigin edges' /\ extends MoreSamples.twoRoads edges'.
Proof.
  split; [exact twoRoads_at_origin|].
  eexists _, _. split; [reflexivity|].
  apply (setEdgeLinks2_stores_at_origin true MoreSamples.linkedRoadA [] _
           MoreSamples.twoRoads _ twoRoads_at_origin eq_refl).
Defined.

Example successor_link_connections :
  option_map (fun r : list LinkError * gmap string OpenDriveEdge =>
                (fst r, map (fun kv : string * OpenDriveEdge =>
                               (fst kv, map Flattener.key (ed_connections (snd kv))))
                            (map_to_list (snd r))))
             (setEdgeLinks2 true MoreSamples.linkedRoadA ([], MoreSamples.twoRoads))
  = Some ([], [("A", [("A", "B", (-1)%Z, (-1)%Z)]); ("B", [("B", "A", 1%Z, 1%Z)])]).
Proof. vm_compute. reflexivity. Qed.

(** *** The connection element of a junction *)

Lemma startLaneLink_store from to st :
  (myErrors (startLaneLink from to st), myEdges (startLaneLink from to st))
  = storeConnection (junctionConnection st from to false) (myErrors st, myEdges st)
  /\ myCurrentIncomingRoad (startLaneLink from to st) = myCurrentIncomingRoad st
  /\ myCurrentConnectingRoad (startLaneLink from to st) = myCurrentConnectingRoad st
  /\ myCurrentContactPoint (startLaneLink from to st) = myCurrentContactPoint st
  /\ myConnectionWasEmpty (startLaneLink from to st)
     = myConnectionWasEmpty st
       && bool_decide (myEdges st !! myCurrentIncomingRoad st = None).
Proof.
  unfold startLaneLink, storeConnection. cbn [c_fromEdge junctionConnection].
  destruct (myEdges st !! myCurrentIncomingRoad st) eqn:H; cbn.
  - repeat split. by rewrite andb_false_r.
  - repeat split. by rewrite andb_true_r.
Qed.

(** The lane links of one connection element whose incoming road is not
    known: nothing is stored and each of them is reported. *)
Lemma laneLinks_unknown (links : list (Z * Z)) :
  forall st,
    myEdges st !! myCurrentIncomingRoad st = None ->
    let st' := fold_left (fun s ft => startLaneLink (fst ft) (snd ft) s) links st in
    myEdges st' = myEdges st
    /\ myCurrentIncomingRoad st' = myCurrentIncomingRoad st
    /\ myCurrentConnectingRoad st' = myCurrentConnectingRoad st
    /\ myCurrentContactPoint st' = myCurrentContactPoint st
    /\ myConnectionWasEmpty st' = myConnectionWasEmpty st
    /\ myErrors st'
       = myErrors st ++ replicate (length links) (IncomingRoadUnknown (myCurrentIncomingRoad st)).
Proof.
  induction links as [|[from to] links IH]; intros st Hno; cbn [fold_left length replicate].
  - repeat split. by rewrite app_nil_r.
  - assert (Hstep : startLaneLink from to st
                    = {| myCurrentIncomingRoad := myCurrentIncomingRoad st;
                         myCurrentConnectingRoad := myCurrentConnectingRoad st;
                         myCurrentContactPoint := myCurrentContactPoint st;
                         myConnectionWasEmpty := myConnectionWasEmpty st;
                         myEdges := myEdges st;
                         myErrors := myErrors st
                                     ++ [IncomingRoadUnknown (myCurrentIncomingRoad st)] |}).
    { unfold startLaneLink. cbn [c_fromEdge junctionConnection]. by rewrite Hno. }
    cbn [fst snd]. rewrite Hstep.
    match goal with |- context [fold_left _ links ?s] => destruct (IH s) as (H1 & H2 & H3 & H4 & H5 & H6) end.
    { exact Hno. }
    cbn in *. repeat split; try assumption.
    rewrite H6. by rewrite <- app_assoc.
Qed.

(** X3: a connection element whose incoming road is not known stores
    nothing, and reports the road once for each of its lane links and once
    more when the element ends. *)
Theorem connection_of_unknown_road (incomingRoad connectingRoad contactPoint : string)
    (laneLinks : list (Z * Z)) (st : JunctionState) :
  myEdges st !! incomingRoad = None ->
  myEdges (connectionElement incomingRoad connectingRoad contactPoint laneLinks st)
  = myEdges st
  /\ myErrors (connectionElement incomingRoad connectingRoad contactPoint laneLinks st)
     = myErrors st ++ replicate (S (length laneLinks)) (IncomingRoadUnknown incomingRoad).
Proof.
  intros Hno. unfold connectionElement.
  set (st0 := startConnection incomingRoad connectingRoad contactPoint st).
  destruct (laneLinks_unknown laneLinks st0 Hno) as (H1 & H2 & H3 & H4 & H5 & H6).
  cbn zeta in *.
  set (st1 := fold_left _ laneLinks st0) in *.
  unfold endConnection, storeConnection. rewrite H5. cbn [st0 startConnection myConnectionWasEmpty].
  cbn [c_fromEdge junctionConnection]. rewrite H2, H1. cbn [st0 startConnection myCurrentIncomingRoad myEdges].
  rewrite Hno. cbn [myEdges myErrors]. split; [reflexivity|].
  rewrite H6. cbn [st0 startConnection myCurrentIncomingRoad myErrors].
  rewrite <- app_assoc. f_equal.
  change (S (length laneLinks)) with (1 + length laneLinks)%nat.
  rewrite (Nat.add_comm 1). by rewrite replicate_add.
Qed.

Lemma connection_of_unknown_road_witness :
  myEdges MoreSamples.freshJunction !! "Z" = None
  /\ myEdges (connectionElement "Z" "X" "start" [(1%Z, 1%Z); ((-1)%Z, (-1)%Z)]
                                MoreSamples.freshJunction)
     = myEdges MoreSamples.freshJunction
  /\ myErrors (connectionElement "Z" "X" "start" [(1%Z, 1%Z); ((-1)%Z, (-1)%Z)]
                                 MoreSamples.freshJunction)
     = myErrors MoreSamples.freshJunction
       ++ replicate (S (length [(1%Z, 1%Z); ((-1)%Z, (-1)%Z)])) (IncomingRoadUnknown "Z").
Proof.
  split; [reflexivity|].
  apply (connection_of_unknown_road "Z" "X" "start" [(1%Z, 1%Z); ((-1)%Z, (-1)%Z)]
           MoreSamples.freshJunction).
  reflexivity.
Defined.

(** The lane links of one connection element whose incoming road is known. *)
Lemma laneLinks_known (links : list (Z * Z)) :
  forall st,
    is_Some (myEdges st !! myCurrentIncomingRoad st) ->
    storedAtOrigin (myEdges st) ->
    let st' := fold_left (fun s ft => startLaneLink (fst ft) (snd ft) s) links st in
    storedAtOrigin (myEdges st')
    /\ extends (myEdges st) (myEdges st')
    /\ myErrors st' = myErrors st
    /\ myConnectionWasEmpty st' = myConnectionWasEmpty st && bool_decide (links = [])
    /\ (forall k e' x, myEdges st' !! k = Some e' -> x ∈ ed_connections e' ->
                       c_all x = false
                       \/ exists e, myEdges st !! k = Some e /\ x ∈ ed_connections e).
Proof.
  induction links as [|[from to] links IH]; intros st Hknown Hinv; cbn [fold_left].
  - split; [exact Hinv|]. split; [apply extends_refl|]. split; [reflexivity|].
    split; [by rewrite andb_true_r|]. intros k e' x He Hx. right. by exists e'.
  - cbn [fst snd].
    destruct (startLaneLink_store from to st) as (Hstore & Hin & Hcon & Hcp & Hwas).
    set (c := junctionConnection st from to false) in *.
    set (st1 := startLaneLink from to st) in *.
    destruct (storeConnection_keeps c (myErrors st) (myEdges st) Hinv) as [Hinv1 Hext1].
    rewrite <- Hstore in Hinv1, Hext1. cbn [snd] in Hinv1, Hext1.
    assert (Herr : myErrors st1 = myErrors st).
    { assert (E : fst (storeConnection c (myErrors st, myEdges st)) = myErrors st).
      { unfold storeConnection. cbn [c c_fromEdge junctionConnection].
        destruct Hknown as [e He]. by rewrite He. }
      rewrite <- Hstore in E. exact E. }
    assert (Hknown1 : is_Some (myEdges st1 !! myCurrentIncomingRoad st1)).
    { rewrite Hin. destruct Hknown as [e He]. destruct Hext1 as [_ Hk].
      destruct (Hk _ _ He) as (e1 & He1 & _). by exists e1. }
    destruct (IH st1 Hknown1 Hinv1) as (Hinv2 & Hext2 & Herr2 & Hwas2 & Hnew2).
    cbn zeta in *.
    split; [exact Hinv2|]. split; [by eapply extends_trans|]. split; [congruence|].
    split.
    + rewrite Hwas2, Hwas. destruct Hknown as [e He].
      rewrite bool_decide_eq_false_2 by (rewrite He; discriminate).
      rewrite andb_false_r. cbn [andb].
      rewrite (bool_decide_eq_false_2 ((from, to) :: links = [])) by discriminate.
      by rewrite andb_false_r.
    + intros k e' x He' Hx. destruct (Hnew2 k e' x He' Hx) as [Hall | (e1 & He1 & Hx1)];
        [by left|].
      assert (Hs : snd (storeConnection c (myErrors st, myEdges st)) !! k = Some e1)
        by (by rewrite <- Hstore).
      destruct (storeConnection_new c _ _ k e1 x Hs Hx1) as [-> | Hold]; [by left | by right].
Qed.

(** X4: a connection element whose incoming road is known reports nothing
    and loses nothing.  Without lane links it stores for that road the one
    connection of lane 0 to lane 0 flagged all; with lane links, every
    connection it adds has the flag off. *)
Theorem connection_of_known_road (incomingRoad connectingRoad contactPoint : string)
    (laneLinks : list (Z * Z)) (st : JunctionState) (e : OpenDriveEdge) :
  myEdges st !! incomingRoad = Some e ->
  storedAtOrigin (myEdges st) ->
  storedAtOrigin
    (myEdges (connectionElement incomingRoad connectingRoad contactPoint laneLinks st))
  /\ extends (myEdges st)
       (myEdges (connectionElement incomingRoad connectingRoad contactPoint laneLinks st))
  /\ myErrors (connectionElement incomingRoad connectingRoad contactPoint laneLinks st)
     = myErrors st
  /\ (laneLinks = [] ->
      myEdges (connectionElement incomingRoad connectingRoad contactPoint laneLinks st)
      = <[incomingRoad :=
            add_connection
              (junctionConnection
                 (startConnection incomingRoad connectingRoad contactPoint st) 0 0 true) e]>
          (myEdges st))
  /\ (laneLinks <> [] ->
      forall k e' x,
        myEdges (connectionElement incomingRoad connectingRoad contactPoint laneLinks st)
          !! k = Some e' ->
        x ∈ ed_connections e' ->
        c_all x = false \/ exists e0, myEdges st !! k = Some e0 /\ x ∈ ed_connections e0).
Proof.
  intros Hknown Hinv. unfold connectionElement.
  set (st0 := startConnection incomingRoad connectingRoad contactPoint st).
  assert (Hk0 : is_Some (myEdges st0 !! myCurrentIncomingRoad st0)) by (by exists e).
  destruct (laneLinks_known laneLinks st0 Hk0 Hinv) as (Hinv1 & Hext1 & Herr1 & Hwas1 & Hnew1).
  cbn zeta in *. set (st1 := fold_left _ laneLinks st0) in *.
  destruct laneLinks as [|ft rest].
  - cbn in st1. subst st1. unfold endConnection.
    cbn [st0 startConnection myConnectionWasEmpty].
    set (c := junctionConnection st0 0 0 true).
    destruct (storeConnection_keeps c (myErrors st) (myEdges st) Hinv) as [Hi He].
    unfold storeConnection in *. cbn [c c_fromEdge junctionConnection st0 startConnection
                                       myCurrentIncomingRoad myErrors myEdges] in *.
    rewrite Hknown in *. cbn [snd myEdges myErrors] in *.
    split; [exact Hi|]. split; [exact He|]. split; [reflexivity|].
    split; [reflexivity|]. intros Hne. by destruct Hne.
  - unfold endConnection. rewrite Hwas1.
    rewrite bool_decide_eq_false_2 by discriminate. rewrite andb_false_r.
    split; [exact Hinv1|]. split; [exact Hext1|]. split; [exact Herr1|].
    split; [discriminate|]. intros _. exact Hnew1.
Qed.

Lemma connection_of_known_road_witness :
  myEdges MoreSamples.freshJunction !! "A" = Some MoreSamples.linkedRoadA
  /\ storedAtOrigin (myEdges MoreSamples.freshJunction)
  /\ storedAtOrigin
       (myEdges (connectionElement "A" "X" "start" [] MoreSamples.freshJunction))
  /\ extends (myEdges MoreSamples.freshJunction)
       (myEdges (connectionElement "A" "X" "start" [] MoreSamples.freshJunction))
  /\ myErrors (connectionElement "A" "X" "start" [] MoreSamples.freshJunction)
     = myErrors MoreSamples.freshJunction.
Proof.
  split; [reflexivity|]. split; [exact twoRoads_at_origin|].
  pose proof (connection_of_known_road "A" "X" "start" [] MoreSamples.freshJunction
                MoreSamples.linkedRoadA eq_refl twoRoads_at_origin) as H.
  destruct H as (H1 & H2 & H3 & _). exact (conj H1 (conj H2 H3)).
Defined.

End LinkFacts.

(** ** Binding the outer roads to nodes *)

Module NodeFacts.
Import Err Lanes Geometry Topology Nodes.

Lemma keeps_refl e : keeps e e.
Proof. by repeat split. Qed.

Lemma keeps_trans e1 e2 e3 : keeps e1 e2 -> keeps e2 e3 -> keeps e1 e3.
Proof.
  intros (Hu & Hf & Ht) (Hu' & Hf' & Ht'). split; [congruence|].
  split; intros n Hn; auto.
Qed.

Lemma grounded_mono nc nc' e : nc ⊆ nc' -> grounded nc e -> grounded nc' e.
Proof.
  intros Hsub [Hf Ht].
  split; intros n Hn; [destruct (Hf n Hn) as [p Hp] | destruct (Ht n Hn) as [p Hp]];
    exists p; by eapply lookup_weaken.
Qed.

Lemma step_refl st : step st st.
Proof. split; [reflexivity|]. split; [apply keeps_refl | done]. Qed.

Lemma step_trans st1 st2 st3 : step st1 st2 -> step st2 st3 -> step st1 st3.
Proof.
  intros (Hs & Hk & Hg) (Hs' & Hk' & Hg').
  split; [by etrans|]. split; [by eapply keeps_trans | auto].
Qed.

Lemma foldM_step {A : Type}
    (f : gmap string Position * OpenDriveEdge -> A
         -> Result (gmap string Position * OpenDriveEdge)) :
  (forall st a st', f st a = Ok st' -> step st st') ->
  forall l st st', foldM f st l = Ok st' -> step st st'.
Proof.
  intros Hf. induction l as [|a l IH]; intros st st' Hrun; cbn in Hrun.
  - injection Hrun as <-. apply step_refl.
  - destruct (f st a) as [st1|] eqn:H1; [|discriminate]. cbn in Hrun.
    eapply step_trans; [by eapply Hf | by eapply IH].
Qed.

Lemma set_to_unbound n e : unbound (set_to n e) = unbound e.
Proof. reflexivity. Qed.

Lemma set_from_unbound n e : unbound (set_from n e) = unbound e.
Proof. reflexivity. Qed.

(** [setNodeSecure] binds an end that is free, leaves alone an end bound to
    the same node, and throws otherwise; the node it binds to exists. *)
Lemma setNodeSecure_step nc e nid lt e' :
  setNodeSecure nc e nid lt = Ok e' -> step (nc, e) (nc, e').
Proof.
  unfold setNodeSecure. intros Hrun.
  destruct (nc !! nid) as [p|] eqn:Hn; [|discriminate].
  split; [reflexivity|]. cbn [fst snd].
  destruct lt.
  - assert (He' : e' = set_to nid e /\ (forall n, ed_to e = Some n -> n = nid)).
    { destruct (ed_to e) as [old|]; [destruct (String.eqb old nid) eqn:Hq|].
      - apply String.eqb_eq in Hq. injection Hrun as <-. split; [done|]. congruence.
      - discriminate.
      - injection Hrun as <-. split; [done|]. discriminate. }
    destruct He' as [-> Hsame]. split.
    + split; [apply set_to_unbound|]. split; [done|]. intros n Hto. cbn.
      by rewrite (Hsame n Hto).
    + intros [Hf Ht]. split; [exact Hf|]. cbn. intros n [= <-]. by exists p.
  - assert (He' : e' = set_from nid e /\ (forall n, ed_from e = Some n -> n = nid)).
    { destruct (ed_from e) as [old|]; [destruct (String.eqb old nid) eqn:Hq|].
      - apply String.eqb_eq in Hq. injection Hrun as <-. split; [done|]. congruence.
      - discriminate.
      - injection Hrun as <-. split; [done|]. discriminate. }
    destruct He' as [-> Hsame]. split.
    + split; [apply set_from_unbound|]. split; [|done]. intros n Hfrom. cbn.
      by rewrite (Hsame n Hfrom).
    + intros [Hf Ht]. split; [|exact Ht]. cbn. intros n [= <-]. by exists p.
Qed.

Lemma grow_step nc nc' e : nc ⊆ nc' -> step (nc, e) (nc', e).
Proof.
  intros Hsub. split; [exact Hsub|]. split; [apply keeps_refl|].
  by apply grounded_mono.
Qed.

Lemma nc_insert_grows id pos nc nc' : nc_insert id pos nc = Some nc' -> nc ⊆ nc'.
Proof.
  unfold nc_insert. destruct (nc !! id) eqn:Hn; [discriminate|].
  intros [= <-]. by apply insert_subseteq.
Qed.

(** Building the node that is missing, then binding to it. *)
Lemma build_then_bind nc e nid lt (r : Result Position) st' :
  (nc' ← (match nc !! nid with
          | Some _ => Ok nc
          | None =>
              pos ← r;
              match nc_insert nid pos nc with
              | Some nc' => Ok nc'
              | None => Throw (CouldNotBuildNode nid)
              end
          end);
   e' ← setNodeSecure nc' e nid lt;
   Ok (nc', e')) = Ok st' ->
  step (nc, e) st'.
Proof.
  unfold mbind, result_bind. intros Hrun.
  destruct (nc !! nid) as [p|] eqn:Hn; cbn [Err.bind] in Hrun.
  - destruct (setNodeSecure nc e nid lt) as [e1|] eqn:Hs; [|discriminate].
    cbn in Hrun. injection Hrun as <-. by eapply setNodeSecure_step.
  - destruct r as [pos|]; [|discriminate]. cbn [Err.bind] in Hrun.
    destruct (nc_insert nid pos nc) as [nc1|] eqn:Hi; [|discriminate].
    cbn [Err.bind] in Hrun.
    destruct (setNodeSecure nc1 e nid lt) as [e1|] eqn:Hs; [|discriminate].
    cbn in Hrun. injection Hrun as <-.
    eapply step_trans; [apply grow_step; by eapply nc_insert_grows|].
    by eapply setNodeSecure_step.
Qed.

Lemma assignBuiltNode_step e2j st l st' :
  assignBuiltNode e2j st l = Ok st' -> step st st'.
Proof.
  destruct st as [nc e]. unfold assignBuiltNode.
  destruct (lk_elementType l).
  - apply build_then_bind.
  - destruct (e2j !! lk_elementID l) as [j|].
    + unfold mbind, result_bind.
      destruct (setNodeSecure nc e j (lk_linkType l)) as [e1|] eqn:Hs; [|discriminate].
      cbn. intros [= <-]. by eapply setNodeSecure_step.
    + intros [= <-]. apply step_refl.
  - apply build_then_bind.
Qed.

Lemma linkOuterNode_step e2j st l st' :
  linkOuterNode e2j st l = Ok st' -> step st st'.
Proof.
  destruct st as [nc e]. unfold linkOuterNode.
  destruct (lk_elementType l); try (intros [= <-]; apply step_refl).
  destruct (e2j !! lk_elementID l); [intros [= <-]; apply step_refl|].
  apply build_then_bind.
Qed.

Lemma innerLinkNode_step e2j nc ie e il e' :
  innerLinkNode e2j nc ie e il = Ok e' -> step (nc, e) (nc, e').
Proof.
  unfold innerLinkNode.
  destruct (negb _ || negb _); [intros [= <-]; apply step_refl|].
  destruct (isStart _); apply setNodeSecure_step.
Qed.

Lemma assignInnerNodes_step e2j inner nc e st' :
  assignInnerNodes e2j inner nc e = Ok st' -> step (nc, e) st'.
Proof.
  assert (Hloop : forall e e',
             foldM (fun e ie => foldM (innerLinkNode e2j nc ie) e (ed_links ie)) e inner
             = Ok e' -> step (nc, e) (nc, e')).
  { induction inner as [|ie inner IH]; intros e0 e' Hrun; cbn in Hrun.
    - injection Hrun as <-. apply step_refl.
    - destruct (foldM (innerLinkNode e2j nc ie) e0 (ed_links ie)) as [e1|] eqn:H1;
        [|discriminate].
      cbn in Hrun. eapply step_trans; [|by eapply IH].
      clear Hrun IH. revert e0 e1 H1.
      induction (ed_links ie) as [|il ls IHl]; intros e0 e1 H1; cbn in H1.
      + injection H1 as <-. apply step_refl.
      + destruct (innerLinkNode e2j nc ie e0 il) as [e2|] eqn:H2; [|discriminate].
        cbn in H1. eapply step_trans; [by eapply innerLinkNode_step | by eapply IHl]. }
  unfold assignInnerNodes, mbind, result_bind.
  destruct (foldM _ e inner) as [e1|] eqn:H1.
  - specialize (Hloop _ _ H1).
    destruct (ed_to e), (ed_from e); cbn; intros [= <-]; try exact Hloop; apply step_refl.
  - destruct (ed_to e), (ed_from e); cbn; try discriminate. intros [= <-]. apply step_refl.
Qed.

Lemma getOrBuildNode_grows id pos nc nc' :
  getOrBuildNode id pos nc = Ok nc' -> nc ⊆ nc' /\ is_Some (nc' !! id).
Proof.
  unfold getOrBuildNode, nc_insert. destruct (nc !! id) as [p|] eqn:Hn.
  - intros [= <-]. split; [reflexivity | by exists p].
  - intros [= <-]. split; [by apply insert_subseteq|].
    exists pos. by rewrite lookup_insert_eq.
Qed.

(** [getOrBuildNode] always returns a node, given that the container
    refuses only identifiers it knows. *)
Lemma getOrBuildNode_returns id pos nc : exists nc', getOrBuildNode id pos nc = Ok nc'.
Proof.
  unfold getOrBuildNode, nc_insert. destruct (nc !! id) eqn:Hn; eauto.
Qed.

Lemma last_some {A : Type} (l : list A) :
  l <> [] -> exists b, List.last (map Some l) None = Some b.
Proof.
  induction l as [|a [|a' l] IH]; intros Hne; [done | by exists a |].
  destruct IH as [b Hb]; [done|]. exists b. exact Hb.
Qed.

(** The phase of the missing end nodes, for one road: defined, without a
    throw, and with both ends bound when the road has a geometry. *)
Lemma terminate_ok (nc : gmap string Position) (e : OpenDriveEdge) :
  exists nc' e',
    terminate nc e = Some (Ok (nc', e'))
    /\ step (nc, e) (nc', e')
    /\ (ed_geom e <> [] -> is_Some (ed_from e') /\ is_Some (ed_to e')).
Proof.
  unfold terminate.
  destruct (ed_geom e) as [|p g] eqn:Hg.
  - cbn [length Nat.eqb]. rewrite andb_true_r.
    destruct (ed_from e) as [f|] eqn:Hf, (ed_to e) as [t|] eqn:Ht; cbn;
      try rewrite Ht; exists nc, e; (split; [reflexivity|]);
      (split; [apply step_refl | done]).
  - cbn [length Nat.eqb]. rewrite andb_false_r. cbn [head].
    assert (Hfrom : exists nc1 e1,
               (match ed_from e with
                | Some _ => Some (Ok (nc, e))
                | None => Some (nc' ← getOrBuildNode (ed_id e ++ ".begin")%string p nc;
                                Ok (nc', set_from (ed_id e ++ ".begin")%string e))
                end) = Some (Ok (nc1, e1))
               /\ step (nc, e) (nc1, e1) /\ is_Some (ed_from e1)
               /\ ed_geom e1 = p :: g).
    { destruct (ed_from e) as [f|] eqn:Hf.
      - exists nc, e. split; [reflexivity|]. split; [apply step_refl|].
        split; [by rewrite Hf | exact Hg].
      - destruct (getOrBuildNode_returns (ed_id e ++ ".begin")%string p nc) as [nc1 H1].
        exists nc1, (set_from (ed_id e ++ ".begin")%string e).
        rewrite H1. split; [reflexivity|].
        destruct (getOrBuildNode_grows _ _ _ _ H1) as [Hsub Hin].
        split; [|split; [by eexists | exact Hg]].
        split; [exact Hsub|]. cbn [fst snd]. split.
        + split; [apply set_from_unbound|]. split; [by rewrite Hf | done].
        + intros [_ Hto]. split.
          * cbn. by intros n [= <-].
          * cbn. intros n Hn. destruct (Hto n Hn) as [q Hq]. exists q.
            by eapply lookup_weaken. }
    destruct Hfrom as (nc1 & e1 & -> & Hstep1 & Hfrom1 & Hg1).
    destruct (ed_to e1) as [t|] eqn:Ht.
    + exists nc1, e1. split; [reflexivity|]. split; [exact Hstep1|].
      intros _. split; [exact Hfrom1 | by rewrite Ht].
    + destruct (last_some (ed_geom e1)) as [back Hback]; [by rewrite Hg1|].
      rewrite Hback.
      destruct (getOrBuildNode_returns (ed_id e1 ++ ".end")%string back nc1) as [nc2 H2].
      exists nc2, (set_to (ed_id e1 ++ ".end")%string e1).
      rewrite H2. split; [reflexivity|].
      destruct (getOrBuildNode_grows _ _ _ _ H2) as [Hsub Hin].
      split; [|intros _; split; [exact Hfrom1 | by eexists]].
      eapply step_trans; [exact Hstep1|].
      split; [exact Hsub|]. cbn [fst snd]. split.
      * split; [apply set_to_unbound|]. split; [done | by rewrite Ht].
      * intros [Hf _]. split.
        -- cbn. intros n Hn. destruct (Hf n Hn) as [q Hq]. exists q.
           by eapply lookup_weaken.
        -- cbn. by intros n [= <-].
Qed.

Lemma keeps_geom e e' : keeps e e' -> ed_geom e' = ed_geom e.
Proof. intros [Hu _]. exact (f_equal ed_geom Hu). Qed.

Lemma keeps_all_trans l1 : forall l2 l3,
  Forall2 keeps l1 l2 -> Forall2 keeps l2 l3 -> Forall2 keeps l1 l3.
Proof.
  induction l1 as [|e1 l1 IH]; intros l2 l3 H12 H23.
  - inversion H12; subst. inversion H23; subst. constructor.
  - inversion H12 as [|? e2 ? l2' Hk12 Hr12]; subst.
    inversion H23 as [|? e3 ? l3' Hk23 Hr23]; subst.
    constructor; [by eapply keeps_trans | by eapply IH].
Qed.

Lemma grounded_all_mono nc nc' l :
  nc ⊆ nc' -> Forall (grounded nc) l -> Forall (grounded nc') l.
Proof.
  intros Hsub. apply List.Forall_impl. intros e. by apply grounded_mono.
Qed.

(** A loop over the roads whose body is a [step]. *)
Lemma forRoads_step body :
  (forall nc e st', body nc e = Ok st' -> step (nc, e) st') ->
  forall outer nc nc' outer',
    forRoads body nc outer = Ok (nc', outer') ->
    nc ⊆ nc' /\ Forall2 keeps outer outer'
    /\ (Forall (grounded nc) outer -> Forall (grounded nc') outer').
Proof.
  intros Hbody. unfold forRoads.
  assert (Hgen : forall outer nc done nc' res,
             foldM (fun (st : gmap string Position * list OpenDriveEdge) e =>
                      let '(nc, done) := st in
                      '(nc', e') ← body nc e; Ok (nc', done ++ [e']))
                   (nc, done) outer = Ok (nc', res) ->
             exists outer', res = done ++ outer' /\ nc ⊆ nc'
               /\ Forall2 keeps outer outer'
               /\ (Forall (grounded nc) outer -> Forall (grounded nc') outer')).
  { induction outer as [|e outer IH]; intros nc done nc' res Hrun; cbn in Hrun.
    - injection Hrun as <- <-. exists []. rewrite app_nil_r.
      split; [done|]. split; [done|]. split; [constructor | done].
    - unfold mbind, result_bind in Hrun.
      destruct (body nc e) as [[nc1 e1]|] eqn:Hb; [|discriminate]. cbn in Hrun.
      destruct (Hbody _ _ _ Hb) as (Hsub1 & Hk1 & Hg1). cbn [fst snd] in *.
      destruct (IH _ _ _ _ Hrun) as (outer'' & -> & Hsub2 & Hk2 & Hg2).
      exists (e1 :: outer''). rewrite <- app_assoc. split; [done|].
      split; [by etrans|]. split; [by constructor|].
      intros Hall. inversion Hall as [|? ? He Hrest]; subst. constructor.
      + eapply grounded_mono; [exact Hsub2 | by apply Hg1].
      + apply Hg2. by eapply grounded_all_mono. }
  intros outer nc nc' outer' Hrun.
  destruct (Hgen _ _ _ _ _ Hrun) as (o & -> & H). exact H.
Qed.

Lemma terminateAll_ok outer :
  forall nc, exists nc' outer',
    terminateAll nc outer = Some (Ok (nc', outer'))
    /\ nc ⊆ nc' /\ Forall2 keeps outer outer'
    /\ (Forall (grounded nc) outer -> Forall (grounded nc') outer')
    /\ Forall (fun e' => ed_geom e' <> [] -> is_Some (ed_from e') /\ is_Some (ed_to e'))
              outer'.
Proof.
  induction outer as [|e outer IH]; intros nc; cbn [terminateAll].
  - exists nc, []. split; [done|]. split; [done|]. split; [constructor|].
    split; [done | constructor].
  - destruct (terminate_ok nc e) as (nc1 & e1 & -> & (Hsub1 & Hk1 & Hg1) & Hboth).
    cbn [fst snd] in *.
    destruct (IH nc1) as (nc2 & outer2 & -> & Hsub2 & Hk2 & Hg2 & Hb2).
    exists nc2, (e1 :: outer2). split; [done|]. split; [by etrans|].
    split; [by constructor|]. split.
    + intros Hall. inversion Hall as [|? ? He Hrest]; subst. constructor.
      * eapply grounded_mono; [exact Hsub2 | by apply Hg1].
      * apply Hg2. by eapply grounded_all_mono.
    + constructor; [|exact Hb2]. rewrite (keeps_geom _ _ Hk1). exact Hboth.
Qed.

(** X5: the phase that gives the outer roads their missing end nodes never
    reads the first or last point of an empty geometry.  A road without
    geometry is left as it is.  Any other road has both ends bound
    afterwards: an end bound before stays, a free start goes to the node
    named after the road with ".begin", a free end to the one with ".end",
    and these nodes exist. *)
Theorem terminate_binds_both_ends (nc : gmap string Position) (e : OpenDriveEdge) :
  exists nc' e',
    terminate nc e = Some (Ok (nc', e'))
    /\ nc ⊆ nc'
    /\ unbound e' = unbound e
    /\ (ed_geom e = [] -> nc' = nc /\ e' = e)
    /\ (ed_geom e <> [] ->
        ed_from e' = Some (default (ed_id e ++ ".begin")%string (ed_from e))
        /\ ed_to e' = Some (default (ed_id e ++ ".end")%string (ed_to e))
        /\ (ed_from e = None -> is_Some (nc' !! (ed_id e ++ ".begin")%string))
        /\ (ed_to e = None -> is_Some (nc' !! (ed_id e ++ ".end")%string))).
Proof.
  unfold terminate.
  destruct (ed_geom e) as [|p g] eqn:Hg; cbn [length Nat.eqb head].
  - rewrite andb_true_r.
    destruct (ed_from e) as [f|] eqn:Hf, (ed_to e) as [t|] eqn:Ht; cbn;
      try rewrite Ht; exists nc, e; by repeat split.
  - rewrite andb_false_r.
    destruct (ed_from e) as [f|] eqn:Hf.
    + destruct (ed_to e) as [t|] eqn:Ht.
      * exists nc, e. repeat split; try done.
      * destruct (last_some (ed_geom e)) as [back Hback]; [by rewrite Hg|].
        cbv beta iota. rewrite ?Ht, Hback.
        destruct (getOrBuildNode_returns (ed_id e ++ ".end")%string back nc) as [nc2 H2].
        destruct (getOrBuildNode_grows _ _ _ _ H2) as [Hsub Hin].
        rewrite H2. exists nc2, (set_to (ed_id e ++ ".end")%string e).
        repeat split; try done.
    + destruct (getOrBuildNode_returns (ed_id e ++ ".begin")%string p nc) as [nc1 H1].
      destruct (getOrBuildNode_grows _ _ _ _ H1) as [Hsub1 Hin1].
      rewrite H1. cbn [mbind result_bind Err.bind set_from ed_to ed_geom ed_id].
      destruct (ed_to e) as [t|] eqn:Ht.
      * exists nc1, (set_from (ed_id e ++ ".begin")%string e).
        repeat split; try done.
      * destruct (last_some (ed_geom e)) as [back Hback]; [by rewrite Hg|].
        rewrite Hback.
        destruct (getOrBuildNode_returns (ed_id e ++ ".end")%string back nc1) as [nc2 H2].
        destruct (getOrBuildNode_grows _ _ _ _ H2) as [Hsub2 Hin2].
        rewrite H2.
        exists nc2, (set_to (ed_id e ++ ".end")%string
                            (set_from (ed_id e ++ ".begin")%string e)).
        repeat split; try done.
        -- by etrans.
        -- intros _. destruct Hin1 as [q Hq]. exists q. by eapply lookup_weaken.
Qed.


(** X6: the node phases that follow the junction nodes, run in their order
    on outer roads whose bound ends name nodes, either throw or finish;
    they never read a point of an empty geometry.  When they finish, no
    node was removed or moved, every road is the road it was but for ends
    newly bound, no end was bound anew to another node, every bound end
    names a node, and every road with a geometry has both ends bound. *)
Theorem bound_ends_name_nodes (innerEdges : list OpenDriveEdge)
    (nc : gmap string Position) (outerEdges : list OpenDriveEdge) :
  Forall (grounded nc) outerEdges ->
  match bindOuterRoads innerEdges nc outerEdges with
  | None => False
  | Some (Throw _) => True
  | Some (Ok (nc', outerEdges')) =>
      nc ⊆ nc'
      /\ Forall2 keeps outerEdges outerEdges'
      /\ Forall (grounded nc') outerEdges'
      /\ Forall (fun e' => ed_geom e' <> [] -> is_Some (ed_from e') /\ is_Some (ed_to e'))
                outerEdges'
  end.
Proof.
  intros Hall. unfold bindOuterRoads.
  set (e2j := junctionOf innerEdges).
  destruct (forRoads (assignBuiltNodes e2j) nc outerEdges) as [[nc1 o1]|] eqn:H1; [|done].
  destruct (forRoads_step (assignBuiltNodes e2j)
              ltac:(intros ? ? ?; apply foldM_step; apply assignBuiltNode_step)
              _ _ _ _ H1) as (Hs1 & Hk1 & Hg1).
  destruct (buildNodes2 e2j nc1 o1) as [[nc2 o2]|] eqn:H2; [|done].
  destruct (forRoads_step (linkOuterNodes e2j)
              ltac:(intros ? ? ?; apply foldM_step; apply linkOuterNode_step)
              _ _ _ _ H2) as (Hs2 & Hk2 & Hg2).
  destruct (forRoads (assignInnerNodes e2j innerEdges) nc2 o2) as [[nc3 o3]|] eqn:H3;
    [|done].
  destruct (forRoads_step (assignInnerNodes e2j innerEdges)
              ltac:(intros ? ? ?; apply assignInnerNodes_step)
              _ _ _ _ H3) as (Hs3 & Hk3 & Hg3).
  destruct (terminateAll_ok o3 nc3) as (nc4 & o4 & -> & Hs4 & Hk4 & Hg4 & Hboth).
  split; [etrans; [exact Hs1|]; etrans; [exact Hs2|]; etrans; [exact Hs3 | exact Hs4]|].
  split.
  { eapply keeps_all_trans; [exact Hk1|]. eapply keeps_all_trans; [exact Hk2|].
    eapply keeps_all_trans; [exact Hk3 | exact Hk4]. }
  split; [auto | exact Hboth].
Qed.

Lemma bound_ends_name_nodes_witness :
  Forall (grounded MoreSamples.junctionNode) [MoreSamples.outerA; MoreSamples.outerB]
  /\ match bindOuterRoads [MoreSamples.innerX] MoreSamples.junctionNode
                          [MoreSamples.outerA; MoreSamples.outerB] with
     | None => False
     | Some (Throw _) => True
     | Some (Ok (nc', outerEdges')) =>
         MoreSamples.junctionNode ⊆ nc'
         /\ Forall2 keeps [MoreSamples.outerA; MoreSamples.outerB] outerEdges'
         /\ Forall (grounded nc') outerEdges'
         /\ Forall (fun e' => ed_geom e' <> [] -> is_Some (ed_from e') /\ is_Some (ed_to e'))
                   outerEdges'
     end.
Proof.
  assert (H : Forall (grounded MoreSamples.junctionNode)
                     [MoreSamples.outerA; MoreSamples.outerB]).
  { repeat constructor; intros n Hn; discriminate Hn. }
  split; [exact H|].
  exact (bound_ends_name_nodes [MoreSamples.innerX] MoreSamples.junctionNode
           [MoreSamples.outerA; MoreSamples.outerB] H).
Defined.

(** The sample run: "A" ends at the junction node it names, "B" starts at
    it through the link of the inner road "X", and the two free ends get
    nodes of their own. *)
Example bindOuterRoads_sample :
  bindOuterRoads [MoreSamples.innerX] MoreSamples.junctionNode
                 [MoreSamples.outerA; MoreSamples.outerB]
  = Some (Ok (<["B.end" := Position2 200 0]>
                (<["A.begin" := Position2 0 0]> MoreSamples.junctionNode),
              [set_to "J" (set_from "A.begin" MoreSamples.outerA);
               set_to "B.end" (set_from "J" MoreSamples.outerB)])).
Proof. reflexivity. Qed.

End NodeFacts.

(** ** Splitting a section at speed changes *)

Module SpeedFacts.
Import Lanes Speeds.

Lemma dset_insert_nonempty x l : dset_insert x l <> [].
Proof. destruct l as [|y l]; cbn; [done|]. by destruct (x ?= y)%Q. Qed.

Lemma dset_insert_Forall (P : Q -> Prop) x l :
  P x -> Forall P l -> Forall P (dset_insert x l).
Proof.
  intros Hx Hl. induction Hl as [|y l Hy Hl IH]; cbn; [by constructor|].
  destruct (x ?= y)%Q; by repeat constructor.
Qed.

Lemma dset_insert_sorted x l :
  StronglySorted Qlt l -> StronglySorted Qlt (dset_insert x l).
Proof.
  induction 1 as [|y l Hs IH Hall]; cbn; [repeat constructor|].
  destruct (x ?= y)%Q eqn:Hc.
  - by constructor.
  - apply Qlt_alt in Hc. constructor; [by constructor|]. constructor; [exact Hc|].
    eapply List.Forall_impl; [|exact Hall]. intros z Hz. by eapply Qlt_trans.
  - apply Qgt_alt in Hc. constructor; [exact IH|]. by apply dset_insert_Forall.
Qed.

Lemma insertAll_nil ps xs : insertAll ps xs = [] <-> ps = [] /\ xs = [].
Proof.
  revert ps. induction xs as [|x xs IH]; intros ps.
  - cbn. split; [by intros -> | by intros [-> _]].
  - change (insertAll ps (x :: xs)) with (insertAll (dset_insert x ps) xs).
    rewrite IH. split; [intros [H _]; by apply dset_insert_nonempty in H | by intros [_ ?]].
Qed.

Lemma insertAll_Forall (P : Q -> Prop) xs :
  forall ps, Forall P ps -> Forall P xs -> Forall P (insertAll ps xs).
Proof.
  induction xs as [|x xs IH]; intros ps Hps Hxs; [exact Hps|].
  change (insertAll ps (x :: xs)) with (insertAll (dset_insert x ps) xs).
  inversion Hxs; subst. apply IH; [by apply dset_insert_Forall | done].
Qed.

Lemma insertAll_sorted xs :
  forall ps, StronglySorted Qlt ps -> StronglySorted Qlt (insertAll ps xs).
Proof.
  induction xs as [|x xs IH]; intros ps Hps; [exact Hps|].
  change (insertAll ps (x :: xs)) with (insertAll (dset_insert x ps) xs).
  apply IH. by apply dset_insert_sorted.
Qed.

Lemma insertAll_app ps xs ys : insertAll ps (xs ++ ys) = insertAll (insertAll ps xs) ys.
Proof. unfold insertAll. by rewrite fold_left_app. Qed.

Lemma set_speed_twice v w l : set_speed v (set_speed w l) = set_speed v l.
Proof. reflexivity. Qed.

(** The loop over the speed entries of one lane. *)
Lemma collect_entries (speeds : list (Q * Q)) :
  forall ps lane,
    exists lane',
      fold_left (fun (st : list Q * OpenDriveLane) (l : Q * Q) =>
                   let '(ps, lane) := st in
                   (dset_insert (fst l) ps,
                    if Dbl.eqb (fst l) 0 then set_speed (snd l) lane else lane))
                speeds (ps, lane)
      = (insertAll ps (map fst speeds), lane')
      /\ set_speed 0 lane' = set_speed 0 lane
      /\ lane_speeds lane' = lane_speeds lane.
Proof.
  induction speeds as [|[p v] speeds IH]; intros ps lane; cbn [fold_left map insertAll].
  - by exists lane.
  - cbn [fst snd].
    destruct (IH (dset_insert p ps) (if Dbl.eqb p 0 then set_speed v lane else lane))
      as (lane' & Hrun & Hsame & Hsp).
    exists lane'. split; [exact Hrun|]. rewrite Hsame, Hsp. by destruct (Dbl.eqb p 0).
Qed.

Lemma collectLanes_spec (lanes : list OpenDriveLane) :
  forall ps,
    fst (collectLanes ps lanes)
    = insertAll ps (flat_map (fun l => map fst (lane_speeds l)) lanes)
    /\ sameLanes (snd (collectLanes ps lanes)) lanes.
Proof.
  unfold collectLanes, sameLanes.
  assert (Hgen : forall ps done,
             fst (fold_left collectLane lanes (ps, done))
             = insertAll ps (flat_map (fun l => map fst (lane_speeds l)) lanes)
             /\ map (set_speed 0) (snd (fold_left collectLane lanes (ps, done)))
                = map (set_speed 0) done ++ map (set_speed 0) lanes).
  { induction lanes as [|k lanes IH]; intros ps done; cbn [fold_left flat_map].
    - cbn. by rewrite app_nil_r.
    - unfold collectLane at 2 4.
      destruct (collect_entries (lane_speeds k) ps k) as (k' & -> & Hsame & _).
      destruct (IH (insertAll ps (map fst (lane_speeds k))) (done ++ [k'])) as [H1 H2].
      rewrite H1, H2, insertAll_app. split; [reflexivity|].
      rewrite map_app. cbn [map]. rewrite Hsame, <- app_assoc. reflexivity. }
  intros ps. exact (Hgen ps []).
Qed.

Lemma sameLanes_refl l : sameLanes l l.
Proof. reflexivity. Qed.

Lemma sameLanes_trans a b c : sameLanes a b -> sameLanes b c -> sameLanes a c.
Proof. unfold sameLanes. congruence. Qed.

Lemma sameLanes_length a b : sameLanes a b -> length a = length b.
Proof. unfold sameLanes. intros H. apply (f_equal length) in H. by rewrite !length_map in H. Qed.

Lemma laneAt_same p l : set_speed 0 (laneAt p l) = set_speed 0 l.
Proof. unfold laneAt. by destruct (List.find _ _). Qed.

Lemma map_laneAt_same p lanes : sameLanes (map (laneAt p) lanes) lanes.
Proof.
  unfold sameLanes. rewrite map_map. apply map_ext. intros l. apply laneAt_same.
Qed.

Lemma propagateLane_same tc prev j l : set_speed 0 (propagateLane tc prev j l) = set_speed 0 l.
Proof.
  unfold propagateLane. destruct (negb _); [reflexivity|].
  destruct prev as [lanes|]; [|reflexivity]. by destruct (lanes !! j).
Qed.

Lemma imap_propagate_same tc prev lanes :
  sameLanes (imap (propagateLane tc prev) lanes) lanes.
Proof.
  unfold sameLanes. revert prev.
  assert (H : forall (f : nat -> OpenDriveLane -> OpenDriveLane),
             (forall j l, set_speed 0 (f j l) = set_speed 0 l) ->
             map (set_speed 0) (imap f lanes) = map (set_speed 0) lanes).
  { induction lanes as [|l lanes IH]; intros f Hf; cbn; [reflexivity|].
    rewrite Hf. f_equal. apply IH. intros j l'. apply Hf. }
  intros prev. apply H. intros j l. apply propagateLane_same.
Qed.

Lemma cutFrom_refl sec : cutFrom sec sec.
Proof. by repeat split. Qed.

Lemma cutFrom_trans a b c : cutFrom a b -> cutFrom b c -> cutFrom a c.
Proof.
  intros (H1 & H2 & H3 & H4) (H1' & H2' & H3' & H4').
  repeat split; try (eapply sameLanes_trans; eassumption). congruence.
Qed.

Lemma propagateSection_cut tc prev sec : cutFrom sec (propagateSection tc prev sec).
Proof.
  unfold propagateSection. repeat split; cbn; apply imap_propagate_same.
Qed.

Lemma propagateSection_s tc prev sec : ls_s (propagateSection tc prev sec) = ls_s sec.
Proof. reflexivity. Qed.

Lemma propagate_s tc secs :
  forall prev, map ls_s (propagate tc prev secs) = map ls_s secs.
Proof.
  induction secs as [|sec secs IH]; intros prev; cbn [propagate map]; [reflexivity|].
  by rewrite IH.
Qed.

Lemma propagate_cut tc (orig : OpenDriveLaneSection) secs :
  forall prev, Forall (cutFrom orig) secs -> Forall (cutFrom orig) (propagate tc prev secs).
Proof.
  induction secs as [|sec secs IH]; intros prev Hall; cbn [propagate]; [constructor|].
  inversion Hall; subst. constructor; [|by apply IH].
  eapply cutFrom_trans; [eassumption | apply propagateSection_cut].
Qed.

Lemma buildLaneSection_cut sec p : cutFrom sec (buildLaneSection sec p).
Proof.
  unfold buildLaneSection.
  repeat split; cbn; try apply map_laneAt_same; apply sameLanes_refl.
Qed.

(** The two collecting loops of [buildSpeedChanges]. *)
Lemma collected (sec : OpenDriveLaneSection) :
  exists right' left',
    collectLanes [] (ls_right sec) = (fst (collectLanes [] (ls_right sec)), right')
    /\ collectLanes (fst (collectLanes [] (ls_right sec))) (ls_left sec)
       = (insertAll [] (positionsOf sec), left')
    /\ sameLanes right' (ls_right sec) /\ sameLanes left' (ls_left sec).
Proof.
  destruct (collectLanes_spec (ls_right sec) []) as [Hp1 Hs1].
  destruct (collectLanes [] (ls_right sec)) as [pos1 right'] eqn:H1. cbn [fst snd] in *.
  destruct (collectLanes_spec (ls_left sec) pos1) as [Hp2 Hs2].
  destruct (collectLanes pos1 (ls_left sec)) as [pos2 left'] eqn:H2. cbn [fst snd] in *.
  exists right', left'. split; [reflexivity|]. split; [|done].
  f_equal. rewrite Hp2, Hp1. unfold positionsOf. by rewrite flat_map_app, insertAll_app.
Qed.

(** X7: [buildSpeedChanges] reports no split, and hands back no section,
    exactly when no right or left lane of the section has a speed entry. *)
Theorem no_split_iff_no_speed_entry (tc : NBTypeCont) (sec : OpenDriveLaneSection) :
  (fst (buildSpeedChanges tc sec) = false <-> positionsOf sec = [])
  /\ (fst (buildSpeedChanges tc sec) = false -> snd (buildSpeedChanges tc sec) = []).
Proof.
  unfold buildSpeedChanges.
  destruct (collected sec) as (right' & left' & H1 & H2 & _).
  rewrite H1, H2.
  destruct (insertAll [] (positionsOf sec)) as [|first later] eqn:Hp.
  - apply insertAll_nil in Hp as [_ Hp]. by repeat split.
  - cbn [fst snd]. split; [|discriminate]. split; [discriminate|].
    intros Hnil. rewrite Hnil in Hp. discriminate Hp.
Qed.

Lemma shift_sorted (s : Q) (l : list Q) :
  StronglySorted Qlt l -> StronglySorted Qlt (map (fun p => s + p)%Q l).
Proof.
  induction 1 as [|y l Hsl IH Hl]; cbn; [constructor|].
  constructor; [exact IH|].
  apply List.Forall_map. eapply List.Forall_impl; [|exact Hl].
  intros z Hz. cbn. lra.
Qed.

Lemma shifted_sorted (s p0 : Q) (later : list Q) :
  (0 <= p0)%Q -> StronglySorted Qlt (p0 :: later) ->
  StronglySorted Qlt (s :: map (fun p => s + p)%Q later).
Proof.
  intros Hp0 Hs. inversion Hs as [|? ? Hs' Hall]; subst. constructor.
  - by apply shift_sorted.
  - apply List.Forall_map. eapply List.Forall_impl; [|exact Hall].
    intros z Hz. cbn in *. lra.
Qed.

(** X8: when no speed entry lies at a negative position, the sections
    [buildSpeedChanges] hands back start at the arclength of the section
    they are cut from and ascend strictly. *)
Theorem speed_sections_ascend (tc : NBTypeCont) (sec : OpenDriveLaneSection) :
  Forall (fun p => (0 <= p)%Q) (positionsOf sec) ->
  fst (buildSpeedChanges tc sec) = true ->
  exists rest,
    map ls_s (snd (buildSpeedChanges tc sec)) = ls_s sec :: rest
    /\ StronglySorted Qlt (ls_s sec :: rest).
Proof.
  intros Hpos. unfold buildSpeedChanges.
  destruct (collected sec) as (right' & left' & H1 & H2 & _).
  rewrite H1, H2.
  pose proof (insertAll_sorted (positionsOf sec) [] ltac:(constructor)) as Hsorted.
  pose proof (insertAll_Forall (fun p => (0 <= p)%Q) (positionsOf sec) []
                ltac:(constructor) Hpos) as Hall.
  destruct (insertAll [] (positionsOf sec)) as [|first later] eqn:Hp; [discriminate|].
  cbn [fst snd]. intros _.
  set (this := with_lanes left' (ls_center sec) right' sec).
  destruct (Dbl.ltb 0 first) eqn:Hfirst.
  - (* 0 is put in front of the positions *)
    apply LaneFacts.ltb_lt in Hfirst.
    assert (Hins : dset_insert 0 (first :: later) = 0%Q :: first :: later).
    { pose proof (proj1 (Qlt_alt _ _) Hfirst) as Hc. cbn [dset_insert]. by rewrite Hc. }
    rewrite Hins. rewrite propagate_s. cbn [map].
    exists (map (fun p => ls_s sec + p)%Q (first :: later)). split.
    + f_equal. cbn [map]. f_equal. by rewrite map_map.
    + apply (shifted_sorted (ls_s sec) 0); [lra|].
      constructor; [exact Hsorted|]. constructor; [exact Hfirst|].
      inversion Hsorted as [|? ? _ Hl]; subst.
      eapply List.Forall_impl; [|exact Hl]. intros z Hz. cbn in *. lra.
  - rewrite propagate_s. cbn [map].
    exists (map (fun p => ls_s sec + p)%Q later). split.
    + f_equal. by rewrite map_map.
    + apply (shifted_sorted (ls_s sec) first); [|exact Hsorted].
      by inversion Hall.
Qed.

Lemma speed_sections_ascend_witness :
  Forall (fun p => (0 <= p)%Q) (positionsOf Samples.speedChangeSection)
  /\ fst (buildSpeedChanges Samples.catalogue Samples.speedChangeSection) = true
  /\ exists rest,
       map ls_s (snd (buildSpeedChanges Samples.catalogue Samples.speedChangeSection))
       = ls_s Samples.speedChangeSection :: rest
       /\ StronglySorted Qlt (ls_s Samples.speedChangeSection :: rest).
Proof.
  assert (H : Forall (fun p => (0 <= p)%Q) (positionsOf Samples.speedChangeSection)).
  { repeat constructor. discriminate. }
  split; [exact H|]. split; [reflexivity|].
  exact (speed_sections_ascend Samples.catalogue Samples.speedChangeSection H eq_refl).
Defined.

(** With entries at negative positions the sections come out of order: the
    section itself stays at its arclength and the later cut lies before
    it. *)
Example negative_position_descends :
  map ls_s (snd (buildSpeedChanges Samples.catalogue
                   (Samples.sectionAt 10 []
                      [Samples.drivingLane (-1) [((-5)%Q, 10%Q); ((-2)%Q, 20%Q)] 3.5])))
  = [10%Q; (10 + -2)%Q].
Proof. reflexivity. Qed.

(** X9: every section [buildSpeedChanges] hands back is cut from the
    section it splits: the same lanes in the same order on the left, in the
    center and on the right, but for their speeds, and the same lane map,
    lane numbers and types. *)
Theorem speed_sections_keep_lanes (tc : NBTypeCont) (sec : OpenDriveLaneSection) :
  Forall (cutFrom sec) (snd (buildSpeedChanges tc sec)).
Proof.
  unfold buildSpeedChanges.
  destruct (collected sec) as (right' & left' & H1 & H2 & Hr & Hl).
  rewrite H1, H2.
  destruct (insertAll [] (positionsOf sec)) as [|first later]; [constructor|].
  cbn [snd]. apply propagate_cut.
  set (this := with_lanes left' (ls_center sec) right' sec).
  assert (Hthis : cutFrom sec this) by (by repeat split).
  assert (Hcuts : forall ps, Forall (cutFrom sec) (map (buildLaneSection this) ps)).
  { intros ps. apply List.Forall_map, Forall_forall. intros p _.
    eapply cutFrom_trans; [exact Hthis | apply buildLaneSection_cut]. }
  destruct (if Dbl.ltb 0 first then dset_insert 0 (first :: later) else first :: later);
    [constructor|].
  constructor; [exact Hthis | apply Hcuts].
Qed.

End SpeedFacts.

(** ** The lane map of a section and the connections between sections *)

Module MappingFacts.
Import Lanes Handler Mapping.

Section Facts.

Variable myImportAllTypes : bool.
Variable tc : NBTypeCont.

Local Abbreviation accepted := (filter (fun l => imported myImportAllTypes tc l = true)).

(** One loop of [buildLaneMapping]: the counter, the types and the lane
    map it leaves. *)
Lemma mapLanes_spec (lanes : list OpenDriveLane) :
  forall st,
    let st' := fold_left (mapLane myImportAllTypes tc) lanes st in
    ms_sumoLane st' = (ms_sumoLane st + Z.of_nat (length (accepted lanes)))%Z
    /\ ms_types st' = ms_types st ++ map lane_type (accepted lanes)
    /\ (forall id, id ∉ map lane_id (accepted lanes) ->
                   ms_laneMap st' !! id = ms_laneMap st !! id)
    /\ (NoDup (map lane_id (accepted lanes)) ->
        forall k l, accepted lanes !! k = Some l ->
                    ms_laneMap st' !! lane_id l = Some (ms_sumoLane st + Z.of_nat k)%Z).
Proof.
  induction lanes as [|x lanes IH]; intros st; cbn [fold_left].
  - cbn. split; [lia|]. split; [by rewrite app_nil_r|]. split; [done|].
    intros _ k l Hk. by rewrite lookup_nil in Hk.
  - destruct (IH (mapLane myImportAllTypes tc st x)) as (Hn & Ht & Hout & Hin).
    cbn zeta in *. unfold mapLane in Hn, Ht, Hout, Hin |- * .
    rewrite filter_cons.
    destruct (decide (imported myImportAllTypes tc x = true)) as [Hacc|Hrej].
    + rewrite Hacc in *. cbn [ms_sumoLane ms_types ms_laneMap] in *.
      cbn [length map]. split; [lia|]. split; [by rewrite Ht, <- app_assoc|]. split.
      * intros id Hid. rewrite not_elem_of_cons in Hid. destruct Hid as [Hne Hid].
        rewrite (Hout id Hid). by rewrite lookup_insert_ne.
      * intros Hnd k l Hk. apply NoDup_cons in Hnd as [Hx Hnd].
        destruct k as [|k]; cbn in Hk.
        -- injection Hk as <-. rewrite (Hout _ Hx), lookup_insert_eq. f_equal; lia.
        -- rewrite (Hin Hnd k l Hk). f_equal; lia.
    + apply not_true_is_false in Hrej. rewrite Hrej in *.
      split; [exact Hn|]. split; [exact Ht|]. split; [exact Hout | exact Hin].
Qed.

(** X10: [buildLaneMapping] numbers the lanes it imports from 0 upwards, the
    right lanes from the last one of the vector to the first, the left
    lanes from the first to the last; [rightLaneNumber] and [leftLaneNumber]
    count them.  Lanes that are not imported get no entry.  The numbering
    is stated for lane identifiers that do not repeat among the imported
    lanes. *)
Theorem lane_map_numbers_imported_lanes (sec : OpenDriveLaneSection) :
  ls_rightLaneNumber (buildLaneMapping myImportAllTypes tc sec)
  = Z.of_nat (length (importedRight myImportAllTypes tc sec))
  /\ ls_leftLaneNumber (buildLaneMapping myImportAllTypes tc sec)
     = Z.of_nat (length (importedLeft myImportAllTypes tc sec))
  /\ (forall id,
        id ∉ map lane_id (importedRight myImportAllTypes tc sec
                          ++ importedLeft myImportAllTypes tc sec) ->
        ls_laneMap (buildLaneMapping myImportAllTypes tc sec) !! id = ls_laneMap sec !! id)
  /\ (NoDup (map lane_id (importedRight myImportAllTypes tc sec
                          ++ importedLeft myImportAllTypes tc sec)) ->
      (forall k l, importedRight myImportAllTypes tc sec !! k = Some l ->
                   ls_laneMap (buildLaneMapping myImportAllTypes tc sec) !! lane_id l
                   = Some (Z.of_nat k))
      /\ (forall k l, importedLeft myImportAllTypes tc sec !! k = Some l ->
                      ls_laneMap (buildLaneMapping myImportAllTypes tc sec) !! lane_id l
                      = Some (Z.of_nat k))).
Proof.
  unfold buildLaneMapping, importedRight, importedLeft. cbn zeta.
  set (st0 := {| ms_laneMap := ls_laneMap sec; ms_sumoLane := 0;
                 ms_singleType := true; ms_types := [] |}).
  destruct (mapLanes_spec (rev (ls_right sec)) st0) as (Hn1 & _ & Hout1 & Hin1).
  cbn zeta in *.
  set (r := fold_left (mapLane myImportAllTypes tc) (rev (ls_right sec)) st0) in *.
  set (st1 := {| ms_laneMap := ms_laneMap r; ms_sumoLane := 0;
                 ms_singleType := true; ms_types := [] |}).
  destruct (mapLanes_spec (ls_left sec) st1) as (Hn2 & _ & Hout2 & Hin2).
  cbn zeta in *.
  set (l := fold_left (mapLane myImportAllTypes tc) (ls_left sec) st1) in *.
  cbn [ls_rightLaneNumber ls_leftLaneNumber ls_laneMap].
  cbn [st0 st1 ms_sumoLane ms_laneMap] in *.
  split; [lia|]. split; [lia|]. split.
  - intros id Hid. rewrite map_app, not_elem_of_app in Hid. destruct Hid as [Hr Hl].
    by rewrite (Hout2 id Hl), (Hout1 id Hr).
  - intros Hnd. rewrite map_app in Hnd. apply NoDup_app in Hnd as (Hndr & Hdisj & Hndl).
    split.
    + intros k x Hk. rewrite Hout2.
      * rewrite (Hin1 Hndr k x Hk). f_equal; lia.
      * apply Hdisj. apply (list_elem_of_fmap_2 lane_id).
        by eapply list_elem_of_lookup_2.
    + intros k x Hk. rewrite (Hin2 Hndl k x Hk). f_equal; lia.
Qed.

Lemma head_app_nonempty {A : Type} (l m : list A) : l <> [] -> head (l ++ m) = head l.
Proof. by destruct l. Qed.

(** One loop of [buildLaneMapping]: the flag [singleType] it leaves. *)
Lemma mapLanes_single (lanes : list OpenDriveLane) :
  forall st,
    ms_singleType (fold_left (mapLane myImportAllTypes tc) lanes st)
    = ms_singleType st
      && forallb (String.eqb (default "" (head (ms_types st ++ map lane_type (accepted lanes)))))
                 (map lane_type (accepted lanes)).
Proof.
  induction lanes as [|x lanes IH]; intros st; cbn [fold_left].
  - cbn. by rewrite andb_true_r.
  - rewrite IH. unfold mapLane. rewrite filter_cons.
    destruct (decide (imported myImportAllTypes tc x = true)) as [Hacc|Hrej].
    + rewrite Hacc. cbn [ms_singleType ms_types map forallb].
      rewrite <- app_assoc. cbn [app].
      assert (Hh : head (ms_types st ++ lane_type x :: map lane_type (accepted lanes))
                   = head (ms_types st ++ [lane_type x])) by (by destruct (ms_types st)).
      rewrite Hh.
      destruct (String.eqb (default "" (head (ms_types st ++ [lane_type x]))) (lane_type x));
        cbn; [reflexivity | by rewrite andb_false_r].
    + apply not_true_is_false in Hrej. by rewrite Hrej.
Qed.

Lemma joinedType_spec (lanes : list OpenDriveLane) (laneMap : gmap Z Z) :
  joinedType (fold_left (mapLane myImportAllTypes tc) lanes
                        {| ms_laneMap := laneMap; ms_sumoLane := 0;
                           ms_singleType := true; ms_types := [] |})
  = typeString (map lane_type (accepted lanes)).
Proof.
  set (st0 := {| ms_laneMap := laneMap; ms_sumoLane := 0;
                 ms_singleType := true; ms_types := [] |}).
  destruct (mapLanes_spec lanes st0) as (Hn & Ht & _).
  pose proof (mapLanes_single lanes st0) as Hs. cbn zeta in *.
  unfold joinedType. rewrite Hn, Ht, Hs. cbn [st0 ms_sumoLane ms_types ms_singleType app].
  destruct (accepted lanes) as [|x acc]; [reflexivity|].
  cbn [length map head default forallb typeString andb].
  rewrite String.eqb_refl. cbn [andb].
  replace (0 <? 0 + Z.of_nat (S (length acc)))%Z with true by (symmetry; apply Z.ltb_lt; lia).
  reflexivity.
Qed.

(** X11: the type strings [buildLaneMapping] leaves are those of the lanes
    it imports on either side: empty when there is none, their type when
    they all have the same, otherwise their types joined in the order of
    the numbering. *)
Theorem lane_map_type_strings (sec : OpenDriveLaneSection) :
  ls_rightType (buildLaneMapping myImportAllTypes tc sec)
  = typeString (map lane_type (importedRight myImportAllTypes tc sec))
  /\ ls_leftType (buildLaneMapping myImportAllTypes tc sec)
     = typeString (map lane_type (importedLeft myImportAllTypes tc sec)).
Proof.
  unfold buildLaneMapping. cbn [ls_rightType ls_leftType].
  split; apply joinedType_spec.
Qed.

End Facts.

(** A section with two right lanes, the outer one a sidewalk, and one left
    lane: the sidewalk gets index 0. *)
Example lane_map_sample :
  ls_laneMap MoreSamples.mappedSection = {[ (-2)%Z := 0%Z; (-1)%Z := 1%Z; 1%Z := 0%Z ]}
  /\ ls_rightLaneNumber MoreSamples.mappedSection = 2%Z
  /\ ls_leftLaneNumber MoreSamples.mappedSection = 1%Z
  /\ ls_rightType MoreSamples.mappedSection = "sidewalk|driving"
  /\ ls_leftType MoreSamples.mappedSection = "driving".
Proof. by vm_compute. Qed.

(** *** Connections between consecutive sections *)

Section Inner.

Variable UNSET_CONNECTION : Z.

Local Abbreviation continues := (Mapping.continues UNSET_CONNECTION).

(** What the body of the loop does with one lane. *)
Lemma innerConnection_cases dir laneMap prevMap ret l :
  (exists a b, continues laneMap prevMap l a b
               /\ innerConnection UNSET_CONNECTION dir laneMap prevMap ret l
                  = <[entryKey dir a b := entryValue dir a b]> ret)
  \/ ((forall a b, ~ continues laneMap prevMap l a b)
      /\ innerConnection UNSET_CONNECTION dir laneMap prevMap ret l = ret).
Proof.
  unfold innerConnection, Mapping.continues, entryKey, entryValue.
  destruct (laneMap !! lane_id l) as [to|] eqn:Hto;
    [|right; split; [intros a b (_ & _ & H & _); discriminate | reflexivity]].
  cbv zeta.
  destruct (Z.eqb (lane_predecessor l) UNSET_CONNECTION) eqn:Hp; cbn [negb].
  - apply Z.eqb_eq in Hp. repeat (rewrite Z.eqb_refl; cbn [negb andb]).
    right. split; [intros a b (H & _); done | reflexivity].
  - rewrite Hp. cbn [negb]. apply Z.eqb_neq in Hp.
    destruct (prevMap !! lane_predecessor l) as [f|] eqn:Hf.
    + destruct (Z.eqb f UNSET_CONNECTION) eqn:Hfu; cbn [negb andb].
      * apply Z.eqb_eq in Hfu. right. split; [|reflexivity].
        intros a b (_ & Ha & _ & Hau & _). congruence.
      * destruct (Z.eqb to UNSET_CONNECTION) eqn:Htu; cbn [negb].
        -- apply Z.eqb_eq in Htu. right. split; [|reflexivity].
           intros a b (_ & _ & Hb & _ & Hbu). congruence.
        -- apply Z.eqb_neq in Hfu, Htu. left. exists f, to.
           split; [done|]. by destruct (isLeft dir).
    + repeat (rewrite Z.eqb_refl; cbn [negb andb]). right. split; [|reflexivity].
      intros a b (_ & Ha & _). discriminate.
Qed.

Lemma elem_of_rev {A : Type} (x : A) (l : list A) : x ∈ rev l <-> x ∈ l.
Proof. rewrite !list_elem_of_In. symmetry. apply in_rev. Qed.

Lemma innerConnections_spec dir laneMap prevMap (lanes : list OpenDriveLane) :
  forall ret,
    let ret' := fold_left (innerConnection UNSET_CONNECTION dir laneMap prevMap) lanes ret in
    (forall k v, ret' !! k = Some v ->
                 ret !! k = Some v
                 \/ exists l a b, l ∈ lanes /\ continues laneMap prevMap l a b
                                  /\ k = entryKey dir a b /\ v = entryValue dir a b)
    /\ (forall k, is_Some (ret !! k) -> is_Some (ret' !! k))
    /\ (forall l a b, l ∈ lanes -> continues laneMap prevMap l a b ->
                      is_Some (ret' !! entryKey dir a b)).
Proof.
  induction lanes as [|x lanes IH]; intros ret; cbn [fold_left].
  - cbn. split; [by left|]. split; [done|]. intros l a b Hl. by apply elem_of_nil in Hl.
  - destruct (IH (innerConnection UNSET_CONNECTION dir laneMap prevMap ret x))
      as (Hsound & Hkeep & Hall).
    cbn zeta in *.
    set (ret' := fold_left _ lanes _) in *.
    destruct (innerConnection_cases dir laneMap prevMap ret x)
      as [(a & b & Hc & Hstep) | [Hnone Hstep]]; rewrite Hstep in *.
    + split; [|split].
      * intros k v Hk. destruct (Hsound k v Hk) as [Hold | (l & a' & b' & Hl & H)].
        -- destruct (decide (k = entryKey dir a b)) as [->|Hne].
           ++ rewrite lookup_insert_eq in Hold. injection Hold as <-.
              right. exists x, a, b. split; [by left | done].
           ++ rewrite lookup_insert_ne in Hold by done. by left.
        -- right. exists l, a', b'. split; [by right | done].
      * intros k Hk. apply Hkeep.
        destruct (decide (k = entryKey dir a b)) as [->|Hne].
        -- rewrite lookup_insert_eq. by eexists.
        -- by rewrite lookup_insert_ne.
      * intros l a' b' Hl Hc'. apply elem_of_cons in Hl as [->|Hl]; [|by eapply Hall].
        apply Hkeep.
        assert (a' = a /\ b' = b) as [-> ->].
        { destruct Hc as (_ & Ha & Hb & _), Hc' as (_ & Ha' & Hb' & _). split; congruence. }
        rewrite lookup_insert_eq. by eexists.
    + split; [|split].
      * intros k v Hk. destruct (Hsound k v Hk) as [Hold | (l & a' & b' & Hl & H)];
          [by left|]. right. exists l, a', b'. split; [by right | done].
      * exact Hkeep.
      * intros l a' b' Hl Hc'. apply elem_of_cons in Hl as [->|Hl]; [|by eapply Hall].
        by destruct (Hnone a' b').
Qed.


End Inner.


(** Between two copies of the sample section the right lanes continue
    index by index; on the left the shoulder has no index and the driving
    lane continues. *)
Example inner_connections_sample :
  getInnerConnections MoreSamples.unsetLane MoreSamples.mappedSection
                      OPENDRIVE_TAG_RIGHT MoreSamples.mappedSection
  = Some {[ 0%Z := 0%Z; 1%Z := 1%Z ]}
  /\ getInnerConnections MoreSamples.unsetLane MoreSamples.mappedSection
                         OPENDRIVE_TAG_LEFT MoreSamples.mappedSection
     = Some {[ 0%Z := 0%Z ]}
  /\ getInnerConnections MoreSamples.unsetLane MoreSamples.mappedSection
                         OPENDRIVE_TAG_LANE MoreSamples.mappedSection
     = None.
Proof. by vm_compute. Qed.

End MappingFacts.

(** ** Where a flattened connection comes from *)

Module OriginFacts.
Import Lanes Topology Flattener Origins.

Section Walk.

Variable innerEdges : gmap string OpenDriveEdge.
Variable myImportInternalShapes : bool.
Variable throughShape : OpenDriveEdge -> Connection -> list Geometry.Position.
Variable destShape : OpenDriveEdge -> Connection -> option (list Geometry.Position).

Local Abbreviation loop := (walkLoop innerEdges myImportInternalShapes throughShape destShape).
Local Abbreviation build :=
  (buildConnectionsToOuter innerEdges myImportInternalShapes throughShape destShape).
Local Abbreviation flatten :=
  (flattenFrom innerEdges myImportInternalShapes throughShape destShape).

Local Abbreviation handedBack := (Origins.handedBack innerEdges).
Local Abbreviation flattened := (Origins.flattened innerEdges).

Lemma leave_handedBack c dest i :
  innerEdges !! c_toEdge c = Some dest ->
  handedBack c (fst (leave myImportInternalShapes destShape c dest i)).
Proof.
  intros Hdest. unfold leave, Origins.handedBack, sameOrigin.
  destruct myImportInternalShapes; [destruct (destShape dest c)|]; cbn;
    rewrite Hdest; by repeat split.
Qed.

Lemma rewire_handedBack c via j :
  is_Some (innerEdges !! c_origID j) ->
  handedBack c (rewire myImportInternalShapes throughShape c via j).
Proof. intros Hj. by repeat split. Qed.

Lemma walkLoop_handedBack recur c dest :
  innerEdges !! c_toEdge c = Some dest ->
  (forall i seen t seen' log, recur i seen = Some (t, seen', log) ->
                              Forall (handedBack i) t) ->
  forall conts into seen log into' seen' log',
    Forall (handedBack c) into ->
    loop recur c dest conts (into, seen, log) = Some (into', seen', log') ->
    Forall (handedBack c) into'.
Proof.
  intros Hdest Hrec.
  induction conts as [|i rest IH]; intros into seen log into' seen' log' Hin Hrun.
  - cbn in Hrun. by injection Hrun as <- _ _.
  - cbn [walkLoop] in Hrun.
    destruct (innerEdges !! c_toEdge i) as [via|] eqn:Hto.
    + destruct (decide (key i ∈ seen)); [by eapply IH|].
      destruct (recur i seen) as [[[t seen1] log1]|] eqn:Hr; [|discriminate].
      eapply IH; [|exact Hrun].
      apply Forall_app. split; [exact Hin|].
      apply List.Forall_map. eapply List.Forall_impl; [|by eapply Hrec].
      intros j [_ Hj]. by apply rewire_handedBack.
    + destruct (laneSectionsConnected dest (c_toLane c) (c_fromLane i)); [|by eapply IH].
      pose proof (leave_handedBack c dest i Hdest) as Hl.
      destruct (leave myImportInternalShapes destShape c dest i) as [cn w].
      eapply IH; [|exact Hrun].
      apply Forall_app. split; [exact Hin|]. by constructor.
Qed.

Lemma build_handedBack fuel :
  forall c seen t seen' log,
    build fuel c seen = Some (t, seen', log) -> Forall (handedBack c) t.
Proof.
  induction fuel as [|fuel IH]; intros c seen t seen' log Hrun; [discriminate|].
  cbn [buildConnectionsToOuter] in Hrun.
  destruct (innerEdges !! c_toEdge c) as [dest|] eqn:Hdest.
  - eapply walkLoop_handedBack; [exact Hdest | exact IH | constructor | exact Hrun].
  - injection Hrun as <- _ _. constructor.
Qed.

Lemma flatten_flattened fuel (conns : list Connection) :
  forall out log, flatten fuel conns = Some (out, log) -> Forall (flattened conns) out.
Proof.
  induction conns as [|i rest IH]; intros out log Hrun; cbn [flattenFrom] in Hrun.
  - injection Hrun as <- _. constructor.
  - destruct (flatten fuel rest) as [[b w']|] eqn:Hrest.
    2:{ destruct (innerEdges !! c_fromEdge i); [discriminate|].
        destruct (innerEdges !! c_toEdge i); [|discriminate].
        by destruct (build fuel i ∅) as [[[? ?] ?]|]. }
    assert (Hb : Forall (flattened (i :: rest)) b).
    { eapply List.Forall_impl; [|exact (IH b w' eq_refl)].
      intros x [Hx [Hin | (c & Hc & H)]]; (split; [exact Hx|]);
        [left; by right | right; exists c; split; [by right | exact H]]. }
    destruct (innerEdges !! c_fromEdge i) as [src|] eqn:Hfrom.
    + injection Hrun as <- _. exact Hb.
    + destruct (innerEdges !! c_toEdge i) as [dest|] eqn:Hto.
      * destruct (build fuel i ∅) as [[[t seen'] w]|] eqn:Hbuild; [|discriminate].
        injection Hrun as <- _. apply Forall_app. split; [|exact Hb].
        eapply List.Forall_impl; [|by eapply build_handedBack].
        intros x Hx. split.
        -- destruct Hx as [(-> & _) _]. exact Hfrom.
        -- right. exists i. split; [by left|]. split; [by rewrite Hto | exact Hx].
      * injection Hrun as <- _. constructor; [|exact Hb].
        split; [exact Hfrom|]. left. by left.
Qed.

End Walk.

(** X13: every connection the flattening hands on starts at an outer road.
    It is one of the connections of the roads, or it starts, with the lane,
    the contact point and the flag all, where a connection into a junction
    starts, and then its origID names an inner road. *)
Theorem flattened_connections_keep_origin (shapes : bool)
    (throughShape : OpenDriveEdge -> Connection -> list Geometry.Position)
    (destShape : OpenDriveEdge -> Connection -> option (list Geometry.Position))
    (edges : gmap string OpenDriveEdge)
    (connections2 : list Connection) (log : list FlattenWarning) :
  flattenConnections shapes throughShape destShape edges = Some (connections2, log) ->
  Forall (flattened (innerOf edges) (allConnections edges)) connections2.
Proof. apply flatten_flattened. Qed.

Lemma flattened_connections_keep_origin_witness :
  flattenConnections false Samples.noShape Samples.noDestShape Samples.throughJunction
  = Some ([{| c_fromEdge := "A"; c_toEdge := "B"; c_fromLane := (-1); c_toLane := (-1);
              c_fromCP := OPENDRIVE_CP_END; c_toCP := OPENDRIVE_CP_START;
              c_all := false; c_origID := "X"; c_origLane := (-1); c_shape := [] |}], [])
  /\ Forall (flattened (innerOf Samples.throughJunction)
                       (allConnections Samples.throughJunction))
            [{| c_fromEdge := "A"; c_toEdge := "B"; c_fromLane := (-1); c_toLane := (-1);
                c_fromCP := OPENDRIVE_CP_END; c_toCP := OPENDRIVE_CP_START;
                c_all := false; c_origID := "X"; c_origLane := (-1); c_shape := [] |}].
Proof.
  split; [by vm_compute|].
  apply (flattened_connections_keep_origin false Samples.noShape Samples.noDestShape
           Samples.throughJunction _ []).
  by vm_compute.
Defined.

(** *** Lanes followed through the sections of an inner road *)

Lemma followLanes_other (lanes : list OpenDriveLane) (inLane : Z) :
  inLane ∉ map lane_id lanes -> followLanes lanes inLane = inLane.
Proof.
  unfold followLanes. induction lanes as [|l lanes IH]; intros Hnot; cbn; [reflexivity|].
  cbn in Hnot. apply not_elem_of_cons in Hnot as [Hne Hnot].
  destruct (Z.eqb (lane_id l) inLane) eqn:Hq; [apply Z.eqb_eq in Hq; congruence|].
  by apply IH.
Qed.

Lemma removelast_snoc {A : Type} (l : list A) (a : A) : removelast (l ++ [a]) = l.
Proof. induction l as [|x [|y l] IH]; cbn in *; [reflexivity | reflexivity | by rewrite IH]. Qed.

(** With more than one section, the lane is followed through all sections
    but the last. *)
Lemma connected_snoc (e : OpenDriveEdge) (secs : list OpenDriveLaneSection)
    (a : OpenDriveLaneSection) (inLane outLane : Z) :
  secs <> [] ->
  laneSectionsConnected (set_laneSections (secs ++ [a]) e) inLane outLane
  = Z.eqb (fold_left (fun cur sec => followLanes (ls_left sec) (followLanes (ls_right sec) cur))
                     secs inLane)
          outLane.
Proof.
  intros Hne. unfold laneSectionsConnected. cbn [ed_laneSections set_laneSections].
  destruct secs as [|s1 [|s2 secs]]; [done | reflexivity |].
  change ((s1 :: s2 :: secs) ++ [a]) with (s1 :: s2 :: (secs ++ [a])). cbv beta iota.
  change (s1 :: s2 :: secs ++ [a]) with ((s1 :: s2 :: secs) ++ [a]).
  by rewrite removelast_snoc.
Qed.

(** X14: [laneSectionsConnected] never consults the last section of the
    road: whatever that section is, the answer is the same.  And a lane
    that no right or left lane of the other sections is called by comes
    out as it went in, so that the answer is whether the two lanes given
    are the same. *)
Theorem last_section_plays_no_part (e : OpenDriveEdge) (secs : list OpenDriveLaneSection)
    (a b : OpenDriveLaneSection) (inLane outLane : Z) :
  laneSectionsConnected (set_laneSections (secs ++ [a]) e) inLane outLane
  = laneSectionsConnected (set_laneSections (secs ++ [b]) e) inLane outLane
  /\ (Forall (fun sec => inLane ∉ map lane_id (ls_right sec ++ ls_left sec)) secs ->
      laneSectionsConnected (set_laneSections (secs ++ [a]) e) inLane outLane
      = Z.eqb inLane outLane).
Proof.
  destruct (decide (secs = [])) as [->|Hne]; [by split|].
  rewrite !connected_snoc by done. split; [reflexivity|].
  intros Hall. f_equal. clear Hne.
  induction Hall as [|sec rest Hsec Hrest IH]; cbn [fold_left]; [reflexivity|].
  rewrite map_app in Hsec. apply not_elem_of_app in Hsec as [Hr Hl].
  rewrite (followLanes_other _ _ Hr), (followLanes_other _ _ Hl). exact IH.
Qed.

(** Within one section a lane may be followed more than once: the loop
    over the lanes goes on after a match, so lane -1, whose successor is
    -2, is taken on to the successor of lane -2. *)
Example followLanes_goes_on :
  followLanes [MoreSamples.chainLane (-1) (-2); MoreSamples.chainLane (-2) (-3)] (-1)
  = (-3)%Z.
Proof. reflexivity. Qed.

End OriginFacts.

(** ** The width written to a lane *)

Module WidthFacts.
Import Lanes Attributes.

Lemma leb_le (a b : Q) : Dbl.leb a b = true <-> (a <= b)%Q.
Proof. apply Qle_bool_iff. Qed.

Lemma eqb_eq (a b : Q) : Dbl.eqb a b = true <-> (a == b)%Q.
Proof. apply Qeq_bool_iff. Qed.

Lemma MIN2_le_l (a b : Q) : (Dbl.MIN2 a b <= a)%Q.
Proof.
  unfold Dbl.MIN2. destruct (Dbl.ltb a b) eqn:H; [lra|].
  apply LaneFacts.ltb_ge in H. exact H.
Qed.

Lemma MIN2_le_r (a b : Q) : (Dbl.MIN2 a b <= b)%Q.
Proof.
  unfold Dbl.MIN2. destruct (Dbl.ltb a b) eqn:H; [|lra].
  apply LaneFacts.ltb_lt in H. lra.
Qed.

Lemma MIN2_pos (a b : Q) : (0 < a)%Q -> (0 < b)%Q -> (0 < Dbl.MIN2 a b)%Q.
Proof. unfold Dbl.MIN2. by destruct (Dbl.ltb a b). Qed.

Lemma MAX2_cases (a b : Q) : Dbl.MAX2 a b = a \/ Dbl.MAX2 a b = b.
Proof. unfold Dbl.MAX2. destruct (Dbl.ltb b a); auto. Qed.

Lemma MAX2_ge_l (a b : Q) : (a <= Dbl.MAX2 a b)%Q.
Proof.
  unfold Dbl.MAX2. destruct (Dbl.ltb b a) eqn:H; [lra|].
  apply LaneFacts.ltb_ge in H. exact H.
Qed.

(** Rounding to the resolution moves a width by at most half a step and
    leaves it non-negative. *)
Lemma roundWidth_bounds (w r : Q) :
  (0 < r)%Q ->
  (w - r * (1 # 2) < roundWidth w r)%Q /\ (roundWidth w r <= w + r * (1 # 2))%Q
  /\ ((0 <= w)%Q -> (0 <= roundWidth w r)%Q).
Proof.
  intros Hr. unfold roundWidth, Dbl.floor.
  set (q := (w / r + 0.5)%Q).
  assert (Hq : (q * r == w + r * (1 # 2))%Q) by (unfold q; field; lra).
  pose proof (Qfloor_le q) as Hlo. pose proof (Qlt_floor q) as Hhi.
  rewrite inject_Z_plus in Hhi. change (inject_Z 1) with 1%Q in Hhi.
  set (f := inject_Z (Qfloor q)) in *.
  assert (H1 : (f * r <= q * r)%Q) by (apply Qmult_le_compat_r; lra).
  assert (H2 : (q * r < (f + 1) * r)%Q) by (apply Qmult_lt_compat_r; lra).
  assert (H3 : ((f + 1) * r == f * r + r)%Q) by ring.
  rewrite H3 in H2. rewrite Hq in H1, H2.
  assert (Hnn : (0 <= w)%Q -> (0 <= f * r)%Q).
  { intros Hw.
    assert (Hq0 : (0 <= q)%Q).
    { unfold q. assert (0 <= w / r)%Q; [|lra]. apply Qle_shift_div_l; lra. }
    assert (Hf : (0 <= f)%Q).
    { unfold f. change 0%Q with (inject_Z 0). rewrite <- Zle_Qle.
      change 0%Z with (Qfloor 0). by apply Qfloor_resp_le. }
    apply Qmult_le_0_compat; lra. }
  clearbody f q. generalize dependent (f * r)%Q. intros fr H1 H2 _ Hnn.
  split; [lra|]. split; [lra | exact Hnn].
Qed.

Section Widths.

Variables SVC_PASSENGER SVC_EMERGENCY SVC_AUTHORITY : Z.
Variable UNSPECIFIED_WIDTH : Q.
Variable POSITION_EPS : Q.
Variable myImportWidths : bool.
Variable myMinWidth : Q.

Local Abbreviation attrs :=
  (setLaneAttributes SVC_PASSENGER SVC_EMERGENCY SVC_AUTHORITY UNSPECIFIED_WIDTH
                     POSITION_EPS myImportWidths myMinWidth).
Local Abbreviation narrow :=
  (forbiddenNarrow SVC_PASSENGER UNSPECIFIED_WIDTH myImportWidths myMinWidth).
Local Abbreviation width0 := (importedWidth UNSPECIFIED_WIDTH myImportWidths).
Local Abbreviation quantise := (quantiseWidth POSITION_EPS myMinWidth).

Lemma quantise_positive (n : bool) (w r : Q) :
  (0 <= w)%Q -> (0 < r)%Q -> (0 < POSITION_EPS)%Q -> (0 < quantise n w r)%Q.
Proof.
  intros Hw Hr Heps. unfold quantiseWidth.
  destruct (roundWidth_bounds w r Hr) as (_ & _ & Hnn). specialize (Hnn Hw).
  apply leb_le in Hw. apply LaneFacts.ltb_lt in Hr. rewrite Hw, Hr. cbn [andb].
  apply LaneFacts.ltb_lt in Hr.
  destruct (n && Dbl.leb myMinWidth (roundWidth w r)).
  - destruct (Dbl.leb (roundWidth w r - r) 0) eqn:H2.
    + pose proof (MAX2_ge_l POSITION_EPS (myMinWidth - POSITION_EPS)). lra.
    + by apply LaneFacts.leb_gt in H2.
  - destruct (Dbl.eqb (roundWidth w r) 0) eqn:H0; [exact Hr|].
    assert (~ (roundWidth w r == 0)%Q) by (rewrite <- eqb_eq; congruence).
    lra.
Qed.

(** X15: a lane whose width before rounding is not negative, under a
    positive width resolution, is written a positive width; and where the
    type has a positive maximum width, the width written does not exceed
    it. *)
Theorem written_width_positive_and_capped edgeID sumoLane odLane saveOrigIDs tc :
  (0 <= importedWidth UNSPECIFIED_WIDTH myImportWidths odLane tc)%Q ->
  (0 < getWidthResolution tc (lane_type odLane))%Q ->
  (0 < POSITION_EPS)%Q ->
  (0 < sl_width (setLaneAttributes SVC_PASSENGER SVC_EMERGENCY SVC_AUTHORITY
                   UNSPECIFIED_WIDTH POSITION_EPS myImportWidths myMinWidth
                   edgeID sumoLane odLane saveOrigIDs tc))%Q
  /\ ((0 < getMaxWidth tc (lane_type odLane))%Q ->
      (sl_width (setLaneAttributes SVC_PASSENGER SVC_EMERGENCY SVC_AUTHORITY
                   UNSPECIFIED_WIDTH POSITION_EPS myImportWidths myMinWidth
                   edgeID sumoLane odLane saveOrigIDs tc)
       <= getMaxWidth tc (lane_type odLane))%Q).
Proof.
  intros Hw Hr Heps. unfold setLaneAttributes. cbn [sl_width].
  pose proof (quantise_positive (narrow odLane tc) _ _ Hw Hr Heps) as Hq.
  destruct (Dbl.ltb 0 (getMaxWidth tc (lane_type odLane))) eqn:Hmax.
  - apply LaneFacts.ltb_lt in Hmax. split; [by apply MIN2_pos|].
    intros _. apply MIN2_le_r.
  - split; [exact Hq|]. intros Hpos. apply LaneFacts.ltb_lt in Hpos. congruence.
Qed.

(** X16: a lane downgraded for being narrow is written a width below the
    minimum width, when the width resolution and [POSITION_EPS] lie below
    the minimum. *)
Theorem downgraded_lane_stays_narrow edgeID sumoLane odLane saveOrigIDs tc :
  forbiddenNarrow SVC_PASSENGER UNSPECIFIED_WIDTH myImportWidths myMinWidth odLane tc = true ->
  (0 <= importedWidth UNSPECIFIED_WIDTH myImportWidths odLane tc)%Q ->
  (0 < getWidthResolution tc (lane_type odLane))%Q ->
  (getWidthResolution tc (lane_type odLane) < myMinWidth)%Q ->
  (0 < POSITION_EPS)%Q ->
  (POSITION_EPS < myMinWidth)%Q ->
  (sl_width (setLaneAttributes SVC_PASSENGER SVC_EMERGENCY SVC_AUTHORITY
               UNSPECIFIED_WIDTH POSITION_EPS myImportWidths myMinWidth
               edgeID sumoLane odLane saveOrigIDs tc) < myMinWidth)%Q.
Proof.
  intros Hn Hw Hr Hrm Heps Hepsm.
  assert (Hlt : (width0 odLane tc < myMinWidth)%Q).
  { apply AttributeFacts.narrow_iff in Hn. tauto. }
  unfold setLaneAttributes. cbn [sl_width]. rewrite Hn.
  set (w := width0 odLane tc) in *. set (r := getWidthResolution tc (lane_type odLane)) in *.
  assert (Hq : (quantise true w r < myMinWidth)%Q).
  { unfold quantiseWidth.
    destruct (roundWidth_bounds w r Hr) as (_ & Hup & _).
    apply leb_le in Hw. apply LaneFacts.ltb_lt in Hr. rewrite Hw, Hr. cbn [andb].
    apply LaneFacts.ltb_lt in Hr.
    destruct (Dbl.leb myMinWidth (roundWidth w r)) eqn:H1.
    - destruct (Dbl.leb (roundWidth w r - r) 0) eqn:H2.
      + destruct (MAX2_cases POSITION_EPS (myMinWidth - POSITION_EPS)) as [-> | ->]; lra.
      + lra.
    - apply LaneFacts.leb_gt in H1.
      destruct (Dbl.eqb (roundWidth w r) 0); [exact Hrm | exact H1]. }
  destruct (Dbl.ltb 0 (getMaxWidth tc (lane_type odLane))); [|exact Hq].
  eapply Qle_lt_trans; [apply MIN2_le_l | exact Hq].
Qed.

End Widths.

Import Samples.

Lemma written_width_positive_and_capped_witness :
  (0 <= importedWidth (-1) true (drivingLane (-1) [] 1.76) catalogue)%Q
  /\ (0 < getWidthResolution catalogue "driving")%Q
  /\ (0 < 0.1)%Q
  /\ (0 < sl_width narrowResult)%Q.
Proof.
  split; [discriminate|]. split; [reflexivity|]. split; [reflexivity|].
  apply (written_width_positive_and_capped svcPassenger svcEmergency svcAuthority (-1) 0.1
           true 1.8 "R" blankLane (drivingLane (-1) [] 1.76) false catalogue);
    [discriminate | reflexivity | reflexivity].
Defined.

Lemma downgraded_lane_stays_narrow_witness :
  forbiddenNarrow svcPassenger (-1) true 1.8 (drivingLane (-1) [] 1.76) catalogue = true
  /\ (sl_width narrowResult < 1.8)%Q.
Proof.
  split; [reflexivity|].
  apply (downgraded_lane_stays_narrow svcPassenger svcEmergency svcAuthority (-1) 0.1
           true 1.8 "R" blankLane (drivingLane (-1) [] 1.76) false catalogue);
    [reflexivity | discriminate | reflexivity | reflexivity | reflexivity | reflexivity].
Defined.

(** Without the bound on the resolution the width written to a downgraded
    lane may reach the minimum: 0.2 m under a resolution of 1 m rounds to 0
    and is written as one step, 1 m, above the minimum of 0.3 m. *)
Example coarse_resolution_widens :
  forbiddenNarrow svcPassenger (-1) true 0.3 (drivingLane (-1) [] 0.2)
                  MoreSamples.coarseCatalogue = true
  /\ (sl_width (setLaneAttributes svcPassenger svcEmergency svcAuthority (-1) 0.1 true 0.3
                  "R" blankLane (drivingLane (-1) [] 0.2) false MoreSamples.coarseCatalogue)
      == 1)%Q.
Proof. split; reflexivity. Qed.

End WidthFacts.

(** ** Signals: priorities and traffic lights *)

Module SignalFacts.
Import Handler Lanes Signals.

Lemma signalRank_range (type : string) :
  signalRank type = 0%Z \/ signalRank type = 1%Z \/ signalRank type = 2%Z.
Proof.
  unfold signalRank.
  destruct (String.eqb type "205"); [by left|].
  destruct (String.eqb type "301" || String.eqb type "306"); auto.
Qed.

Lemma priorityStep_counts dir prio sg :
  priorityStep dir prio sg
  = if counts dir sg then signalRank (sg_type sg) else prio.
Proof.
  unfold priorityStep, counts.
  destruct (negb (signalRank (sg_type sg) =? 1)%Z); [|reflexivity].
  destruct dir; cbn [isRight isLeft andb orb];
    destruct (0 <? sg_orientation sg)%Z, (sg_orientation sg <? 0)%Z; reflexivity.
Qed.

Lemma fold_priority dir (signals : list OpenDriveSignal) :
  forall prio,
    fold_left (priorityStep dir) signals prio
    = match List.last (map Some (filter (fun sg => counts dir sg = true) signals)) None with
      | Some sg => signalRank (sg_type sg)
      | None => prio
      end.
Proof.
  induction signals as [|sg signals IH]; intros prio; cbn [fold_left]; [reflexivity|].
  rewrite IH, priorityStep_counts, filter_cons.
  destruct (decide (counts dir sg = true)) as [Hc|Hc].
  - rewrite Hc. cbn [map].
    destruct (filter (fun sg => counts dir sg = true) signals) as [|x l]; [reflexivity|].
    cbn [map].
    change (List.last (Some sg :: Some x :: map Some l) None)
      with (List.last (Some x :: map Some l) None).
    destruct (NodeFacts.last_some (x :: l)) as [b Hb]; [done|].
    cbn [map] in Hb. by rewrite Hb.
  - apply not_true_is_false in Hc. by rewrite Hc.
Qed.

(** X17: the priority of a direction is 1 unless a signal bears on it, and
    otherwise is set by the last signal that does: 0 for a yield sign, 2 for
    a priority sign.  A signal bears on the right direction when its
    orientation is positive and on the left direction when it is negative;
    any other direction has priority 1. *)
Theorem priority_of_last_signal (signals : list OpenDriveSignal) (dir : OpenDriveXMLTag) :
  getPriority signals dir
  = match List.last (map Some (filter (fun sg => counts dir sg = true) signals)) None with
    | Some sg => signalRank (sg_type sg)
    | None => 1%Z
    end
  /\ (0 <= getPriority signals dir <= 2)%Z
  /\ (isRight dir = false -> isLeft dir = false -> getPriority signals dir = 1%Z).
Proof.
  unfold getPriority. rewrite fold_priority. split; [reflexivity|]. split.
  - destruct (List.last _ None) as [sg|]; [|lia].
    destruct (signalRank_range (sg_type sg)) as [-> | [-> | ->]]; lia.
  - intros Hr Hl.
    assert (Hnone : filter (fun sg => counts dir sg = true) signals = []).
    { induction signals as [|sg l IH]; [reflexivity|]. rewrite filter_cons, IH.
      unfold counts. rewrite Hr, Hl. cbn. rewrite andb_false_r.
      by destruct (decide (false = true)). }
    by rewrite Hnone.
Qed.

(** X18: a priority or yield sign read from a [signal] element sets the
    priority of one direction and leaves the other as it is: the left one
    when the orientation attribute is "-", the right one for any other
    value of the attribute.  Any other sign leaves both as they are. *)
Theorem read_signal_bears_on_one_side (attrs : SignalAttrs)
    (signals : list OpenDriveSignal) :
  getPriority (startSignal attrs signals) OPENDRIVE_TAG_RIGHT
  = (if negb (signalRank (sa_type attrs) =? 1)%Z
        && negb (String.eqb (sa_orientation attrs) "-")
     then signalRank (sa_type attrs)
     else getPriority signals OPENDRIVE_TAG_RIGHT)
  /\ getPriority (startSignal attrs signals) OPENDRIVE_TAG_LEFT
     = (if negb (signalRank (sa_type attrs) =? 1)%Z
           && String.eqb (sa_orientation attrs) "-"
        then signalRank (sa_type attrs)
        else getPriority signals OPENDRIVE_TAG_LEFT).
Proof.
  unfold getPriority, startSignal. rewrite !fold_left_app. cbn [fold_left].
  rewrite !priorityStep_counts. unfold counts. cbn [sg_type sg_orientation isRight isLeft].
  destruct (negb (signalRank (sa_type attrs) =? 1)%Z); [|by split].
  destruct (String.eqb (sa_orientation attrs) "-"); by split.
Qed.

(** *** The lane section a traffic light belongs to *)

Lemma signalSection_last (s : Q) (secs : list OpenDriveLaneSection) (k : OpenDriveLaneSection) :
  Forall (fun sec => Dbl.ltb (ls_s sec) s = false) secs
  \/ Forall (fun sec => Dbl.leb s (ls_s sec) = false) (tail (secs ++ [k])) ->
  signalSection s (secs ++ [k]) = Some k.
Proof.
  induction secs as [|x secs IH]; intros H; [reflexivity|].
  change ((x :: secs) ++ [k]) with (x :: (secs ++ [k])) in *.
  cbn [signalSection tail] in *.
  assert (Hne : exists k1 rest, secs ++ [k] = k1 :: rest) by (destruct secs; cbn; eauto).
  destruct Hne as (k1 & rest & Hrest).
  assert (Htest : Dbl.ltb (ls_s x) s && Dbl.leb s (ls_s k1) = false).
  { destruct H as [H | H].
    - inversion H as [|? ? Hx _]; subst. by rewrite Hx.
    - rewrite Hrest in H. inversion H as [|? ? Hk1 _]; subst. rewrite Hk1.
      apply andb_false_r. }
  assert (Hgoal : signalSection s (secs ++ [k]) = Some k).
  { apply IH. destruct H as [H | H]; [left; by inversion H | right].
    rewrite Hrest in *. cbn [tail]. by inversion H. }
  rewrite Hrest in *. by rewrite Htest.
Qed.

Lemma last_cons_default {A : Type} (l : list A) :
  forall (x d d' : A), List.last (x :: l) d = List.last (x :: l) d'.
Proof.
  induction l as [|y l IH]; intros x d d'; [reflexivity|].
  change (List.last (y :: l) d = List.last (y :: l) d'). apply IH.
Qed.

Lemma signalSection_found (s : Q) (secs : list OpenDriveLaneSection) :
  forall first last0,
    (ls_s first < s)%Q -> (s <= ls_s last0)%Q ->
    List.last (first :: secs) first = last0 ->
    exists k next,
      signalSection s (first :: secs) = Some k
      /\ adjacent (first :: secs) k next
      /\ (ls_s k < s)%Q /\ (s <= ls_s next)%Q.
Proof.
  induction secs as [|k1 secs IH]; intros first last0 Hlo Hhi Hlast.
  - cbn in Hlast. subst. lra.
  - cbn [signalSection].
    destruct (Dbl.leb s (ls_s k1)) eqn:Hk1.
    + apply LaneFacts.ltb_lt in Hlo. rewrite Hlo. cbn [andb].
      exists first, k1. split; [reflexivity|]. split; [by exists [], secs|].
      split; [by apply LaneFacts.ltb_lt | by apply WidthFacts.leb_le].
    + rewrite andb_false_r. apply LaneFacts.leb_gt in Hk1.
      destruct (IH k1 last0 Hk1 Hhi) as (k & next & Hrun & (before & after & Hadj) & H).
      { rewrite <- Hlast. change (List.last (first :: k1 :: secs) first)
          with (List.last (k1 :: secs) first). apply last_cons_default. }
      exists k, next. split; [exact Hrun|]. split; [|exact H].
      exists (first :: before), after. cbn. by rewrite Hadj.
Qed.

Lemma last_cons {A : Type} (l : list A) (x d : A) : List.last (x :: l) d = List.last l x.
Proof.
  revert x d. induction l as [|y l IH]; intros x d; [reflexivity|].
  change (List.last (y :: l) d = List.last (y :: l) x). apply last_cons_default.
Qed.

Lemma signalSection_some (s : Q) (rest : list OpenDriveLaneSection) :
  forall first, exists k, signalSection s (first :: rest) = Some k /\ k ∈ first :: rest.
Proof.
  induction rest as [|k1 rest IH]; intros first; cbn [signalSection].
  - exists first. split; [reflexivity | by left].
  - destruct (Dbl.ltb (ls_s first) s && Dbl.leb s (ls_s k1)).
    + exists first. split; [reflexivity | by left].
    + destruct (IH k1) as (k & Hrun & Hin). exists k. split; [exact Hrun | by right].
Qed.

(** X19: on a road with lane sections the traffic-light phase always finds
    a section for a signal, and it is one of the road's.  A signal that
    lies after the start of the first section and not after the start of
    the last one gets the section that starts before it and whose
    follower does not.  A signal after the start of the last section gets
    the last section; and so does, with sections in ascending order, a
    signal that does not lie after the start of the first section. *)
Theorem signal_section_found (s : Q) (first : OpenDriveLaneSection)
    (rest : list OpenDriveLaneSection) :
  exists k,
    signalSection s (first :: rest) = Some k
    /\ k ∈ first :: rest
    /\ ((ls_s first < s)%Q -> (s <= ls_s (List.last rest first))%Q ->
        exists next, adjacent (first :: rest) k next
                     /\ (ls_s k < s)%Q /\ (s <= ls_s next)%Q)
    /\ ((ls_s (List.last rest first) < s)%Q ->
        Forall (fun sec => (ls_s sec <= ls_s (List.last rest first))%Q) rest ->
        k = List.last rest first)
    /\ ((s <= ls_s first)%Q ->
        Forall (fun sec => (ls_s first <= ls_s sec)%Q) rest ->
        k = List.last rest first).
Proof.
  destruct (signalSection_some s rest first) as (k & Hrun & Hin).
  exists k. split; [exact Hrun|]. split; [exact Hin|].
  assert (Hsplit : first :: rest = removelast (first :: rest) ++ [List.last rest first]).
  { rewrite <- (last_cons rest first first). apply app_removelast_last. discriminate. }
  split; [|split].
  - intros Hlo Hhi.
    destruct (signalSection_found s rest first (List.last rest first) Hlo Hhi
                (last_cons rest first first))
      as (k' & next & Hrun' & H).
    rewrite Hrun in Hrun'. injection Hrun' as <-. by exists next.
  - intros Hlate Hall.
    assert (Hlast : signalSection s (first :: rest) = Some (List.last rest first)).
    { rewrite Hsplit. apply signalSection_last. right. rewrite <- Hsplit. cbn [tail].
      eapply List.Forall_impl; [|exact Hall]. intros sec Hsec. cbn in Hsec.
      apply LaneFacts.leb_gt. lra. }
    congruence.
  - intros Hearly Hall.
    assert (Hlast : signalSection s (first :: rest) = Some (List.last rest first)).
    { rewrite Hsplit. apply signalSection_last. left.
      apply Forall_forall. intros sec Hsec. apply LaneFacts.ltb_ge.
      assert (Hmem : sec ∈ first :: rest).
      { rewrite Hsplit. apply elem_of_app. by left. }
      apply elem_of_cons in Hmem as [-> | Hmem]; [exact Hearly|].
      rewrite Forall_forall in Hall. specialize (Hall sec Hmem). cbn in Hall. lra. }
    congruence.
Qed.

(** A signal at the very start of a road with two sections is given the
    second one. *)
Example signal_at_start_gets_last_section :
  option_map ls_s (signalSection 0 [Samples.sectionAt 0 [] []; Samples.sectionAt 50 [] []])
  = Some 50%Q.
Proof. reflexivity. Qed.

End SignalFacts.

(** ** Discretising lines, arcs and cubic polynomials *)

Module CurveFacts.
Import Geometry Curves.

Lemma nat_Q_succ (n : nat) : (inject_Z (Z.of_nat (S n)) == inject_Z (Z.of_nat n) + 1)%Q.
Proof. rewrite Nat2Z.inj_succ. unfold Z.succ. by rewrite inject_Z_plus. Qed.

Lemma hasNonLinearElevation_false (elevations : list OpenDriveElevation) :
  hasNonLinearElevation elevations = false <->
  elevations = []
  \/ exists el, elevations = [el] /\ (el_c el == 0)%Q /\ (el_d el == 0)%Q.
Proof.
  unfold hasNonLinearElevation. destruct elevations as [|el [|el2 rest]]; cbn.
  - split; [by left | done].
  - rewrite orb_false_r, orb_false_iff, !negb_false_iff. unfold Dbl.eqb.
    rewrite !Qeq_bool_iff. split.
    + intros H. right. by exists el.
    + intros [H | (el' & [= <-] & H)]; [discriminate | exact H].
  - split; [discriminate|]. intros [H | (el' & H & _)]; discriminate.
Qed.

Section Trig.

Variables cos sin : Q -> Q.

Local Abbreviation endPoint g :=
  (calculateStraightEndPoint cos sin (g_hdg g) (g_length g) (Position2 (g_x g) (g_y g))).


(** *** The loop of [geomFromArc] *)

Local Abbreviation remaining g st := (g_s g + g_length g - arc_posE st)%Q.

Lemma arcLoop_steps (g : OpenDriveGeometry) (resolution cx cy radius : Q) (n : nat) :
  forall st,
    (forall j, (1 <= j < S n)%nat ->
               (inject_Z (Z.of_nat j) * resolution <= remaining g st - 0.001)%Q) ->
    (remaining g st - 0.001 < inject_Z (Z.of_nat (S n)) * resolution)%Q ->
    exists pts,
      (forall fuel, (S n <= fuel)%nat ->
                    arcLoop cos sin fuel g resolution cx cy radius st = Some pts)
      /\ (forall fuel, (fuel < S n)%nat ->
                       arcLoop cos sin fuel g resolution cx cy radius st = None)
      /\ length pts = (length (arc_ret st) + S n)%nat
      /\ head pts = head (arc_ret st ++ [Position2 (arc_startX st) (arc_startY st)]).
Proof.
  induction n as [|n IH]; intros st Hbefore Hend.
  - (* this pass sets [end] *)
    assert (Hstep : forall fuel',
               arcLoop cos sin (S fuel') g resolution cx cy radius st
               = Some (arc_ret st ++ [Position2 (arc_startX st) (arc_startY st)])).
    { intros fuel'. cbn [arcLoop].
      change (inject_Z (Z.of_nat 1)) with 1%Q in Hend.
      set (e1 := (arc_posE st + resolution)%Q).
      destruct (Dbl.ltb (g_length g) (e1 - g_s g)) eqn:Hclamp.
      - (* clamped *)
        assert (H2 : Dbl.ltb (g_length g) (g_s g + g_length g - g_s g) = false)
          by (apply LaneFacts.ltb_ge; lra).
        rewrite H2.
        destruct (calcPointOnCurve _ _ _ _ _ _ _ _) as [endX endY].
        assert (Ha : Dbl.ltb (g_s g + g_length g - (g_s g + g_length g)) 0.001 = true)
          by (apply LaneFacts.ltb_lt; lra).
        assert (Hb : Dbl.ltb (-0.001) (g_s g + g_length g - (g_s g + g_length g)) = true)
          by (apply LaneFacts.ltb_lt; lra).
        by rewrite Ha, Hb.
      - rewrite Hclamp. apply LaneFacts.ltb_ge in Hclamp.
        destruct (calcPointOnCurve _ _ _ _ _ _ _ _) as [endX endY].
        assert (Ha : Dbl.ltb (e1 - (g_s g + g_length g)) 0.001 = true)
          by (apply LaneFacts.ltb_lt; unfold e1 in *; lra).
        assert (Hb : Dbl.ltb (-0.001) (e1 - (g_s g + g_length g)) = true)
          by (apply LaneFacts.ltb_lt; unfold e1 in *; lra).
        by rewrite Ha, Hb. }
    exists (arc_ret st ++ [Position2 (arc_startX st) (arc_startY st)]).
    split; [intros [|fuel'] Hf; [lia | apply Hstep]|].
    split; [intros [|fuel'] Hf; [reflexivity | lia]|].
    split; [rewrite length_app; cbn; lia | reflexivity].
  - (* this pass goes on *)
    pose proof (Hbefore 1%nat ltac:(lia)) as H1.
    change (inject_Z (Z.of_nat 1)) with 1%Q in H1.
    set (e1 := (arc_posE st + resolution)%Q).
    assert (Hclamp : Dbl.ltb (g_length g) (e1 - g_s g) = false)
      by (apply LaneFacts.ltb_ge; unfold e1; lra).
    assert (Hb : Dbl.ltb (-0.001) (e1 - (g_s g + g_length g)) = false)
      by (apply LaneFacts.ltb_ge; unfold e1; lra).
    destruct (calcPointOnCurve cos sin (arc_endX st) (arc_endY st) cx cy radius
                               (e1 - arc_posS st)) as [endX endY] eqn:Hpoint.
    set (st' := {| arc_ret := arc_ret st ++ [Position2 (arc_startX st) (arc_startY st)];
                   arc_dist := (arc_dist st + (e1 - arc_posS st))%Q;
                   arc_endX := endX; arc_endY := endY;
                   arc_startX := endX; arc_startY := endY;
                   arc_posS := e1; arc_posE := e1 |}).
    assert (Hstep : forall fuel',
               arcLoop cos sin (S fuel') g resolution cx cy radius st
               = arcLoop cos sin fuel' g resolution cx cy radius st').
    { intros fuel'. cbn [arcLoop]. fold e1. rewrite Hclamp, Hclamp, Hpoint, Hb.
      by rewrite andb_false_r. }
    destruct (IH st') as (pts & Hge & Hlt & Hlen & Hhead).
    + intros j Hj. cbn [arc_posE st']. unfold e1.
      pose proof (Hbefore (S j) ltac:(lia)) as Hj'. rewrite nat_Q_succ, Qmult_plus_distr_l in Hj'.
      set (p := (inject_Z (Z.of_nat j) * resolution)%Q) in *. clearbody p. lra.
    + cbn [arc_posE st']. unfold e1.
      rewrite (nat_Q_succ (S n)), Qmult_plus_distr_l in Hend.
      set (p := (inject_Z (Z.of_nat (S n)) * resolution)%Q) in *. clearbody p. lra.
    + exists pts. split; [intros [|fuel'] Hf; [lia | rewrite Hstep; apply Hge; lia]|].
      split; [intros [|fuel'] Hf; [reflexivity | rewrite Hstep; apply Hlt; lia]|].
      split.
      * rewrite Hlen. cbn [arc_ret st']. rewrite length_app. cbn. lia.
      * rewrite Hhead. cbn [arc_ret st']. by destruct (arc_ret st).
Qed.

Lemma arcLoop_never (g : OpenDriveGeometry) (resolution cx cy radius : Q) :
  (resolution <= 0)%Q -> (0.001 <= g_length g)%Q ->
  forall fuel st, (arc_posE st <= g_s g)%Q ->
                  arcLoop cos sin fuel g resolution cx cy radius st = None.
Proof.
  intros Hr Hl. induction fuel as [|fuel IH]; intros st Hpos; [reflexivity|].
  cbn [arcLoop]. set (e1 := (arc_posE st + resolution)%Q).
  assert (Hclamp : Dbl.ltb (g_length g) (e1 - g_s g) = false)
    by (apply LaneFacts.ltb_ge; unfold e1; lra).
  assert (Hb : Dbl.ltb (-0.001) (e1 - (g_s g + g_length g)) = false)
    by (apply LaneFacts.ltb_ge; unfold e1; lra).
  rewrite Hclamp, Hclamp.
  destruct (calcPointOnCurve _ _ _ _ _ _ _ _) as [endX endY].
  rewrite Hb, andb_false_r. apply IH. cbn [arc_posE]. unfold e1. lra.
Qed.

Lemma arcSteps_spec (g : OpenDriveGeometry) (resolution : Q) :
  (0 < resolution)%Q ->
  (1 <= arcSteps g resolution)%nat
  /\ (forall j, (1 <= j < arcSteps g resolution)%nat ->
                (inject_Z (Z.of_nat j) * resolution <= g_length g - 0.001)%Q)
  /\ (g_length g - 0.001 < inject_Z (Z.of_nat (arcSteps g resolution)) * resolution)%Q.
Proof.
  intros Hr. unfold arcSteps.
  set (x := ((g_length g - 0.001) / resolution)%Q).
  assert (Hx : (x * resolution == g_length g - 0.001)%Q) by (unfold x; field; lra).
  pose proof (Qfloor_le x) as Hlo. pose proof (Qlt_floor x) as Hhi.
  set (f := Qfloor x) in *. split; [lia|]. split.
  - intros j Hj.
    assert (Hjf : (Z.of_nat j <= f)%Z) by lia.
    rewrite Zle_Qle in Hjf. rewrite <- Hx.
    apply Qmult_le_compat_r; lra.
  - rewrite <- Hx. apply Qmult_lt_compat_r; [exact Hr|].
    rewrite Z2Nat.id by lia.
    assert (Hm : (f + 1 <= Z.max 1 (f + 1))%Z) by lia.
    rewrite Zle_Qle in Hm. lra.
Qed.


(** *** The loop of [geomFromPoly] *)

Lemma polyLoop_steps (g : OpenDriveGeometry) (p0 p1 p2 p3 resolution : Q) (n : nat) :
  forall off ret,
    (forall j, (j < n)%nat ->
               (off + inject_Z (Z.of_nat j) * resolution < g_length g + 2)%Q) ->
    (g_length g + 2 <= off + inject_Z (Z.of_nat n) * resolution)%Q ->
    exists pts,
      (forall fuel, (n < fuel)%nat ->
                    polyLoop cos sin fuel g p0 p1 p2 p3 resolution off ret = Some pts)
      /\ (forall fuel, (fuel <= n)%nat ->
                       polyLoop cos sin fuel g p0 p1 p2 p3 resolution off ret = None)
      /\ length pts = (length ret + n)%nat.
Proof.
  induction n as [|n IH]; intros off ret Hbefore Hend.
  - change (inject_Z (Z.of_nat 0)) with 0%Q in Hend.
    assert (Hc : Dbl.ltb off (g_length g + 2) = false) by (apply LaneFacts.ltb_ge; lra).
    exists ret. split; [intros [|fuel] Hf; [lia | cbn [polyLoop]; by rewrite Hc]|].
    split; [intros [|fuel] Hf; [reflexivity | lia] | lia].
  - pose proof (Hbefore 0%nat ltac:(lia)) as H0.
    change (inject_Z (Z.of_nat 0)) with 0%Q in H0.
    assert (Hc : Dbl.ltb off (g_length g + 2) = true) by (apply LaneFacts.ltb_lt; lra).
    destruct (IH (off + resolution)%Q (ret ++ [polyPoint cos sin g p0 p1 p2 p3 off]))
      as (pts & Hgt & Hle & Hlen).
    + intros j Hj. pose proof (Hbefore (S j) ltac:(lia)) as Hj'.
      rewrite nat_Q_succ, Qmult_plus_distr_l in Hj'.
      set (p := (inject_Z (Z.of_nat j) * resolution)%Q) in *. clearbody p. lra.
    + rewrite nat_Q_succ, Qmult_plus_distr_l in Hend.
      set (p := (inject_Z (Z.of_nat n) * resolution)%Q) in *. clearbody p. lra.
    + exists pts.
      split; [intros [|fuel] Hf; [lia | cbn [polyLoop]; rewrite Hc; apply Hgt; lia]|].
      split; [intros [|fuel] Hf; [reflexivity | cbn [polyLoop]; rewrite Hc; apply Hle; lia]|].
      rewrite Hlen, length_app. cbn. lia.
Qed.

Lemma polyLoop_never (g : OpenDriveGeometry) (p0 p1 p2 p3 resolution : Q) :
  (resolution <= 0)%Q -> (-2 < g_length g)%Q ->
  forall fuel off ret, (off <= 0)%Q ->
                       polyLoop cos sin fuel g p0 p1 p2 p3 resolution off ret = None.
Proof.
  intros Hr Hl. induction fuel as [|fuel IH]; intros off ret Hoff; [reflexivity|].
  cbn [polyLoop].
  assert (Hc : Dbl.ltb off (g_length g + 2) = true) by (apply LaneFacts.ltb_lt; lra).
  rewrite Hc. apply IH. lra.
Qed.

Lemma polySteps_spec (g : OpenDriveGeometry) (resolution : Q) :
  (0 < resolution)%Q ->
  (forall j, (j < polySteps g resolution)%nat ->
             (inject_Z (Z.of_nat j) * resolution < g_length g + 2)%Q)
  /\ (g_length g + 2 <= inject_Z (Z.of_nat (polySteps g resolution)) * resolution)%Q.
Proof.
  intros Hr. unfold polySteps, ceil.
  set (x := ((g_length g + 2) / resolution)%Q).
  assert (Hx : (x * resolution == g_length g + 2)%Q) by (unfold x; field; lra).
  pose proof (Qle_ceiling x) as Hhi. pose proof (Qceiling_lt x) as Hlo.
  set (c := Qceiling x) in *. split.
  - intros j Hj.
    assert (Hjc : (Z.of_nat j <= c - 1)%Z) by lia.
    rewrite Zle_Qle in Hjc. rewrite <- Hx.
    apply Qmult_lt_compat_r; [exact Hr | lra].
  - rewrite <- Hx. apply Qmult_le_compat_r; [|lra].
    destruct (Z.le_gt_cases 0 c) as [Hc | Hc].
    + by rewrite Z2Nat.id.
    + assert (Hz : Z.to_nat c = 0%nat) by lia. rewrite Hz.
      assert (Hc0 : (c <= 0)%Z) by lia. rewrite Zle_Qle in Hc0.
      change (inject_Z (Z.of_nat 0)) with 0%Q. change (inject_Z 0) with 0%Q in Hc0. lra.
Qed.


End Trig.



(** The sample arc takes three passes under a resolution of 4 m, at 4 m,
    8 m and the end; the sample polynomial is sampled at 0 m, 4 m and 8 m;
    a line of 10 m under the same resolution gets four vertices. *)
Example sample_counts :
  arcSteps MoreSamples.arcSample 4 = 3%nat
  /\ option_map (@length Position)
                (arcVertices MoreSamples.unitCos MoreSamples.unitSin 3 MoreSamples.arcSample 4)
     = Some 3%nat
  /\ polySteps MoreSamples.polySample 4 = 3%nat
  /\ option_map (@length Position)
                (polyVertices MoreSamples.unitCos MoreSamples.unitSin 4
                              MoreSamples.polySample 4)
     = Some 3%nat
  /\ option_map (@length Position)
                (geomFromLine MoreSamples.unitCos MoreSamples.unitSin
                              (Samples.segment OPENDRIVE_GT_LINE 0 0 10 []) 4)
     = Some 4%nat.
Proof. by vm_compute. Qed.

End CurveFacts.

(** ** Elevation of the vertices *)

Module ElevationFacts.
Import Geometry Curves Elevation.

Section ZData.

Variable computeAt : OpenDriveElevation -> Q -> Q.
Variable distanceTo2D : Position -> Position -> Q.

Local Abbreviation raisedBy := (Elevation.raisedBy computeAt).

Lemma raiseWhile_spec (el : OpenDriveElevation) (sNext : option Q) (rest : list Position) :
  forall pos,
    exists raised remaining posEnd taken,
      raiseWhile computeAt distanceTo2D el sNext rest pos = (raised, remaining, posEnd)
      /\ rest = taken ++ remaining
      /\ Forall2 (raisedBy [el]) taken raised
      /\ (sNext = None -> remaining = []).
Proof.
  induction rest as [|v rest IH]; intros pos; cbn [raiseWhile].
  - exists [], [], pos, []. by repeat split.
  - destruct (before pos sNext) eqn:Hb.
    + set (v' := raise (computeAt el pos) v).
      destruct (IH (match rest with [] => pos | w :: _ => (pos + distanceTo2D v' w)%Q end))
        as (raised & remaining & posEnd & taken & -> & Hrest & Hall & Hlast).
      exists (v' :: raised), remaining, posEnd, (v :: taken).
      split; [reflexivity|]. split; [by rewrite Hrest|]. split; [|exact Hlast].
      constructor; [|exact Hall]. exists el, pos. split; [by left | reflexivity].
    + exists [], (v :: rest), pos, []. split; [reflexivity|]. split; [reflexivity|].
      split; [constructor|]. intros ->. discriminate Hb.
Qed.

Lemma raisedBy_more (els els' : list OpenDriveElevation) (a b : list Position) :
  (forall el, el ∈ els -> el ∈ els') ->
  Forall2 (raisedBy els) a b -> Forall2 (raisedBy els') a b.
Proof.
  intros Hsub Hall. eapply Forall2_impl; [exact Hall|]. intros v v' (el & pos & Hel & Hv).
  exists el, pos. split; [by apply Hsub | exact Hv].
Qed.

Lemma addZData_raises (elevations : list OpenDriveElevation) :
  forall geom pos,
    elevations <> [] ->
    Forall2 (raisedBy elevations) geom (addZData computeAt distanceTo2D elevations geom pos).
Proof.
  induction elevations as [|el later IH]; intros geom pos Hne; [done|].
  cbn [addZData].
  set (sNext := match later with [] => None | next :: _ => Some (el_s next) end).
  destruct (raiseWhile_spec el sNext geom pos)
    as (raised & remaining & posEnd & taken & -> & -> & Hall & Hlast).
  apply Forall2_app.
  - eapply raisedBy_more; [|exact Hall]. intros x Hx. apply list_elem_of_singleton in Hx.
    subst. by left.
  - destruct later as [|next later'].
    + rewrite (Hlast eq_refl). constructor.
    + eapply raisedBy_more; [|apply IH; discriminate]. intros x Hx. by right.
Qed.

(** X23: the loop that adds the elevation leaves a road without elevation
    records as it is; otherwise it raises every vertex exactly once, by the
    value of one of the records, moves none sideways, and keeps their
    number and order. *)
Theorem every_vertex_raised_once (elevations : list OpenDriveElevation)
    (geom : list Position) :
  (elevations = [] -> zData computeAt distanceTo2D elevations geom = geom)
  /\ (elevations <> [] ->
      Forall2 (Elevation.raisedBy computeAt elevations) geom
              (zData computeAt distanceTo2D elevations geom)).
Proof.
  split; [by intros -> | apply addZData_raises].
Qed.

End ZData.

(** Three vertices 8 m apart under two records that start at 0 m and at
    10 m: the first two vertices are raised by the first record, the third
    by the second. *)
Example zData_sample :
  map pz (zData (fun el _ => el_a el) (fun a b => (px b - px a)%Q)
                [MoreSamples.levelAt 0 1; MoreSamples.levelAt 10 5]
                [Position2 0 0; Position2 8 0; Position2 16 0])
  = [(0 + 1)%Q; (0 + 1)%Q; (0 + 5)%Q].
Proof. reflexivity. Qed.

End ElevationFacts.

(** ** Splitting sections where a lane crosses the minimum width *)

Module SplitFacts.
Import Lanes Splits.

Section MinWidth.

Variable computeAt : OpenDriveWidth -> Q -> Q.
Variable POSITION_EPS : Q.
Variables SVC_PEDESTRIAN SVC_BICYCLE : Z.
Variable myMinWidth : Q.

Local Abbreviation refine := (refineSplit computeAt POSITION_EPS myMinWidth).

(** More fuel does not change a result. *)
Lemma refine_more_fuel wd wider sPrev sEnd :
  forall fuel fuel' splitPos r,
    (fuel <= fuel')%nat ->
    refine fuel wd wider sPrev sEnd splitPos = Some r ->
    refine fuel' wd wider sPrev sEnd splitPos = Some r.
Proof.
  induction fuel as [|fuel IH]; intros fuel' splitPos r Hle Hrun; [discriminate|].
  destruct fuel' as [|fuel']; [lia|]. cbn [refineSplit] in *.
  destruct (Dbl.ltb myMinWidth (computeAt wd splitPos)); [|exact Hrun].
  destruct wider.
  - destruct (Dbl.ltb (splitPos - POSITION_EPS) sPrev); [exact Hrun|].
    apply (IH fuel'); [lia | exact Hrun].
  - destruct (Dbl.ltb sEnd (splitPos + POSITION_EPS)); [exact Hrun|].
    apply (IH fuel'); [lia | exact Hrun].
Qed.

Local Abbreviation refined := (Splits.refined computeAt myMinWidth).

Lemma refine_ends_wider wd sPrev sEnd (n : nat) :
  (0 < POSITION_EPS)%Q ->
  forall splitPos,
    (splitPos - sPrev < inject_Z (Z.of_nat n) * POSITION_EPS)%Q ->
    exists r,
      refine (S n) wd true sPrev sEnd splitPos = Some r
      /\ refined wd true sPrev sEnd r
      /\ ((sPrev <= splitPos)%Q -> (sPrev <= r)%Q /\ (r <= splitPos)%Q).
Proof.
  intros Heps. induction n as [|n IH]; intros splitPos Hn; cbn [refineSplit].
  - change (inject_Z (Z.of_nat 0)) with 0%Q in Hn.
    destruct (Dbl.ltb myMinWidth (computeAt wd splitPos)) eqn:Hw.
    + assert (Hlt : Dbl.ltb (splitPos - POSITION_EPS) sPrev = true)
        by (apply LaneFacts.ltb_lt; lra).
      rewrite Hlt. exists sPrev. split; [reflexivity|]. split; [by right | lra].
    + apply LaneFacts.ltb_ge in Hw. exists splitPos. split; [reflexivity|].
      split; [by left | lra].
  - rewrite CurveFacts.nat_Q_succ, Qmult_plus_distr_l in Hn.
    destruct (Dbl.ltb myMinWidth (computeAt wd splitPos)) eqn:Hw.
    + destruct (Dbl.ltb (splitPos - POSITION_EPS) sPrev) eqn:Hlt.
      * apply LaneFacts.ltb_lt in Hlt. exists sPrev. split; [reflexivity|].
        split; [by right | lra].
      * apply LaneFacts.ltb_ge in Hlt.
        destruct (IH (splitPos - POSITION_EPS)%Q) as (r & Hrun & Href & Hin).
        { set (p := (inject_Z (Z.of_nat n) * POSITION_EPS)%Q) in *. clearbody p. lra. }
        exists r. split; [exact Hrun|]. split; [exact Href|].
        intros _. destruct (Hin Hlt). lra.
    + apply LaneFacts.ltb_ge in Hw. exists splitPos. split; [reflexivity|].
      split; [by left | lra].
Qed.

Lemma refine_ends_thinner wd sPrev sEnd (n : nat) :
  (0 < POSITION_EPS)%Q ->
  forall splitPos,
    (sEnd - splitPos < inject_Z (Z.of_nat n) * POSITION_EPS)%Q ->
    exists r,
      refine (S n) wd false sPrev sEnd splitPos = Some r
      /\ refined wd false sPrev sEnd r
      /\ ((splitPos <= sEnd)%Q -> (splitPos <= r)%Q /\ (r <= sEnd)%Q).
Proof.
  intros Heps. induction n as [|n IH]; intros splitPos Hn; cbn [refineSplit].
  - change (inject_Z (Z.of_nat 0)) with 0%Q in Hn.
    destruct (Dbl.ltb myMinWidth (computeAt wd splitPos)) eqn:Hw.
    + assert (Hlt : Dbl.ltb sEnd (splitPos + POSITION_EPS) = true)
        by (apply LaneFacts.ltb_lt; lra).
      rewrite Hlt. exists sEnd. split; [reflexivity|]. split; [by right | lra].
    + apply LaneFacts.ltb_ge in Hw. exists splitPos. split; [reflexivity|].
      split; [by left | lra].
  - rewrite CurveFacts.nat_Q_succ, Qmult_plus_distr_l in Hn.
    destruct (Dbl.ltb myMinWidth (computeAt wd splitPos)) eqn:Hw.
    + destruct (Dbl.ltb sEnd (splitPos + POSITION_EPS)) eqn:Hlt.
      * apply LaneFacts.ltb_lt in Hlt. exists sEnd. split; [reflexivity|].
        split; [by right | lra].
      * apply LaneFacts.ltb_ge in Hlt.
        destruct (IH (splitPos + POSITION_EPS)%Q) as (r & Hrun & Href & Hin).
        { set (p := (inject_Z (Z.of_nat n) * POSITION_EPS)%Q) in *. clearbody p. lra. }
        exists r. split; [exact Hrun|]. split; [exact Href|].
        intros _. destruct (Hin Hlt). lra.
    + apply LaneFacts.ltb_ge in Hw. exists splitPos. split; [reflexivity|].
      split; [by left | lra].
Qed.

(** Every distance is covered by some number of steps. *)
Lemma steps_cover (d : Q) :
  (0 < POSITION_EPS)%Q ->
  exists n : nat, (d < inject_Z (Z.of_nat n) * POSITION_EPS)%Q.
Proof.
  intros Heps. exists (Z.to_nat (Z.max 0 (Qfloor (d / POSITION_EPS) + 1))).
  set (x := (d / POSITION_EPS)%Q).
  assert (Hx : (x * POSITION_EPS == d)%Q) by (unfold x; field; lra).
  pose proof (Qlt_floor x) as Hhi. rewrite Z2Nat.id by lia.
  assert (Hm : (Qfloor x + 1 <= Z.max 0 (Qfloor x + 1))%Z) by lia.
  rewrite Zle_Qle in Hm. rewrite <- Hx. apply Qmult_lt_compat_r; lra.
Qed.

(** The loop ends, whatever the position it starts from. *)
Lemma refine_ends wd wider sPrev sEnd splitPos :
  (0 < POSITION_EPS)%Q ->
  exists fuel r,
    refine fuel wd wider sPrev sEnd splitPos = Some r
    /\ refined wd wider sPrev sEnd r
    /\ ((sPrev <= splitPos)%Q -> (splitPos <= sEnd)%Q -> (sPrev <= r)%Q /\ (r <= sEnd)%Q).
Proof.
  intros Heps. destruct wider.
  - destruct (steps_cover (splitPos - sPrev) Heps) as [n Hn].
    destruct (refine_ends_wider wd sPrev sEnd n Heps splitPos Hn) as (r & Hrun & Href & Hin).
    exists (S n), r. split; [exact Hrun|]. split; [exact Href|].
    intros Hlo Hhi. destruct (Hin Hlo). lra.
  - destruct (steps_cover (sEnd - splitPos) Heps) as [n Hn].
    destruct (refine_ends_thinner wd sPrev sEnd n Heps splitPos Hn) as (r & Hrun & Href & Hin).
    exists (S n), r. split; [exact Hrun|]. split; [exact Href|].
    intros Hlo Hhi. destruct (Hin Hhi). lra.
Qed.

Lemma scaled_within (d A B : Q) :
  (0 <= d)%Q -> (0 <= A)%Q -> (A <= B)%Q -> (0 < B)%Q ->
  (0 <= d / B * A)%Q /\ (d / B * A <= d)%Q.
Proof.
  intros Hd HA HAB HB.
  assert (Hq : (0 <= d / B)%Q) by (apply Qle_shift_div_l; lra).
  split; [by apply Qmult_le_0_compat|].
  assert (Hd' : (d / B * B == d)%Q) by (field; lra).
  rewrite <- Hd' at 2. rewrite !(Qmult_comm (d / B)).
  by apply Qmult_le_compat_r.
Qed.

(** The first estimate of the split lies within the width entry. *)
Lemma estimate_within (sPrev wPrev sEnd w : Q) :
  crosses myMinWidth wPrev w = true -> (sPrev <= sEnd)%Q ->
  (sPrev <= sPrev + (sEnd - sPrev) / Dbl.fabs (w - wPrev) * Dbl.fabs (myMinWidth - wPrev))%Q
  /\ (sPrev + (sEnd - sPrev) / Dbl.fabs (w - wPrev) * Dbl.fabs (myMinWidth - wPrev)
      <= sEnd)%Q.
Proof.
  unfold crosses, Dbl.fabs. intros Hc Hle.
  assert (Hab : (0 <= Qabs (myMinWidth - wPrev))%Q
                /\ (Qabs (myMinWidth - wPrev) <= Qabs (w - wPrev))%Q
                /\ (0 < Qabs (w - wPrev))%Q).
  { apply orb_true_iff in Hc as [Hc | Hc]; apply andb_true_iff in Hc as [H1 H2];
      apply LaneFacts.ltb_lt in H1, H2.
    - rewrite (Qabs_pos (myMinWidth - wPrev)), (Qabs_pos (w - wPrev)) by lra. lra.
    - rewrite (Qabs_neg (myMinWidth - wPrev)), (Qabs_neg (w - wPrev)) by lra. lra. }
  destruct Hab as (HA & HAB & HB).
  destruct (scaled_within (sEnd - sPrev) _ _ ltac:(lra) HA HAB HB) as [Hlo Hhi].
  set (e := ((sEnd - sPrev) / Qabs (w - wPrev) * Qabs (myMinWidth - wPrev))%Q) in *.
  clearbody e. lra.
Qed.

(** X24: the search of [findWidthSplit] for the position where a lane
    crosses the minimum width ends, [POSITION_EPS] being positive.  It ends
    at a position where the lane is no wider than the minimum, or at the
    end of the width entry it was moving to; and for an entry that does not
    end before it starts, within the entry.  No position is pushed for an
    entry over which the width does not cross the minimum. *)
Theorem split_position_found (wd : OpenDriveWidth) (sPrev wPrev sEnd : Q) :
  (0 < POSITION_EPS)%Q ->
  (crosses myMinWidth wPrev (computeAt wd sEnd) = false ->
   forall fuel,
     widthSplit computeAt POSITION_EPS myMinWidth fuel wd sPrev wPrev sEnd = Some None)
  /\ (crosses myMinWidth wPrev (computeAt wd sEnd) = true ->
      exists fuel p,
        (forall fuel', (fuel <= fuel')%nat ->
           widthSplit computeAt POSITION_EPS myMinWidth fuel' wd sPrev wPrev sEnd
           = Some (Some p))
        /\ Splits.refined computeAt myMinWidth wd (Dbl.ltb wPrev myMinWidth) sPrev sEnd p
        /\ ((sPrev <= sEnd)%Q -> (sPrev <= p)%Q /\ (p <= sEnd)%Q)).
Proof.
  intros Heps. unfold widthSplit. split; [by intros ->|].
  intros Hc. rewrite Hc.
  set (splitPos := (sPrev + (sEnd - sPrev) / Dbl.fabs (computeAt wd sEnd - wPrev)
                            * Dbl.fabs (myMinWidth - wPrev))%Q).
  destruct (refine_ends wd (Dbl.ltb wPrev myMinWidth) sPrev sEnd splitPos Heps)
    as (fuel & r & Hrun & Href & Hin).
  exists fuel, r. split; [|split; [exact Href|]].
  - intros fuel' Hle. by rewrite (refine_more_fuel _ _ _ _ _ _ _ _ Hle Hrun).
  - intros Hse. destruct (estimate_within sPrev wPrev sEnd _ Hc Hse) as [Hlo Hhi].
    by apply Hin.
Qed.

(** *** The passes end *)

Lemma settles_more {A : Type} (f : nat -> option A) r n n' :
  (n <= n')%nat -> settles f r n -> settles f r n'.
Proof. intros Hle Hs k Hk. apply Hs. lia. Qed.

Lemma settles_bind {A B : Type} (f : nat -> option A) (g : A -> nat -> option B) r n r' n' :
  settles f r n -> settles (g r) r' n' ->
  settles (fun k => match f k with Some x => g x k | None => None end) r' (Nat.max n n').
Proof.
  intros Hf Hg k Hk. rewrite (Hf k) by lia. apply Hg. lia.
Qed.

Local Abbreviation split1 := (widthSplit computeAt POSITION_EPS myMinWidth).

Lemma widthSplit_settles wd sPrev wPrev sEnd :
  (0 < POSITION_EPS)%Q ->
  exists found fuel, settles (fun k => split1 k wd sPrev wPrev sEnd) found fuel.
Proof.
  intros Heps. unfold widthSplit.
  destruct (crosses myMinWidth wPrev (computeAt wd sEnd)).
  - set (splitPos := (sPrev + (sEnd - sPrev) / Dbl.fabs (computeAt wd sEnd - wPrev)
                              * Dbl.fabs (myMinWidth - wPrev))%Q).
    destruct (refine_ends wd (Dbl.ltb wPrev myMinWidth) sPrev sEnd splitPos Heps)
      as (fuel & r & Hrun & _).
    exists (Some r), fuel. intros k Hk.
    by rewrite (refine_more_fuel _ _ _ _ _ _ _ _ Hk Hrun).
  - by exists None, 0%nat.
Qed.

Lemma laneSplits_settles (widthData : list OpenDriveWidth) sectionStart sectionEnd :
  (0 < POSITION_EPS)%Q ->
  forall sPrev wPrev splitPositions,
    exists out fuel,
      settles (fun k => laneSplits computeAt POSITION_EPS myMinWidth k widthData
                                   sectionStart sectionEnd sPrev wPrev splitPositions)
              out fuel.
Proof.
  intros Heps. induction widthData as [|it_w later IH]; intros sPrev wPrev splitPositions.
  - by exists splitPositions, 0%nat.
  - cbn [laneSplits].
    set (sEnd := match later with next :: _ => w_s next | [] => (sectionEnd - sectionStart)%Q end).
    destruct (widthSplit_settles it_w sPrev wPrev sEnd Heps) as (found & n & Hn).
    destruct (IH sEnd (computeAt it_w sEnd)
                 (match found with
                  | Some splitPos => splitPositions ++ [(sectionStart + splitPos)%Q]
                  | None => splitPositions
                  end)) as (out & n' & Hn').
    exists out, (Nat.max n n').
    exact (settles_bind (fun k => split1 k it_w sPrev wPrev sEnd)
             (fun found k =>
                laneSplits computeAt POSITION_EPS myMinWidth k later sectionStart sectionEnd
                           sEnd (computeAt it_w sEnd)
                           (match found with
                            | Some splitPos => splitPositions ++ [(sectionStart + splitPos)%Q]
                            | None => splitPositions
                            end))
             found n out n' Hn Hn').
Qed.

Local Abbreviation find :=
  (findWidthSplit computeAt POSITION_EPS SVC_PEDESTRIAN SVC_BICYCLE myMinWidth).

Lemma findWidthSplit_settles tc (lanes : list WidthLane) sectionStart sectionEnd :
  (0 < POSITION_EPS)%Q ->
  forall splitPositions,
    exists out fuel,
      settles (fun k => find k tc lanes sectionStart sectionEnd splitPositions) out fuel.
Proof.
  intros Heps. induction lanes as [|l later IH]; intros splitPositions.
  - by exists splitPositions, 0%nat.
  - cbn [findWidthSplit].
    assert (Hlane : exists positions n,
               settles (fun k =>
                          if inspected SVC_PEDESTRIAN SVC_BICYCLE tc l then
                            match wl_widthData l with
                            | [] => Some splitPositions
                            | front :: _ =>
                                laneSplits computeAt POSITION_EPS myMinWidth k (wl_widthData l)
                                           sectionStart sectionEnd (w_s front)
                                           (computeAt front (w_s front)) splitPositions
                            end
                          else Some splitPositions) positions n).
    { destruct (inspected SVC_PEDESTRIAN SVC_BICYCLE tc l); [|by exists splitPositions, 0%nat].
      destruct (wl_widthData l) as [|front more] eqn:Hwd; [by exists splitPositions, 0%nat|].
      rewrite <- Hwd. apply laneSplits_settles. exact Heps. }
    destruct Hlane as (positions & n & Hn).
    destruct (IH positions) as (out & n' & Hn').
    exists out, (Nat.max n n').
    exact (settles_bind _ (fun positions k => find k tc later sectionStart sectionEnd positions)
             positions n out n' Hn Hn').
Qed.

(** *** The splits kept, and the sections cut at them *)

Lemma keepSplits_spec (s sectionEnd minDist : Q) (splitPositions : list Q) :
  forall prevSplit,
    spaced minDist prevSplit (keepSplits s sectionEnd minDist prevSplit splitPositions)
    /\ Forall (fun p => (s <= p)%Q /\ (p + minDist <= sectionEnd)%Q)
              (keepSplits s sectionEnd minDist prevSplit splitPositions).
Proof.
  induction splitPositions as [|it later IH]; intros prevSplit; cbn [keepSplits].
  - split; [exact I | constructor].
  - destruct (Dbl.ltb (it - prevSplit) minDist) eqn:H1; cbn [orb]; [apply IH|].
    destruct (Dbl.ltb (sectionEnd - it) minDist) eqn:H2; [apply IH|].
    destruct (Dbl.ltb it s) eqn:H3; [apply IH|].
    apply LaneFacts.ltb_ge in H1, H2, H3. destruct (IH it) as [Hsp Hall].
    split; [cbn [spaced]; split; [lra | exact Hsp]|].
    constructor; [split; lra | exact Hall].
Qed.

Lemma spaced_above (minDist : Q) (l : list Q) :
  (0 <= minDist)%Q ->
  forall prev, spaced minDist prev l -> Forall (fun x => (prev + minDist <= x)%Q) l.
Proof.
  intros Hm. induction l as [|x l IH]; intros prev Hsp; [constructor|].
  destruct Hsp as [Hx Hsp]. constructor; [exact Hx|].
  eapply List.Forall_impl; [|exact (IH x Hsp)]. intros y Hy. cbn in Hy. lra.
Qed.

Lemma spaced_sorted (minDist : Q) (l : list Q) :
  (0 < minDist)%Q ->
  forall prev, spaced minDist prev l -> StronglySorted Qlt (prev :: l).
Proof.
  intros Hm. induction l as [|x l IH]; intros prev Hsp; [repeat constructor|].
  pose proof (spaced_above minDist (x :: l) ltac:(lra) prev Hsp) as Habove.
  destruct Hsp as [Hx Hsp]. constructor; [by apply IH|].
  eapply List.Forall_impl; [|exact Habove]. intros y Hy. cbn in Hy. lra.
Qed.

Lemma sameLaneBut_refl l : sameLaneBut l l.
Proof. reflexivity. Qed.

Lemma sameWidthLanes_map (f : WidthLane -> WidthLane) (lanes : list WidthLane) :
  (forall l, sameLaneBut l (f l)) -> Forall2 sameLaneBut lanes (map f lanes).
Proof.
  intros Hf. induction lanes as [|l lanes IH]; cbn; constructor; [apply Hf | exact IH].
Qed.

Lemma sameWidthLanes_refl (lanes : list WidthLane) : Forall2 sameLaneBut lanes lanes.
Proof. induction lanes; constructor; [reflexivity | assumption]. Qed.

Local Abbreviation recompute := (recomputeWidths computeAt).

Lemma recomputeLaneWidths_same lanes a b c d :
  Forall2 sameLaneBut lanes (recomputeLaneWidths computeAt lanes a b c d).
Proof.
  apply sameWidthLanes_map. intros l. by destruct (wl_widthData l).
Qed.

Lemma recompute_same sec a b c d : sameSectionBut sec (recompute sec a b c d).
Proof.
  unfold recomputeWidths. split; [reflexivity|]. cbn.
  split; [destruct (0 <? _)%Z; [apply recomputeLaneWidths_same | apply sameWidthLanes_refl]|].
  split; [reflexivity|].
  destruct (0 <? ls_rightLaneNumber _)%Z; [apply recomputeLaneWidths_same | apply sameWidthLanes_refl].
Qed.

Lemma sameWidthLanes_trans (a b c : list WidthLane) :
  Forall2 sameLaneBut a b -> Forall2 sameLaneBut b c -> Forall2 sameLaneBut a c.
Proof.
  intros Hab. revert c. induction Hab as [|x y a b Hxy Hab IH]; intros c Hbc.
  - inversion Hbc. constructor.
  - inversion Hbc as [|? z ? c' Hyz Hbc']; subst. constructor; [|by apply IH].
    unfold sameLaneBut in *. congruence.
Qed.

Lemma sameSectionBut_trans a b c :
  sameSectionBut a b -> sameSectionBut b c -> sameSectionBut a c.
Proof.
  intros (H1 & H2 & H3 & H4) (H1' & H2' & H3' & H4').
  split; [congruence|]. split; [by eapply sameWidthLanes_trans|].
  split; [congruence | by eapply sameWidthLanes_trans].
Qed.

Lemma splitAt_same sec sectionEnd it endp :
  sameSectionBut sec (splitAt computeAt sec sectionEnd it endp)
  /\ ls_s (ws_sec (splitAt computeAt sec sectionEnd it endp)) = it.
Proof.
  unfold splitAt. split; [|reflexivity].
  eapply sameSectionBut_trans; [|apply recompute_same].
  split; [reflexivity|]. cbn.
  split; [destruct (0 <? _)%Z; [by apply sameWidthLanes_map | apply sameWidthLanes_refl]|].
  split; [reflexivity|].
  destruct (0 <? ls_rightLaneNumber _)%Z; [by apply sameWidthLanes_map | apply sameWidthLanes_refl].
Qed.

Lemma splitsAt_spec sec sectionEnd (splitPositions : list Q) :
  starts (splitsAt computeAt sec sectionEnd splitPositions) = splitPositions
  /\ Forall (sameSectionBut sec) (splitsAt computeAt sec sectionEnd splitPositions).
Proof.
  induction splitPositions as [|it later [IHs IHa]]; cbn [splitsAt]; [by split|].
  set (endp := match later with next :: _ => next | [] => sectionEnd end).
  destruct (splitAt_same sec sectionEnd it endp) as [Hsame Hs].
  split; [unfold starts in *; cbn [map]; by rewrite Hs, IHs | by constructor].
Qed.

Local Abbreviation splitSec :=
  (splitSection computeAt POSITION_EPS SVC_PEDESTRIAN SVC_BICYCLE myMinWidth).

(** The sections pushed for one section: the section itself, then the
    copies at the splits kept. *)
Lemma splitSection_spec fuel tc sec sectionEnd minDist out :
  splitSec fuel tc sec sectionEnd minDist = Some out ->
  exists kept,
    starts out = ls_s (ws_sec sec) :: kept
    /\ spaced minDist (ls_s (ws_sec sec)) kept
    /\ Forall (fun p => (ls_s (ws_sec sec) <= p)%Q /\ (p + minDist <= sectionEnd)%Q) kept
    /\ Forall (sameSectionBut sec) out.
Proof.
  unfold splitSection. intros Hrun.
  destruct (if (0 <? ls_rightLaneNumber (ws_sec sec))%Z then _ else _) as [fromRight|];
    [|discriminate].
  destruct (if (0 <? ls_leftLaneNumber (ws_sec sec))%Z then _ else _) as [found|];
    [|discriminate].
  injection Hrun as <-.
  destruct (keepSplits_spec (ls_s (ws_sec sec)) sectionEnd minDist (sortPositions found)
              (ls_s (ws_sec sec))) as [Hsp Hall].
  set (kept := keepSplits _ _ _ _ _) in *. exists kept.
  destruct (splitsAt_spec sec sectionEnd kept) as [Hs Hsame].
  destruct kept as [|front more] eqn:Hk.
  - split; [reflexivity|]. split; [exact I|]. split; [constructor|].
    constructor; [|constructor]. split; [reflexivity|].
    split; [apply sameWidthLanes_refl|]. split; [reflexivity | apply sameWidthLanes_refl].
  - split; [unfold starts in *; cbn [map]; by rewrite Hs|].
    split; [exact Hsp|]. split; [exact Hall|].
    constructor; [apply recompute_same | exact Hsame].
Qed.

Lemma splitSection_settles tc sec sectionEnd minDist :
  (0 < POSITION_EPS)%Q ->
  exists out fuel, settles (fun k => splitSec k tc sec sectionEnd minDist) out fuel.
Proof.
  intros Heps. unfold splitSection.
  assert (Hr : exists fromRight n,
             settles (fun k => if (0 <? ls_rightLaneNumber (ws_sec sec))%Z
                               then find k tc (ws_right sec) (ls_sOrig (ws_sec sec)) sectionEnd []
                               else Some []) fromRight n).
  { destruct (0 <? ls_rightLaneNumber (ws_sec sec))%Z;
      [by apply findWidthSplit_settles | by exists [], 0%nat]. }
  destruct Hr as (fromRight & n & Hn).
  assert (Hl : exists found n',
             settles (fun k => if (0 <? ls_leftLaneNumber (ws_sec sec))%Z
                               then find k tc (ws_left sec) (ls_sOrig (ws_sec sec)) sectionEnd
                                         fromRight
                               else Some fromRight) found n').
  { destruct (0 <? ls_leftLaneNumber (ws_sec sec))%Z;
      [by apply findWidthSplit_settles | by exists fromRight, 0%nat]. }
  destruct Hl as (found & n' & Hn').
  eexists _, (Nat.max n n'). intros k Hk.
  rewrite (Hn k) by lia. rewrite (Hn' k) by lia. reflexivity.
Qed.

Local Abbreviation splitRoad :=
  (splitMinWidths computeAt POSITION_EPS SVC_PEDESTRIAN SVC_BICYCLE myMinWidth).

Lemma splitMinWidths_settles tc (laneSections : list WidthSection) length minDist :
  (0 < POSITION_EPS)%Q ->
  exists out fuel, settles (fun k => splitRoad k tc laneSections length minDist) out fuel.
Proof.
  intros Heps. induction laneSections as [|sec later IH]; [by exists [], 0%nat|].
  cbn [splitMinWidths].
  set (sectionEnd := match later with next :: _ => ls_s (ws_sec next) | [] => length end).
  destruct (splitSection_settles tc sec sectionEnd minDist Heps) as (here & n & Hn).
  destruct IH as (there & n' & Hn').
  exists (here ++ there), (Nat.max n n'). intros k Hk.
  rewrite (Hn k) by lia. rewrite (Hn' k) by lia. reflexivity.
Qed.

Lemma sorted_app (l1 l2 : list Q) :
  StronglySorted Qlt l1 -> StronglySorted Qlt l2 ->
  (forall x y, x ∈ l1 -> y ∈ l2 -> (x < y)%Q) ->
  StronglySorted Qlt (l1 ++ l2).
Proof.
  intros H1 H2 Hx. induction H1 as [|a l1 Hs IH Ha]; [exact H2|]. cbn.
  constructor.
  - apply IH. intros x y Hin Hy. apply Hx; [by right | exact Hy].
  - apply Forall_app. split; [exact Ha|]. apply Forall_forall. intros y Hy.
    apply Hx; [by left | exact Hy].
Qed.

(** The sections after the split start in ascending order when those
    before it do, and none starts before the section it is cut from. *)
Lemma splitMinWidths_sorted fuel tc length minDist :
  (0 < minDist)%Q ->
  forall (laneSections out : list WidthSection),
    StronglySorted Qlt (starts laneSections) ->
    splitRoad fuel tc laneSections length minDist = Some out ->
    StronglySorted Qlt (starts out)
    /\ (forall lb, Forall (fun x => (lb <= x)%Q) (starts laneSections) ->
                   Forall (fun x => (lb <= x)%Q) (starts out))
    /\ Forall (fun o => exists sec, sec ∈ laneSections /\ sameSectionBut sec o) out
    /\ (forall sec, sec ∈ laneSections -> ls_s (ws_sec sec) ∈ starts out).
Proof.
  intros Hm.
  induction laneSections as [|sec later IH]; intros out Hsorted Hrun; cbn [splitMinWidths] in Hrun.
  - injection Hrun as <-. split; [constructor|]. split; [done|]. split; [constructor|].
    intros sec Hsec. by apply elem_of_nil in Hsec.
  - set (sectionEnd := match later with next :: _ => ls_s (ws_sec next) | [] => length end) in *.
    destruct (splitSec fuel tc sec sectionEnd minDist) as [here|] eqn:Hhere; [|discriminate].
    destruct (splitRoad fuel tc later length minDist) as [there|] eqn:Hthere; [|discriminate].
    injection Hrun as <-.
    unfold starts in Hsorted. cbn [map] in Hsorted.
    inversion Hsorted as [|? ? Hlater Hfirst]; subst.
    destruct (IH there Hlater eq_refl) as (Hts & Htlb & Htsame & Htin).
    destruct (splitSection_spec _ _ _ _ _ _ Hhere) as (kept & Hs & Hsp & Hall & Hsame).
    assert (Hstarts : starts (here ++ there) = (ls_s (ws_sec sec) :: kept) ++ starts there).
    { unfold starts in *. by rewrite map_app, Hs. }
    rewrite Hstarts. split; [|split; [|split]].
    + apply sorted_app; [by apply (spaced_sorted minDist) | exact Hts |].
      intros x y Hx Hy.
      destruct later as [|next later']; [cbn in Hthere; injection Hthere as <-;
                                         by apply elem_of_nil in Hy|].
      assert (Hy' : (ls_s (ws_sec next) <= y)%Q).
      { assert (Hlb : Forall (fun x => (ls_s (ws_sec next) <= x)%Q) (starts (next :: later'))).
        { unfold starts. cbn [map]. constructor; [lra|].
          inversion Hlater as [|? ? _ Hn]; subst.
          eapply List.Forall_impl; [|exact Hn]. intros z Hz. cbn in Hz. lra. }
        specialize (Htlb _ Hlb). rewrite Forall_forall in Htlb. by apply Htlb. }
      apply elem_of_cons in Hx as [-> | Hx].
      * inversion Hfirst; subst. lra.
      * rewrite Forall_forall in Hall. destruct (Hall x Hx) as [_ Hend].
        unfold sectionEnd in Hend. lra.
    + intros lb Hlb. unfold starts in Hlb. cbn [map] in Hlb.
      inversion Hlb as [|? ? Hl0 Hl1]; subst.
      apply Forall_app. split; [|by apply Htlb].
      constructor; [exact Hl0|]. eapply List.Forall_impl; [|exact Hall].
      intros p [Hp _]. cbn. lra.
    + apply Forall_app. split.
      * eapply List.Forall_impl; [|exact Hsame]. intros o Ho. exists sec. split; [by left | exact Ho].
      * eapply List.Forall_impl; [|exact Htsame]. intros o (sec' & Hin & Ho).
        exists sec'. split; [by right | exact Ho].
    + intros sec' Hin. apply elem_of_cons in Hin as [-> | Hin].
      * by left.
      * apply elem_of_app. right. by apply Htin.
Qed.

(** X25: [splitMinWidths] ends, [POSITION_EPS] being positive.  Under a
    positive minimum distance, sections that start in ascending order still
    do after the split; every section of the road is still there at its
    start, and every section of the result is one of the road's but for
    its start and the widths and predecessors of its lanes. *)
Theorem split_sections_stay_in_order (tc : NBTypeCont) (laneSections : list WidthSection)
    (length minDist : Q) :
  (0 < POSITION_EPS)%Q ->
  (0 < minDist)%Q ->
  StronglySorted Qlt (starts laneSections) ->
  exists out fuel,
    settles (fun k => splitMinWidths computeAt POSITION_EPS SVC_PEDESTRIAN SVC_BICYCLE
                                     myMinWidth k tc laneSections length minDist) out fuel
    /\ StronglySorted Qlt (starts out)
    /\ Forall (fun o => exists sec, sec ∈ laneSections /\ sameSectionBut sec o) out
    /\ (forall sec, sec ∈ laneSections -> ls_s (ws_sec sec) ∈ starts out).
Proof.
  intros Heps Hm Hsorted.
  destruct (splitMinWidths_settles tc laneSections length minDist Heps) as (out & fuel & Hs).
  exists out, fuel. split; [exact Hs|].
  destruct (splitMinWidths_sorted fuel tc length minDist Hm laneSections out Hsorted
              (Hs fuel (Nat.le_refl fuel))) as (H1 & _ & H3 & H4).
  by repeat split.
Qed.

(** *** The widths taken over a piece of a section *)

Lemma sampleWidth_spec it_w start endp sectionStart sPrev sEnd width :
  (width <= sampleWidth computeAt it_w start endp sectionStart sPrev sEnd width)%Q
  /\ (sampleWidth computeAt it_w start endp sectionStart sPrev sEnd width = width
      \/ exists pos, sampleWidth computeAt it_w start endp sectionStart sPrev sEnd width
                     = computeAt it_w pos).
Proof.
  unfold sampleWidth.
  assert (Hstep : forall (c : bool) (w v : Q),
             (w <= (if c then Dbl.MAX2 w v else w))%Q
             /\ ((if c then Dbl.MAX2 w v else w) = w \/ (if c then Dbl.MAX2 w v else w) = v)).
  { intros c w v. destruct c; [|split; [lra | by left]].
    split; [apply WidthFacts.MAX2_ge_l | apply WidthFacts.MAX2_cases]. }
  set (c1 := Dbl.leb (sPrev + sectionStart) start && Dbl.leb start (sEnd + sectionStart)).
  set (c2 := Dbl.leb (sPrev + sectionStart) endp && Dbl.leb endp (sEnd + sectionStart)).
  set (c3 := Dbl.leb start (sPrev + sectionStart) && Dbl.leb (sPrev + sectionStart) endp).
  set (c4 := Dbl.leb start (sEnd + sectionStart) && Dbl.leb (sEnd + sectionStart) endp).
  cbv zeta.
  set (w1 := if c1 then Dbl.MAX2 width (computeAt it_w (start - sectionStart)) else width).
  set (w2 := if c2 then Dbl.MAX2 w1 (computeAt it_w (endp - sectionStart)) else w1).
  set (w3 := if c3 then Dbl.MAX2 w2 (computeAt it_w sPrev) else w2).
  destruct (Hstep c1 width (computeAt it_w (start - sectionStart))) as [L1 E1].
  destruct (Hstep c2 w1 (computeAt it_w (endp - sectionStart))) as [L2 E2].
  destruct (Hstep c3 w2 (computeAt it_w sPrev)) as [L3 E3].
  destruct (Hstep c4 w3 (computeAt it_w sEnd)) as [L4 E4].
  fold w1 in L1, E1, L2, E2. fold w2 in L2, E2, L3, E3. fold w3 in L3, E3, L4, E4.
  split; [lra|].
  destruct E4 as [-> | ->]; [|right; by eexists].
  destruct E3 as [-> | ->]; [|right; by eexists].
  destruct E2 as [-> | ->]; [|right; by eexists].
  destruct E1 as [-> | ->]; [by left | right; by eexists].
Qed.

Lemma sampleWidths_spec (widthData : list OpenDriveWidth) start endp sectionStart sectionEnd :
  forall sPrev width,
    (width <= sampleWidths computeAt widthData start endp sectionStart sectionEnd sPrev width)%Q
    /\ (sampleWidths computeAt widthData start endp sectionStart sectionEnd sPrev width = width
        \/ exists wd pos,
             wd ∈ widthData
             /\ sampleWidths computeAt widthData start endp sectionStart sectionEnd sPrev width
                = computeAt wd pos).
Proof.
  induction widthData as [|it_w later IH]; intros sPrev width; cbn [sampleWidths].
  - split; [lra | by left].
  - set (sEnd := match later with next :: _ => w_s next | [] => (sectionEnd - sectionStart)%Q end).
    destruct (sampleWidth_spec it_w start endp sectionStart sPrev sEnd width) as [L1 E1].
    destruct (IH sEnd (sampleWidth computeAt it_w start endp sectionStart sPrev sEnd width))
      as [L2 E2].
    split; [lra|].
    destruct E2 as [E2 | (wd & pos & Hwd & E2)].
    + rewrite E2. destruct E1 as [E1 | [pos E1]]; [by left|].
      right. exists it_w, pos. split; [by left | exact E1].
    + right. exists wd, pos. split; [by right | exact E2].
Qed.

(** X26: [recomputeWidths] leaves a lane without width data as it is; a
    lane with width data changes in its width only, which becomes 0 or a
    value of one of its width entries, and is not negative.  The lanes of a side are looked
    at only when the section has lanes imported on that side; the section
    keeps everything else. *)
Theorem recomputed_widths (sec : WidthSection) (start endp sectionStart sectionEnd : Q) :
  ws_sec (recomputeWidths computeAt sec start endp sectionStart sectionEnd) = ws_sec sec
  /\ ws_center (recomputeWidths computeAt sec start endp sectionStart sectionEnd)
     = ws_center sec
  /\ (if (0 <? ls_rightLaneNumber (ws_sec sec))%Z
      then Forall2 (rewidened computeAt) (ws_right sec)
             (ws_right (recomputeWidths computeAt sec start endp sectionStart sectionEnd))
      else ws_right (recomputeWidths computeAt sec start endp sectionStart sectionEnd)
           = ws_right sec)
  /\ (if (0 <? ls_leftLaneNumber (ws_sec sec))%Z
      then Forall2 (rewidened computeAt) (ws_left sec)
             (ws_left (recomputeWidths computeAt sec start endp sectionStart sectionEnd))
      else ws_left (recomputeWidths computeAt sec start endp sectionStart sectionEnd)
           = ws_left sec).
Proof.
  assert (Hlanes : forall lanes,
             Forall2 (rewidened computeAt) lanes
               (recomputeLaneWidths computeAt lanes start endp sectionStart sectionEnd)).
  { induction lanes as [|l lanes IH]; cbn; constructor; [|exact IH].
    destruct (wl_widthData l) as [|front more] eqn:Hwd.
    - split; [done|]. split; [reflexivity|]. intros Hne. by rewrite Hwd in Hne.
    - split; [intros H; by rewrite Hwd in H|]. split; [reflexivity|]. intros _.
      cbn [set_width wl_lane lane_width]. rewrite <- Hwd.
      destruct (sampleWidths_spec (wl_widthData l) start endp sectionStart sectionEnd
                  (w_s front) 0) as [L E].
      split; [exact L|]. destruct E as [E | E]; [by left | by right]. }
  unfold recomputeWidths. cbn [ws_sec ws_center ws_right ws_left].
  split; [reflexivity|]. split; [reflexivity|].
  split; [destruct (0 <? ls_rightLaneNumber (ws_sec sec))%Z; [apply Hlanes | reflexivity]|].
  destruct (0 <? ls_leftLaneNumber (ws_sec sec))%Z; [apply Hlanes | reflexivity].
Qed.

End MinWidth.

Lemma split_position_found_witness :
  (0 < 0.1)%Q
  /\ crosses 2 3 (MoreSamples.linearWidth MoreSamples.taper 10) = true
  /\ exists fuel p,
       (forall fuel', (fuel <= fuel')%nat ->
          widthSplit MoreSamples.linearWidth 0.1 2 fuel' MoreSamples.taper 0 3 10
          = Some (Some p))
       /\ Splits.refined MoreSamples.linearWidth 2 MoreSamples.taper (Dbl.ltb 3 2) 0 10 p
       /\ ((0 <= 10)%Q -> (0 <= p)%Q /\ (p <= 10)%Q).
Proof.
  split; [reflexivity|]. split; [reflexivity|].
  exact (proj2 (split_position_found MoreSamples.linearWidth 0.1 2 MoreSamples.taper 0 3 10
                  eq_refl) eq_refl).
Defined.

(** The sample lane tapers from 3 m to 1 m over 10 m; it crosses the
    minimum of 2 m at 5 m, where the search stops at once. *)
Example taper_split :
  match widthSplit MoreSamples.linearWidth 0.1 2 1 MoreSamples.taper 0 3 10 with
  | Some (Some p) => (p == 5)%Q
  | _ => False
  end.
Proof. by vm_compute. Qed.

Lemma split_sections_stay_in_order_witness :
  (0 < 0.1)%Q /\ (0 < 1)%Q
  /\ StronglySorted Qlt (starts [MoreSamples.taperSection])
  /\ exists out fuel,
       settles (fun k => splitMinWidths MoreSamples.linearWidth 0.1 16 32 2 k
                                        Samples.catalogue [MoreSamples.taperSection] 10 1)
               out fuel
       /\ StronglySorted Qlt (starts out)
       /\ Forall (fun o => exists sec, sec ∈ [MoreSamples.taperSection]
                                       /\ sameSectionBut sec o) out
       /\ (forall sec, sec ∈ [MoreSamples.taperSection] -> ls_s (ws_sec sec) ∈ starts out).
Proof.
  assert (H : StronglySorted Qlt (starts [MoreSamples.taperSection]))
    by (repeat constructor).
  split; [reflexivity|]. split; [reflexivity|]. split; [exact H|].
  exact (split_sections_stay_in_order MoreSamples.linearWidth 0.1 16 32 2 Samples.catalogue
           [MoreSamples.taperSection] 10 1 eq_refl eq_refl H).
Defined.

(** The sample section, whose right lane tapers from 3 m to 1 m over 10 m,
    is cut where the lane reaches the minimum of 2 m; the first piece keeps
    the width 3 m, the second gets 2 m. *)
Example taper_sections :
  match splitMinWidths MoreSamples.linearWidth 0.1 16 32 2 1
                       Samples.catalogue [MoreSamples.taperSection] 10 1 with
  | Some out =>
      Forall2 Qeq (starts out) [0%Q; 5%Q]
      /\ Forall2 (Forall2 Qeq)
                 (map (fun o => map (fun l => lane_width (wl_lane l)) (ws_right o)) out)
                 [[3%Q]; [2%Q]]
  | None => False
  end.
Proof. vm_compute. repeat constructor. Qed.

End SplitFacts.


(** ** Reading the plan view of a road *)

Module PlanFacts.
Import Handler Geometry PlanView.

Lemma shaped_snoc (gs : list OpenDriveGeometry) (g : OpenDriveGeometry) :
  shaped (gs ++ [g]) = (shaped gs + (if isUnknown (g_type g) then 0 else 1))%nat.
Proof.
  unfold shaped. rewrite List.filter_app, length_app. cbn.
  by destruct (isUnknown (g_type g)).
Qed.

Lemma addGeometryShape_spec (id : string) (type : GeometryType) (vals : list Q)
    (geometries : list OpenDriveGeometry) :
  match addGeometryShape id type vals geometries with
  | inl e =>
      (geometries = [] /\ e = MismatchingParanthesis id)
      \/ (exists before back, geometries = before ++ [back]
                              /\ isUnknown (g_type back) = false
                              /\ e = DoubleGeometry id)
  | inr geometries' =>
      exists before back, geometries = before ++ [back]
                          /\ isUnknown (g_type back) = true
                          /\ geometries' = before ++ [set_shape type vals back]
  end.
Proof.
  unfold addGeometryShape.
  destruct (rev geometries) as [|back before] eqn:Hrev.
  - left. split; [|reflexivity].
    apply (f_equal (@rev _)) in Hrev. by rewrite rev_involutive in Hrev.
  - assert (Hg : geometries = rev before ++ [back]).
    { apply (f_equal (@rev _)) in Hrev. by rewrite rev_involutive in Hrev. }
    destruct (isUnknown (g_type back)) eqn:Hu; cbn [negb].
    + by exists (rev before), back.
    + right. by exists (rev before), back.
Qed.

Lemma shape_kept (id : string) (type : GeometryType) (vals : list Q)
    (geometries geometries' : list OpenDriveGeometry) :
  isUnknown type = false ->
  length vals = paramsRead type ->
  (type = OPENDRIVE_GT_PARAMPOLY3 ->
   nth 8 vals 0%Q = 1%Q \/ nth 8 vals 0%Q = inject_Z (-1)) ->
  addGeometryShape id type vals geometries = inr geometries' ->
  Forall fits geometries ->
  Forall fits geometries'
  /\ length geometries' = length geometries
  /\ shaped geometries' = S (shaped geometries).
Proof.
  intros Ht Hlen Hlast Hadd Hall.
  pose proof (addGeometryShape_spec id type vals geometries) as Hspec.
  rewrite Hadd in Hspec. destruct Hspec as (before & back & -> & Hu & ->).
  apply Forall_app in Hall as [Hbefore _].
  split; [|split].
  - apply Forall_app. split; [exact Hbefore|]. constructor; [|constructor].
    intros _. by split.
  - by rewrite !length_app.
  - rewrite !shaped_snoc. cbn [set_shape g_type]. rewrite Hu, Ht. lia.
Qed.

Lemma shape_error (id : string) (type : GeometryType) (vals : list Q)
    (geometries : list OpenDriveGeometry) (e : ShapeError) :
  addGeometryShape id type vals geometries = inl e ->
  e = MismatchingParanthesis id \/ e = DoubleGeometry id.
Proof.
  intros Hadd. pose proof (addGeometryShape_spec id type vals geometries) as Hspec.
  rewrite Hadd in Hspec.
  destruct Hspec as [[_ ->] | (? & ? & _ & _ & ->)]; [by left | by right].
Qed.

Section Constructor.

Variable newGeometry : Q -> Q -> Q -> Q -> Q -> OpenDriveGeometry.
Hypothesis newGeometry_unknown :
  forall length s x y hdg, g_type (newGeometry length s x y hdg) = OPENDRIVE_GT_UNKNOWN.

(** What one element leaves behind. *)
Lemma startPlanElement_spec (id : string) (ev : list OpenDriveXMLTag * PlanElement)
    (geometries : list OpenDriveGeometry) :
  Forall fits geometries ->
  match snd (startPlanElement newGeometry id (fst ev) (snd ev) geometries) with
  | inr geometries' =>
      Forall fits geometries'
      /\ length geometries' = (length geometries + (if opens ev then 1 else 0))%nat
      /\ shaped geometries' = (shaped geometries + (if shapes ev then 1 else 0))%nat
  | inl e => e = MismatchingParanthesis id \/ e = DoubleGeometry id
  end.
Proof.
  intros Hall. destruct ev as [stack el].
  assert (Hshape : forall type vals,
             isUnknown type = false ->
             length vals = paramsRead type ->
             (type = OPENDRIVE_GT_PARAMPOLY3 ->
              nth 8 vals 0%Q = 1%Q \/ nth 8 vals 0%Q = inject_Z (-1)) ->
             match addGeometryShape id type vals geometries with
             | inr geometries' =>
                 Forall fits geometries'
                 /\ length geometries' = (length geometries + 0)%nat
                 /\ shaped geometries' = (shaped geometries + 1)%nat
             | inl e => e = MismatchingParanthesis id \/ e = DoubleGeometry id
             end).
  { intros type vals Ht Hlen Hlast.
    destruct (addGeometryShape id type vals geometries) as [e|geometries'] eqn:Hadd.
    - by apply shape_error in Hadd.
    - destruct (shape_kept id type vals geometries geometries' Ht Hlen Hlast Hadd Hall)
        as (H1 & H2 & H3).
      split; [exact H1|]. split; lia. }
  unfold opens, shapes. cbn [fst snd].
  destruct el as [length s x y hdg | | curvStart curvEnd | curvature | a b c d
                 | aU bU cU dU aV bV cV dV pRange]; cbn [startPlanElement snd].
  - split; [|split].
    + apply Forall_app. split; [exact Hall|]. constructor; [|constructor].
      intros Hk. by rewrite newGeometry_unknown in Hk.
    + by rewrite length_app.
    + rewrite shaped_snoc, newGeometry_unknown. cbn. lia.
  - destruct (insideGeometry stack); cbn [snd].
    + by apply Hshape.
    + split; [exact Hall|]. split; lia.
  - by apply Hshape.
  - by apply Hshape.
  - by apply Hshape.
  - destruct (pRangeValue (default "normalized" pRange) id) as [warnings last] eqn:Hp.
    cbn [snd]. apply Hshape; [reflexivity | reflexivity |]. intros _. cbn [nth].
    unfold pRangeValue in Hp.
    destruct (String.eqb (default "normalized" pRange) "normalized");
      [injection Hp as _ <-; by left|].
    destruct (String.eqb (default "normalized" pRange) "arcLength");
      injection Hp as _ <-; [by right | by left].
Qed.

(** X27: however the elements of a plan view follow one another, the
    segments the handler stores fit the functions that discretise them: a
    segment whose shape is known holds exactly the parameters its function
    reads ([geomFromSpiral] two, [geomFromArc] one, [geomFromPoly] four,
    [geomFromParamPoly] nine, the last being 1 or -1).  Every [geometry]
    element adds one segment and every call of [addGeometryShape] that
    returns gives one more segment its shape, so no segment gets two; a
    [line] element calls it only directly under a [geometry] element, the
    other shape elements wherever they are met.  An error thrown names the
    road being read. *)
Theorem stored_geometries_fit_their_shape (id : string)
    (events : list (list OpenDriveXMLTag * PlanElement))
    (geometries : list OpenDriveGeometry) :
  Forall fits geometries ->
  match snd (startPlanElements newGeometry id events geometries) with
  | inr geometries' =>
      Forall fits geometries'
      /\ length geometries'
         = (length geometries + length (List.filter opens events))%nat
      /\ shaped geometries'
         = (shaped geometries + length (List.filter shapes events))%nat
  | inl e => e = MismatchingParanthesis id \/ e = DoubleGeometry id
  end.
Proof.
  revert geometries. induction events as [|[stack el] later IH]; intros geometries Hall.
  - cbn. split; [exact Hall|]. split; lia.
  - cbn [startPlanElements].
    pose proof (startPlanElement_spec id (stack, el) geometries Hall) as Hstep.
    cbn [fst snd] in Hstep.
    destruct (startPlanElement newGeometry id stack el geometries) as [warnings [e|mid]];
      cbn [snd] in Hstep; [exact Hstep|].
    destruct Hstep as (Hfit & Hlen & Hshaped).
    specialize (IH mid Hfit).
    destruct (startPlanElements newGeometry id later mid) as [warnings' [e|out]];
      cbn [snd] in IH |- *; [exact IH|].
    destruct IH as (H1 & H2 & H3). split; [exact H1|].
    cbn [List.filter]. destruct (opens (stack, el)), (shapes (stack, el)); cbn [length]; lia.
Qed.

End Constructor.

Lemma stored_geometries_fit_their_shape_witness :
  (forall length s x y hdg,
      g_type (MoreSamples.plainGeometry length s x y hdg) = OPENDRIVE_GT_UNKNOWN)
  /\ Forall fits []
  /\ match snd (startPlanElements MoreSamples.plainGeometry "R" MoreSamples.planEvents []) with
     | inr geometries' =>
         Forall fits geometries'
         /\ length geometries'
            = (length (@nil OpenDriveGeometry)
               + length (List.filter opens MoreSamples.planEvents))%nat
         /\ shaped geometries'
            = (shaped [] + length (List.filter shapes MoreSamples.planEvents))%nat
     | inl e => e = MismatchingParanthesis "R" \/ e = DoubleGeometry "R"
     end.
Proof.
  split; [reflexivity|]. split; [constructor|].
  exact (stored_geometries_fit_their_shape MoreSamples.plainGeometry
           (fun _ _ _ _ _ => eq_refl) "R" MoreSamples.planEvents []
           (@List.Forall_nil _ fits)).
Defined.

(** The sample plan view gives a line and an arc; the [line] element under
    a lane gives no shape.  A shape element before any [geometry] element,
    and a second shape under one [geometry] element, are errors. *)
Example plan_view_sample :
  snd (startPlanElements MoreSamples.plainGeometry "R" MoreSamples.planEvents [])
  = inr [set_shape OPENDRIVE_GT_LINE [] (MoreSamples.plainGeometry 10 0 0 0 0);
         set_shape OPENDRIVE_GT_ARC [0.1%Q] (MoreSamples.plainGeometry 5 10 10 0 0)]
  /\ snd (startPlanElements MoreSamples.plainGeometry "R"
            [([OPENDRIVE_TAG_ROAD], ArcElement 0.1)] [])
     = inl (MismatchingParanthesis "R")
  /\ snd (startPlanElements MoreSamples.plainGeometry "R"
            (MoreSamples.planEvents ++ [([OPENDRIVE_TAG_ROAD], SpiralElement 0 0.1)]) [])
     = inl (DoubleGeometry "R").
Proof. by vm_compute. Qed.

End PlanFacts.


(** ** Road objects and their repetition *)

Module ObjectFacts.
Import Objects.

Section Repeat.

Variable NUMERICAL_EPS : Q.
Variable toString : Z -> string.
Variable curveResolution : Q.

Local Abbreviation loop := (repeatLoop NUMERICAL_EPS toString).

Lemma repeatLoop_steps (baseID : string) (dist length wStart wEnd tStart tEnd : Q) (n : nat) :
  ~ (length == 0)%Q ->
  forall x index o objects,
    (forall j, (j < n)%nat ->
               (x + inject_Z (Z.of_nat j) * dist <= length + NUMERICAL_EPS)%Q) ->
    (length + NUMERICAL_EPS < x + inject_Z (Z.of_nat n) * dist)%Q ->
    exists added,
      (forall fuel, (n < fuel)%nat ->
         loop fuel baseID dist length wStart wEnd tStart tEnd x index o objects
         = Some (objects ++ added))
      /\ (forall fuel, (fuel <= n)%nat ->
            loop fuel baseID dist length wStart wEnd tStart tEnd x index o objects = None)
      /\ List.length added = n
      /\ (forall i r, added !! i = Some r ->
            o_id r = (baseID ++ "#" ++ toString (index + Z.of_nat i))%string
            /\ (o_s r == o_s o + inject_Z (Z.of_nat i) * dist)%Q
            /\ o_type r = o_type o /\ o_name r = o_name o
            /\ o_length r = o_length o /\ o_radius r = o_radius o /\ o_hdg r = o_hdg o).
Proof.
  intros Hlen.
  assert (Hz : Dbl.eqb length 0 = false).
  { apply not_true_iff_false. by rewrite WidthFacts.eqb_eq. }
  induction n as [|n IH]; intros x index o objects Hbefore Hend.
  - change (inject_Z (Z.of_nat 0)) with 0%Q in Hend.
    assert (Hc : Dbl.leb x (length + NUMERICAL_EPS) = false) by (apply LaneFacts.leb_gt; lra).
    exists []. rewrite app_nil_r.
    split; [intros [|fuel] Hf; [lia | cbn [repeatLoop]; by rewrite Hc]|].
    split; [intros [|fuel] Hf; [reflexivity | lia]|].
    split; [reflexivity|]. intros i r Hi. by destruct i.
  - pose proof (Hbefore 0%nat ltac:(lia)) as H0.
    change (inject_Z (Z.of_nat 0)) with 0%Q in H0.
    assert (Hc : Dbl.leb x (length + NUMERICAL_EPS) = true) by (apply WidthFacts.leb_le; lra).
    set (o1 := set_width_t (wStart * (1 - x / length) + wEnd * (x / length))%Q
                           (tStart * (1 - x / length) + tEnd * (x / length))%Q
                           (set_id (baseID ++ "#" ++ toString index)%string o)).
    destruct (IH (x + dist)%Q (index + 1)%Z (set_s (o_s o1 + dist)%Q o1) (objects ++ [o1]))
      as (added & Hgt & Hle & Hn & Hfields).
    + intros j Hj. pose proof (Hbefore (S j) ltac:(lia)) as Hj'.
      rewrite CurveFacts.nat_Q_succ, Qmult_plus_distr_l in Hj'.
      set (p := (inject_Z (Z.of_nat j) * dist)%Q) in *. clearbody p. lra.
    + rewrite CurveFacts.nat_Q_succ, Qmult_plus_distr_l in Hend.
      set (p := (inject_Z (Z.of_nat n) * dist)%Q) in *. clearbody p. lra.
    + exists (o1 :: added).
      split; [intros [|fuel] Hf; [lia|]; cbn [repeatLoop]; rewrite Hc, Hz;
              fold o1; rewrite (Hgt fuel ltac:(lia)), <- app_assoc; reflexivity|].
      split; [intros [|fuel] Hf; [reflexivity|]; cbn [repeatLoop]; rewrite Hc, Hz;
              fold o1; apply Hle; lia|].
      split; [cbn; by rewrite Hn|].
      intros [|i] r Hi.
      * injection Hi as <-. rewrite Z.add_0_r. cbn. repeat split; try reflexivity.
        change (inject_Z 0) with 0%Q. ring.
      * destruct (Hfields i r Hi) as (Hid & Hs & Hrest).
        split; [rewrite Hid; do 3 f_equal; lia|].
        split; [|exact Hrest].
        rewrite Hs, CurveFacts.nat_Q_succ. cbn [set_s o_s o1 set_width_t set_id]. ring.
Qed.

Lemma repeatLoop_never (baseID : string) (dist length wStart wEnd tStart tEnd : Q) :
  (dist <= 0)%Q ->
  forall fuel x index o objects,
    (x <= length + NUMERICAL_EPS)%Q ->
    loop fuel baseID dist length wStart wEnd tStart tEnd x index o objects = None.
Proof.
  intros Hd. induction fuel as [|fuel IH]; intros x index o objects Hx; [reflexivity|].
  cbn [repeatLoop].
  assert (Hc : Dbl.leb x (length + NUMERICAL_EPS) = true) by (by apply WidthFacts.leb_le).
  rewrite Hc. destruct (Dbl.eqb length 0); [reflexivity|]. apply IH. lra.
Qed.

Lemma repeatSteps_spec (attrs : RepeatAttrs) :
  (0 < repeatDistance curveResolution attrs)%Q ->
  (forall j, (j < repeatSteps NUMERICAL_EPS curveResolution attrs)%nat ->
             (inject_Z (Z.of_nat j) * repeatDistance curveResolution attrs
              <= ra_length attrs + NUMERICAL_EPS)%Q)
  /\ (ra_length attrs + NUMERICAL_EPS
      < inject_Z (Z.of_nat (repeatSteps NUMERICAL_EPS curveResolution attrs))
        * repeatDistance curveResolution attrs)%Q.
Proof.
  intros Hd. unfold repeatSteps.
  set (dist := repeatDistance curveResolution attrs) in *.
  set (L := (ra_length attrs + NUMERICAL_EPS)%Q).
  destruct (Dbl.ltb L 0) eqn:HL.
  - apply LaneFacts.ltb_lt in HL. split; [intros j Hj; lia|].
    change (inject_Z (Z.of_nat 0)) with 0%Q. lra.
  - apply LaneFacts.ltb_ge in HL.
    set (q := (L / dist)%Q).
    assert (Hq : (q * dist == L)%Q) by (unfold q; field; lra).
    assert (Hq0 : (0 <= q)%Q).
    { apply Qnot_lt_le. intros Hneg.
      assert (q * dist < 0 * dist)%Q by (apply Qmult_lt_compat_r; lra). lra. }
    pose proof (Qfloor_le q) as Hlo. pose proof (Qlt_floor q) as Hhi.
    assert (Hf0 : (0 <= Qfloor q)%Z).
    { change 0%Z with (Qfloor 0). by apply Qfloor_resp_le. }
    set (f := Qfloor q) in *. split.
    + intros j Hj. assert (Hjf : (Z.of_nat j <= f)%Z) by lia.
      rewrite Zle_Qle in Hjf. rewrite <- Hq. apply Qmult_le_compat_r; lra.
    + rewrite <- Hq. apply Qmult_lt_compat_r; [exact Hd|].
      rewrite Z2Nat.id by lia. exact Hhi.
Qed.


End Repeat.


(** The pole repeated every 4 m over 10 m stands at 2, 6 and 10 m. *)
Example repeated_pole :
  match snd (startRepeat 0.001 MoreSamples.showInt 2 4 "R" MoreSamples.everyFour
                         [MoreSamples.pole]) with
  | Some added =>
      map o_id added = ["p#0"; "p#1"; "p#2"]
      /\ Forall2 Qeq (map o_s added) [2%Q; 6%Q; 10%Q]
  | None => False
  end.
Proof. vm_compute. split; [reflexivity | repeat constructor]. Qed.

End ObjectFacts.


(** ** Setting the lane-to-lane connections *)

Module WiringFacts.
Import Ident Lanes Geometry Topology Emitter Wiring.

Lemma longer_differs (c : ascii) (id : string) : String c id <> id.
Proof.
  intros H. apply (f_equal String.length) in H. cbn in H. lia.
Qed.

Lemma longer2_differs (c d : ascii) (id : string) : id <> String c (String d id).
Proof.
  intros H. apply (f_equal String.length) in H. cbn in H. lia.
Qed.

Lemma elem_of_edgeIDs (x id : string) (sec : OpenDriveLaneSection) :
  x ∈ edgeIDs id sec
  <-> (x = ("-" ++ id)%string /\ (0 <? ls_rightLaneNumber sec)%Z = true)
      \/ (x = id /\ (0 <? ls_leftLaneNumber sec)%Z = true).
Proof.
  unfold edgeIDs. rewrite elem_of_app.
  destruct (0 <? ls_rightLaneNumber sec)%Z, (0 <? ls_leftLaneNumber sec)%Z;
    rewrite ?list_elem_of_singleton, ?elem_of_nil; intuition congruence.
Qed.

(** The identifier looked up for a lane lies among those of the edges built
    for the section exactly when it is the one meant. *)
Lemma looked_up_edge (lane : Z) (sec : OpenDriveLaneSection) :
  (if (lane <? 0)%Z then revertID (ls_sumoID sec) else ls_sumoID sec)
    ∈ edgeIDs (ls_sumoID sec) sec
  <-> namesItsEdge lane sec = true.
Proof.
  rewrite elem_of_edgeIDs. unfold namesItsEdge.
  generalize (ls_sumoID sec) as id. intros id.
  generalize (0 <? ls_rightLaneNumber sec)%Z as R. intros R.
  generalize (0 <? ls_leftLaneNumber sec)%Z as L. intros L.
  destruct (lane <? 0)%Z.
  - destruct id as [|c rest]; cbn [revertID beginsWithMinus negb].
    + rewrite andb_true_r. split; [intros [[_ H]|[H _]]; [exact H | discriminate]|].
      intros H. by left.
    + destruct (Ascii.eqb_spec c "-") as [->|Hc]; cbn [negb].
      * rewrite andb_false_r. split; [|discriminate].
        intros [[H _]|[H _]].
        -- by apply longer2_differs in H.
        -- symmetry in H. by apply longer_differs in H.
      * rewrite andb_true_r. split; [|intros H; by left].
        intros [[_ H]|[H _]]; [exact H|]. by apply longer_differs in H.
  - split; [|intros H; by right].
    intros [[H _]|[_ H]]; [|exact H]. symmetry in H. by apply longer_differs in H.
Qed.

Lemma retrieve_id (ec : list NBEdge) (id : string) (e : NBEdge) :
  retrieve ec id = Some e -> nb_id e = id /\ e ∈ ec.
Proof.
  unfold retrieve. intros H. apply List.find_some in H as [Hin Heq].
  apply String.eqb_eq in Heq. split; [exact Heq|]. by apply list_elem_of_In.
Qed.

Section SetConnections.

Variable UNSET_CONNECTION : Z.

(** X29: when the loop over the flattened connections adds a connection,
    both roads are known, neither lane is [UNSET_CONNECTION], nothing is
    reported, and both edges are found in the edge container under the
    identifier looked up.  The lane section is the last one of the first
    road only for a negative lane at its end, and the last one of the
    second road for a positive lane or at its end.  The lanes are those of
    the section's lane map, 0 for a lane the map does not hold.  The
    identifier looked up is that of an edge built for the section exactly
    when, for a negative lane, the section has right lanes and its
    identifier does not begin with a minus sign, and otherwise when it has
    left lanes. *)
Theorem connection_names_built_edge (edges : gmap string OpenDriveEdge) (ec : list NBEdge)
    (c : Connection) (warnings : list WiringWarning) (l2l : Lane2Lane) :
  setConnection UNSET_CONNECTION edges ec c = Some (warnings, Some l2l) ->
  exists odFrom odTo fromSec toSec,
    edges !! c_fromEdge c = Some odFrom
    /\ edges !! c_toEdge c = Some odTo
    /\ sectionFor (atEnd (c_fromCP c) && (c_fromLane c <? 0)%Z) odFrom = Some fromSec
    /\ sectionFor (atEnd (c_toCP c) || (0 <? c_toLane c)%Z) odTo = Some toSec
    /\ warnings = []
    /\ c_fromLane c <> UNSET_CONNECTION /\ c_toLane c <> UNSET_CONNECTION
    /\ (exists from, from ∈ ec /\ nb_id from = l2l_from l2l)
    /\ (exists to, to ∈ ec /\ nb_id to = l2l_to l2l)
    /\ l2l_fromLane l2l = laneMapAt fromSec (c_fromLane c)
    /\ l2l_toLane l2l = laneMapAt toSec (c_toLane c)
    /\ (l2l_from l2l ∈ edgeIDs (ls_sumoID fromSec) fromSec
        <-> namesItsEdge (c_fromLane c) fromSec = true)
    /\ (l2l_to l2l ∈ edgeIDs (ls_sumoID toSec) toSec
        <-> namesItsEdge (c_toLane c) toSec = true).
Proof.
  unfold setConnection. cbv zeta.
  destruct (edges !! c_fromEdge c) as [odFrom|] eqn:Hfrom; [|discriminate].
  destruct (sectionFor (atEnd (c_fromCP c) && (c_fromLane c <? 0)%Z) odFrom)
    as [fromSec|] eqn:HfromSec; [|discriminate].
  destruct (edges !! c_toEdge c) as [odTo|] eqn:Hto; [|discriminate].
  destruct (sectionFor (atEnd (c_toCP c) || (0 <? c_toLane c)%Z) odTo)
    as [toSec|] eqn:HtoSec; [|discriminate].
  destruct (Z.eqb_spec (c_fromLane c) UNSET_CONNECTION) as [|HfromLane]; [discriminate|].
  destruct (Z.eqb_spec (c_toLane c) UNSET_CONNECTION) as [|HtoLane]; [discriminate|].
  destruct (retrieve ec (if (c_fromLane c <? 0)%Z then revertID (ls_sumoID fromSec)
                         else ls_sumoID fromSec)) as [from|] eqn:Hf;
    [|destruct (retrieve ec _); discriminate].
  destruct (retrieve ec (if (c_toLane c <? 0)%Z then revertID (ls_sumoID toSec)
                         else ls_sumoID toSec)) as [to|] eqn:Ht; [|discriminate].
  intros H. injection H as <- <-. cbn [l2l_from l2l_to l2l_fromLane l2l_toLane].
  apply retrieve_id in Hf as [Hfid Hfin]. apply retrieve_id in Ht as [Htid Htin].
  exists odFrom, odTo, fromSec, toSec.
  repeat split; try reflexivity; try assumption.
  - by exists from.
  - by exists to.
  - rewrite Hfid. apply looked_up_edge.
  - rewrite Hfid. apply looked_up_edge.
  - rewrite Htid. apply looked_up_edge.
  - rewrite Htid. apply looked_up_edge.
Qed.

End SetConnections.

Lemma connection_names_built_edge_witness :
  setConnection MoreSamples.unsetLane MoreSamples.namedRoads MoreSamples.builtEdges
                (Samples.laneLink "A" "B")
  = Some ([], Some {| l2l_from := "-A"; l2l_fromLane := 0; l2l_to := "-B"; l2l_toLane := 0;
                      l2l_shape := [] |})
  /\ exists fromSec toSec,
       "-A" ∈ edgeIDs (ls_sumoID fromSec) fromSec /\ "-B" ∈ edgeIDs (ls_sumoID toSec) toSec.
Proof.
  assert (H : setConnection MoreSamples.unsetLane MoreSamples.namedRoads
                MoreSamples.builtEdges (Samples.laneLink "A" "B")
              = Some ([], Some {| l2l_from := "-A"; l2l_fromLane := 0;
                                  l2l_to := "-B"; l2l_toLane := 0; l2l_shape := [] |}))
    by reflexivity.
  split; [exact H|].
  destruct (connection_names_built_edge MoreSamples.unsetLane MoreSamples.namedRoads
              MoreSamples.builtEdges (Samples.laneLink "A" "B") [] _ H)
    as (odFrom & odTo & fromSec & toSec & Hfrom & Hto & HfromSec & HtoSec & _ & _ & _ & _ & _
        & _ & _ & Hf & Ht).
  exists fromSec, toSec.
  assert (HA : MoreSamples.namedRoad "A" = odFrom) by (by injection Hfrom).
  assert (HB : MoreSamples.namedRoad "B" = odTo) by (by injection Hto).
  subst odFrom odTo.
  assert (HsA : fromSec = with_sumoID "A"
                  (Mapping.buildLaneMapping false MoreSamples.walkCatalogue
                     (Samples.sectionAt 0 [] [Samples.drivingLane (-1) [] 3.5])))
    by (by injection HfromSec).
  assert (HsB : toSec = with_sumoID "B"
                  (Mapping.buildLaneMapping false MoreSamples.walkCatalogue
                     (Samples.sectionAt 0 [] [Samples.drivingLane (-1) [] 3.5])))
    by (by injection HtoSec).
  split; [apply Hf | apply Ht]; subst; reflexivity.
Defined.

(** A right lane of the road "-5" is looked up under "5", the left edge of
    another road, and not under "--5", the edge built for it. *)
Example minus_road_names_other_edge :
  option_map (fun r => option_map l2l_from (snd r))
    (setConnection MoreSamples.unsetLane MoreSamples.namedRoads MoreSamples.builtEdges
                   (Samples.laneLink "-5" "B"))
  = Some (Some "5").
Proof. reflexivity. Qed.

End WiringFacts.


(** ** Discretising parametric cubic polynomials *)

Module ParamPolyFacts.
Import Geometry Curves PlanView ParamPoly.

Section Trigonometry.

Variables cos sin : Q -> Q.

Lemma paramPolyLoop_steps (g : OpenDriveGeometry) (u v : Q * Q * Q * Q) (pMax pStep : Q)
    (n : nat) :
  forall p ret,
    (forall j, (j < n)%nat -> (p + inject_Z (Z.of_nat j) * pStep <= pMax + pStep)%Q) ->
    (pMax + pStep < p + inject_Z (Z.of_nat n) * pStep)%Q ->
    exists added,
      (forall fuel, (n < fuel)%nat ->
         paramPolyLoop cos sin fuel g u v pMax pStep p ret = Some (ret ++ added))
      /\ (forall fuel, (fuel <= n)%nat ->
            paramPolyLoop cos sin fuel g u v pMax pStep p ret = None)
      /\ length added = n
      /\ ((0 < n)%nat -> head added = Some (paramPolyPoint cos sin g u v p)).
Proof.
  induction n as [|n IH]; intros p ret Hbefore Hend.
  - change (inject_Z (Z.of_nat 0)) with 0%Q in Hend.
    assert (Hc : Dbl.leb p (pMax + pStep) = false) by (apply LaneFacts.leb_gt; lra).
    exists []. rewrite app_nil_r.
    split; [intros [|fuel] Hf; [lia | cbn [paramPolyLoop]; by rewrite Hc]|].
    split; [intros [|fuel] Hf; [reflexivity | lia]|].
    split; [reflexivity | lia].
  - pose proof (Hbefore 0%nat ltac:(lia)) as H0.
    change (inject_Z (Z.of_nat 0)) with 0%Q in H0.
    assert (Hc : Dbl.leb p (pMax + pStep) = true) by (apply WidthFacts.leb_le; lra).
    destruct (IH (p + pStep)%Q (ret ++ [paramPolyPoint cos sin g u v p]))
      as (added & Hgt & Hle & Hn & _).
    + intros j Hj. pose proof (Hbefore (S j) ltac:(lia)) as Hj'.
      rewrite CurveFacts.nat_Q_succ, Qmult_plus_distr_l in Hj'.
      set (q := (inject_Z (Z.of_nat j) * pStep)%Q) in *. clearbody q. lra.
    + rewrite CurveFacts.nat_Q_succ, Qmult_plus_distr_l in Hend.
      set (q := (inject_Z (Z.of_nat n) * pStep)%Q) in *. clearbody q. lra.
    + exists (paramPolyPoint cos sin g u v p :: added).
      split; [intros [|fuel] Hf; [lia|]; cbn [paramPolyLoop]; rewrite Hc,
              (Hgt fuel ltac:(lia)), <- app_assoc; reflexivity|].
      split; [intros [|fuel] Hf; [reflexivity|]; cbn [paramPolyLoop]; rewrite Hc;
              apply Hle; lia|].
      split; [cbn; by rewrite Hn | reflexivity].
Qed.


End Trigonometry.


(** The sample, 10 m long and sampled every 4 m, is given five vertices, at
    the parameters 0, 10/3, 20/3, 10 and 40/3. *)
Example param_poly_sample :
  paramPolySteps MoreSamples.paramPolySample 4 = 5%nat
  /\ match paramPolyVertices MoreSamples.unitCos MoreSamples.unitSin 6
                             MoreSamples.paramPolySample 4 with
     | Some pts => Forall2 Qeq (map px pts) [0; 10 # 3; 20 # 3; 10; 40 # 3]%Q
     | None => False
     end.
Proof. split; [reflexivity|]. vm_compute. repeat constructor. Qed.

End ParamPolyFacts.
